(** * FretForge: the audio analysis and timing core

    A shallow embedding of the tuner and metronome code of the FretForge
    client, and the properties of it that the specification states.

    - [JS]            the fragment of JavaScript number semantics the code uses
    - [Chords]        client/src/data/chords.js: NOTE_NAMES, STANDARD_TUNING,
                      noteFrequency, frequencyToNote
    - [TuningMeter]   the TuningMeter component (the second file of
                      client/src/components/chords/FretboardDiagram.jsx):
                      tuningStatus
    - [StringDisplay] client/src/components/audio/StringDisplay.jsx:
                      nearestString
    - [Pitch]         the usePitch hook (unnamed/part_006): detectPitch
    - [Tuner]         client/src/pages/TunerPage.jsx: the note smoothing effect
    - [Metronome]     the useMetronome hook (unnamed/part_006): start, stop,
                      scheduler
    - [Gauge]         the TuningMeter component: the needle angle and the
                      status label
    - [StringCard]    client/src/components/audio/StringDisplay.jsx: the
                      matched card and its tuning indicator
    - [ChordLibrary]  client/src/data/chords.js: CHORD_LIBRARY, PROGRESSIONS
    - [FretboardDiagram]
                      client/src/components/chords/FretboardDiagram.jsx: the
                      fret window, the barre and the finger dots
    - [IEEE], [Math]  the doubles: rounding to nearest, ties to even, in
                      binary64 and binary32, the rounded operations, and
                      the engine's [Math.log2], [Math.log10], [Math.pow]
    - [Chords64], [StringDisplay64], [Pitch64], [Metronome64]
                      noteFrequency and frequencyToNote, nearestString,
                      detectPitch and the scheduler of the metronome again,
                      with every operation rounded as the doubles round it

    The modules [ChordsSpec], [TuningMeterSpec], [StringDisplaySpec],
    [PitchSpec], [TunerSpec] and [MetronomeSpec] hold the vocabulary of the
    statements; the modules
    [JSFacts], [ChordsFacts], [TuningMeterFacts], [StringDisplayFacts],
    [PitchFacts], [TunerFacts] and [MetronomeFacts] hold the proofs.  The
    modules after them carry the development further: [NoteFacts] and
    [TuningTableFacts] for chords.js, [GaugeFacts], [StringCardFacts] and
    [FretboardDiagramFacts] for the components, [SearchFacts] and
    [DetectionFacts] for the pitch detector, [DisplayFacts] and
    [NoteKeyFacts] for the tuner page and [SchedulerFacts] for the
    metronome, with their vocabulary in [TuningTableSpec],
    [FretboardDiagramSpec], [SearchSpec], [DisplaySpec] and [SchedulerSpec].
    The last part holds the proofs in double precision: [IEEEFacts],
    [MathFacts], [RoundingFacts], [LogFacts] and [LbFacts] for the numbers,
    [ReadingFacts], [NoteFrequencyFacts], [Chords64Facts] and [Note64Facts]
    for chords.js, [StringDisplay64Facts], [StringCard64Facts] and
    [Gauge64Facts] for the components, [Pitch64Facts] and
    [Detection64Facts] for the pitch detector, [Metronome64Facts] and
    [Scheduler64Facts] for the metronome, with their vocabulary in
    [IEEESpec], [MathSpec], [Chords64Spec], [StringDisplay64Spec],
    [Pitch64Spec] and [Metronome64Spec].

    Numbers.  A JavaScript number is an IEEE-754 double.  The file has two
    models of the finite ones.

    The first, [JS], keeps the special values (NaN and the two infinities)
    and takes the finite values to be real numbers: every finite operation
    is the exact one, with no rounding, and the metronome built on it runs
    over the rationals.  It carries the statements that no rounding can
    touch: the guards and the special values of [frequencyToNote], the
    tuning zones and the gauge on integer cents, the smoothing effect of
    the tuner page on integer milliseconds, the geometry of the diagrams,
    constant frames, whose sums are exact in the doubles too, and the
    timers and contexts of the metronome.

    The second, [IEEE], rounds.  A finite double is the real number it
    holds; [round64] and [round32] round a real to the nearest value of
    the format, ties to even, with gradual underflow and overflow to an
    infinity; a sum, difference, product, quotient or square root is the
    exact one, rounded; a decimal literal is the double nearest to it; a
    store into a [Float32Array] rounds to single precision.  The sign of
    zero is not kept.  ECMAScript leaves the accuracy of [Math.log2],
    [Math.log10] and [Math.pow] to the engine: [Math.Library] is an
    engine's three functions, [MathSpec.accurate] asks of them the values
    ECMAScript fixes and a relative error of at most 2^-40, and
    [MathSpec.correctlyRounded], the engine that rounds the exact value,
    is accurate.  The statements about computed frequencies, cents,
    correlations and beat times are made in this model. *)

From Stdlib Require Import Reals Lqa Lra Lia ZArith List String Bool.
From Stdlib Require Import QArith Qround.
From Stdlib Require Import DecimalString DecimalZ DecimalPos Ascii.
Import ListNotations.

(* ================================================================== *)
(** * JavaScript numbers and values *)
(* ================================================================== *)

Module JS.

Local Open Scope R_scope.

(** A number: NaN, +Infinity, -Infinity, or a finite value. *)
Inductive number : Type :=
| NaN
| PosInf
| NegInf
| Fin (r : R).

(** The values that reach the tuner code: [null], [undefined], a number. *)
Inductive value : Type :=
| Null
| Undefined
| Num (n : number).

(** [ToBoolean]: null, undefined, NaN and 0 are falsy. *)
Definition truthy (v : value) : bool :=
  match v with
  | Null | Undefined => false
  | Num NaN => false
  | Num (Fin r) => if Req_dec_T r 0 then false else true
  | Num _ => true
  end.

(** [ToNumber]: null is 0, undefined is NaN. *)
Definition ToNumber (v : value) : number :=
  match v with
  | Null => Fin 0
  | Undefined => NaN
  | Num n => n
  end.

Definition isFinite (n : number) : bool :=
  match n with Fin _ => true | _ => false end.

(** [a < b]; every comparison with NaN is false. *)
Definition lt (a b : number) : bool :=
  match a, b with
  | NaN, _ | _, NaN => false
  | PosInf, _ => false
  | _, NegInf => false
  | NegInf, _ => true
  | Fin _, PosInf => true
  | Fin x, Fin y => if Rlt_dec x y then true else false
  end.

(** [a <= b]. *)
Definition le (a b : number) : bool :=
  match a, b with
  | NaN, _ | _, NaN => false
  | NegInf, _ => true
  | _, PosInf => true
  | PosInf, _ => false
  | Fin _, NegInf => false
  | Fin x, Fin y => if Rle_dec x y then true else false
  end.

(** [a > b] is [b < a]. *)
Definition gt (a b : number) : bool := lt b a.

Definition neg (a : number) : number :=
  match a with
  | NaN => NaN
  | PosInf => NegInf
  | NegInf => PosInf
  | Fin x => Fin (- x)
  end.

Definition add (a b : number) : number :=
  match a, b with
  | NaN, _ | _, NaN => NaN
  | PosInf, NegInf | NegInf, PosInf => NaN
  | PosInf, _ | _, PosInf => PosInf
  | NegInf, _ | _, NegInf => NegInf
  | Fin x, Fin y => Fin (x + y)
  end.

Definition sub (a b : number) : number := add a (neg b).

(** The sign of an infinite product or quotient with a finite operand. *)
Definition signed_inf (positive : bool) : number :=
  if positive then PosInf else NegInf.

Definition mul (a b : number) : number :=
  match a, b with
  | NaN, _ | _, NaN => NaN
  | PosInf, PosInf | NegInf, NegInf => PosInf
  | PosInf, NegInf | NegInf, PosInf => NegInf
  | PosInf, Fin y | Fin y, PosInf =>
      if Req_dec_T y 0 then NaN else signed_inf (if Rlt_dec 0 y then true else false)
  | NegInf, Fin y | Fin y, NegInf =>
      if Req_dec_T y 0 then NaN else signed_inf (if Rlt_dec 0 y then false else true)
  | Fin x, Fin y => Fin (x * y)
  end.

Definition div (a b : number) : number :=
  match a, b with
  | NaN, _ | _, NaN => NaN
  | (PosInf | NegInf), (PosInf | NegInf) => NaN
  | PosInf, Fin y => signed_inf (if Rle_dec 0 y then true else false)
  | NegInf, Fin y => signed_inf (if Rle_dec 0 y then false else true)
  | Fin _, (PosInf | NegInf) => Fin 0
  | Fin x, Fin y =>
      if Req_dec_T y 0 then
        if Req_dec_T x 0 then NaN
        else signed_inf (if Rlt_dec 0 x then true else false)
      else Fin (x / y)
  end.

Definition abs (a : number) : number :=
  match a with
  | NaN => NaN
  | PosInf | NegInf => PosInf
  | Fin x => Fin (Rabs x)
  end.

(** [Math.floor]. *)
Definition floor (a : number) : number :=
  match a with
  | Fin x => Fin (IZR (Zfloor x))
  | _ => a
  end.

(** [Math.round]: the nearest integer, a half rounding up: floor(x + 1/2). *)
Definition round (a : number) : number :=
  match a with
  | Fin x => Fin (IZR (Zfloor (x + / 2)))
  | _ => a
  end.

(** Truncation toward zero, as the remainder operator uses it. *)
Definition trunc (x : R) : Z :=
  if Rle_dec 0 x then Zfloor x else Zceil x.

(** [a % b]: the remainder has the sign of the dividend. *)
Definition rem (a b : number) : number :=
  match a, b with
  | NaN, _ | _, NaN => NaN
  | (PosInf | NegInf), _ => NaN
  | Fin x, (PosInf | NegInf) => Fin x
  | Fin x, Fin y =>
      if Req_dec_T y 0 then NaN else Fin (x - y * IZR (trunc (x / y)))
  end.

(** The logarithm in base [b] of a number, for [b] = 2 and [b] = 10. *)
Definition log (b : R) (a : number) : number :=
  match a with
  | NaN | NegInf => NaN
  | PosInf => PosInf
  | Fin x =>
      if Rlt_dec 0 x then Fin (ln x / ln b)
      else if Req_dec_T x 0 then NegInf else NaN
  end.

(** [Math.log2] and [Math.log10]. *)
Definition log2 : number -> number := log 2.
Definition log10 : number -> number := log 10.

(** [Math.sqrt]. *)
Definition sqrt (a : number) : number :=
  match a with
  | NaN | NegInf => NaN
  | PosInf => PosInf
  | Fin x => if Rle_dec 0 x then Fin (R_sqrt.sqrt x) else NaN
  end.

(** [Math.pow(2, y)]. *)
Definition pow2 (y : number) : number :=
  match y with
  | NaN => NaN
  | PosInf => PosInf
  | NegInf => Fin 0
  | Fin e => Fin (Rpower 2 e)
  end.

(** [arr[n]] for a number [n]: the element when [n] is an integer index of
    the array, [undefined] ([None]) otherwise. *)
Definition index {A : Type} (arr : list A) (n : number) : option A :=
  match n with
  | Fin x =>
      if Req_dec_T x (IZR (Zfloor x)) then
        if Z_le_dec 0 (Zfloor x) then nth_error arr (Z.to_nat (Zfloor x)) else None
      else None
  | _ => None
  end.

(** [a || b] on numbers read as values: [a] when truthy, else [b]. *)
Definition or_else (a b : number) : number :=
  if truthy (Num a) then a else b.

End JS.

(* ================================================================== *)
(** * client/src/data/chords.js *)
(* ================================================================== *)

Module Chords.
Import JS.
Local Open Scope R_scope.

(** One row of the standard tuning table.  The fields are the source's
    [string], [note], [freq], [name] and [color]. *)
Record TuningEntry : Type := {
  t_string : Z;
  t_note : string;
  t_freq : R;
  t_name : string;
  t_color : string
}.

Definition STANDARD_TUNING : list TuningEntry := [
  {| t_string := 6; t_note := "E"; t_freq := 82.41;  t_name := "Low E";
     t_color := "var(--string-E-low)" |};
  {| t_string := 5; t_note := "A"; t_freq := 110.0;  t_name := "A";
     t_color := "var(--string-A)" |};
  {| t_string := 4; t_note := "D"; t_freq := 146.83; t_name := "D";
     t_color := "var(--string-D)" |};
  {| t_string := 3; t_note := "G"; t_freq := 196.0;  t_name := "G";
     t_color := "var(--string-G)" |};
  {| t_string := 2; t_note := "B"; t_freq := 246.94; t_name := "B";
     t_color := "var(--string-B)" |};
  {| t_string := 1; t_note := "E"; t_freq := 329.63; t_name := "High E";
     t_color := "var(--string-E-high)" |}
]%string.

Definition NOTE_NAMES : list string :=
  ["C"; "C#"; "D"; "D#"; "E"; "F"; "F#"; "G"; "G#"; "A"; "A#"; "B"]%string.

(** [arr.indexOf(x)]: the first position of [x], or -1. *)
Fixpoint indexOf_from (x : string) (arr : list string) (i : Z) : Z :=
  match arr with
  | [] => (-1)%Z
  | y :: rest => if String.eqb y x then i else indexOf_from x rest (i + 1)%Z
  end.

Definition indexOf (x : string) (arr : list string) : Z := indexOf_from x arr 0%Z.

(** The object [frequencyToNote] returns.  [note] is [None] when the array
    lookup yields [undefined]. *)
Record NoteReading : Type := {
  note : option string;
  octave : number;
  cents : number;
  freq : value
}.

(** [frequencyToNote(freq)]; [None] is the [null] result. *)
Definition frequencyToNote (freq : value) : option NoteReading :=
  if negb (truthy freq) || le (ToNumber freq) (Fin 0) then None
  else
    let semitones := mul (Fin 12) (log2 (div (ToNumber freq) (Fin 440))) in
    let roundedSemitones := round semitones in
    let cents := round (mul (sub semitones roundedSemitones) (Fin 100)) in
    let noteIndex :=
      rem (add (add (rem roundedSemitones (Fin 12)) (Fin 12)) (Fin 9)) (Fin 12) in
    let octave := add (floor (div (add roundedSemitones (Fin 9)) (Fin 12))) (Fin 4) in
    Some {| note := index NOTE_NAMES noteIndex;
            octave := octave;
            cents := cents;
            freq := freq |}.

End Chords.

(* ================================================================== *)
(** * The TuningMeter component *)
(* ================================================================== *)

Module TuningMeter.

Local Open Scope Z_scope.

(** The four values of [tuningStatus]: "inactive", "in-tune", "close", "off". *)
Inductive status : Type := inactive | in_tune | close | off.

Definition IN_TUNE_THRESHOLD : Z := 5.
Definition CLOSE_THRESHOLD : Z := 15.

(** The [tuningStatus] memo of the component, from its three props: the cents
    offset, the [isActive] flag and the displayed note ([None] is [null]). *)
Definition tuningStatus (cents : Z) (isActive : bool)
    (note : option Chords.NoteReading) : status :=
  if negb isActive || (match note with None => true | Some _ => false end)
  then inactive
  else
    let absCents := Z.abs cents in
    if absCents <=? IN_TUNE_THRESHOLD then in_tune
    else if absCents <=? CLOSE_THRESHOLD then close
    else off.

End TuningMeter.

(* ================================================================== *)
(** * client/src/components/audio/StringDisplay.jsx *)
(* ================================================================== *)

Module StringDisplay.
Import JS.
Local Open Scope R_scope.

Definition STRING_MATCH_THRESHOLD : R := 200.

(** The object built for the closest string: [{ ...s, index, cents }]. *)
Record Closest : Type := {
  entry : Chords.TuningEntry;
  index : nat;
  cents : number
}.

(** [array.forEach((s, index) => ...)]: the elements with their positions. *)
Definition enumerate {A : Type} (l : list A) : list (A * nat) :=
  combine l (seq 0 (List.length l)).

End StringDisplay.

(* ================================================================== *)
(** * The usePitch hook *)
(* ================================================================== *)

Module Pitch.
Import JS.
Local Open Scope R_scope.

Definition CLARITY_THRESHOLD : R := 0.85.
Definition VOLUME_THRESHOLD : R := -40.

(** The hook's state after one call of [detectPitch]: [detectedNote],
    [detectedFreq] ([None] is [null]) and [clarity]. *)
Record Detection : Type := {
  detectedNote : option Chords.NoteReading;
  detectedFreq : option number;
  clarity : number
}.

(** A frame is the [Float32Array] the analyser fills: finite samples.
    [buffer[i]] for an index inside the frame. *)
Definition sample (buffer : list R) (i : nat) : R := nth i buffer 0.

(** Step 1: the sum of the squares, then [Math.sqrt(rms / bufferLength)]. *)
Definition sumSquares (buffer : list R) : R :=
  fold_left (fun rms x => rms + x * x) buffer 0.

Definition rmsOf (buffer : list R) : number :=
  sqrt (div (Fin (sumSquares buffer)) (Fin (INR (List.length buffer)))).

Definition dbFS (buffer : list R) : number :=
  mul (Fin 20) (log10 (rmsOf buffer)).

(** [audioContext.current?.sampleRate || 44100]: the context's rate, a
    finite number, or 44100 when the context is missing or the rate is 0. *)
Definition sampleRateOf (contextRate : option R) : R :=
  match contextRate with
  | Some r => if Req_dec_T r 0 then 44100 else r
  | None => 44100
  end.

Definition minPeriodOf (sampleRate : R) : Z := Zfloor (sampleRate / 1400).
Definition maxPeriodOf (sampleRate : R) : Z := Zfloor (sampleRate / 70).

(** The integers [lo], [lo+1], ..., below [hi]. *)
Definition zrange (lo hi : Z) : list Z :=
  map (fun k => (lo + Z.of_nat k)%Z) (seq 0 (Z.to_nat (hi - lo))).

(** The lags the outer loop visits:
    [for (lag = minPeriod; lag < maxPeriod && lag < bufferLength; lag++)].
    A visited lag is never negative: with a negative rate the range is
    empty. *)
Definition lags (sampleRate : R) (bufferLength : nat) : list nat :=
  map Z.to_nat
    (zrange (minPeriodOf sampleRate)
            (Z.min (maxPeriodOf sampleRate) (Z.of_nat bufferLength))).

(** One pass of the inner loop body on [correlation], [norm1], [norm2]. *)
Definition accumulate (buffer : list R) (lag : nat) (acc : R * R * R) (i : nat)
  : R * R * R :=
  let '(correlation, norm1, norm2) := acc in
  (correlation + sample buffer i * sample buffer (i + lag),
   norm1 + sample buffer i * sample buffer i,
   norm2 + sample buffer (i + lag) * sample buffer (i + lag)).

(** [for (i = 0; i < bufferLength - lag; i++)]. *)
Definition innerSums (buffer : list R) (lag : nat) : R * R * R :=
  fold_left (accumulate buffer lag) (seq 0 (List.length buffer - lag)) (0, 0, 0).

(** The normalized cross-correlation at one lag; the division is skipped
    when the norm factor is not positive. *)
Definition correlationAt (buffer : list R) (lag : nat) : R :=
  let '(correlation, norm1, norm2) := innerSums buffer lag in
  let normFactor := R_sqrt.sqrt (norm1 * norm2) in
  if Rlt_dec 0 normFactor then correlation / normFactor else correlation.

(** [correlations[lag] = v] on a typed array: a write outside it is ignored. *)
Fixpoint store (arr : list R) (i : nat) (v : R) : list R :=
  match arr, i with
  | [], _ => []
  | _ :: rest, O => v :: rest
  | x :: rest, S j => x :: store rest j v
  end.

(** The variables of the outer loop. *)
Record Search : Type := {
  bestCorrelation : R;
  bestPeriod : nat;
  correlations : list R
}.

Definition searchStart (bufferLength : nat) : Search :=
  {| bestCorrelation := -1; bestPeriod := 0; correlations := repeat 0 bufferLength |}.

(** One pass of the outer loop body. *)
Definition searchStep (buffer : list R) (s : Search) (lag : nat) : Search :=
  let correlation := correlationAt buffer lag in
  let correlations' := store (correlations s) lag correlation in
  if Rlt_dec (bestCorrelation s) correlation
  then {| bestCorrelation := correlation; bestPeriod := lag;
          correlations := correlations' |}
  else {| bestCorrelation := bestCorrelation s; bestPeriod := bestPeriod s;
          correlations := correlations' |}.

Definition search (buffer : list R) (sampleRate : R) : Search :=
  fold_left (searchStep buffer) (lags sampleRate (List.length buffer))
            (searchStart (List.length buffer)).

(** [correlations[k]] for an index inside the array. *)
Definition entryOf (s : Search) (k : nat) : number := Fin (nth k (correlations s) 0).

(** Step 3: parabolic interpolation around the peak. *)
Definition refinedPeriodOf (bufferLength : nat) (s : Search) : number :=
  let bestPeriod := bestPeriod s in
  if (0 <? bestPeriod)%nat && (bestPeriod <? bufferLength - 1)%nat then
    let y0 := or_else (entryOf s (bestPeriod - 1)) (Fin 0) in
    let y1 := entryOf s bestPeriod in
    let y2 := or_else (entryOf s (bestPeriod + 1)) (Fin 0) in
    let shift :=
      div (sub y0 y2) (mul (Fin 2) (add (sub y0 (mul (Fin 2) y1)) y2)) in
    if isFinite shift then add (Fin (INR bestPeriod)) shift
    else Fin (INR bestPeriod)
  else Fin (INR bestPeriod).

(** Step 4: [sampleRate / refinedPeriod]. *)
Definition frequencyOf (buffer : list R) (sampleRate : R) : number :=
  div (Fin sampleRate)
      (refinedPeriodOf (List.length buffer) (search buffer sampleRate)).

(** [detectPitch] on one frame (the analyser is present). *)
Definition detectPitch (buffer : list R) (contextRate : option R) : Detection :=
  if lt (dbFS buffer) (Fin VOLUME_THRESHOLD) then
    {| detectedNote := None; detectedFreq := None; clarity := Fin 0 |}
  else
    let sampleRate := sampleRateOf contextRate in
    let s := search buffer sampleRate in
    let frequency := frequencyOf buffer sampleRate in
    if gt (Fin (bestCorrelation s)) (Fin CLARITY_THRESHOLD)
       && gt frequency (Fin 70) && lt frequency (Fin 1400)
    then {| detectedNote := Chords.frequencyToNote (Num frequency);
            detectedFreq := Some frequency;
            clarity := Fin (bestCorrelation s) |}
    else {| detectedNote := None; detectedFreq := None;
            clarity := Fin (bestCorrelation s) |}.

End Pitch.

(* ================================================================== *)
(** * client/src/pages/TunerPage.jsx: the note smoothing effect *)
(* ================================================================== *)

Module Tuner.

Local Open Scope Z_scope.

(** A detected note as the effect reads it: [note], [octave], [cents]. *)
Record Detected : Type := {
  note : string;
  octave : Z;
  cents : Z
}.

(** The detected frequency is carried to the display untouched. *)
Definition Freq : Type := Q.

(** [`${detectedNote.note}${detectedNote.octave}`]. *)
Definition noteKeyOf (d : Detected) : string :=
  String.append (note d) (NilZero.string_of_int (Z.to_int (octave d))).

(** What a pending [setTimeout] callback does when it fires: the 400 ms
    callback clears the display, the 80 ms callback shows the note it
    captured if the hold buffer still holds its key. *)
Inductive Callback : Type :=
| clearDisplay
| showIfHeld (noteKey : string) (detectedNote : Detected) (detectedFreq : Freq).

(** A pending timeout: the time in milliseconds at which it is due. *)
Record Timeout : Type := {
  due : Z;
  callback : Callback
}.

(** The component's state and refs, and the one timeout the last run of the
    effect may have left. *)
Record State : Type := {
  displayNote : option Detected;
  displayCents : Z;
  displayFreq : option Freq;
  lastNoteTime : Z;
  noteHoldBuffer : option string;
  timeout : option Timeout
}.

Definition initial : State :=
  {| displayNote := None; displayCents := 0; displayFreq := None;
     lastNoteTime := 0; noteHoldBuffer := None; timeout := None |}.

(** [setDisplayNote(d); setDisplayCents(d.cents); setDisplayFreq(f)]. *)
Definition show (d : Detected) (f : Freq) (st : State) : State :=
  {| displayNote := Some d; displayCents := cents d; displayFreq := Some f;
     lastNoteTime := lastNoteTime st; noteHoldBuffer := noteHoldBuffer st;
     timeout := timeout st |}.

(** [setDisplayNote(null); setDisplayCents(0); setDisplayFreq(null)]. *)
Definition clear (st : State) : State :=
  {| displayNote := None; displayCents := 0; displayFreq := None;
     lastNoteTime := lastNoteTime st; noteHoldBuffer := noteHoldBuffer st;
     timeout := timeout st |}.

Definition setTimeout (cb : Callback) (at_ : Z) (st : State) : State :=
  {| displayNote := displayNote st; displayCents := displayCents st;
     displayFreq := displayFreq st; lastNoteTime := lastNoteTime st;
     noteHoldBuffer := noteHoldBuffer st;
     timeout := Some {| due := at_; callback := cb |} |}.

(** The cleanup the previous run of the effect returned: [clearTimeout]. *)
Definition clearTimeout (st : State) : State :=
  {| displayNote := displayNote st; displayCents := displayCents st;
     displayFreq := displayFreq st; lastNoteTime := lastNoteTime st;
     noteHoldBuffer := noteHoldBuffer st; timeout := None |}.

Definition holdNote (noteKey : string) (now : Z) (st : State) : State :=
  {| displayNote := displayNote st; displayCents := displayCents st;
     displayFreq := displayFreq st; lastNoteTime := now;
     noteHoldBuffer := Some noteKey; timeout := timeout st |}.

Definition holds (st : State) (noteKey : string) : bool :=
  match noteHoldBuffer st with
  | Some k => String.eqb k noteKey
  | None => false
  end.

(** A timeout callback runs. *)
Definition run (cb : Callback) (st : State) : State :=
  match cb with
  | clearDisplay => clear st
  | showIfHeld noteKey d f => if holds st noteKey then show d f st else st
  end.

(** Time passes to [now]: a timeout that is due by then fires. *)
Definition advance (now : Z) (st : State) : State :=
  match timeout st with
  | Some t => if due t <=? now then run (callback t) (clearTimeout st) else st
  | None => st
  end.

(** The body of the effect, run at time [now] on the new values of
    [detectedNote] and [detectedFreq] ([None] is no detection). *)
Definition effect (now : Z) (detection : option (Detected * Freq)) (st : State)
  : State :=
  match detection with
  | None => setTimeout clearDisplay (now + 400) st
  | Some (detectedNote, detectedFreq) =>
      let noteKey := noteKeyOf detectedNote in
      if holds st noteKey then show detectedNote detectedFreq st
      else
        setTimeout (showIfHeld noteKey detectedNote detectedFreq) (now + 80)
                   (holdNote noteKey now st)
  end.

(** One change of [detectedNote]/[detectedFreq] at time [now]: what was due
    fires, the previous run's cleanup cancels its timeout, the effect runs. *)
Definition step (st : State) (ev : Z * option (Detected * Freq)) : State :=
  let '(now, detection) := ev in
  effect now detection (clearTimeout (advance now st)).

(** A stream of timestamped detections from the initial state. *)
Definition feed (events : list (Z * option (Detected * Freq))) : State :=
  fold_left step events initial.

End Tuner.

(* ================================================================== *)
(** * The useMetronome hook *)
(* ================================================================== *)

Module Metronome.

Local Open Scope Q_scope.

(** An [AudioContext]: its clock reads 0 when it is created and follows the
    wall clock until the context is closed. *)
Record AudioContext : Type := {
  created : Q;
  closed : option Q
}.

Definition currentTime (ctx : AudioContext) (now : Q) : Q :=
  match closed ctx with
  | Some t => t - created ctx
  | None => now - created ctx
  end.

(** One call of [playClick] that reached the oscillator: the context it
    sounds on, its [time] and [isDownbeat] arguments, and for the statements
    the value [beatRef.current] had at the call. *)
Record Click : Type := {
  onContext : nat;
  time : Q;
  isDownbeat : bool;
  beatIndex : nat
}.

(** The closure [scheduler] of one call of [start]: the context [ctx] it
    captured, [secondsPerBeat], [beatsPerMeasure] and its own variable
    [nextBeatTime]. *)
Record Scheduler : Type := {
  ctx : nat;
  secondsPerBeat : Q;
  beatsPerMeasure : nat;
  nextBeatTime : Q
}.

(** The hook's refs and state, every context created so far, the pending
    [setTimeout(scheduler, 25)] callbacks by timer id, and the clicks.  The
    visual beat indicator ([currentBeat], set from a timeout of its own) is
    left out. *)
Record State : Type := {
  contexts : list AudioContext;
  audioContextRef : option nat;
  timerRef : option nat;
  beatRef : nat;
  isPlaying : bool;
  timers : list (nat * Scheduler);
  nextTimerId : nat;
  clicks : list Click
}.

Definition initial : State :=
  {| contexts := []; audioContextRef := None; timerRef := None; beatRef := 0;
     isPlaying := false; timers := []; nextTimerId := 0; clicks := [] |}.

Definition clockOf (st : State) (c : nat) (now : Q) : Q :=
  match nth_error (contexts st) c with
  | Some a => currentTime a now
  | None => 0
  end.

(** [beatRef.current % beatsPerMeasure === 0]; with no beats per measure
    the remainder is NaN and the test is false. *)
Definition downbeat (beat beatsPerMeasure : nat) : bool :=
  match beatsPerMeasure with
  | O => false
  | _ => (beat mod beatsPerMeasure =? 0)%nat
  end.

(** [playClick(time, isDownbeat)]: nothing without a current context. *)
Definition playClick (time : Q) (isDownbeat : bool) (st : State) : State :=
  match audioContextRef st with
  | None => st
  | Some c =>
      {| contexts := contexts st; audioContextRef := audioContextRef st;
         timerRef := timerRef st; beatRef := beatRef st;
         isPlaying := isPlaying st; timers := timers st;
         nextTimerId := nextTimerId st;
         clicks := clicks st ++
           [{| onContext := c; time := time; isDownbeat := isDownbeat;
               beatIndex := beatRef st |}] |}
  end.

(** [beatRef.current++]. *)
Definition nextBeat (st : State) : State :=
  {| contexts := contexts st; audioContextRef := audioContextRef st;
     timerRef := timerRef st; beatRef := S (beatRef st);
     isPlaying := isPlaying st; timers := timers st;
     nextTimerId := nextTimerId st; clicks := clicks st |}.

Definition later (s : Scheduler) : Scheduler :=
  {| ctx := ctx s; secondsPerBeat := secondsPerBeat s;
     beatsPerMeasure := beatsPerMeasure s;
     nextBeatTime := nextBeatTime s + secondsPerBeat s |}.

(** [while (nextBeatTime < ctx.currentTime + 0.1) { ... }].  The loop runs
    on fuel; [None] is a loop that the fuel did not see end. *)
Fixpoint schedule (fuel : nat) (now : Q) (s : Scheduler) (st : State)
  : option (Scheduler * State) :=
  if Qlt_le_dec (nextBeatTime s) (clockOf st (ctx s) now + (1 # 10)) then
    match fuel with
    | O => None
    | S fuel' =>
        let isDownbeat := downbeat (beatRef st) (beatsPerMeasure s) in
        schedule fuel' now (later s)
                 (nextBeat (playClick (nextBeatTime s) isDownbeat st))
    end
  else Some (s, st).

(** [timerRef.current = setTimeout(scheduler, 25)]. *)
Definition setTimeout (s : Scheduler) (st : State) : State :=
  {| contexts := contexts st; audioContextRef := audioContextRef st;
     timerRef := Some (nextTimerId st); beatRef := beatRef st;
     isPlaying := isPlaying st;
     timers := timers st ++ [(nextTimerId st, s)];
     nextTimerId := S (nextTimerId st); clicks := clicks st |}.

(** One run of the closure [scheduler]. *)
Definition scheduler (fuel : nat) (now : Q) (s : Scheduler) (st : State)
  : option State :=
  match schedule fuel now s st with
  | Some (s', st') => Some (setTimeout s' st')
  | None => None
  end.

(** [start()] at wall time [now], in a render whose state holds [bpm] and
    [beatsPerMeasure].  With [bpm] = 0 the source's [60.0 / bpm] is Infinity,
    which the rationals lack: that call is not embedded ([None]). *)
Definition start (fuel : nat) (now : Q) (bpm : Q) (beatsPerMeasure : nat)
    (st : State) : option State :=
  if Qeq_bool bpm 0 then None
  else
    let c := List.length (contexts st) in
    let st1 :=
      {| contexts := contexts st ++ [{| created := now; closed := None |}];
         audioContextRef := Some c; timerRef := timerRef st; beatRef := 0%nat;
         isPlaying := isPlaying st; timers := timers st;
         nextTimerId := nextTimerId st; clicks := clicks st |} in
    let s := {| ctx := c; secondsPerBeat := 60 / bpm;
                beatsPerMeasure := beatsPerMeasure;
                nextBeatTime := clockOf st1 c now + (1 # 10) |} in
    match scheduler fuel now s st1 with
    | Some st2 =>
        Some {| contexts := contexts st2; audioContextRef := audioContextRef st2;
                timerRef := timerRef st2; beatRef := beatRef st2;
                isPlaying := true; timers := timers st2;
                nextTimerId := nextTimerId st2; clicks := clicks st2 |}
    | None => None
    end.

Definition cancel (id : nat) (ts : list (nat * Scheduler)) : list (nat * Scheduler) :=
  filter (fun t => negb (fst t =? id)%nat) ts.

Definition close (c : nat) (now : Q) (cs : list AudioContext) : list AudioContext :=
  map (fun ia : nat * AudioContext =>
         if (fst ia =? c)%nat
         then {| created := created (snd ia); closed := Some now |}
         else snd ia)
      (combine (seq 0 (List.length cs)) cs).

(** [stop()] at wall time [now]. *)
Definition stop (now : Q) (st : State) : State :=
  {| contexts := match audioContextRef st with
                 | Some c => close c now (contexts st)
                 | None => contexts st
                 end;
     audioContextRef := None;
     timerRef := None;
     beatRef := 0%nat;
     isPlaying := false;
     timers := match timerRef st with
               | Some id => cancel id (timers st)
               | None => timers st
               end;
     nextTimerId := nextTimerId st;
     clicks := clicks st |}.

Definition pendingTimer (id : nat) (st : State) : option Scheduler :=
  match find (fun t => (fst t =? id)%nat) (timers st) with
  | Some t => Some (snd t)
  | None => None
  end.

(** The timeout [id] fires at wall time [now]: its closure runs. *)
Definition fire (fuel : nat) (now : Q) (id : nat) (st : State) : option State :=
  match pendingTimer id st with
  | None => Some st
  | Some s =>
      scheduler fuel now s
        {| contexts := contexts st; audioContextRef := audioContextRef st;
           timerRef := timerRef st; beatRef := beatRef st;
           isPlaying := isPlaying st; timers := cancel id (timers st);
           nextTimerId := nextTimerId st; clicks := clicks st |}
  end.

(** The timeout the hook currently refers to fires at wall time [now]. *)
Definition tick (fuel : nat) (st : option State) (now : Q) : option State :=
  match st with
  | None => None
  | Some st =>
      match timerRef st with
      | Some id => fire fuel now id st
      | None => Some st
      end
  end.

End Metronome.

(** * The TuningMeter component: the needle and the status label *)

Module Gauge.
Import TuningMeter.
Local Open Scope R_scope.

Definition startAngle : R := -120.
Definition endAngle : R := 120.
Definition totalArcDeg : R := endAngle - startAngle.

(** [Math.max(-50, Math.min(50, cents))]. *)
Definition clampedCents (cents : Z) : Z := Z.max (-50) (Z.min 50 cents).

(** The needle angle in degrees from the top of the arc: [isActive && note]
    is truthy when the flag is true and a note object is displayed. *)
Definition needleAngle (cents : Z) (isActive : bool)
    (note : option Chords.NoteReading) : R :=
  if isActive && (match note with Some _ => true | None => false end)
  then startAngle + ((IZR (clampedCents cents) + 50) / 100) * totalArcDeg
  else 0.

(** The [statusLabel] memo. *)
Definition statusLabel (cents : Z) (isActive : bool)
    (note : option Chords.NoteReading) : string :=
  if negb isActive || (match note with None => true | Some _ => false end)
  then "Play a string"
  else
    match tuningStatus cents isActive note with
    | in_tune => "In Tune!"
    | _ => if (cents <? 0)%Z then "Tune Up ↑" else "Tune Down ↓"
    end.

End Gauge.

(** * StringDisplay.jsx: the six string cards *)

Module StringCard.
Import JS StringDisplay.
Local Open Scope R_scope.

(** [nearestString?.index === index]. *)
Definition isMatched (nearestString : option Closest) (index : nat) : bool :=
  match nearestString with
  | Some c => Nat.eqb (StringDisplay.index c) index
  | None => false
  end.

(** The indicator of the card at [index]: the empty string unless the card
    is the matched one, whose [cents] is a number and so never [null]. *)
Definition tuningIndicator (nearestString : option Closest) (index : nat)
    : string :=
  match nearestString with
  | Some c =>
      if Nat.eqb (StringDisplay.index c) index then
        let centsOff := cents c in
        let abs := abs centsOff in
        if le abs (Fin 5) then "✓"
        else if lt centsOff (Fin 0) then "↑"
        else "↓"
      else ""
  | None => ""
  end.

End StringCard.

(** * client/src/data/chords.js: the chord library *)

Module ChordLibrary.

Local Open Scope Z_scope.

(** A chord of the library.  The [tips] text of every entry, and the stray
    [frets] field of the first one, are display data and are left out. *)
Record Chord : Type := {
  name : string;
  short : string;
  type : string;
  tier : Z;
  strings : list Z;
  fingers : list Z;
  barreAt : Z;
  notes : list string
}.

(** The object [CHORD_LIBRARY], as its [Object.entries] in source order. *)
Definition CHORD_LIBRARY : list (string * Chord) := [
  ("Em", {| name := "E minor"; short := "Em"; type := "minor"; tier := 1;
     strings := [0; 2; 2; 0; 0; 0]; fingers := [0; 2; 3; 0; 0; 0]; barreAt := 0;
     notes := ["E"; "B"; "E"; "G"; "B"; "E"] |});
  ("Am", {| name := "A minor"; short := "Am"; type := "minor"; tier := 1;
     strings := [(-1); 0; 2; 2; 1; 0]; fingers := [0; 0; 2; 3; 1; 0]; barreAt := 0;
     notes := ["X"; "A"; "E"; "A"; "C"; "E"] |});
  ("E", {| name := "E major"; short := "E"; type := "major"; tier := 2;
     strings := [0; 2; 2; 1; 0; 0]; fingers := [0; 2; 3; 1; 0; 0]; barreAt := 0;
     notes := ["E"; "B"; "E"; "G#"; "B"; "E"] |});
  ("A", {| name := "A major"; short := "A"; type := "major"; tier := 2;
     strings := [(-1); 0; 2; 2; 2; 0]; fingers := [0; 0; 1; 2; 3; 0]; barreAt := 0;
     notes := ["X"; "A"; "E"; "A"; "C#"; "E"] |});
  ("D", {| name := "D major"; short := "D"; type := "major"; tier := 2;
     strings := [(-1); (-1); 0; 2; 3; 2]; fingers := [0; 0; 0; 1; 3; 2]; barreAt := 0;
     notes := ["X"; "X"; "D"; "A"; "D"; "F#"] |});
  ("G", {| name := "G major"; short := "G"; type := "major"; tier := 2;
     strings := [3; 2; 0; 0; 0; 3]; fingers := [2; 1; 0; 0; 0; 3]; barreAt := 0;
     notes := ["G"; "B"; "D"; "G"; "B"; "G"] |});
  ("C", {| name := "C major"; short := "C"; type := "major"; tier := 2;
     strings := [(-1); 3; 2; 0; 1; 0]; fingers := [0; 3; 2; 0; 1; 0]; barreAt := 0;
     notes := ["X"; "C"; "E"; "G"; "C"; "E"] |});
  ("Dm", {| name := "D minor"; short := "Dm"; type := "minor"; tier := 3;
     strings := [(-1); (-1); 0; 2; 3; 1]; fingers := [0; 0; 0; 2; 3; 1]; barreAt := 0;
     notes := ["X"; "X"; "D"; "A"; "D"; "F"] |});
  ("E7", {| name := "E dominant 7"; short := "E7"; type := "dominant7"; tier := 3;
     strings := [0; 2; 0; 1; 0; 0]; fingers := [0; 2; 0; 1; 0; 0]; barreAt := 0;
     notes := ["E"; "B"; "D"; "G#"; "B"; "E"] |});
  ("A7", {| name := "A dominant 7"; short := "A7"; type := "dominant7"; tier := 3;
     strings := [(-1); 0; 2; 0; 2; 0]; fingers := [0; 0; 2; 0; 3; 0]; barreAt := 0;
     notes := ["X"; "A"; "E"; "G"; "C#"; "E"] |});
  ("D7", {| name := "D dominant 7"; short := "D7"; type := "dominant7"; tier := 3;
     strings := [(-1); (-1); 0; 2; 1; 2]; fingers := [0; 0; 0; 2; 1; 3]; barreAt := 0;
     notes := ["X"; "X"; "D"; "A"; "C"; "F#"] |});
  ("Am7", {| name := "A minor 7"; short := "Am7"; type := "minor7"; tier := 3;
     strings := [(-1); 0; 2; 0; 1; 0]; fingers := [0; 0; 2; 0; 1; 0]; barreAt := 0;
     notes := ["X"; "A"; "E"; "G"; "C"; "E"] |});
  ("Em7", {| name := "E minor 7"; short := "Em7"; type := "minor7"; tier := 3;
     strings := [0; 2; 0; 0; 0; 0]; fingers := [0; 2; 0; 0; 0; 0]; barreAt := 0;
     notes := ["E"; "B"; "D"; "G"; "B"; "E"] |});
  ("F", {| name := "F major (barre)"; short := "F"; type := "major"; tier := 4;
     strings := [1; 3; 3; 2; 1; 1]; fingers := [1; 3; 4; 2; 1; 1]; barreAt := 1;
     notes := ["F"; "C"; "F"; "A"; "C"; "F"] |});
  ("Bm", {| name := "B minor (barre)"; short := "Bm"; type := "minor"; tier := 4;
     strings := [(-1); 2; 4; 4; 3; 2]; fingers := [0; 1; 3; 4; 2; 1]; barreAt := 2;
     notes := ["X"; "B"; "F#"; "B"; "D"; "F#"] |});
  ("E5", {| name := "E power chord"; short := "E5"; type := "power"; tier := 4;
     strings := [0; 2; 2; (-1); (-1); (-1)]; fingers := [0; 1; 2; 0; 0; 0]; barreAt := 0;
     notes := ["E"; "B"; "E"; "X"; "X"; "X"] |});
  ("A5", {| name := "A power chord"; short := "A5"; type := "power"; tier := 4;
     strings := [(-1); 0; 2; 2; (-1); (-1)]; fingers := [0; 0; 1; 2; 0; 0]; barreAt := 0;
     notes := ["X"; "A"; "E"; "A"; "X"; "X"] |});
  ("G5", {| name := "G power chord"; short := "G5"; type := "power"; tier := 4;
     strings := [3; 5; 5; (-1); (-1); (-1)]; fingers := [1; 3; 4; 0; 0; 0]; barreAt := 0;
     notes := ["G"; "D"; "G"; "X"; "X"; "X"] |})
]%string.

(** One progression; its [description] is left out. *)
Record Progression : Type := {
  p_name : string;
  chords : list string
}.

(** The object [PROGRESSIONS], as its [Object.entries]. *)
Definition PROGRESSIONS : list (string * list Progression) := [
  ("beginner", [
     {| p_name := "Two-Chord Wonder"; chords := ["Em"; "Am"] |};
     {| p_name := "Classic Three"; chords := ["G"; "C"; "D"] |};
     {| p_name := "Campfire Song"; chords := ["G"; "Em"; "C"; "D"] |};
     {| p_name := "12-Bar Blues in A"; chords := ["A"; "A"; "A"; "A"; "D"; "D"; "A"; "A"; "E"; "D"; "A"; "E"] |};
     {| p_name := "Am Ballad"; chords := ["Am"; "G"; "C"; "Em"] |};
     {| p_name := "Horse Ride"; chords := ["Em"; "D"] |}]);
  ("intermediate", [
     {| p_name := "Pop Anthem"; chords := ["C"; "G"; "Am"; "F"] |};
     {| p_name := "Blues Shuffle"; chords := ["E7"; "A7"; "E7"; "E7"; "A7"; "A7"; "E7"; "E7"; "D7"; "A7"; "E7"; "D7"] |};
     {| p_name := "Minor Drama"; chords := ["Am"; "Dm"; "E"; "Am"] |};
     {| p_name := "Jazz Lite"; chords := ["Am7"; "Dm"; "G"; "C"] |};
     {| p_name := "Rock Anthem"; chords := ["E5"; "G5"; "A5"; "E5"] |}]);
  ("advanced", [
     {| p_name := "Barre Workout"; chords := ["F"; "Bm"; "G"; "Am"] |};
     {| p_name := "Jazz Standard"; chords := ["Am7"; "D7"; "G"; "C"; "F"; "Bm"; "E7"; "Am"] |}])
]%string.

(** [CHORD_LIBRARY[key]]: [None] is [undefined]. *)
Definition chordAt (key : string) : option Chord :=
  option_map snd (find (fun kc => String.eqb (fst kc) key) CHORD_LIBRARY).

End ChordLibrary.

(** * client/src/components/chords/FretboardDiagram.jsx *)

Module FretboardDiagram.
Import ChordLibrary.

Local Open Scope Z_scope.

(** [strings.filter((f) => f > 0)]. *)
Definition playedFrets (chord : Chord) : list Z :=
  filter (fun f => 0 <? f) (strings chord).

Definition minFret (chord : Chord) : Z :=
  match playedFrets chord with
  | [] => 1
  | f :: fs => fold_left Z.min fs f
  end.

Definition maxFret (chord : Chord) : Z :=
  match playedFrets chord with
  | [] => 3
  | f :: fs => fold_left Z.max fs f
  end.

(** The test that offsets the window: a chord above the fourth fret, or a
    barre chord away from the first fret. *)
Definition higherPosition (chord : Chord) : bool :=
  (4 <? maxFret chord) || ((0 <? barreAt chord) && (1 <? minFret chord)).

Definition startFret (chord : Chord) : Z :=
  if higherPosition chord then minFret chord else 1.

Definition showNut (chord : Chord) : bool := negb (higherPosition chord).

Definition fretsToShow : Z := 4.

Definition endFret (chord : Chord) : Z := startFret chord + fretsToShow.

(** The strings under the barre: positions 0 to 5 whose fret is the barre
    fret and whose finger is 1; a position past the end of an array reads
    [undefined], which equals no number. *)
Definition barreStrings (chord : Chord) : list nat :=
  if barreAt chord =? 0 then []
  else
    filter
      (fun i =>
         match nth_error (strings chord) i, nth_error (fingers chord) i with
         | Some s, Some g => (s =? barreAt chord) && (g =? 1)
         | _, _ => false
         end)
      (seq 0 6).

(** [barreAt > 0 && barreStrings.length >= 2]. *)
Definition barreDrawn (chord : Chord) : bool :=
  (0 <? barreAt chord) && (2 <=? Z.of_nat (List.length (barreStrings chord))).

(** [barreAt > 0 && fret === barreAt && fingers[i] === 1]. *)
Definition isBarreString (chord : Chord) (fret : Z) (i : nat) : bool :=
  (0 <? barreAt chord) && (fret =? barreAt chord) &&
  match nth_error (fingers chord) i with
  | Some g => g =? 1
  | None => false
  end.

(** The marker above the nut: a circle for an open string, a cross for a
    muted one. *)
Inductive Marker : Type := openString | mutedString.

Definition marker (fret : Z) : option Marker :=
  if fret =? 0 then Some openString
  else if fret =? -1 then Some mutedString
  else None.

Local Open Scope R_scope.

(** ** The layout, from the [width] and [compact] props *)

Definition paddingTop (compact : bool) : R := if compact then 24 else 30.
Definition paddingBottom (compact : bool) : R := if compact then 10 else 14.
Definition paddingLeft : R := 20.
Definition paddingRight : R := 20.
Definition totalHeight (compact : bool) : R := if compact then 130 else 180.

Definition diagramWidth (width : R) : R := width - paddingLeft - paddingRight.
Definition diagramHeight (compact : bool) : R :=
  totalHeight compact - paddingTop compact - paddingBottom compact.
Definition stringSpacing (width : R) : R := diagramWidth width / 5.
Definition fretSpacing (compact : bool) : R :=
  diagramHeight compact / IZR fretsToShow.

Definition stringX (width : R) (i : nat) : R :=
  paddingLeft + INR i * stringSpacing width.

Definition fretY (chord : Chord) (compact : bool) (fret : Z) : R :=
  let relFret := (fret - startFret chord)%Z in
  paddingTop compact + (IZR relFret + 0.5) * fretSpacing compact.

Definition fretWireY (compact : bool) (fretIndex : Z) : R :=
  paddingTop compact + IZR fretIndex * fretSpacing compact.

Definition dotRadius (compact : bool) : R := if compact then 7 else 9.

(** ** The barre bar *)

Record Rect : Type := {
  x : R;
  y : R;
  rectWidth : R;
  rectHeight : R
}.

(** [Math.min(...l)] and [Math.max(...l)] of a list of positions that is
    not empty. *)
Definition firstOf (l : list nat) : nat :=
  match l with
  | [] => 0%nat
  | i :: rest => fold_left Nat.min rest i
  end.

Definition lastOf (l : list nat) : nat :=
  match l with
  | [] => 0%nat
  | i :: rest => fold_left Nat.max rest i
  end.

Definition barre (chord : Chord) (width : R) (compact : bool) : option Rect :=
  if barreDrawn chord then
    let firstStr := firstOf (barreStrings chord) in
    let lastStr := lastOf (barreStrings chord) in
    let y := fretY chord compact (barreAt chord) in
    let x1 := stringX width firstStr in
    let x2 := stringX width lastStr in
    Some {| x := x1 - dotRadius compact;
            y := y - dotRadius compact * 0.6;
            rectWidth := x2 - x1 + dotRadius compact * 2;
            rectHeight := dotRadius compact * 1.2 |}
  else None.

(** ** The finger dots *)

(** A dot: its centre, its radius and the finger number written on it. *)
Record Dot : Type := {
  cx : R;
  cy : R;
  radius : R;
  fingerLabel : option Z
}.

(** The callback of [strings.map((fret, i) => ...)]: [None] is [null]. *)
Definition dot (chord : Chord) (width : R) (compact showFingers : bool)
    (fret : Z) (i : nat) : option Dot :=
  if (fret <=? 0)%Z then None
  else if (fret <? startFret chord)%Z || (endFret chord <=? fret)%Z then None
  else if isBarreString chord fret i &&
          (2 <=? Z.of_nat (List.length (barreStrings chord)))%Z then None
  else
    Some {| cx := stringX width i;
            cy := fretY chord compact fret;
            radius := dotRadius compact;
            fingerLabel :=
              match nth_error (fingers chord) i with
              | Some g =>
                  if showFingers && (0 <? g)%Z && negb (isBarreString chord fret i)
                  then Some g else None
              | None => None
              end |}.

End FretboardDiagram.

(* ================================================================== *)
(** * The same code in double precision *)
(* ================================================================== *)

(* ================================================================== *)
(** * Double precision: the rounding of IEEE-754 *)
(* ================================================================== *)

Module IEEE.
Import JS.
Local Open Scope R_scope.

(** The power of two [2^e]. *)
Definition bpow (e : Z) : R := powerRZ 2 e.

(** The binade of a value other than zero: the exponent [e] with
    [2^e <= |x| < 2^(e+1)]. *)
Definition binade (x : R) : Z := Zfloor (ln (Rabs x) / ln 2).

(** The nearest integer, a tie going to the even one. *)
Definition nearestEven (t : R) : Z :=
  let f := Zfloor t in
  if Rlt_dec (t - IZR f) (/ 2) then f
  else if Rlt_dec (/ 2) (t - IZR f) then (f + 1)%Z
  else if Z.even f then f else (f + 1)%Z.

(** A binary format: the bits of its significand, the exponent of its
    least positive value, and the exponent of the power of two at which it
    overflows. *)
Record format : Type := {
  precision : Z;
  emin : Z;
  emax : Z
}.

(** The numbers of JavaScript, and the elements of a [Float32Array]. *)
Definition binary64 : format := {| precision := 53; emin := -1074; emax := 1024 |}.
Definition binary32 : format := {| precision := 24; emin := -149; emax := 128 |}.

(** The exponent of the last place of the values around [x]. *)
Definition quantum (fmt : format) (x : R) : Z :=
  Z.max (binade x - (precision fmt - 1)) (emin fmt).

(** Rounding to nearest, ties to even: the multiple of the quantum nearest
    to [x], and an infinity once that multiple reaches [2^emax]. *)
Definition roundTo (fmt : format) (x : R) : number :=
  if Req_dec_T x 0 then Fin 0
  else
    let q := quantum fmt x in
    let y := IZR (nearestEven (x / bpow q)) * bpow q in
    if Rle_dec (bpow (emax fmt)) (Rabs y)
    then (if Rlt_dec 0 x then PosInf else NegInf)
    else Fin y.

Definition round64 : R -> number := roundTo binary64.
Definition round32 : R -> number := roundTo binary32.

(** The result of an operation: the exact result, rounded when finite. *)
Definition rounded (n : number) : number :=
  match n with
  | Fin x => round64 x
  | _ => n
  end.

(** A decimal literal of the source is the double nearest to it. *)
Definition literal (x : R) : number := round64 x.

(** [a + b], [a - b], [a * b], [a / b] and [Math.sqrt(a)] on doubles. *)
Definition add (a b : number) : number := rounded (JS.add a b).
Definition sub (a b : number) : number := rounded (JS.sub a b).
Definition mul (a b : number) : number := rounded (JS.mul a b).
Definition div (a b : number) : number := rounded (JS.div a b).
Definition sqrt (a : number) : number := rounded (JS.sqrt a).

(** A store into a [Float32Array]: the double is rounded to single
    precision. *)
Definition toFloat32 (n : number) : number :=
  match n with
  | Fin x => round32 x
  | _ => n
  end.

End IEEE.

(** * The functions of [Math] whose precision the language leaves open *)

Module Math.
Import JS.

(** [Math.log2], [Math.log10] and [Math.pow(2, y)] as an engine provides
    them. *)
Record Library : Type := {
  log2 : number -> number;
  log10 : number -> number;
  pow2 : number -> number
}.

End Math.

(** * client/src/data/chords.js in double precision *)

Module Chords64.
Import JS IEEE Chords.
Local Open Scope R_scope.

Section Engine.

(** The engine's [Math]. *)
Variable M : Math.Library.

(** [noteFrequency(noteName, octave)], for an integer octave, every
    operation rounded as the doubles round it. *)
Definition noteFrequency (noteName : string) (octave : Z) : value :=
  let noteIndex := indexOf noteName NOTE_NAMES in
  if (noteIndex =? -1)%Z then Null
  else
    let semitonesFromA4 :=
      add (mul (sub (Fin (IZR octave)) (Fin 4)) (Fin 12))
          (sub (Fin (IZR noteIndex)) (Fin 9)) in
    Num (mul (Fin 440) (Math.pow2 M (div semitonesFromA4 (Fin 12)))).

(** [12 * Math.log2(freq / 440)]. *)
Definition semitonesOf (freq : number) : number :=
  mul (Fin 12) (Math.log2 M (div freq (Fin 440))).

(** [frequencyToNote(freq)]; [None] is the [null] result. *)
Definition frequencyToNote (freq : value) : option NoteReading :=
  if negb (truthy freq) || le (ToNumber freq) (Fin 0) then None
  else
    let semitones := semitonesOf (ToNumber freq) in
    let roundedSemitones := round semitones in
    let cents := round (mul (sub semitones roundedSemitones) (Fin 100)) in
    let noteIndex :=
      rem (add (add (rem roundedSemitones (Fin 12)) (Fin 12)) (Fin 9)) (Fin 12) in
    let octave := add (floor (div (add roundedSemitones (Fin 9)) (Fin 12))) (Fin 4) in
    Some {| note := index NOTE_NAMES noteIndex;
            octave := octave;
            cents := cents;
            freq := freq |}.

End Engine.

End Chords64.

(** * client/src/components/audio/StringDisplay.jsx in double precision *)

Module StringDisplay64.
Import JS IEEE StringDisplay.
Local Open Scope R_scope.

Section Engine.

Variable M : Math.Library.

(** [1200 * Math.log2(detectedFreq / s.freq)]: the target is the double of
    the table's literal, and each operation rounds. *)
Definition centsOff (detectedFreq : number) (s : Chords.TuningEntry) : number :=
  mul (Fin 1200)
      (Math.log2 M (div detectedFreq (literal (Chords.t_freq s)))).

(** One call of the [forEach] callback on the two captured variables
    [closest] and [minCents]. *)
Definition visit (detectedFreq : number) (st : option Closest * number)
    (si : Chords.TuningEntry * nat) : option Closest * number :=
  let '(closest, minCents) := st in
  let '(s, index) := si in
  let cents := centsOff detectedFreq s in
  let absCents := abs cents in
  if lt absCents minCents && lt absCents (Fin STRING_MATCH_THRESHOLD)
  then (Some {| entry := s; index := index; cents := round cents |}, absCents)
  else (closest, minCents).

(** The [nearestString] memo over a tuning table. *)
Definition nearestStringIn (table : list Chords.TuningEntry)
    (detectedFreq : value) (isActive : bool) : option Closest :=
  if negb isActive || negb (truthy detectedFreq) || le (ToNumber detectedFreq) (Fin 0)
  then None
  else fst (fold_left (visit (ToNumber detectedFreq)) (enumerate table) (None, PosInf)).

Definition nearestString : value -> bool -> option Closest :=
  nearestStringIn Chords.STANDARD_TUNING.

End Engine.

End StringDisplay64.

(** * The usePitch hook in double precision *)

Module Pitch64.
Import JS IEEE.
Local Open Scope R_scope.

(** The two constants, as doubles. *)
Definition CLARITY_THRESHOLD : number := literal 0.85.
Definition VOLUME_THRESHOLD : number := Fin (-40).

(** [buffer[i]] for an index inside the frame: an element of the
    [Float32Array], read as a double. *)
Definition sample (buffer : list R) (i : nat) : number := Fin (nth i buffer 0).

(** The integer a finite number holds after [Math.floor]. *)
Definition wholeOf (n : number) : Z :=
  match n with
  | Fin x => Zfloor x
  | _ => 0%Z
  end.

(** [Math.floor(sampleRate / 1400)] and [Math.floor(sampleRate / 70)]; the
    rate is a finite double, and so are the quotients. *)
Definition minPeriodOf (sampleRate : R) : Z :=
  wholeOf (floor (div (Fin sampleRate) (Fin 1400))).
Definition maxPeriodOf (sampleRate : R) : Z :=
  wholeOf (floor (div (Fin sampleRate) (Fin 70))).

(** The lags the outer loop visits:
    [for (lag = minPeriod; lag < maxPeriod && lag < bufferLength; lag++)]. *)
Definition lags (sampleRate : R) (bufferLength : nat) : list nat :=
  map Z.to_nat
    (Pitch.zrange (minPeriodOf sampleRate)
                  (Z.min (maxPeriodOf sampleRate) (Z.of_nat bufferLength))).

(** One pass of the inner loop body on [correlation], [norm1], [norm2]. *)
Definition accumulate (buffer : list R) (lag : nat)
    (acc : number * number * number) (i : nat) : number * number * number :=
  let '(correlation, norm1, norm2) := acc in
  (add correlation (mul (sample buffer i) (sample buffer (i + lag))),
   add norm1 (mul (sample buffer i) (sample buffer i)),
   add norm2 (mul (sample buffer (i + lag)) (sample buffer (i + lag)))).

(** [for (i = 0; i < bufferLength - lag; i++)]. *)
Definition innerSums (buffer : list R) (lag : nat) : number * number * number :=
  fold_left (accumulate buffer lag) (seq 0 (List.length buffer - lag))
            (Fin 0, Fin 0, Fin 0).

(** The normalized cross-correlation at one lag; the division is skipped
    when the norm factor is not positive. *)
Definition correlationAt (buffer : list R) (lag : nat) : number :=
  let '(correlation, norm1, norm2) := innerSums buffer lag in
  let normFactor := sqrt (mul norm1 norm2) in
  if gt normFactor (Fin 0) then div correlation normFactor else correlation.

(** [correlations[lag] = v] on a [Float32Array]: the value is rounded to
    single precision, and a write outside the array is ignored. *)
Fixpoint store (arr : list number) (i : nat) (v : number) : list number :=
  match arr, i with
  | [], _ => []
  | _ :: rest, O => toFloat32 v :: rest
  | x :: rest, S j => x :: store rest j v
  end.

(** The variables of the outer loop. *)
Record Search : Type := {
  bestCorrelation : number;
  bestPeriod : nat;
  correlations : list number
}.

Definition searchStart (bufferLength : nat) : Search :=
  {| bestCorrelation := Fin (-1); bestPeriod := 0;
     correlations := repeat (Fin 0) bufferLength |}.

(** One pass of the outer loop body. *)
Definition searchStep (buffer : list R) (s : Search) (lag : nat) : Search :=
  let correlation := correlationAt buffer lag in
  let correlations' := store (correlations s) lag correlation in
  if gt correlation (bestCorrelation s)
  then {| bestCorrelation := correlation; bestPeriod := lag;
          correlations := correlations' |}
  else {| bestCorrelation := bestCorrelation s; bestPeriod := bestPeriod s;
          correlations := correlations' |}.

Definition search (buffer : list R) (sampleRate : R) : Search :=
  fold_left (searchStep buffer) (lags sampleRate (List.length buffer))
            (searchStart (List.length buffer)).

(** [correlations[k]] for an index inside the array. *)
Definition entryOf (s : Search) (k : nat) : number := nth k (correlations s) (Fin 0).

(** Step 3: parabolic interpolation around the peak. *)
Definition refinedPeriodOf (bufferLength : nat) (s : Search) : number :=
  let bestPeriod := bestPeriod s in
  if (0 <? bestPeriod)%nat && (bestPeriod <? bufferLength - 1)%nat then
    let y0 := or_else (entryOf s (bestPeriod - 1)) (Fin 0) in
    let y1 := entryOf s bestPeriod in
    let y2 := or_else (entryOf s (bestPeriod + 1)) (Fin 0) in
    let shift :=
      div (sub y0 y2) (mul (Fin 2) (add (sub y0 (mul (Fin 2) y1)) y2)) in
    if isFinite shift then add (Fin (INR bestPeriod)) shift
    else Fin (INR bestPeriod)
  else Fin (INR bestPeriod).

(** Step 4: [sampleRate / refinedPeriod]. *)
Definition frequencyOf (buffer : list R) (sampleRate : R) : number :=
  div (Fin sampleRate)
      (refinedPeriodOf (List.length buffer) (search buffer sampleRate)).

Section Engine.

Variable M : Math.Library.

(** Step 1: the sum of the squares, then [Math.sqrt(rms / bufferLength)]
    and [20 * Math.log10(rms)]. *)
Definition sumSquares (buffer : list R) : number :=
  fold_left (fun rms x => add rms (mul (Fin x) (Fin x))) buffer (Fin 0).

Definition rmsOf (buffer : list R) : number :=
  sqrt (div (sumSquares buffer) (Fin (INR (List.length buffer)))).

Definition dbFS (buffer : list R) : number :=
  mul (Fin 20) (Math.log10 M (rmsOf buffer)).

(** [detectPitch] on one frame (the analyser is present). *)
Definition detectPitch (buffer : list R) (contextRate : option R)
    : Pitch.Detection :=
  if lt (dbFS buffer) VOLUME_THRESHOLD then
    {| Pitch.detectedNote := None; Pitch.detectedFreq := None;
       Pitch.clarity := Fin 0 |}
  else
    let sampleRate := Pitch.sampleRateOf contextRate in
    let s := search buffer sampleRate in
    let frequency := frequencyOf buffer sampleRate in
    if gt (bestCorrelation s) CLARITY_THRESHOLD
       && gt frequency (Fin 70) && lt frequency (Fin 1400)
    then {| Pitch.detectedNote := Chords64.frequencyToNote M (Num frequency);
            Pitch.detectedFreq := Some frequency;
            Pitch.clarity := bestCorrelation s |}
    else {| Pitch.detectedNote := None; Pitch.detectedFreq := None;
            Pitch.clarity := bestCorrelation s |}.

End Engine.

End Pitch64.

(** * The useMetronome hook in double precision *)

(** A metronome started once from the stopped state, on the clock of its
    own audio context: the times are doubles, every sum is rounded, and
    the Web Audio calls of [playClick] can throw. *)
Module Metronome64.
Import JS IEEE.
Local Open Scope R_scope.

(** One call of [playClick] that reached [osc.stop]: its [time] and
    [isDownbeat] arguments, and for the statements the value
    [beatRef.current] had at the call. *)
Record Click : Type := {
  time : number;
  isDownbeat : bool;
  beatIndex : nat
}.

(** The closure [scheduler] of the call of [start]: [secondsPerBeat],
    [beatsPerMeasure] and its own variable [nextBeatTime]. *)
Record Scheduler : Type := {
  secondsPerBeat : number;
  beatsPerMeasure : nat;
  nextBeatTime : number
}.

(** Whether [audioContextRef.current] holds a context, [beatRef.current],
    the closure waiting in [setTimeout(scheduler, 25)] if any, and the
    clicks.  The visual beat indicator is left out. *)
Record State : Type := {
  audioContextRef : bool;
  beatRef : nat;
  pending : option Scheduler;
  clicks : list Click
}.

(** How a call ends: it returns, it throws (the state is the one the
    exception leaves behind), or the fuel of the loop ran out. *)
Inductive Outcome (A : Type) : Type :=
| Returned (a : A)
| Threw (st : State)
| Unfinished.

Arguments Returned {A} a.
Arguments Threw {A} st.
Arguments Unfinished {A}.

(** [beatRef.current % beatsPerMeasure === 0]; with no beats per measure
    the remainder is NaN and the test is false. *)
Definition downbeat (beat beatsPerMeasure : nat) : bool :=
  match beatsPerMeasure with
  | O => false
  | _ => (beat mod beatsPerMeasure =? 0)%nat
  end.

(** A time the Web Audio API accepts: [exponentialRampToValueAtTime],
    [start] and [stop] throw a RangeError on a negative time, and a
    TypeError on one that is not finite. *)
Definition accepted (t : number) : bool := isFinite t && le (Fin 0) t.

(** [playClick(time, isDownbeat)]: nothing without a current context;
    otherwise the ramp to [time + 0.03] and [osc.start(time)] must both be
    accepted for the click to sound. *)
Definition playClick (time : number) (isDownbeat : bool) (st : State)
    : Outcome State :=
  if negb (audioContextRef st) then Returned st
  else if accepted (add time (literal 0.03)) && accepted time then
    Returned {| audioContextRef := audioContextRef st; beatRef := beatRef st;
                pending := pending st;
                clicks := clicks st ++
                  [{| time := time; isDownbeat := isDownbeat;
                      beatIndex := beatRef st |}] |}
  else Threw st.

(** [beatRef.current++]. *)
Definition nextBeat (st : State) : State :=
  {| audioContextRef := audioContextRef st; beatRef := S (beatRef st);
     pending := pending st; clicks := clicks st |}.

(** [nextBeatTime += secondsPerBeat]. *)
Definition later (s : Scheduler) : Scheduler :=
  {| secondsPerBeat := secondsPerBeat s;
     beatsPerMeasure := beatsPerMeasure s;
     nextBeatTime := add (nextBeatTime s) (secondsPerBeat s) |}.

(** [while (nextBeatTime < ctx.currentTime + 0.1) { ... }] with the clock
    of the context reading [currentTime].  The loop runs on fuel. *)
Fixpoint schedule (fuel : nat) (currentTime : R) (s : Scheduler) (st : State)
  : Outcome (Scheduler * State) :=
  if lt (nextBeatTime s) (add (Fin currentTime) (literal 0.1)) then
    match fuel with
    | O => Unfinished
    | S fuel' =>
        let isDownbeat := downbeat (beatRef st) (beatsPerMeasure s) in
        match playClick (nextBeatTime s) isDownbeat st with
        | Returned st' => schedule fuel' currentTime (later s) (nextBeat st')
        | Threw st' => Threw st'
        | Unfinished => Unfinished
        end
    end
  else Returned (s, st).

(** One run of the closure [scheduler]: the loop, then
    [timerRef.current = setTimeout(scheduler, 25)]. *)
Definition scheduler (fuel : nat) (currentTime : R) (s : Scheduler) (st : State)
  : Outcome State :=
  match schedule fuel currentTime s st with
  | Returned (s', st') =>
      Returned {| audioContextRef := audioContextRef st'; beatRef := beatRef st';
                  pending := Some s'; clicks := clicks st' |}
  | Threw st' => Threw st'
  | Unfinished => Unfinished
  end.

(** [start()] from the stopped state, in a render whose state holds [bpm]
    and [beatsPerMeasure]: the clock of the fresh context reads 0. *)
Definition start (fuel : nat) (bpm : R) (beatsPerMeasure : nat) : Outcome State :=
  let st :=
    {| audioContextRef := true; beatRef := 0; pending := None; clicks := [] |} in
  let s := {| secondsPerBeat := div (Fin 60) (Fin bpm);
              beatsPerMeasure := beatsPerMeasure;
              nextBeatTime := add (Fin 0) (literal 0.1) |} in
  scheduler fuel 0 s st.

(** The pending timeout fires when the clock reads [currentTime]: its
    closure runs.  After an uncaught exception no timeout is pending. *)
Definition tick (fuel : nat) (o : Outcome State) (currentTime : R)
    : Outcome State :=
  match o with
  | Returned st =>
      match pending st with
      | Some s =>
          scheduler fuel currentTime s
            {| audioContextRef := audioContextRef st; beatRef := beatRef st;
               pending := None; clicks := clicks st |}
      | None => Returned st
      end
  | Threw st => Threw st
  | Unfinished => Unfinished
  end.

(** A run: [start()], then the timeout firing at each of the clock
    readings [ts]. *)
Definition run (fuel : nat) (bpm : R) (beatsPerMeasure : nat) (ts : list R)
  : Outcome State :=
  fold_left (tick fuel) ts (start fuel bpm beatsPerMeasure).

(** The timeout firing every 25 ms exactly: the readings 0.025, 0.050, ...
    up to [T]. *)
Definition every25ms (T : R) : list R :=
  map (fun k => INR (S k) * (25 / 1000))
      (seq 0 (Z.to_nat (Zfloor (T / (25 / 1000))))).

(** Running for [T] seconds on exact 25 ms timeouts. *)
Definition runFor (fuel : nat) (bpm : R) (beatsPerMeasure : nat) (T : R)
  : Outcome State :=
  run fuel bpm beatsPerMeasure (every25ms T).

End Metronome64.

(* ================================================================== *)
(** * The vocabulary of the statements *)
(* ================================================================== *)

Module ChordsSpec.
Import JS Chords.
Local Open Scope R_scope.

(** The real number of semitones from A4 to a positive finite frequency. *)
Definition semitonesOf (f : R) : R := 12 * (ln (f / 440) / ln 2).

(** The rounded number of semitones. *)
Definition roundedOf (f : R) : Z := Zfloor (semitonesOf f + / 2).

(** The cents left after rounding. *)
Definition centsOf (f : R) : Z :=
  Zfloor ((semitonesOf f + - IZR (roundedOf f)) * 100 + / 2).

(** A positive number: a finite positive value or +Infinity. *)
Definition positive_number (v : value) : Prop :=
  match v with
  | Num n => lt (Fin 0) n = true
  | _ => False
  end.

(** The range of the cents offset as the specification gives it. *)
Definition cents_in_spec_range (r : NoteReading) : Prop :=
  exists c : Z, cents r = Fin (IZR c) /\ (-50 < c <= 50)%Z.

End ChordsSpec.

Module TuningMeterSpec.
Import TuningMeter.
Local Open Scope Z_scope.

(** The classifier as the specification words it: two arguments, the cents
    offset and the activity flag. *)
Definition classifyZone_spec (centsOffset : Z) (isActive : bool) : status :=
  if negb isActive then inactive
  else if Z.abs centsOffset <=? 5 then in_tune
  else if Z.abs centsOffset <=? 15 then close
  else off.

End TuningMeterSpec.

Module StringDisplaySpec.
Import JS Chords StringDisplay.
Local Open Scope R_scope.

(** The real number of cents from a string's target to a frequency. *)
Definition centsR (f : R) (s : TuningEntry) : R :=
  1200 * (ln (f / t_freq s) / ln 2).

End StringDisplaySpec.

Module PitchSpec.
Import JS Pitch.
Local Open Scope R_scope.

(** A frame of zeros. *)
Definition silent (buffer : list R) : Prop := Forall (fun x => x = 0) buffer.

(** A number strictly between 70 and 1400. *)
Definition inOpenRange (frequency : number) : Prop :=
  exists r, frequency = Fin r /\ 70 < r < 1400.

End PitchSpec.

Module TunerSpec.
Import Tuner.
Local Open Scope Z_scope.

(** A stream in which every detection carries a key other than the one
    before it and follows it by less than 80 ms. *)
Fixpoint flickers (noteKey : string) (t : Z)
    (events : list (Z * option (Detected * Freq))) : Prop :=
  match events with
  | [] => True
  | (t', Some (d, _)) :: rest =>
      noteKeyOf d <> noteKey /\ t <= t' < t + 80 /\ flickers (noteKeyOf d) t' rest
  | (_, None) :: _ => False
  end.

(** Nothing is displayed, the hold buffer holds [noteKey], and the pending
    timeout, if any, is the 80 ms one set at time [t]. *)
Definition holding (noteKey : string) (t : Z) (st : State) : Prop :=
  displayNote st = None /\
  noteHoldBuffer st = Some noteKey /\
  match timeout st with
  | Some to => due to = t + 80
  | None => True
  end.

(** Two detections of the key A4. *)
Definition A4 : Detected := {| note := "A"; octave := 4; cents := 0 |}.
Definition A4_sharp3 : Detected := {| note := "A"; octave := 4; cents := 3 |}.

End TunerSpec.

Module MetronomeSpec.
Import Metronome.
Local Open Scope Q_scope.

Set Implicit Arguments.

Unset Implicit Arguments.

(** [start()] at wall time 0, then [start()] again one second later,
    at 120 beats per minute in 4/4. *)
Definition startedTwice : option State :=
  match start 10 0 120 4 initial with
  | Some st => start 10 1 120 4 st
  | None => None
  end.

(** The same with [stop()] in between. *)
Definition restarted : option State :=
  match start 10 0 120 4 initial with
  | Some st => start 10 1 120 4 (stop 1 st)
  | None => None
  end.

End MetronomeSpec.

Module TuningTableSpec.

(** The octaves of the six open strings, low E to high E. *)
Definition openStringOctaves : list Z := [2; 2; 3; 3; 3; 4]%Z.

End TuningTableSpec.

Module FretboardDiagramSpec.
Import ChordLibrary FretboardDiagram.
Local Open Scope R_scope.

(** A point lies inside a rectangle, borders included. *)
Definition inside (px py : R) (b : Rect) : Prop :=
  x b <= px <= x b + rectWidth b /\ y b <= py <= y b + rectHeight b.

(** The checks of the library's test suite on one chord, and the span. *)
Definition sixStrings (chord : Chord) : bool :=
  (List.length (strings chord) =? 6)%nat &&
  (List.length (fingers chord) =? 6)%nat &&
  (List.length (notes chord) =? 6)%nat &&
  forallb (fun s => (-1 <=? s)%Z) (strings chord) &&
  forallb (fun g => (0 <=? g)%Z && (g <=? 4)%Z) (fingers chord) &&
  (1 <=? tier chord)%Z && (tier chord <=? 4)%Z &&
  (maxFret chord - minFret chord <=? 3)%Z.

End FretboardDiagramSpec.

Module SearchSpec.
Import JS Pitch.
Local Open Scope R_scope.

(** A frame that repeats itself every [p] samples. *)
Definition periodic (buffer : list R) (p : nat) : Prop :=
  forall i, (i + p < List.length buffer)%nat ->
            sample buffer (i + p) = sample buffer i.

End SearchSpec.

Module DisplaySpec.
Import Tuner.
Local Open Scope Z_scope.

(** The note [d] came with the frequency [f] in one event of the stream. *)
Definition fromStream (events : list (Z * option (Detected * Freq)))
    (d : Detected) (f : Freq) : Prop :=
  exists t, In (t, Some (d, f)) events.

(** The three display values belong together: a displayed note comes from
    the stream, with its own cents and the frequency it was detected with;
    an empty display has 0 cents and no frequency. *)
Definition displayOf (events : list (Z * option (Detected * Freq)))
    (st : State) : Prop :=
  match displayNote st with
  | Some d =>
      displayCents st = cents d /\
      exists f, displayFreq st = Some f /\ fromStream events d f
  | None => displayCents st = 0 /\ displayFreq st = None
  end.

(** A pending 80 ms callback carries a detection of the stream under its
    own key. *)
Definition pendingOf (events : list (Z * option (Detected * Freq)))
    (st : State) : Prop :=
  match timeout st with
  | Some t =>
      match callback t with
      | showIfHeld k d f => k = noteKeyOf d /\ fromStream events d f
      | clearDisplay => True
      end
  | None => True
  end.

End DisplaySpec.

Module SchedulerSpec.
Import Metronome.
Local Open Scope Q_scope.


End SchedulerSpec.

Module IEEESpec.
Import IEEE.

(** The formats at hand: at least one bit, and room between the least and
    the greatest exponent. *)
Definition sane (fmt : format) : Prop :=
  (1 <= precision fmt)%Z /\ (emin fmt + precision fmt <= emax fmt)%Z.

(** The logarithm in base 2. *)
Definition lb (x : R) : R := (ln x / ln 2)%R.

(** The unit roundoff of the doubles, [2^-53]. *)
Definition unit64 : R := (/ 9007199254740992)%R.

End IEEESpec.

Module MathSpec.
Import JS Math.
Local Open Scope R_scope.

(** The engine whose three functions are correctly rounded. *)
Definition correctlyRounded : Library :=
  {| log2 := fun a => IEEE.rounded (JS.log2 a);
     log10 := fun a => IEEE.rounded (JS.log10 a);
     pow2 := fun a => IEEE.rounded (JS.pow2 a) |}.

(** The relative precision asked of an engine: [2^-40]. *)
Definition tolerance : R := / 1099511627776.

Set Implicit Arguments.

(** An engine is accurate when it returns what ECMAScript fixes (the
    logarithm of 1 is 0, of 0 is -Infinity, of a negative number or NaN is
    NaN, and 2 to the power 0 is 1) and, elsewhere, a double within
    [tolerance] of the exact value: the logarithms over the positive
    doubles, the power over the exponents that neither overflow nor fall
    into the subnormal range. *)
Record accurate (M : Library) : Prop := {
  log2_one : log2 M (Fin 1) = Fin 0;
  log2_zero : log2 M (Fin 0) = NegInf;
  log2_PosInf : log2 M PosInf = PosInf;
  log2_NaN : log2 M NaN = NaN;
  log2_near : forall x, IEEE.bpow (-1075) <= x <= IEEE.bpow 1024 ->
    exists y, log2 M (Fin x) = Fin y /\
      Rabs (y - ln x / ln 2) <= tolerance * (1 + Rabs (ln x / ln 2));
  log10_zero : log10 M (Fin 0) = NegInf;
  log10_NaN : log10 M NaN = NaN;
  log10_near : forall x, IEEE.bpow (-1075) <= x <= IEEE.bpow 1024 ->
    exists y, log10 M (Fin x) = Fin y /\
      Rabs (y - ln x / ln 10) <= tolerance * (1 + Rabs (ln x / ln 10));
  pow2_zero : pow2 M (Fin 0) = Fin 1;
  pow2_near : forall y, -1020 <= y <= 1020 ->
    exists p, pow2 M (Fin y) = Fin p /\
      Rabs (p - Rpower 2 y) <= tolerance * Rpower 2 y
}.

Unset Implicit Arguments.

End MathSpec.

Module Chords64Spec.
Import JS IEEE Chords.
Local Open Scope R_scope.

(** The frequencies whose quotient by 440 is a positive double: above
    [440 * 2^-1075] and below the overflow bound. *)
Definition readable (f : R) : Prop := 440 * bpow (-1075) < f < bpow 1024.

(** The frequencies far from the ends of the doubles' range. *)
Definition ordinary (f : R) : Prop := bpow (-1000) <= f <= bpow 1010.

(** The computed number of semitones is within this of the exact one. *)
Definition semitoneError : R := / 10000000.

(** The exact frequency of the note [k] semitones from A4. *)
Definition pitchOf (k : Z) : R := 440 * Rpower 2 (IZR k / 12).

End Chords64Spec.

Module StringDisplay64Spec.
Import JS Chords StringDisplay StringDisplay64.
Local Open Scope R_scope.

(** The cents the code computes between a frequency and a string's
    target, when they are finite. *)
Definition computedCents (M : Math.Library) (f : R) (s : TuningEntry) : R :=
  match centsOff M (Fin f) s with
  | Fin x => x
  | _ => 0
  end.

(** The computed cents are within this of the exact ones. *)
Definition centsError : R := / 100000.

(** What the two captured variables hold once the entries [seen] have been
    visited, [d] being the computed distance to each entry: the first entry
    of least distance, if that distance is below the threshold. *)
Definition firstNearest (d : TuningEntry -> R) (seen : list TuningEntry)
    (st : option Closest * number) : Prop :=
  match st with
  | (None, minCents) =>
      minCents = PosInf /\
      forall s, In s seen -> STRING_MATCH_THRESHOLD <= Rabs (d s)
  | (Some c, minCents) =>
      minCents = Fin (Rabs (d (entry c))) /\
      nth_error seen (index c) = Some (entry c) /\
      cents c = Fin (IZR (Zfloor (d (entry c) + / 2))) /\
      Rabs (d (entry c)) < STRING_MATCH_THRESHOLD /\
      forall j s, nth_error seen j = Some s ->
        Rabs (d (entry c)) <= Rabs (d s) /\
        ((j < index c)%nat -> Rabs (d (entry c)) < Rabs (d s))
  end.

End StringDisplay64Spec.

Module Pitch64Spec.
Import JS IEEE Pitch64.
Local Open Scope R_scope.

(** The frame of [n] samples, all 0.5. *)
Definition halves (n : nat) : list R := repeat (/ 2) n.

(** What the outer loop holds once the lags [visited] have been tried:
    no visited lag correlates better than the best one, which is either the
    starting value, or the first visited lag of greatest correlation (a
    correlation that is not a number compares with nothing). *)
Definition firstPeak (buffer : list R) (visited : list nat) (s : Search) : Prop :=
  (forall lag, In lag visited ->
     gt (correlationAt buffer lag) (bestCorrelation s) = false) /\
  ((bestCorrelation s = Fin (-1) /\ bestPeriod s = 0%nat) \/
   (gt (bestCorrelation s) (Fin (-1)) = true /\
    exists before after,
      visited = before ++ bestPeriod s :: after /\
      correlationAt buffer (bestPeriod s) = bestCorrelation s /\
      forall lag, In lag before -> correlationAt buffer lag <> NaN ->
        gt (bestCorrelation s) (correlationAt buffer lag) = true)).

(** What the typed array holds once the lags [visited] have been tried:
    at a visited lag inside the array the correlation rounded to single
    precision, elsewhere the initial 0. *)
Definition stored (buffer : list R) (visited : list nat) (s : Search) : Prop :=
  (forall j, In j visited -> (j < List.length (correlations s))%nat ->
     entryOf s j = toFloat32 (correlationAt buffer j)) /\
  (forall j, ~ In j visited -> entryOf s j = Fin 0).

(** The energy the inner loop computes for the part of the frame that the
    lag [p] compares: its sum [norm1]. *)
Definition energyAt (buffer : list R) (p : nat) : number :=
  snd (fst (innerSums buffer p)).

(** The correlation of a frame with itself is within this of 1. *)
Definition clarityError : R := 5 * IEEESpec.unit64.

End Pitch64Spec.

Module Metronome64Spec.
Import JS IEEE Metronome64.
Local Open Scope R_scope.

(** The time the source means for beat [k]: 0.1 s after the start, then
    one beat interval apart. *)
Definition beatTime (bpm : R) (k : nat) : R := 1 / 10 + INR k * (60 / bpm).

(** The time the source computes for beat [k]: the sums of doubles
    [0 + 0.1], [+ secondsPerBeat], ..., each rounded. *)
Fixpoint beatAt (secondsPerBeat : number) (k : nat) : number :=
  match k with
  | O => add (Fin 0) (literal 0.1)
  | S j => add (beatAt secondsPerBeat j) secondsPerBeat
  end.

(** The click of beat [k]. *)
Definition clickOf (bpm : R) (bpmz : nat) (k : nat) : Click :=
  {| time := beatAt (div (Fin 60) (Fin bpm)) k;
     isDownbeat := downbeat k bpmz;
     beatIndex := k |}.

(** The closure when beat [N] is the next one. *)
Definition closureAt (bpm : R) (bpmz : nat) (N : nat) : Scheduler :=
  {| secondsPerBeat := div (Fin 60) (Fin bpm);
     beatsPerMeasure := bpmz;
     nextBeatTime := beatAt (div (Fin 60) (Fin bpm)) N |}.

(** The tempi and the clock readings of the statements: 1 to 1000 beats
    per minute, during the first hour of the context. *)
Definition tempo (bpm : R) : Prop := 1 <= bpm <= 1000.
Definition horizon : R := 3600.

(** What one rounded sum can add to the error of a beat's time, and what
    the errors add up to within the horizon. *)
Definition drift : R := / 100000000000.
Definition slack : R := / 1000000.

(** The times at which the timeout fires never run backwards. *)
Fixpoint nondecreasing (t : R) (ts : list R) : Prop :=
  match ts with
  | [] => True
  | t' :: rest => t <= t' /\ nondecreasing t' rest
  end.

(** The loop passes that are enough by the clock reading [t]. *)
Definition passesBy (bpm t : R) : nat :=
  Z.to_nat (Zceil ((t + slack) * bpm / 60)).

(** [N] beats are out, and nothing else has happened. *)
Definition beatsOut (bpm : R) (bpmz : nat) (N : nat) (st : State) : Prop :=
  audioContextRef st = true /\ beatRef st = N /\
  clicks st = map (clickOf bpm bpmz) (seq 0 N).

(** The run after a firing at the clock reading [t]: [N] beats are out,
    the timeout is pending with beat [N] next, beat [N] is not due before
    [t + 0.1] and beat [N - 1] was. *)
Definition settled (bpm : R) (bpmz : nat) (t : R) (N : nat) (st : State) : Prop :=
  beatsOut bpm bpmz N st /\
  pending st = Some (closureAt bpm bpmz N) /\
  INR N * (60 / bpm) <= 3665 /\
  t + 1 / 10 - slack <= beatTime bpm N /\
  (N = 0%nat \/ beatTime bpm (N - 1) < t + 1 / 10 + slack).

(** A real number of the form m * 2^e. *)
Definition dyadic (x : R) : Prop := exists m e : Z, x = IZR m * bpow e.

End Metronome64Spec.

(* ================================================================== *)
(** * Proofs *)
(* ================================================================== *)

(** Split a goal into its conjuncts, and no further. *)
Ltac split_ands := repeat match goal with |- _ /\ _ => split end.

Module JSFacts.
Import JS.
Local Open Scope R_scope.

Lemma truthy_pos r : 0 < r -> truthy (Num (Fin r)) = true.
Proof. intros H. simpl. destruct (Req_dec_T r 0); [lra | reflexivity]. Qed.

Lemma le_pos_0 r : 0 < r -> le (Fin r) (Fin 0) = false.
Proof. intros H. simpl. destruct (Rle_dec r 0); [lra | reflexivity]. Qed.

Lemma lt_fin x y : lt (Fin x) (Fin y) = true <-> x < y.
Proof. simpl. destruct (Rlt_dec x y); split; intros; try easy. Qed.

Lemma div_fin x y : y <> 0 -> div (Fin x) (Fin y) = Fin (x / y).
Proof. intros H. simpl. destruct (Req_dec_T y 0); [contradiction | reflexivity]. Qed.

Lemma log_fin b x : 0 < x -> log b (Fin x) = Fin (ln x / ln b).
Proof. intros H. simpl. destruct (Rlt_dec 0 x); [reflexivity | contradiction]. Qed.

Lemma Zfloor_div (a b : Z) : (0 < b)%Z -> Zfloor (IZR a / IZR b) = (a / b)%Z.
Proof.
  intros Hb. apply Zfloor_eq.
  assert (HbR : 0 < IZR b) by (apply IZR_lt; assumption).
  pose proof (Z.div_mod a b ltac:(lia)) as Hdm.
  pose proof (Z.mod_pos_bound a b Hb) as [Hlo Hhi].
  assert (Ha : IZR a = IZR b * IZR (a / b) + IZR (a mod b)).
  { rewrite <- mult_IZR, <- plus_IZR. f_equal. exact Hdm. }
  apply IZR_le in Hlo. apply IZR_lt in Hhi.
  split.
  - apply Rmult_le_reg_r with (IZR b); [assumption|].
    unfold Rdiv. rewrite Rmult_assoc, Rinv_l by lra. lra.
  - apply Rmult_lt_reg_r with (IZR b); [assumption|].
    unfold Rdiv. rewrite Rmult_assoc, Rinv_l by lra. lra.
Qed.

Lemma Zceil_div (a b : Z) : (0 < b)%Z -> Zceil (IZR a / IZR b) = (- ((- a) / b))%Z.
Proof.
  intros Hb. unfold Zceil. f_equal.
  rewrite <- (Zfloor_div (- a) b Hb). f_equal. rewrite opp_IZR. 
  unfold Rdiv. ring.
Qed.

Lemma trunc_div (a b : Z) : (0 < b)%Z -> trunc (IZR a / IZR b) = Z.quot a b.
Proof.
  intros Hb. unfold trunc.
  assert (HbR : 0 < IZR b) by (apply IZR_lt; assumption).
  destruct (Rle_dec 0 (IZR a / IZR b)) as [H|H].
  - assert (0 <= a)%Z.
    { apply le_IZR. apply Rmult_le_reg_r with (/ IZR b).
      - apply Rinv_0_lt_compat; assumption.
      - unfold Rdiv in H. lra. }
    rewrite Zfloor_div by assumption. symmetry. apply Z.quot_div_nonneg; lia.
  - assert (a < 0)%Z.
    { apply lt_IZR. apply Rnot_le_lt in H.
      apply Rmult_lt_reg_r with (/ IZR b).
      - apply Rinv_0_lt_compat; assumption.
      - unfold Rdiv in H. lra. }
    rewrite Zceil_div by assumption.
    rewrite <- (Z.opp_involutive a) at 2. rewrite Z.quot_opp_l by lia.
    f_equal. symmetry. apply Z.quot_div_nonneg; lia.
Qed.

Lemma rem_int (a b : Z) :
  (0 < b)%Z -> rem (Fin (IZR a)) (Fin (IZR b)) = Fin (IZR (Z.rem a b)).
Proof.
  intros Hb. simpl.
  destruct (Req_dec_T (IZR b) 0) as [E|_].
  - apply eq_IZR in E. lia.
  - f_equal. rewrite trunc_div by assumption.
    rewrite <- mult_IZR, <- minus_IZR. f_equal.
    pose proof (Z.quot_rem' a b). lia.
Qed.

Lemma or_else_fin (y : R) : or_else (Fin y) (Fin 0) = Fin y.
Proof.
  unfold or_else. cbn [truthy].
  destruct (Req_dec_T y 0) as [->|_]; reflexivity.
Qed.

Lemma index_int {A} (arr : list A) (i : Z) :
  (0 <= i)%Z -> index arr (Fin (IZR i)) = nth_error arr (Z.to_nat i).
Proof.
  intros Hi. unfold index. rewrite ZfloorZ.
  destruct (Req_dec_T (IZR i) (IZR i)); [|contradiction].
  destruct (Z_le_dec 0 i); [reflexivity | contradiction].
Qed.

End JSFacts.

Module ChordsFacts.
Import JS Chords ChordsSpec JS JSFacts.
Local Open Scope R_scope.

Lemma frequencyToNote_pos (f : R) :
  0 < f ->
  frequencyToNote (Num (Fin f)) =
  Some {| note := nth_error NOTE_NAMES
                    (Z.to_nat (Z.rem (Z.rem (roundedOf f) 12 + 12 + 9) 12));
          octave := Fin (IZR ((roundedOf f + 9) / 12 + 4));
          cents := Fin (IZR (centsOf f));
          freq := Num (Fin f) |}.
Proof.
  intros Hf. unfold frequencyToNote.
  rewrite truthy_pos by assumption. cbn [negb orb ToNumber].
  rewrite le_pos_0 by assumption.
  rewrite div_fin by lra. unfold log2. rewrite log_fin by (apply Rdiv_lt_0_compat; lra).
  cbn [mul round sub neg add].
  fold (semitonesOf f). fold (roundedOf f). fold (centsOf f).
  rewrite (rem_int (roundedOf f) 12) by lia.
  cbn [add]. rewrite <- !plus_IZR.
  rewrite (rem_int _ 12) by lia.
  rewrite (div_fin _ 12) by lra. cbn [floor add].
  rewrite Zfloor_div by lia. rewrite <- plus_IZR.
  rewrite index_int.
  - reflexivity.
  - pose proof (Z.rem_bound_abs (roundedOf f) 12 ltac:(lia)).
    apply Z.rem_nonneg; lia.
Qed.

Lemma ln2_pos : 0 < ln 2.
Proof. rewrite <- ln_1. apply ln_increasing; lra. Qed.

Lemma indexOf_from_spec x arr i :
  (0 <= i)%Z ->
  In x arr ->
  let j := indexOf_from x arr i in
  (i <= j < i + Z.of_nat (List.length arr))%Z /\
  nth_error arr (Z.to_nat (j - i)) = Some x.
Proof.
  revert i. induction arr as [|y rest IH]; intros i Hi Hin; [contradiction|].
  cbn [indexOf_from]. destruct (String.eqb y x) eqn:E.
  - apply String.eqb_eq in E. subst y. cbn zeta. split.
    + cbn [List.length]. lia.
    + rewrite Z.sub_diag. reflexivity.
  - destruct Hin as [->|Hin]; [rewrite String.eqb_refl in E; discriminate|].
    destruct (IH (i + 1)%Z ltac:(lia) Hin) as [Hb Hn]. cbn zeta. split.
    + cbn [List.length]. lia.
    + replace (Z.to_nat (indexOf_from x rest (i + 1) - i))
        with (S (Z.to_nat (indexOf_from x rest (i + 1) - (i + 1)))) by lia.
      exact Hn.
Qed.

Lemma indexOf_NOTE_NAMES noteName :
  In noteName NOTE_NAMES ->
  (0 <= indexOf noteName NOTE_NAMES < 12)%Z /\
  nth_error NOTE_NAMES (Z.to_nat (indexOf noteName NOTE_NAMES)) = Some noteName.
Proof.
  intros Hin. destruct (indexOf_from_spec noteName NOTE_NAMES 0 ltac:(lia) Hin) as [Hb Hn].
  fold (indexOf noteName NOTE_NAMES) in *. rewrite Z.sub_0_r in Hn.
  split; [|exact Hn].
  change (Z.of_nat (List.length NOTE_NAMES)) with 12%Z in Hb. lia.
Qed.

(** Claim C5, the code at +Infinity.  The guard [!freq || freq <= 0] lets
    +Infinity through: the result is not [null] but an object whose note is
    [undefined], whose octave is Infinity and whose cents offset is NaN. *)
Theorem frequencyToNote_PosInf :
  frequencyToNote (Num PosInf) =
  Some {| note := None; octave := PosInf; cents := NaN; freq := Num PosInf |}.
Proof.
  unfold frequencyToNote. cbn [truthy negb orb ToNumber le].
  assert (Hd : div PosInf (Fin 440) = PosInf).
  { cbn [div]. destruct (Rle_dec 0 440); [reflexivity | lra]. }
  rewrite Hd. unfold log2. cbn [log].
  assert (Hm : mul (Fin 12) PosInf = PosInf).
  { cbn [mul]. destruct (Req_dec_T 12 0); [lra|].
    destruct (Rlt_dec 0 12); [reflexivity | lra]. }
  rewrite Hm. cbn [round sub neg add mul rem index].
  assert (Hd2 : div PosInf (Fin 12) = PosInf).
  { cbn [div]. destruct (Rle_dec 0 12); [reflexivity | lra]. }
  rewrite Hd2. reflexivity.
Qed.

(** Claim C10.  For every input that is not a positive number (null,
    undefined, NaN, 0, a negative number, -Infinity), [frequencyToNote]
    returns [null]; the embedding has no path that throws. *)
Theorem frequencyToNote_not_positive (v : value) :
  ~ positive_number v -> frequencyToNote v = None.
Proof.
  intros H. unfold frequencyToNote.
  destruct v as [| |[| | |r]]; cbn [truthy negb orb ToNumber le]; try reflexivity.
  - exfalso. apply H. reflexivity.
  - destruct (Req_dec_T r 0) as [E|E]; [reflexivity|]. cbn [negb orb].
    destruct (Rle_dec r 0) as [L|L]; [reflexivity|].
    exfalso. apply H. cbn. destruct (Rlt_dec 0 r); [reflexivity | lra].
Qed.

(** Claim C10 at [undefined]. *)
Lemma frequencyToNote_not_positive_witness :
  ~ positive_number Undefined /\ frequencyToNote Undefined = None.
Proof.
  split.
  - intros H. exact H.
  - apply (frequencyToNote_not_positive Undefined). intros H. exact H.
Defined.

Lemma semitonesOf_427_5 : - / 2 <= semitonesOf 427.5 < - 0.495.
Proof.
  pose proof ln2_pos as H2.
  unfold semitonesOf.
  replace (427.5 / 440) with (171 / 176) by lra.
  assert (Hq : 0 < 171 / 176) by lra.
  split.
  - (* (171/176)^24 >= 1/2 *)
    assert (Hl : ln (/ 2) <= ln ((171 / 176) ^ 24)).
    { assert (Hc : / 2 <= (171 / 176) ^ 24).
      { apply Rmult_le_reg_r with (176 ^ 24 * 2).
        - apply Rmult_lt_0_compat; [apply pow_lt; lra | lra].
        - unfold Rdiv. rewrite Rpow_mult_distr, pow_inv.
          replace (/ 2 * (176 ^ 24 * 2)) with (176 ^ 24) by (field).
          replace (171 ^ 24 * / 176 ^ 24 * (176 ^ 24 * 2)) with (171 ^ 24 * 2).
          2:{ field; try (apply pow_nonzero; lra). }
          rewrite !pow_IZR, <- mult_IZR. apply IZR_le. vm_compute. discriminate. }
      destruct Hc as [Hc|Hc].
      - left. apply ln_increasing; lra.
      - right. rewrite Hc. reflexivity. }
    rewrite ln_pow in Hl by assumption. rewrite ln_Rinv in Hl by lra.
    rewrite INR_IZR_INZ in Hl. change (IZR (Z.of_nat 24)) with 24 in Hl.
    apply Rmult_le_reg_r with (ln 2); [assumption|].
    unfold Rdiv. rewrite Rmult_assoc, Rmult_assoc, Rinv_l by lra. lra.
  - assert (Hl : ln ((171 / 176) ^ 800) < ln ((/ 2) ^ 33)).
    { apply ln_increasing; [apply pow_lt; assumption|].
      apply Rmult_lt_reg_r with (176 ^ 800 * 2 ^ 33).
      - apply Rmult_lt_0_compat; apply pow_lt; lra.
      - unfold Rdiv. rewrite Rpow_mult_distr, !pow_inv.
        replace (171 ^ 800 * / 176 ^ 800 * (176 ^ 800 * 2 ^ 33)) with (171 ^ 800 * 2 ^ 33).
        2:{ field; try (apply pow_nonzero; lra). }
        replace (/ 2 ^ 33 * (176 ^ 800 * 2 ^ 33)) with (176 ^ 800).
        2:{ field; try (apply pow_nonzero; lra). }
        rewrite !pow_IZR, <- mult_IZR. apply IZR_lt. vm_compute. reflexivity. }
    rewrite !ln_pow in Hl by lra. rewrite ln_Rinv in Hl by lra.
    rewrite !INR_IZR_INZ in Hl. 
    change (IZR (Z.of_nat 800)) with 800 in Hl. change (IZR (Z.of_nat 33)) with 33 in Hl.
    apply Rmult_lt_reg_r with (ln 2); [assumption|].
    unfold Rdiv. rewrite Rmult_assoc, Rmult_assoc, Rinv_l by lra. lra.
Qed.

End ChordsFacts.

Module TuningMeterFacts.
Import TuningMeter TuningMeterSpec.
Local Open Scope Z_scope.

Ltac zone_cases c :=
  unfold tuningStatus, IN_TUNE_THRESHOLD, CLOSE_THRESHOLD; cbn [negb orb];
  destruct (Z.leb_spec (Z.abs c) 5); destruct (Z.leb_spec (Z.abs c) 15).

(** Claim C8, as amended.  [tuningStatus] is "inactive" exactly when the
    flag is false or no note is displayed ([note] is [null]); with the flag
    true and a note displayed it is "in-tune" exactly when |cents| <= 5,
    "close" exactly when 5 < |cents| <= 15 and "off" exactly when
    |cents| > 15: 5 maps to in-tune, 6 and 15 to close, 16 to off. *)
Theorem tuningStatus_zones (cents : Z) (isActive : bool)
    (note : option Chords.NoteReading) :
  (tuningStatus cents isActive note = inactive <->
     isActive = false \/ note = None) /\
  (tuningStatus cents isActive note = in_tune <->
     isActive = true /\ note <> None /\ Z.abs cents <= 5) /\
  (tuningStatus cents isActive note = close <->
     isActive = true /\ note <> None /\ 5 < Z.abs cents <= 15) /\
  (tuningStatus cents isActive note = off <->
     isActive = true /\ note <> None /\ 15 < Z.abs cents) /\
  (forall r, tuningStatus 5 true (Some r) = in_tune /\
             tuningStatus 6 true (Some r) = close /\
             tuningStatus 15 true (Some r) = close /\
             tuningStatus 16 true (Some r) = off).
Proof.
  split; [|split; [|split; [|split]]].
  5: { intros r. repeat split. }
  all: destruct isActive, note as [r|]; zone_cases cents; split; intros Hyp;
    try discriminate Hyp; try reflexivity; try lia;
    try (destruct Hyp as [Hyp|Hyp]; discriminate Hyp);
    try (destruct Hyp as (Ha & Hn & Hc); try discriminate Ha; try lia; congruence);
    try (left; reflexivity); try (right; reflexivity);
    try (repeat split; try discriminate; lia).
Qed.

(** Claim C8, counterexample.  With the flag true, 0 cents and no note
    displayed the component's status is "inactive", where the classifier of
    the claim gives "in-tune". *)
Lemma tuningStatus_null_note_inactive :
  tuningStatus 0 true None = inactive /\
  classifyZone_spec 0 true = in_tune /\
  tuningStatus 0 true None <> classifyZone_spec 0 true.
Proof. repeat split. discriminate. Qed.

End TuningMeterFacts.

Module StringDisplayFacts.
Import JS Chords StringDisplay StringDisplaySpec JSFacts ChordsFacts.
Local Open Scope R_scope.

Lemma nth_error_snoc {A} (l : list A) (x y : A) (j : nat) :
  nth_error (l ++ [x]) j = Some y ->
  nth_error l j = Some y /\ (j < List.length l)%nat \/ j = List.length l /\ y = x.
Proof.
  intros H. destruct (Nat.lt_ge_cases j (List.length l)) as [Hlt|Hge].
  - rewrite nth_error_app1 in H by assumption. left. split; assumption.
  - rewrite nth_error_app2 in H by assumption.
    destruct (j - List.length l)%nat as [|k] eqn:E.
    + cbn in H. injection H as <-. right. split; [lia | reflexivity].
    + cbn in H. destruct k; discriminate.
Qed.

(** ** The standard tuning table *)

Lemma centsR_zero (f : R) (s : TuningEntry) :
  0 < f -> 0 < t_freq s -> (centsR f s = 0 <-> f = t_freq s).
Proof.
  intros Hf Hs. pose proof ln2_pos as H2. unfold centsR. split; intros H.
  - assert (Hl : ln (f / t_freq s) = 0).
    { apply Rmult_eq_reg_r with (/ ln 2); [|apply Rinv_neq_0_compat; lra].
      unfold Rdiv in H. lra. }
    rewrite <- ln_1 in Hl. apply ln_inv in Hl; [| apply Rdiv_lt_0_compat; assumption | lra].
    apply Rmult_eq_reg_r with (/ t_freq s); [|apply Rinv_neq_0_compat; lra].
    rewrite Rinv_r by lra. exact Hl.
  - rewrite H. unfold Rdiv at 2. rewrite Rinv_r by lra. rewrite ln_1. lra.
Qed.

End StringDisplayFacts.

Module PitchFacts.
Import JS Pitch PitchSpec JSFacts.
Local Open Scope R_scope.

(** ** Constant frames *)

Lemma sample_repeat (c : R) (n i : nat) :
  (i < n)%nat -> sample (repeat c n) i = c.
Proof.
  unfold sample. revert i. induction n as [|n IH]; intros i Hi; [lia|].
  destruct i as [|i]; cbn; [reflexivity | apply IH; lia].
Qed.

Lemma sumSquares_repeat (c : R) (n : nat) :
  sumSquares (repeat c n) = INR n * (c * c).
Proof.
  unfold sumSquares.
  assert (H : forall a, fold_left (fun rms x => rms + x * x) (repeat c n) a
                        = a + INR n * (c * c)).
  { induction n as [|n IH]; intros a.
    - cbn. ring.
    - cbn [repeat fold_left]. rewrite IH, S_INR. ring. }
  rewrite H. ring.
Qed.

Lemma accumulate_repeat (c : R) (n lag : nat) (l : list nat) :
  (forall i, In i l -> (i + lag < n)%nat) ->
  forall a b d,
    fold_left (accumulate (repeat c n) lag) l (a, b, d) =
    (a + INR (List.length l) * (c * c),
     b + INR (List.length l) * (c * c),
     d + INR (List.length l) * (c * c)).
Proof.
  induction l as [|i l IH]; intros Hl a b d.
  - cbn. f_equal; [f_equal|]; ring.
  - cbn [fold_left]. unfold accumulate at 2.
    assert (Hi : (i + lag < n)%nat) by (apply Hl; left; reflexivity).
    rewrite !sample_repeat by lia.
    rewrite IH by (intros j Hj; apply Hl; right; exact Hj).
    cbn [List.length]. rewrite S_INR. f_equal; [f_equal|]; ring.
Qed.

Lemma innerSums_repeat (c : R) (n lag : nat) :
  innerSums (repeat c n) lag =
  (INR (n - lag) * (c * c), INR (n - lag) * (c * c), INR (n - lag) * (c * c)).
Proof.
  unfold innerSums. rewrite repeat_length.
  rewrite accumulate_repeat.
  - rewrite length_seq. f_equal; [f_equal|]; ring.
  - intros i Hi. apply in_seq in Hi. lia.
Qed.

Lemma correlationAt_repeat (c : R) (n lag : nat) :
  c <> 0 -> (lag < n)%nat -> correlationAt (repeat c n) lag = 1.
Proof.
  intros Hc Hlag. unfold correlationAt. rewrite innerSums_repeat.
  set (S := INR (n - lag) * (c * c)).
  assert (HS : 0 < S).
  { unfold S. apply Rmult_lt_0_compat.
    - apply lt_0_INR. lia.
    - nra. }
  rewrite sqrt_square by lra.
  destruct (Rlt_dec 0 S) as [_|Hn]; [|contradiction].
  field. lra.
Qed.

(** ** The typed array *)

Lemma length_store (arr : list R) (i : nat) (v : R) :
  List.length (store arr i v) = List.length arr.
Proof.
  revert i. induction arr as [|x arr IH]; intros [|i]; cbn; auto.
Qed.

Lemma nth_store_same (arr : list R) (i : nat) (v : R) :
  (i < List.length arr)%nat -> nth i (store arr i v) 0 = v.
Proof.
  revert i. induction arr as [|x arr IH]; intros [|i] H; cbn in *;
    try lia; [reflexivity | apply IH; lia].
Qed.

Lemma nth_store_other (arr : list R) (i j : nat) (v : R) :
  i <> j -> nth j (store arr i v) 0 = nth j arr 0.
Proof.
  revert i j. induction arr as [|x arr IH]; intros [|i] [|j] H; cbn;
    try reflexivity; try lia. apply IH. lia.
Qed.

(** The search on a constant frame once the best correlation is 1:
    every later lag correlates at 1 too, and none replaces the best. *)
Lemma search_constant (c : R) (n : nat) :
  c <> 0 ->
  forall ls s,
    bestCorrelation s = 1 ->
    (forall l, In l ls -> (l < n)%nat) ->
    List.length (correlations s) = n ->
    let s' := fold_left (searchStep (repeat c n)) ls s in
    bestCorrelation s' = 1 /\
    bestPeriod s' = bestPeriod s /\
    (forall j, In j ls -> nth j (correlations s') 0 = 1) /\
    (forall j, ~ In j ls -> nth j (correlations s') 0 = nth j (correlations s) 0).
Proof.
  intros Hc. induction ls as [|l ls IH]; intros s Hb Hls Hlen; cbv zeta.
  - cbn. split_ands; auto. intros j [].
  - cbn [fold_left].
    set (s1 := searchStep (repeat c n) s l).
    assert (Hl : (l < n)%nat) by (apply Hls; left; reflexivity).
    assert (Hs1 : s1 = {| bestCorrelation := 1; bestPeriod := bestPeriod s;
                          correlations := store (correlations s) l 1 |}).
    { unfold s1, searchStep. rewrite correlationAt_repeat by assumption.
      rewrite Hb. destruct (Rlt_dec 1 1); [lra | reflexivity]. }
    destruct (IH s1) as (H1 & H2 & H3 & H4).
    + rewrite Hs1. reflexivity.
    + intros l' Hl'. apply Hls. right. exact Hl'.
    + rewrite Hs1. cbn. rewrite length_store. exact Hlen.
    + split_ands.
      * exact H1.
      * rewrite H2, Hs1. reflexivity.
      * intros j Hj. destruct (in_dec Nat.eq_dec j ls) as [Hin|Hout].
        -- apply H3. exact Hin.
        -- destruct Hj as [<-|Hj]; [|contradiction].
           rewrite H4 by assumption. rewrite Hs1. cbn.
           apply nth_store_same. lia.
      * intros j Hj. rewrite H4 by (intros Hin; apply Hj; right; exact Hin).
        rewrite Hs1. cbn. apply nth_store_other.
        intros ->. apply Hj. left. reflexivity.
Qed.

(** ** A frame of 4096 samples, all 0.5, at 44100 Hz *)

Lemma searchStep_first (c : R) (n lag : nat) :
  c <> 0 -> (lag < n)%nat ->
  searchStep (repeat c n) (searchStart n) lag =
  {| bestCorrelation := 1; bestPeriod := lag;
     correlations := store (repeat 0 n) lag 1 |}.
Proof.
  intros Hc Hl. unfold searchStep. rewrite correlationAt_repeat by assumption.
  unfold searchStart. cbn [bestCorrelation correlations].
  destruct (Rlt_dec (-1) 1); [reflexivity | lra].
Qed.

(** On a constant frame the first lag wins at correlation 1, and of its
    two neighbours the later one has been visited (and correlates at 1)
    while the earlier one has not. *)
Lemma search_constant_first (c : R) (n lag : nat) (ls : list nat) :
  c <> 0 -> (0 < lag)%nat -> (S lag < n)%nat ->
  (forall l, In l ls -> (lag < l < n)%nat) -> In (S lag) ls ->
  let s := fold_left (searchStep (repeat c n)) (lag :: ls) (searchStart n) in
  bestCorrelation s = 1 /\ bestPeriod s = lag /\
  nth (lag - 1) (correlations s) 0 = 0 /\
  nth lag (correlations s) 0 = 1 /\
  nth (lag + 1) (correlations s) 0 = 1.
Proof.
  intros Hc Hlag Hn Hls Hin. cbv zeta. cbn [fold_left].
  rewrite searchStep_first by (try assumption; lia).
  destruct (search_constant c n Hc ls
              {| bestCorrelation := 1; bestPeriod := lag;
                 correlations := store (repeat 0 n) lag 1 |})
    as (H1 & H2 & H3 & H4).
  - reflexivity.
  - intros l Hl. apply Hls in Hl. lia.
  - cbn [correlations]. rewrite length_store, repeat_length. reflexivity.
  - cbn [bestPeriod correlations] in *. split_ands.
    + exact H1.
    + exact H2.
    + rewrite H4 by (intros Hl; apply Hls in Hl; lia).
      rewrite nth_store_other by lia. apply nth_repeat.
    + rewrite H4 by (intros Hl; apply Hls in Hl; lia).
      apply nth_store_same. rewrite repeat_length. lia.
    + apply H3. replace (lag + 1)%nat with (S lag) by lia. exact Hin.
Qed.

Lemma ln10_pos : 0 < ln 10.
Proof. rewrite <- ln_1. apply ln_increasing; lra. Qed.

End PitchFacts.

Module TunerFacts.
Import Tuner TunerSpec.
Local Open Scope Z_scope.

Lemma holds_other st k k' :
  noteHoldBuffer st = Some k -> k' <> k -> holds st k' = false.
Proof.
  intros H Hne. unfold holds. rewrite H.
  destruct (String.eqb_spec k k'); [congruence | reflexivity].
Qed.

Lemma step_flicker st k t t' d f :
  holding k t st -> noteKeyOf d <> k -> t <= t' < t + 80 ->
  holding (noteKeyOf d) t' (step st (t', Some (d, f))).
Proof.
  intros (Hd & Hb & Ht) Hne Hlt. unfold step.
  assert (Ha : advance t' st = st).
  { unfold advance. destruct (timeout st) as [to|]; [|reflexivity].
    destruct (Z.leb_spec (due to) t'); [lia | reflexivity]. }
  rewrite Ha. unfold effect.
  rewrite (holds_other (clearTimeout st) k) by assumption.
  unfold holding. cbn. auto.
Qed.

Lemma flickers_never_displayed events :
  forall st k t, holding k t st -> flickers k t events ->
                 displayNote (fold_left step events st) = None.
Proof.
  induction events as [|[t' [[d f]|]] rest IH]; intros st k t Hh Hf.
  - apply Hh.
  - destruct Hf as (Hne & Hlt & Hrest). cbn [fold_left].
    apply (IH _ (noteKeyOf d) t'); [|exact Hrest].
    apply step_flicker with (k := k) (t := t); assumption.
  - contradiction.
Qed.

(** Detections that change key every time, less than 80 ms apart, display
    nothing. *)
Lemma alternating_never_displayed t d f events :
  flickers (noteKeyOf d) t events ->
  displayNote (feed ((t, Some (d, f)) :: events)) = None.
Proof.
  intros Hf. unfold feed. cbn [fold_left].
  apply (flickers_never_displayed events _ (noteKeyOf d) t); [|exact Hf].
  unfold holding. cbn. auto.
Qed.

(** Claim C2, the code on two detections 16 ms apart.  From the initial
    state a first detection of A4 at time 1000 displays nothing; a second
    detection of the same key at time 1016 is displayed at once, 16 ms after
    the key was first seen and not after the 80 ms the claim requires. *)
Theorem second_detection_displays_before_hold_window :
  let st := feed [(1000, Some (A4, 440%Q)); (1016, Some (A4_sharp3, 441%Q))] in
  displayNote (feed [(1000, Some (A4, 440%Q))]) = None /\
  displayNote st = Some A4_sharp3 /\
  lastNoteTime st = 1000 /\
  1016 - lastNoteTime st < 80.
Proof. cbv zeta. repeat split. Qed.

(** Any second detection of the held key is displayed at once, however
    soon after the first. *)
Lemma repeated_key_displays_at_once t t' d d' f f' :
  noteKeyOf d' = noteKeyOf d -> t <= t' < t + 80 ->
  displayNote (feed [(t, Some (d, f)); (t', Some (d', f'))]) = Some d'.
Proof.
  intros Hk Hlt. unfold feed. cbn [fold_left]. unfold step at 2.
  cbn [advance initial timeout clearTimeout effect displayNote displayCents
       displayFreq lastNoteTime noteHoldBuffer holds].
  unfold step.
  set (st1 := setTimeout _ _ _).
  assert (Ha : advance t' st1 = st1).
  { unfold advance, st1. cbn. destruct (Z.leb_spec (t + 80) t'); [lia | reflexivity]. }
  rewrite Ha. unfold effect.
  assert (Hh : holds (clearTimeout st1) (noteKeyOf d') = true).
  { unfold holds, st1. cbn. rewrite Hk. apply String.eqb_refl. }
  rewrite Hh. reflexivity.
Qed.

End TunerFacts.

Module MetronomeFacts.
Import Metronome MetronomeSpec.
Local Open Scope Q_scope.

(** Claim C3, the code on [start()] while running.  After [start()] at
    time 0 and [start()] again at time 1 two scheduler timeouts are pending
    (with [stop()] in between there is one); the hook refers to the second
    only; each of the two emits clicks when it fires at time 1.5; and a
    [stop()] then still leaves one scheduler pending. *)
Theorem start_while_running_leaves_two_schedulers :
  exists st st',
    startedTwice = Some st /\ restarted = Some st' /\
    List.length (timers st') = 1%nat /\
    List.length (timers st) = 2%nat /\
    timerRef st = Some 1%nat /\
    (exists s, pendingTimer 0 st = Some s) /\
    (exists s, pendingTimer 1 st = Some s) /\
    (exists st1, fire 10 (3 # 2) 0 st = Some st1 /\
                 List.length (clicks st1) = 3%nat) /\
    (exists st1, fire 10 (3 # 2) 1 st = Some st1 /\
                 List.length (clicks st1) = 1%nat) /\
    List.length (timers (stop (3 # 2) st)) = 1%nat.
Proof.
  eexists. eexists.
  split; [vm_compute; reflexivity|].
  split; [vm_compute; reflexivity|].
  split; [reflexivity|]. split; [reflexivity|]. split; [reflexivity|].
  split; [eexists; vm_compute; reflexivity|].
  split; [eexists; vm_compute; reflexivity|].
  split; [eexists; split; [vm_compute; reflexivity | reflexivity]|].
  split; [eexists; split; [vm_compute; reflexivity | reflexivity]|].
  reflexivity.
Qed.

End MetronomeFacts.

Module NoteFacts.
Import JS Chords ChordsSpec JSFacts ChordsFacts.
Local Open Scope R_scope.

Lemma indexOf_from_absent x arr i :
  ~ In x arr -> indexOf_from x arr i = (-1)%Z.
Proof.
  revert i. induction arr as [|y rest IH]; intros i Hn; [reflexivity|].
  cbn [indexOf_from]. destruct (String.eqb_spec y x) as [->|_].
  - exfalso. apply Hn. left. reflexivity.
  - apply IH. intros H. apply Hn. right. exact H.
Qed.

(** The note index the source computes is the residue of [k + 9]. *)
Lemma noteIndex_mod (k : Z) : Z.rem (Z.rem k 12 + 12 + 9) 12 = ((k + 9) mod 12)%Z.
Proof.
  pose proof (Z.rem_bound_abs k 12 ltac:(lia)).
  rewrite Z.rem_mod_nonneg by lia.
  pose proof (Z.quot_rem' k 12) as Hq.
  replace (Z.rem k 12 + 12 + 9)%Z with (k + 9 + (1 - Z.quot k 12) * 12)%Z by lia.
  apply Z.mod_add. lia.
Qed.



Lemma NOTE_NAMES_indexOf (i : nat) (n : string) :
  nth_error NOTE_NAMES i = Some n -> indexOf n NOTE_NAMES = Z.of_nat i.
Proof.
  intros H. unfold NOTE_NAMES in *.
  do 12 (destruct i as [|i]; [injection H as <-; reflexivity|]).
  destruct i; discriminate H.
Qed.

End NoteFacts.

Module TuningTableFacts.
Import JS Chords ChordsSpec TuningTableSpec JSFacts ChordsFacts NoteFacts.
Local Open Scope R_scope.

Lemma ln_le_pred (x : R) : 0 < x -> ln x <= x - 1.
Proof.
  intros Hx. pose proof (exp_ineq1_le (x - 1)) as H.
  replace (1 + (x - 1)) with x in H by ring.
  destruct H as [H|H].
  - left. rewrite <- (ln_exp (x - 1)). apply ln_increasing; assumption.
  - right. rewrite H at 1. apply ln_exp.
Qed.

(** A frequency [440 * P / Q] whose 12th power is within a quarter of a
    percent of [2^(-j)] is [j] semitones below A4, to less than half a
    cent. *)
Lemma reads_below_A4 (f : R) (P Q : Z) (j : nat) :
  (0 < P)%Z -> (0 < Q)%Z -> f / 440 = IZR P / IZR Q ->
  (400 * (2 ^ Z.of_nat j * P ^ 12) < 401 * Q ^ 12)%Z ->
  (400 * Q ^ 12 < 401 * (2 ^ Z.of_nat j * P ^ 12))%Z ->
  roundedOf f = (- Z.of_nat j)%Z /\ centsOf f = 0%Z.
Proof.
  intros HP HQ Hf Hhi Hlo.
  pose proof ln_lt_2 as H2.
  assert (HPR : 0 < IZR P) by (apply IZR_lt; assumption).
  assert (HQR : 0 < IZR Q) by (apply IZR_lt; assumption).
  set (x := IZR P / IZR Q) in *.
  assert (Hx : 0 < x) by (apply Rdiv_lt_0_compat; assumption).
  set (rho := 2 ^ j * x ^ 12).
  assert (Hrho : 0 < rho).
  { apply Rmult_lt_0_compat; apply pow_lt; lra. }
  assert (Hq12 : 0 < IZR Q ^ 12) by (apply pow_lt; assumption).
  assert (Hrq : rho * IZR Q ^ 12 = 2 ^ j * IZR P ^ 12).
  { unfold rho, x, Rdiv. rewrite Rpow_mult_distr, pow_inv. field. lra. }
  apply IZR_lt in Hhi, Hlo.
  rewrite !mult_IZR in Hhi, Hlo.
  change 12%Z with (Z.of_nat 12) in Hhi, Hlo.
  rewrite <- !pow_IZR in Hhi, Hlo. rewrite <- Hrq in Hhi, Hlo.
  assert (Hup : rho < 401 / 400).
  { apply Rmult_lt_reg_r with (IZR Q ^ 12); [assumption|]. lra. }
  assert (Hdn : / rho < 401 / 400).
  { apply Rmult_lt_reg_r with (rho * IZR Q ^ 12);
      [apply Rmult_lt_0_compat; assumption|].
    replace (/ rho * (rho * IZR Q ^ 12)) with (IZR Q ^ 12) by (field; lra).
    lra. }
  pose proof (ln_le_pred rho Hrho) as L1.
  pose proof (ln_le_pred (/ rho) (Rinv_0_lt_compat _ Hrho)) as L2.
  rewrite ln_Rinv in L2 by assumption.
  assert (Hl : ln rho = INR j * ln 2 + 12 * ln x).
  { unfold rho. rewrite ln_mult, !ln_pow by (try lra; apply pow_lt; lra).
    rewrite (INR_IZR_INZ 12). change (IZR (Z.of_nat 12)) with 12. ring. }
  assert (Hs : semitonesOf f = ln rho / ln 2 - INR j).
  { unfold semitonesOf. rewrite Hf, Hl. field. lra. }
  assert (Hb : - / 200 < ln rho / ln 2 < / 200).
  { split.
    - apply Rmult_lt_reg_r with (ln 2); [lra|].
      unfold Rdiv. rewrite Rmult_assoc, Rinv_l by lra. nra.
    - apply Rmult_lt_reg_r with (ln 2); [lra|].
      unfold Rdiv. rewrite Rmult_assoc, Rinv_l by lra. nra. }
  assert (Hr : roundedOf f = (- Z.of_nat j)%Z).
  { unfold roundedOf. apply Zfloor_eq. rewrite Hs, opp_IZR, <- INR_IZR_INZ. lra. }
  split; [exact Hr|].
  unfold centsOf. rewrite Hr. apply Zfloor_eq.
  rewrite Hs, opp_IZR, <- INR_IZR_INZ. cbn [IZR]. lra.
Qed.

Lemma string_low_E_semitones : roundedOf 82.41 = (- 29)%Z /\ centsOf 82.41 = 0%Z.
Proof.
  apply (reads_below_A4 82.41 8241 44000 29);
    [lia | lia | lra | vm_compute; reflexivity | vm_compute; reflexivity].
Qed.

Lemma string_A_semitones : roundedOf 110.0 = (- 24)%Z /\ centsOf 110.0 = 0%Z.
Proof.
  apply (reads_below_A4 110.0 1 4 24);
    [lia | lia | lra | vm_compute; reflexivity | vm_compute; reflexivity].
Qed.

Lemma string_D_semitones : roundedOf 146.83 = (- 19)%Z /\ centsOf 146.83 = 0%Z.
Proof.
  apply (reads_below_A4 146.83 14683 44000 19);
    [lia | lia | lra | vm_compute; reflexivity | vm_compute; reflexivity].
Qed.

Lemma string_G_semitones : roundedOf 196.0 = (- 14)%Z /\ centsOf 196.0 = 0%Z.
Proof.
  apply (reads_below_A4 196.0 49 110 14);
    [lia | lia | lra | vm_compute; reflexivity | vm_compute; reflexivity].
Qed.

Lemma string_B_semitones : roundedOf 246.94 = (- 10)%Z /\ centsOf 246.94 = 0%Z.
Proof.
  apply (reads_below_A4 246.94 12347 22000 10);
    [lia | lia | lra | vm_compute; reflexivity | vm_compute; reflexivity].
Qed.

Lemma string_high_E_semitones : roundedOf 329.63 = (- 5)%Z /\ centsOf 329.63 = 0%Z.
Proof.
  apply (reads_below_A4 329.63 32963 44000 5);
    [lia | lia | lra | vm_compute; reflexivity | vm_compute; reflexivity].
Qed.

(** Extra X5.  The standard tuning table reads as its own notes.  For each
    of the six rows, [frequencyToNote] reads the row's frequency as the
    row's note name, in the octave of that open string (E2, A2, D3, G3,
    B3, E4), at 0 cents. *)
Theorem STANDARD_TUNING_reads_as_its_notes :
  Forall2
    (fun s o =>
       exists r, frequencyToNote (Num (Fin (t_freq s))) = Some r /\
                 note r = Some (t_note s) /\
                 octave r = Fin (IZR o) /\
                 cents r = Fin 0)
    STANDARD_TUNING openStringOctaves.
Proof.
  unfold STANDARD_TUNING, openStringOctaves.
  repeat constructor; cbn [t_freq t_note];
    rewrite frequencyToNote_pos by lra;
    eexists; (split; [reflexivity|]); cbn [note octave cents].
  - destruct string_low_E_semitones as [-> ->]. split_ands; reflexivity.
  - destruct string_A_semitones as [-> ->]. split_ands; reflexivity.
  - destruct string_D_semitones as [-> ->]. split_ands; reflexivity.
  - destruct string_G_semitones as [-> ->]. split_ands; reflexivity.
  - destruct string_B_semitones as [-> ->]. split_ands; reflexivity.
  - destruct string_high_E_semitones as [-> ->]. split_ands; reflexivity.
Qed.

End TuningTableFacts.

Module GaugeFacts.
Import JS Chords ChordsSpec ChordsFacts TuningMeter Gauge.
Local Open Scope R_scope.

Lemma needleAngle_active (cents : Z) (r : NoteReading) :
  needleAngle cents true (Some r) = 12 / 5 * IZR (clampedCents cents).
Proof.
  unfold needleAngle, startAngle, totalArcDeg, endAngle, startAngle.
  cbn [andb]. field.
Qed.

Lemma clampedCents_range (cents : Z) : (-50 <= clampedCents cents <= 50)%Z.
Proof. unfold clampedCents. lia. Qed.

Lemma clampedCents_id (cents : Z) :
  (-50 <= cents <= 50)%Z -> clampedCents cents = cents.
Proof. unfold clampedCents. lia. Qed.

Lemma tuningStatus_active (cents : Z) (r : NoteReading) :
  tuningStatus cents true (Some r) =
  if (Z.abs cents <=? 5)%Z then in_tune
  else if (Z.abs cents <=? 15)%Z then close else off.
Proof. reflexivity. Qed.

(** Extra X7.  The label under the meter agrees with the status and with
    the sign of the offset: "Play a string" exactly when the status is
    "inactive", "In Tune!" exactly when it is "in-tune", "Tune Up" exactly
    when a displayed note is more than 5 cents flat and "Tune Down" exactly
    when it is more than 5 cents sharp; the needle is then left,
    respectively right, of the 12 degree band. *)
Theorem statusLabel_agrees_with_status (cents : Z) (isActive : bool)
    (note : option NoteReading) :
  (statusLabel cents isActive note = "Play a string"%string <->
     tuningStatus cents isActive note = inactive) /\
  (statusLabel cents isActive note = "In Tune!"%string <->
     tuningStatus cents isActive note = in_tune) /\
  (statusLabel cents isActive note = "Tune Up ↑"%string <->
     isActive = true /\ note <> None /\ (cents < -5)%Z) /\
  (statusLabel cents isActive note = "Tune Down ↓"%string <->
     isActive = true /\ note <> None /\ (5 < cents)%Z) /\
  (statusLabel cents isActive note = "Tune Up ↑"%string ->
     needleAngle cents isActive note < -12) /\
  (statusLabel cents isActive note = "Tune Down ↓"%string ->
     12 < needleAngle cents isActive note).
Proof.
  destruct isActive, note as [r|];
    try (cbn; split_ands; try (split; intros H); try intros H;
         try discriminate H; try reflexivity;
         destruct H as (H1 & H2 & _); congruence).
  rewrite needleAngle_active.
  unfold statusLabel. cbn [negb orb]. rewrite tuningStatus_active.
  assert (Hc : (-50 <= clampedCents cents <= 50)%Z) by apply clampedCents_range.
  destruct (Z.leb_spec (Z.abs cents) 5) as [H|H].
  - split_ands; try (split; intros H'); try intros H';
      try discriminate H'; try reflexivity;
      destruct H' as (_ & _ & H'); lia.
  - assert (Hs : (if (Z.abs cents <=? 15)%Z then close else off) <> inactive /\
                 (if (Z.abs cents <=? 15)%Z then close else off) <> in_tune)
      by (destruct (Z.abs cents <=? 15)%Z; split; discriminate).
    destruct Hs as [Hs1 Hs2].
    assert (Hl : (match (if (Z.abs cents <=? 15)%Z then close else off) with
                  | in_tune => "In Tune!"%string
                  | _ => if (cents <? 0)%Z then "Tune Up ↑"%string
                         else "Tune Down ↓"%string
                  end) = if (cents <? 0)%Z then "Tune Up ↑"%string
                         else "Tune Down ↓"%string)
      by (destruct (Z.abs cents <=? 15)%Z; reflexivity).
    rewrite Hl.
    destruct (Z.ltb_spec cents 0) as [Hn|Hn].
    + assert (H' : (clampedCents cents <= -6)%Z) by (unfold clampedCents; lia).
      apply IZR_le in H'.
      split_ands; try (split; intros H''); try intros H'';
        try discriminate H''; try reflexivity; try congruence; try lra.
      * split_ands; [reflexivity|discriminate|lia].
      * destruct H'' as (_ & _ & H''); lia.
    + assert (H' : (6 <= clampedCents cents)%Z) by (unfold clampedCents; lia).
      apply IZR_le in H'.
      split_ands; try (split; intros H''); try intros H'';
        try discriminate H''; try reflexivity; try congruence; try lra.
      * destruct H'' as (_ & _ & H''); lia.
      * split_ands; [reflexivity|discriminate|lia].
Qed.

End GaugeFacts.

Module StringCardFacts.
Import JS Chords StringDisplay StringDisplaySpec StringCard JSFacts StringDisplayFacts.
Local Open Scope R_scope.

Lemma floor_half_abs_le_5 (x : R) :
  Rabs (IZR (Zfloor (x + / 2))) <= 5 <-> - (11 / 2) <= x < 11 / 2.
Proof.
  pose proof (Zfloor_bound (x + / 2)) as [B1 B2].
  rewrite <- abs_IZR. split.
  - intros H. apply le_IZR in H.
    assert (H1 : (-5 <= Zfloor (x + / 2))%Z) by lia.
    assert (H2 : (Zfloor (x + / 2) <= 5)%Z) by lia.
    apply IZR_le in H1, H2. lra.
  - intros [H1 H2]. apply IZR_le.
    assert (L : (-5 <= Zfloor (x + / 2))%Z) by (apply Zfloor_lub; lra).
    assert (U : (Zfloor (x + / 2) < 6)%Z) by (apply lt_IZR; lra).
    lia.
Qed.

Lemma floor_half_neg (x : R) :
  IZR (Zfloor (x + / 2)) < 0 <-> x < - / 2.
Proof.
  pose proof (Zfloor_bound (x + / 2)) as [B1 B2]. split.
  - intros H. apply lt_IZR in H.
    assert (H1 : (Zfloor (x + / 2) <= -1)%Z) by lia.
    apply IZR_le in H1. lra.
  - intros H. lra.
Qed.

End StringCardFacts.

Module FretboardDiagramFacts.
Import ChordLibrary FretboardDiagram FretboardDiagramSpec.
Local Open Scope Z_scope.

Lemma fold_min_spec (fs : list Z) (f : Z) :
  In (fold_left Z.min fs f) (f :: fs) /\
  forall a, In a (f :: fs) -> fold_left Z.min fs f <= a.
Proof.
  revert f. induction fs as [|g fs IH]; intros f; cbn [fold_left].
  - split; [left; reflexivity|]. intros a [<-|[]]. lia.
  - destruct (IH (Z.min f g)) as [Hin Hle]. split.
    + destruct Hin as [E|Hin]; [|right; right; exact Hin].
      rewrite <- E. destruct (Z.min_spec f g) as [[_ ->]|[_ ->]];
        [left|right; left]; reflexivity.
    + intros a [<-|[<-|Ha]].
      * specialize (Hle (Z.min f g) (or_introl eq_refl)). lia.
      * specialize (Hle (Z.min f g) (or_introl eq_refl)). lia.
      * apply Hle. right. exact Ha.
Qed.

Lemma fold_max_spec (fs : list Z) (f : Z) :
  In (fold_left Z.max fs f) (f :: fs) /\
  forall a, In a (f :: fs) -> a <= fold_left Z.max fs f.
Proof.
  revert f. induction fs as [|g fs IH]; intros f; cbn [fold_left].
  - split; [left; reflexivity|]. intros a [<-|[]]. lia.
  - destruct (IH (Z.max f g)) as [Hin Hle]. split.
    + destruct Hin as [E|Hin]; [|right; right; exact Hin].
      rewrite <- E. destruct (Z.max_spec f g) as [[_ ->]|[_ ->]];
        [right; left|left]; reflexivity.
    + intros a [<-|[<-|Ha]].
      * specialize (Hle (Z.max f g) (or_introl eq_refl)). lia.
      * specialize (Hle (Z.max f g) (or_introl eq_refl)). lia.
      * apply Hle. right. exact Ha.
Qed.

Lemma fold_nat_min_le (l : list nat) (i : nat) :
  forall a, In a (i :: l) -> (fold_left Nat.min l i <= a)%nat.
Proof.
  revert i. induction l as [|j l IH]; intros i; cbn [fold_left].
  - intros a [<-|[]]. lia.
  - intros a [<-|[<-|Ha]].
    + specialize (IH (Nat.min i j) _ (or_introl eq_refl)). lia.
    + specialize (IH (Nat.min i j) _ (or_introl eq_refl)). lia.
    + apply IH. right. exact Ha.
Qed.

Lemma fold_nat_max_ge (l : list nat) (i : nat) :
  forall a, In a (i :: l) -> (a <= fold_left Nat.max l i)%nat.
Proof.
  revert i. induction l as [|j l IH]; intros i; cbn [fold_left].
  - intros a [<-|[]]. lia.
  - intros a [<-|[<-|Ha]].
    + specialize (IH (Nat.max i j) _ (or_introl eq_refl)). lia.
    + specialize (IH (Nat.max i j) _ (or_introl eq_refl)). lia.
    + apply IH. right. exact Ha.
Qed.

Lemma firstOf_le (l : list nat) (a : nat) : In a l -> (firstOf l <= a)%nat.
Proof. destruct l as [|i l]; [intros []|]. apply fold_nat_min_le. Qed.

Lemma lastOf_ge (l : list nat) (a : nat) : In a l -> (a <= lastOf l)%nat.
Proof. destruct l as [|i l]; [intros []|]. apply fold_nat_max_ge. Qed.

(** A fretted string lies between the lowest and the highest played fret. *)
Lemma played_between (chord : Chord) (i : nat) (fret : Z) :
  nth_error (strings chord) i = Some fret -> 0 < fret ->
  minFret chord <= fret <= maxFret chord.
Proof.
  intros Hi Hf.
  assert (Hin : In fret (playedFrets chord)).
  { unfold playedFrets. apply filter_In. split.
    - apply nth_error_In with i. exact Hi.
    - apply Z.ltb_lt. exact Hf. }
  unfold minFret, maxFret.
  destruct (playedFrets chord) as [|f fs]; [destruct Hin|].
  split.
  - apply (proj2 (fold_min_spec fs f)). exact Hin.
  - apply (proj2 (fold_max_spec fs f)). exact Hin.
Qed.

(** The lowest played fret is positive. *)
Lemma minFret_pos (chord : Chord) : 0 < minFret chord.
Proof.
  unfold minFret.
  destruct (playedFrets chord) as [|f fs] eqn:E; [lia|].
  destruct (fold_min_spec fs f) as [Hin _]. rewrite <- E in Hin.
  unfold playedFrets in Hin. apply filter_In in Hin.
  apply Z.ltb_lt. exact (proj2 Hin).
Qed.

Lemma startFret_pos (chord : Chord) : 0 < startFret chord.
Proof.
  unfold startFret. destruct (higherPosition chord); [apply minFret_pos|lia].
Qed.

(** A chord that spans at most four frets has every fretted string inside
    the window. *)
Lemma fretted_in_window (chord : Chord) (i : nat) (fret : Z) :
  nth_error (strings chord) i = Some fret -> 0 < fret ->
  maxFret chord - minFret chord <= 3 ->
  startFret chord <= fret < endFret chord.
Proof.
  intros Hi Hf Hspan.
  pose proof (played_between chord i fret Hi Hf) as [Hlo Hhi].
  unfold endFret, startFret, fretsToShow.
  destruct (higherPosition chord) eqn:E; [lia|].
  unfold higherPosition in E. apply orb_false_iff in E. destruct E as [E _].
  apply Z.ltb_ge in E. lia.
Qed.

Lemma barreStrings_In (chord : Chord) (i : nat) :
  In i (barreStrings chord) <->
  barreAt chord <> 0 /\ (i < 6)%nat /\
  nth_error (strings chord) i = Some (barreAt chord) /\
  nth_error (fingers chord) i = Some 1.
Proof.
  unfold barreStrings.
  destruct (Z.eqb_spec (barreAt chord) 0) as [E|E].
  - split; [intros []|]. intros [H _]. contradiction.
  - rewrite filter_In, in_seq. split.
    + intros [[_ Hi] H]. split_ands; try assumption.
      * destruct (nth_error (strings chord) i) as [s|]; [|discriminate].
        destruct (nth_error (fingers chord) i) as [g|]; [|discriminate].
        apply andb_true_iff in H. destruct H as [H _].
        apply Z.eqb_eq in H. congruence.
      * destruct (nth_error (strings chord) i) as [s|]; [|discriminate].
        destruct (nth_error (fingers chord) i) as [g|]; [|discriminate].
        apply andb_true_iff in H. destruct H as [_ H].
        apply Z.eqb_eq in H. congruence.
    + intros (_ & Hi & Hs & Hg). split; [lia|].
      rewrite Hs, Hg, Z.eqb_refl. reflexivity.
Qed.

Local Open Scope R_scope.

Lemma fretSpacing_pos (compact : bool) : 0 < fretSpacing compact.
Proof.
  unfold fretSpacing, diagramHeight, totalHeight, paddingTop, paddingBottom,
    fretsToShow.
  destruct compact; lra.
Qed.

Lemma dotRadius_pos (compact : bool) : 0 < dotRadius compact.
Proof. unfold dotRadius. destruct compact; lra. Qed.

Lemma stringX_mono (width : R) (i j : nat) :
  40 <= width -> (i <= j)%nat -> stringX width i <= stringX width j.
Proof.
  intros Hw Hij. unfold stringX.
  assert (Hs : 0 <= stringSpacing width).
  { unfold stringSpacing, diagramWidth, paddingLeft, paddingRight. lra. }
  apply le_INR in Hij. nra.
Qed.

(** What [dot] returns for a fretted string inside the window. *)
Lemma dot_in_window (chord : Chord) (width : R) (compact showFingers : bool)
    (fret : Z) (i : nat) :
  (0 < fret)%Z -> (startFret chord <= fret < endFret chord)%Z ->
  dot chord width compact showFingers fret i =
  if isBarreString chord fret i &&
     (2 <=? Z.of_nat (List.length (barreStrings chord)))%Z
  then None
  else
    Some {| cx := stringX width i;
            cy := fretY chord compact fret;
            radius := dotRadius compact;
            fingerLabel :=
              match nth_error (fingers chord) i with
              | Some g =>
                  if showFingers && (0 <? g)%Z && negb (isBarreString chord fret i)
                  then Some g else None
              | None => None
              end |}.
Proof.
  intros Hf [Hlo Hhi]. unfold dot.
  destruct (Z.leb_spec fret 0); [lia|].
  destruct (Z.ltb_spec fret (startFret chord)); [lia|].
  destruct (Z.leb_spec (endFret chord) fret); [lia|].
  reflexivity.
Qed.

(** A dot is only drawn for a fretted string inside the window. *)
Lemma dot_some (chord : Chord) (width : R) (compact showFingers : bool)
    (fret : Z) (i : nat) (d : Dot) :
  dot chord width compact showFingers fret i = Some d ->
  (0 < fret)%Z /\ (startFret chord <= fret < endFret chord)%Z /\
  cx d = stringX width i /\ cy d = fretY chord compact fret /\
  radius d = dotRadius compact.
Proof.
  unfold dot.
  destruct (Z.leb_spec fret 0); [discriminate|].
  destruct (Z.ltb_spec fret (startFret chord)); [discriminate|].
  destruct (Z.leb_spec (endFret chord) fret); [discriminate|].
  cbn [orb].
  destruct (isBarreString chord fret i &&
            (2 <=? Z.of_nat (List.length (barreStrings chord)))%Z);
    [discriminate|].
  intros Hd. injection Hd as <-. cbn [cx cy radius].
  split_ands; try lia; reflexivity.
Qed.

(** A drawn barre covers each of its strings. *)
Lemma barre_covers (chord : Chord) (width : R) (compact : bool) (i : nat) :
  40 <= width -> barreDrawn chord = true -> In i (barreStrings chord) ->
  exists b, barre chord width compact = Some b /\
            inside (stringX width i) (fretY chord compact (barreAt chord)) b.
Proof.
  intros Hw Hd Hin. unfold barre. rewrite Hd.
  eexists. split; [reflexivity|].
  unfold inside. cbn [x y rectWidth rectHeight].
  pose proof (dotRadius_pos compact) as Hr.
  pose proof (stringX_mono width _ _ Hw (firstOf_le _ _ Hin)) as H1.
  pose proof (stringX_mono width _ _ Hw (lastOf_ge _ _ Hin)) as H2.
  split; lra.
Qed.

(** The string a dot is withheld from is one of the barre strings. *)
Lemma isBarreString_In (chord : Chord) (i : nat) (fret : Z) :
  (i < 6)%nat -> nth_error (strings chord) i = Some fret ->
  isBarreString chord fret i = true ->
  fret = barreAt chord /\ (0 < barreAt chord)%Z /\ In i (barreStrings chord).
Proof.
  intros Hi Hs EB. unfold isBarreString in EB.
  apply andb_true_iff in EB. destruct EB as [EB Eg].
  apply andb_true_iff in EB. destruct EB as [Epos Eeq].
  apply Z.ltb_lt in Epos. apply Z.eqb_eq in Eeq.
  split; [exact Eeq|]. split; [exact Epos|].
  apply barreStrings_In. split_ands; [lia|exact Hi|congruence|].
  destruct (nth_error (fingers chord) i) as [g|]; [|discriminate].
  apply Z.eqb_eq in Eg. congruence.
Qed.

(** Extra X9.  Where the fretboard diagram draws a finger dot.  For any
    chord, any width of at least 40 and either size: a dot is only drawn
    for a fretted string whose fret lies in the four-fret window; its
    centre is on the line of its string, between the first and the sixth
    string line, and halfway between the two fret wires of its fret, both
    of which belong to the grid of five wires. *)
Theorem dot_sits_in_its_fret_space (chord : Chord) (width : R)
    (compact showFingers : bool) (fret : Z) (i : nat) (d : Dot) :
  40 <= width -> (i <= 5)%nat ->
  dot chord width compact showFingers fret i = Some d ->
  (0 < fret)%Z /\ (startFret chord <= fret < startFret chord + 4)%Z /\
  cx d = stringX width i /\
  stringX width 0 <= cx d <= stringX width 5 /\
  stringX width 5 = paddingLeft + diagramWidth width /\
  (exists k, (0 <= k < 4)%Z /\ fret = (startFret chord + k)%Z /\
             cy d = (fretWireY compact k + fretWireY compact (k + 1)) / 2 /\
             fretWireY compact 0 <= fretWireY compact k /\
             fretWireY compact k < cy d < fretWireY compact (k + 1) /\
             fretWireY compact (k + 1) <= fretWireY compact 4) /\
  fretWireY compact 0 = paddingTop compact /\
  fretWireY compact 4 = paddingTop compact + diagramHeight compact.
Proof.
  intros Hw Hi Hd.
  destruct (dot_some _ _ _ _ _ _ _ Hd) as (Hf & Hwin & Hx & Hy & _).
  unfold endFret, fretsToShow in Hwin.
  split_ands; try assumption; try lia.
  - rewrite Hx. apply stringX_mono; [assumption|lia].
  - rewrite Hx. apply stringX_mono; assumption.
  - unfold stringX, stringSpacing. cbn [INR]. field.
  - exists (fret - startFret chord)%Z.
    pose proof (fretSpacing_pos compact) as Hsp.
    assert (H0 : (0 <= fret - startFret chord)%Z) by lia.
    assert (H3 : (fret - startFret chord + 1 <= 4)%Z) by lia.
    apply IZR_le in H0, H3. rewrite plus_IZR in H3.
    split_ands; try lia.
    + rewrite Hy. unfold fretY, fretWireY. rewrite plus_IZR. lra.
    + unfold fretWireY. nra.
    + rewrite Hy. unfold fretY, fretWireY. nra.
    + rewrite Hy. unfold fretY, fretWireY. rewrite plus_IZR. nra.
    + unfold fretWireY. rewrite plus_IZR. nra.
  - unfold fretWireY. lra.
  - unfold fretWireY, fretSpacing, fretsToShow. field.
Qed.

(** Extra X9 for the G chord, the A string at the second fret, width 160. *)
Lemma dot_sits_in_its_fret_space_witness :
  40 <= 160 /\ (1 <= 5)%nat /\
  exists chord d,
    chordAt "G" = Some chord /\
    dot chord 160 false true 2 1 = Some d /\
    cx d = stringX 160 1.
Proof.
  assert (Hw : 40 <= 160) by lra.
  assert (Hi : (1 <= 5)%nat) by lia.
  split; [exact Hw|]. split; [exact Hi|].
  eexists. eexists. split; [reflexivity|].
  assert (Hd : dot {| name := "G major"; short := "G"; type := "major"; tier := 2;
                      strings := [3; 2; 0; 0; 0; 3]%Z;
                      fingers := [2; 1; 0; 0; 0; 3]%Z; barreAt := 0;
                      notes := ["G"; "B"; "D"; "G"; "B"; "G"]%string |}
                 160 false true 2 1 =
               Some {| cx := stringX 160 1;
                       cy := fretY {| name := "G major"; short := "G";
                                      type := "major"; tier := 2;
                                      strings := [3; 2; 0; 0; 0; 3]%Z;
                                      fingers := [2; 1; 0; 0; 0; 3]%Z;
                                      barreAt := 0;
                                      notes := ["G"; "B"; "D"; "G"; "B"; "G"]%string |}
                                   false 2;
                       radius := dotRadius false;
                       fingerLabel := Some 1%Z |}) by reflexivity.
  split; [exact Hd|].
  exact (proj1 (proj2 (proj2 (dot_sits_in_its_fret_space _ _ _ _ _ _ _ Hw Hi Hd)))).
Defined.

(** Extra X10.  A chord that spans at most four frets is drawn in full.
    For a width of at least 40 and each of the six strings that is
    fretted, the fret lies in the window, and the string is marked once:
    either by its own dot, centred on the string at that fret, and then it
    is not one of the strings the barre is drawn for; or a barre of two or
    more strings is drawn, the string is one of them, it has no dot of its
    own, and its position lies inside the barre bar. *)
Theorem every_fretted_string_is_marked (chord : Chord) (width : R)
    (compact showFingers : bool) (i : nat) (fret : Z) :
  40 <= width -> (i < 6)%nat ->
  nth_error (strings chord) i = Some fret -> (0 < fret)%Z ->
  (maxFret chord - minFret chord <= 3)%Z ->
  (startFret chord <= fret < endFret chord)%Z /\
  ((exists d, dot chord width compact showFingers fret i = Some d /\
              cx d = stringX width i /\ cy d = fretY chord compact fret /\
              (forall b, barre chord width compact = Some b ->
                         ~ In i (barreStrings chord))) \/
   (dot chord width compact showFingers fret i = None /\
    In i (barreStrings chord) /\
    exists b, barre chord width compact = Some b /\
              inside (stringX width i) (fretY chord compact fret) b)).
Proof.
  intros Hw Hi Hs Hf Hspan.
  pose proof (fretted_in_window chord i fret Hs Hf Hspan) as Hwin.
  split; [exact Hwin|].
  rewrite dot_in_window by assumption.
  destruct (isBarreString chord fret i) eqn:EB;
    [destruct (2 <=? Z.of_nat (List.length (barreStrings chord)))%Z eqn:E2|];
    cbn [andb].
  - right. split; [reflexivity|].
    destruct (isBarreString_In chord i fret Hi Hs EB) as (-> & Hpos & Hin).
    split; [exact Hin|].
    apply barre_covers; [exact Hw| |exact Hin].
    unfold barreDrawn. rewrite (proj2 (Z.ltb_lt _ _) Hpos), E2. reflexivity.
  - left. eexists. split; [reflexivity|]. cbn [cx cy]. split_ands; try reflexivity.
    intros b Hb. unfold barre, barreDrawn in Hb.
    apply Z.leb_gt in E2.
    destruct (0 <? barreAt chord)%Z; cbn [andb] in Hb; [|discriminate].
    destruct (Z.leb_spec 2 (Z.of_nat (List.length (barreStrings chord))));
      [lia|discriminate].
  - left. eexists. split; [reflexivity|]. cbn [cx cy]. split_ands; try reflexivity.
    intros b Hb Hin. apply barreStrings_In in Hin.
    destruct Hin as (Hne & _ & Hs' & Hg).
    unfold barre, barreDrawn in Hb.
    destruct (Z.ltb_spec 0 (barreAt chord)) as [Hp|Hp]; cbn [andb] in Hb;
      [|discriminate].
    unfold isBarreString in EB.
    rewrite (proj2 (Z.ltb_lt _ _) Hp), Hg in EB.
    rewrite Hs in Hs'. injection Hs' as ->. rewrite !Z.eqb_refl in EB.
    discriminate.
Qed.

(** Extra X10 for the F chord, the low E string at the first fret. *)
Lemma every_fretted_string_is_marked_witness :
  exists chord,
    chordAt "F" = Some chord /\ 40 <= 160 /\ (0 < 6)%nat /\
    nth_error (strings chord) 0 = Some 1%Z /\ (0 < 1)%Z /\
    (maxFret chord - minFret chord <= 3)%Z /\
    (startFret chord <= 1 < endFret chord)%Z.
Proof.
  eexists. split; [reflexivity|].
  assert (Hw : 40 <= 160) by lra.
  assert (Hi : (0 < 6)%nat) by lia.
  assert (Hf : (0 < 1)%Z) by lia.
  assert (Hspan : (maxFret {| name := "F major (barre)"; short := "F";
                              type := "major"; tier := 4;
                              strings := [1; 3; 3; 2; 1; 1]%Z;
                              fingers := [1; 3; 4; 2; 1; 1]%Z; barreAt := 1;
                              notes := ["F"; "C"; "F"; "A"; "C"; "F"]%string |} -
                   minFret {| name := "F major (barre)"; short := "F";
                              type := "major"; tier := 4;
                              strings := [1; 3; 3; 2; 1; 1]%Z;
                              fingers := [1; 3; 4; 2; 1; 1]%Z; barreAt := 1;
                              notes := ["F"; "C"; "F"; "A"; "C"; "F"]%string |}
                   <= 3)%Z) by (vm_compute; discriminate).
  split; [exact Hw|]. split; [exact Hi|]. split; [reflexivity|].
  split; [exact Hf|]. split; [exact Hspan|].
  exact (proj1 (every_fretted_string_is_marked
                  {| name := "F major (barre)"; short := "F";
                      type := "major"; tier := 4;
                      strings := [1; 3; 3; 2; 1; 1]%Z;
                      fingers := [1; 3; 4; 2; 1; 1]%Z; barreAt := 1;
                      notes := ["F"; "C"; "F"; "A"; "C"; "F"]%string |}
                  160 false true 0 1 Hw Hi eq_refl Hf Hspan)).
Defined.

(** ** The chords of the library *)

Lemma sixStrings_drawn (chord : Chord) (width : R) (compact showFingers : bool)
    (i : nat) (fret : Z) :
  sixStrings chord = true -> 40 <= width ->
  nth_error (strings chord) i = Some fret ->
  (fret = 0%Z /\ marker fret = Some openString /\
   dot chord width compact showFingers fret i = None) \/
  (fret = (-1)%Z /\ marker fret = Some mutedString /\
   dot chord width compact showFingers fret i = None) \/
  ((0 < fret)%Z /\ marker fret = None /\
   ((exists d, dot chord width compact showFingers fret i = Some d /\
               cx d = stringX width i /\ cy d = fretY chord compact fret) \/
    (dot chord width compact showFingers fret i = None /\
     exists b, barre chord width compact = Some b /\
               inside (stringX width i) (fretY chord compact fret) b))).
Proof.
  unfold sixStrings. intros H Hw Hi.
  repeat (apply andb_true_iff in H; destruct H as [H ?]).
  apply Nat.eqb_eq in H.
  assert (Hlt : (i < 6)%nat).
  { rewrite <- H. apply nth_error_Some. congruence. }
  assert (Hge : (-1 <= fret)%Z).
  { apply Z.leb_le.
    match goal with
    | Hall : forallb _ (strings chord) = true |- _ =>
        exact (proj1 (forallb_forall _ _) Hall fret (nth_error_In _ _ Hi))
    end. }
  assert (Hspan : (maxFret chord - minFret chord <= 3)%Z)
    by (apply Z.leb_le; assumption).
  destruct (Z.eq_dec fret 0) as [->|N0]; [left; split_ands; reflexivity|].
  destruct (Z.eq_dec fret (-1)) as [->|N1];
    [right; left; split_ands; reflexivity|].
  right; right.
  assert (Hf : (0 < fret)%Z) by lia.
  split; [exact Hf|]. split.
  - unfold marker. destruct (Z.eqb_spec fret 0); [lia|].
    destruct (Z.eqb_spec fret (-1)); [lia|]. reflexivity.
  - pose proof (fretted_in_window chord i fret Hi Hf Hspan) as Hwin.
    rewrite dot_in_window by assumption.
    destruct (isBarreString chord fret i) eqn:EB;
      [destruct (2 <=? Z.of_nat (List.length (barreStrings chord)))%Z eqn:E2|];
      cbn [andb].
    + right. split; [reflexivity|].
      destruct (isBarreString_In chord i fret Hlt Hi EB) as (-> & Hpos & Hin).
      apply barre_covers; [exact Hw| |exact Hin].
      unfold barreDrawn. rewrite (proj2 (Z.ltb_lt _ _) Hpos), E2. reflexivity.
    + left. eexists. split; [reflexivity|]. split; reflexivity.
    + left. eexists. split; [reflexivity|]. split; reflexivity.
Qed.

(** Extra X11.  The chord library against the diagram and the progression
    lists.  Every chord of the library is found under its key, has six
    strings, and is drawn in full at any width of at least 40: an open
    string gets the circle above the nut, a muted string the cross, and a
    fretted string its dot or, under a barre, a place inside the barre
    bar.  Every progression has at least two chords, and each of them is a
    key of the library. *)
Theorem library_chords_are_drawn_in_full :
  Forall
    (fun kc =>
       chordAt (fst kc) = Some (snd kc) /\
       List.length (strings (snd kc)) = 6%nat /\
       forall width compact showFingers i fret,
         40 <= width -> nth_error (strings (snd kc)) i = Some fret ->
         (fret = 0%Z /\ marker fret = Some openString /\
          dot (snd kc) width compact showFingers fret i = None) \/
         (fret = (-1)%Z /\ marker fret = Some mutedString /\
          dot (snd kc) width compact showFingers fret i = None) \/
         ((0 < fret)%Z /\ marker fret = None /\
          ((exists d, dot (snd kc) width compact showFingers fret i = Some d /\
                      cx d = stringX width i /\
                      cy d = fretY (snd kc) compact fret) \/
           (dot (snd kc) width compact showFingers fret i = None /\
            exists b, barre (snd kc) width compact = Some b /\
                      inside (stringX width i) (fretY (snd kc) compact fret) b))))
    CHORD_LIBRARY /\
  Forall
    (fun level =>
       Forall
         (fun p =>
            (2 <= List.length (chords p))%nat /\
            Forall (fun key => exists chord, chordAt key = Some chord) (chords p))
         (snd level))
    PROGRESSIONS.
Proof.
  split.
  - unfold CHORD_LIBRARY.
    repeat (apply Forall_cons || apply Forall_nil);
      (split; [reflexivity|]); (split; [reflexivity|]);
      intros width compact showFingers i fret Hw Hi;
      (apply sixStrings_drawn; [vm_compute; reflexivity|exact Hw|exact Hi]).
  - unfold PROGRESSIONS.
    repeat (apply Forall_cons || apply Forall_nil);
      (split; [cbn; lia|]);
      cbn [chords];
      repeat (apply Forall_cons || apply Forall_nil);
      eexists; reflexivity.
Qed.

End FretboardDiagramFacts.

Module SearchFacts.
Import JS Pitch PitchSpec SearchSpec JSFacts PitchFacts.
Local Open Scope R_scope.

(** ** The lags the outer loop visits *)

Lemma map_add_seq (a s len : nat) :
  map (Nat.add a) (seq s len) = seq (a + s) len.
Proof.
  revert s. induction len as [|len IH]; intros s; cbn [seq map]; [reflexivity|].
  rewrite IH. f_equal. f_equal. lia.
Qed.

Lemma maxPeriod_below (sampleRate : R) :
  (minPeriodOf sampleRate < 0)%Z ->
  (maxPeriodOf sampleRate <= minPeriodOf sampleRate)%Z.
Proof.
  intros Hneg.
  assert (Hr : sampleRate < 0).
  { unfold minPeriodOf in Hneg.
    pose proof (Zfloor_bound (sampleRate / 1400)) as [_ Hb].
    assert (Hz : (Zfloor (sampleRate / 1400) + 1 <= 0)%Z) by lia.
    apply IZR_le in Hz. rewrite plus_IZR in Hz. lra. }
  unfold maxPeriodOf, minPeriodOf. apply Zfloor_le. lra.
Qed.

Lemma lags_seq (sampleRate : R) (bufferLength : nat) :
  lags sampleRate bufferLength =
  seq (Z.to_nat (minPeriodOf sampleRate))
      (Z.to_nat (Z.min (maxPeriodOf sampleRate) (Z.of_nat bufferLength) -
                 minPeriodOf sampleRate)).
Proof.
  unfold lags, zrange.
  destruct (Z_lt_le_dec (minPeriodOf sampleRate) 0) as [Hneg|Hpos].
  - pose proof (maxPeriod_below sampleRate Hneg) as Hle.
    replace (Z.to_nat (Z.min (maxPeriodOf sampleRate) (Z.of_nat bufferLength) -
                       minPeriodOf sampleRate)) with 0%nat by lia.
    reflexivity.
  - rewrite map_map.
    pose proof (map_add_seq (Z.to_nat (minPeriodOf sampleRate)) 0
                  (Z.to_nat (Z.min (maxPeriodOf sampleRate)
                               (Z.of_nat bufferLength) -
                             minPeriodOf sampleRate))) as E.
    rewrite Nat.add_0_r in E. rewrite <- E.
    apply map_ext. intros k. lia.
Qed.

End SearchFacts.

Module DetectionFacts.
Import JS Chords ChordsSpec Pitch PitchSpec SearchSpec.
Import JSFacts ChordsFacts NoteFacts PitchFacts SearchFacts.
Local Open Scope R_scope.

(** ** Constant frames at any sample rate *)

Lemma search_constant_rate (c : R) (n : nat) (sampleRate : R) :
  c <> 0 -> (0 < minPeriodOf sampleRate)%Z ->
  (minPeriodOf sampleRate + 1 <
   Z.min (maxPeriodOf sampleRate) (Z.of_nat n))%Z ->
  bestCorrelation (search (repeat c n) sampleRate) = 1 /\
  bestPeriod (search (repeat c n) sampleRate) =
    Z.to_nat (minPeriodOf sampleRate) /\
  nth (Z.to_nat (minPeriodOf sampleRate) - 1)
      (correlations (search (repeat c n) sampleRate)) 0 = 0 /\
  nth (Z.to_nat (minPeriodOf sampleRate))
      (correlations (search (repeat c n) sampleRate)) 0 = 1 /\
  nth (Z.to_nat (minPeriodOf sampleRate) + 1)
      (correlations (search (repeat c n) sampleRate)) 0 = 1.
Proof.
  intros Hc Hm Hn. unfold search. rewrite repeat_length, lags_seq.
  remember (Z.to_nat (minPeriodOf sampleRate)) as m eqn:Em.
  remember (Z.to_nat (Z.min (maxPeriodOf sampleRate) (Z.of_nat n) -
                      minPeriodOf sampleRate)) as len eqn:El.
  assert (Hlen : (2 <= len)%nat) by lia.
  destruct len as [|len]; [lia|]. cbn [seq].
  apply (search_constant_first c n m (seq (S m) len)).
  - exact Hc.
  - lia.
  - lia.
  - intros l Hl. apply in_seq in Hl. lia.
  - apply in_seq. lia.
Qed.

Lemma frequencyOf_constant (c : R) (n : nat) (sampleRate : R) :
  c <> 0 -> (0 < minPeriodOf sampleRate)%Z ->
  (minPeriodOf sampleRate + 1 <
   Z.min (maxPeriodOf sampleRate) (Z.of_nat n))%Z ->
  frequencyOf (repeat c n) sampleRate =
  Fin (sampleRate / (IZR (minPeriodOf sampleRate) + / 2)).
Proof.
  intros Hc Hm Hn. unfold frequencyOf, refinedPeriodOf.
  destruct (search_constant_rate c n sampleRate Hc Hm Hn)
    as (_ & Hp & H0 & H1 & H2).
  rewrite repeat_length, Hp.
  assert (Hcond : (0 <? Z.to_nat (minPeriodOf sampleRate))%nat &&
                  (Z.to_nat (minPeriodOf sampleRate) <? n - 1)%nat = true).
  { apply andb_true_iff. split; apply Nat.ltb_lt; lia. }
  rewrite Hcond. unfold entryOf. rewrite H0, H1, H2, !or_else_fin.
  cbn [sub neg add mul].
  rewrite div_fin by lra.
  replace ((0 + - (1)) / (2 * (0 + - (2 * 1) + 1))) with (/ 2) by (field; lra).
  cbn [isFinite add].
  rewrite INR_IZR_INZ, Z2Nat.id by lia.
  assert (Hpos : 0 < IZR (minPeriodOf sampleRate)) by (apply IZR_lt; lia).
  rewrite div_fin by lra. reflexivity.
Qed.

Lemma dbFS_constant (c : R) (n : nat) :
  c <> 0 -> (0 < n)%nat ->
  dbFS (repeat c n) = Fin (20 * (ln (Rabs c) / ln 10)).
Proof.
  intros Hc Hn. unfold dbFS, rmsOf.
  rewrite sumSquares_repeat, repeat_length.
  assert (Hn0 : INR n <> 0) by (apply not_0_INR; lia).
  rewrite div_fin by assumption.
  replace (INR n * (c * c) / INR n) with (Rsqr c)
    by (unfold Rsqr; field; assumption).
  cbn [sqrt]. destruct (Rle_dec 0 (Rsqr c)) as [_|Hneg];
    [|exfalso; apply Hneg, Rle_0_sqr].
  rewrite sqrt_Rsqr_abs.
  unfold log10. rewrite log_fin by (apply Rabs_pos_lt; exact Hc). reflexivity.
Qed.

Lemma constant_loud (c : R) (n : nat) :
  / 100 <= Rabs c -> (0 < n)%nat ->
  lt (dbFS (repeat c n)) (Fin VOLUME_THRESHOLD) = false.
Proof.
  intros Hc Hn.
  assert (Hne : c <> 0).
  { intros ->. rewrite Rabs_R0 in Hc. lra. }
  rewrite dbFS_constant by assumption. unfold VOLUME_THRESHOLD. cbn [lt].
  destruct (Rlt_dec (20 * (ln (Rabs c) / ln 10)) (-40)) as [H|_]; [|reflexivity].
  exfalso. pose proof ln10_pos as H10.
  assert (Hl : ln (/ 100) <= ln (Rabs c)).
  { destruct Hc as [Hc|Hc]; [left; apply ln_increasing; lra|right; rewrite Hc; reflexivity]. }
  replace (/ 100) with (/ (10 * 10)) in Hl by lra.
  rewrite ln_Rinv, ln_mult in Hl by lra.
  assert (Hq : ln (Rabs c) / ln 10 < -2) by lra.
  apply (Rmult_lt_compat_r (ln 10)) in Hq; [|assumption].
  unfold Rdiv in Hq. rewrite Rmult_assoc, Rinv_l in Hq by lra. lra.
Qed.

(** What [detectPitch] does with a constant frame: everything but the
    comparison of the frequency with 1400. *)
Lemma detectPitch_constant (c : R) (n : nat) (contextRate : option R) :
  / 100 <= Rabs c ->
  (0 < minPeriodOf (sampleRateOf contextRate))%Z ->
  (minPeriodOf (sampleRateOf contextRate) + 1 <
   Z.min (maxPeriodOf (sampleRateOf contextRate)) (Z.of_nat n))%Z ->
  detectPitch (repeat c n) contextRate =
  if lt (Fin (sampleRateOf contextRate /
              (IZR (minPeriodOf (sampleRateOf contextRate)) + / 2)))
        (Fin 1400)
  then {| detectedNote :=
            frequencyToNote
              (Num (Fin (sampleRateOf contextRate /
                         (IZR (minPeriodOf (sampleRateOf contextRate)) + / 2))));
          detectedFreq :=
            Some (Fin (sampleRateOf contextRate /
                       (IZR (minPeriodOf (sampleRateOf contextRate)) + / 2)));
          clarity := Fin 1 |}
  else {| detectedNote := None; detectedFreq := None; clarity := Fin 1 |}.
Proof.
  intros Hc Hm Hn.
  set (rate := sampleRateOf contextRate) in *.
  assert (Hne : c <> 0).
  { intros ->. rewrite Rabs_R0 in Hc. lra. }
  assert (Hpos : (0 < n)%nat) by lia.
  pose proof (constant_loud c n Hc Hpos) as Hloud.
  destruct (search_constant_rate c n rate Hne Hm Hn) as (Hb & _).
  pose proof (frequencyOf_constant c n rate Hne Hm Hn) as Hf.
  assert (Hm1 : 1 <= IZR (minPeriodOf rate)) by (apply IZR_le; lia).
  pose proof (Zfloor_bound (rate / 1400)) as [Hfl _].
  fold (minPeriodOf rate) in Hfl.
  assert (Hclar : gt (Fin 1) (Fin CLARITY_THRESHOLD) = true).
  { unfold gt, CLARITY_THRESHOLD. apply lt_fin. lra. }
  assert (H70 : gt (Fin (rate / (IZR (minPeriodOf rate) + / 2))) (Fin 70) = true).
  { unfold gt. apply lt_fin.
    apply Rmult_lt_reg_r with (IZR (minPeriodOf rate) + / 2); [lra|].
    unfold Rdiv. rewrite Rmult_assoc, Rinv_l by lra. lra. }
  unfold detectPitch. rewrite Hloud. fold rate. rewrite Hb, Hf, Hclar, H70.
  reflexivity.
Qed.

Lemma rate_48000 :
  sampleRateOf (Some 48000) = 48000 /\
  minPeriodOf 48000 = 34%Z /\ maxPeriodOf 48000 = 685%Z.
Proof.
  split_ands.
  - unfold sampleRateOf. destruct (Req_dec_T 48000 0); [lra|reflexivity].
  - apply Zfloor_eq. lra.
  - apply Zfloor_eq. lra.
Qed.

(** Extra X16.  A frame without any oscillation.  For [n] samples all equal
    to [c], at least 0.01 in absolute value, and a sample rate whose lag
    range starts above 0 and has at least two lags inside the frame:
    [detectPitch] reports clarity 1, the search stops at the first lag,
    the frequency is the rate divided by that lag plus one half, and this
    frequency is reported as a detection exactly when the rate divided by
    1400 is less than half above the first lag, as at 48000 Hz; otherwise,
    as at 44100 Hz, nothing is reported. *)
Theorem constant_frame_is_reported_near_1400 (c : R) (n : nat)
    (contextRate : option R) :
  / 100 <= Rabs c ->
  (0 < minPeriodOf (sampleRateOf contextRate))%Z ->
  (minPeriodOf (sampleRateOf contextRate) + 1 <
   Z.min (maxPeriodOf (sampleRateOf contextRate)) (Z.of_nat n))%Z ->
  clarity (detectPitch (repeat c n) contextRate) = Fin 1 /\
  bestPeriod (search (repeat c n) (sampleRateOf contextRate)) =
    Z.to_nat (minPeriodOf (sampleRateOf contextRate)) /\
  frequencyOf (repeat c n) (sampleRateOf contextRate) =
    Fin (sampleRateOf contextRate /
         (IZR (minPeriodOf (sampleRateOf contextRate)) + / 2)) /\
  (sampleRateOf contextRate / 1400 <
     IZR (minPeriodOf (sampleRateOf contextRate)) + / 2 ->
   detectedFreq (detectPitch (repeat c n) contextRate) =
     Some (Fin (sampleRateOf contextRate /
                (IZR (minPeriodOf (sampleRateOf contextRate)) + / 2)))) /\
  (IZR (minPeriodOf (sampleRateOf contextRate)) + / 2 <=
     sampleRateOf contextRate / 1400 ->
   detectedFreq (detectPitch (repeat c n) contextRate) = None).
Proof.
  intros Hc Hm Hn.
  rewrite (detectPitch_constant c n contextRate Hc Hm Hn).
  set (rate := sampleRateOf contextRate) in *.
  assert (Hne : c <> 0).
  { intros ->. rewrite Rabs_R0 in Hc. lra. }
  destruct (search_constant_rate c n rate Hne Hm Hn) as (_ & Hp & _).
  pose proof (frequencyOf_constant c n rate Hne Hm Hn) as Hf.
  assert (Hm1 : 1 <= IZR (minPeriodOf rate)) by (apply IZR_le; lia).
  assert (Hlt : lt (Fin (rate / (IZR (minPeriodOf rate) + / 2))) (Fin 1400) = true <->
                rate / 1400 < IZR (minPeriodOf rate) + / 2).
  { rewrite lt_fin. split; intros H.
    - apply (Rmult_lt_compat_r (IZR (minPeriodOf rate) + / 2)) in H; [|lra].
      unfold Rdiv in H. rewrite Rmult_assoc, Rinv_l in H by lra. lra.
    - apply Rmult_lt_reg_r with (IZR (minPeriodOf rate) + / 2); [lra|].
      unfold Rdiv. rewrite Rmult_assoc, Rinv_l by lra. lra. }
  split_ands.
  - destruct (lt (Fin (rate / (IZR (minPeriodOf rate) + / 2))) (Fin 1400));
      reflexivity.
  - exact Hp.
  - exact Hf.
  - intros H. apply Hlt in H. rewrite H. reflexivity.
  - intros H.
    destruct (lt (Fin (rate / (IZR (minPeriodOf rate) + / 2))) (Fin 1400)) eqn:E;
      [|reflexivity].
    exfalso. pose proof (proj1 Hlt eq_refl) as Hlt'. lra.
Qed.

(** Extra X16 at 48000 Hz: clarity 1 on 4096 samples of 0.5. *)
Lemma constant_frame_is_reported_near_1400_witness :
  / 100 <= Rabs (1 / 2) /\
  (0 < minPeriodOf (sampleRateOf (Some 48000%R)))%Z /\
  (minPeriodOf (sampleRateOf (Some 48000%R)) + 1 <
   Z.min (maxPeriodOf (sampleRateOf (Some 48000%R))) (Z.of_nat 4096))%Z /\
  clarity (detectPitch (repeat (1 / 2) 4096) (Some 48000)) = Fin 1.
Proof.
  destruct rate_48000 as (Hr & Hmin & Hmax).
  assert (H1 : / 100 <= Rabs (1 / 2)) by (rewrite Rabs_pos_eq by lra; lra).
  assert (H2 : (0 < minPeriodOf (sampleRateOf (Some 48000%R)))%Z)
    by (rewrite Hr, Hmin; lia).
  assert (H3 : (minPeriodOf (sampleRateOf (Some 48000%R)) + 1 <
                Z.min (maxPeriodOf (sampleRateOf (Some 48000%R))) (Z.of_nat 4096))%Z)
    by (rewrite Hr, Hmin, Hmax; lia).
  split; [exact H1|]. split; [exact H2|]. split; [exact H3|].
  exact (proj1 (constant_frame_is_reported_near_1400 (1 / 2) 4096 (Some 48000)
                  H1 H2 H3)).
Defined.

End DetectionFacts.

Module DisplayFacts.
Import Tuner TunerSpec DisplaySpec TunerFacts.
Local Open Scope Z_scope.

Lemma advance_early (now : Z) (st : State) (t : Timeout) :
  timeout st = Some t -> now < due t -> advance now st = st.
Proof.
  intros E H. unfold advance. rewrite E.
  destruct (Z.leb_spec (due t) now); [lia|reflexivity].
Qed.

Lemma advance_due (now : Z) (st : State) (t : Timeout) :
  timeout st = Some t -> due t <= now ->
  advance now st = run (callback t) (clearTimeout st).
Proof.
  intros E H. unfold advance. rewrite E.
  destruct (Z.leb_spec (due t) now); [reflexivity|lia].
Qed.

(** Extra X18.  A detection is on display 80 ms later at the latest.  When
    the effect runs at time [t] on a detected note, and no other detection
    follows, then from [t + 80] on the display shows that note, its cents
    and the frequency it came with, the hold buffer holds its key and no
    timeout is pending.  If the hold buffer did not hold the key when the
    note arrived, the display is not touched before [t + 80]. *)
Theorem detection_is_displayed_after_80ms (st : State) (t now : Z)
    (d : Detected) (f : Freq) :
  t + 80 <= now ->
  displayNote (advance now (step st (t, Some (d, f)))) = Some d /\
  displayCents (advance now (step st (t, Some (d, f)))) = cents d /\
  displayFreq (advance now (step st (t, Some (d, f)))) = Some f /\
  noteHoldBuffer (advance now (step st (t, Some (d, f)))) = Some (noteKeyOf d) /\
  timeout (advance now (step st (t, Some (d, f)))) = None /\
  (holds (advance t st) (noteKeyOf d) = false ->
   forall before, t <= before < t + 80 ->
     displayNote (advance before (step st (t, Some (d, f)))) =
       displayNote (advance t st) /\
     displayCents (advance before (step st (t, Some (d, f)))) =
       displayCents (advance t st) /\
     displayFreq (advance before (step st (t, Some (d, f)))) =
       displayFreq (advance t st)).
Proof.
  intros Hnow. unfold step, effect.
  assert (Hh : holds (clearTimeout (advance t st)) (noteKeyOf d) =
               holds (advance t st) (noteKeyOf d)) by reflexivity.
  rewrite Hh.
  destruct (holds (advance t st) (noteKeyOf d)) eqn:E.
  - unfold holds in E.
    destruct (noteHoldBuffer (advance t st)) as [k|] eqn:Eb; [|discriminate].
    apply String.eqb_eq in E. subst k.
    unfold advance at 1 3 5 7 9. cbn [show clearTimeout timeout].
    cbn [displayNote displayCents displayFreq noteHoldBuffer timeout].
    split_ands; try reflexivity; try assumption. discriminate.
  - set (st' := setTimeout _ _ _).
    assert (Hto : timeout st' =
                  Some {| due := t + 80;
                          callback := showIfHeld (noteKeyOf d) d f |})
      by reflexivity.
    rewrite (advance_due now st' _ Hto) by (cbn [due]; lia).
    cbn [callback run].
    assert (Hheld : holds (clearTimeout st') (noteKeyOf d) = true).
    { unfold holds, st'. cbn. apply String.eqb_refl. }
    rewrite Hheld.
    split_ands; try reflexivity.
    intros _ before Hb.
    rewrite (advance_early before st' _ Hto) by (cbn [due]; lia).
    split_ands; reflexivity.
Qed.

(** Extra X18 for a first detection of A4 at 1000 ms, looked at 80 ms on. *)
Lemma detection_is_displayed_after_80ms_witness :
  1000 + 80 <= 1080 /\
  displayNote (advance 1080 (step initial (1000, Some (A4, 440%Q)))) = Some A4.
Proof.
  assert (H : 1000 + 80 <= 1080) by lia.
  split; [exact H|].
  exact (proj1 (detection_is_displayed_after_80ms initial 1000 1080 A4 440%Q H)).
Defined.

(** Extra X19.  Silence clears the display after 400 ms, not before.  When
    the effect runs at time [t] because the detected note became [null],
    and no detection follows, the display keeps what it showed until
    [t + 400], and from [t + 400] on it shows no note, 0 cents and no
    frequency, with no timeout pending.  The hold buffer is not cleared: it
    still holds the key it held. *)
Theorem silence_clears_the_display_after_400ms (st : State) (t now : Z) :
  (t <= now < t + 400 ->
   displayNote (advance now (step st (t, None))) = displayNote (advance t st) /\
   displayCents (advance now (step st (t, None))) = displayCents (advance t st) /\
   displayFreq (advance now (step st (t, None))) = displayFreq (advance t st)) /\
  (t + 400 <= now ->
   displayNote (advance now (step st (t, None))) = None /\
   displayCents (advance now (step st (t, None))) = 0 /\
   displayFreq (advance now (step st (t, None))) = None /\
   timeout (advance now (step st (t, None))) = None) /\
  noteHoldBuffer (advance now (step st (t, None))) =
    noteHoldBuffer (advance t st).
Proof.
  unfold step, effect.
  set (st' := setTimeout _ _ _).
  assert (Hto : timeout st' = Some {| due := t + 400; callback := clearDisplay |})
    by reflexivity.
  split_ands.
  - intros H. rewrite (advance_early now st' _ Hto) by (cbn [due]; lia).
    split_ands; reflexivity.
  - intros H. rewrite (advance_due now st' _ Hto) by (cbn [due]; lia).
    split_ands; reflexivity.
  - destruct (Z_lt_le_dec now (t + 400)) as [H|H].
    + rewrite (advance_early now st' _ Hto) by (cbn [due]; lia). reflexivity.
    + rewrite (advance_due now st' _ Hto) by (cbn [due]; lia). reflexivity.
Qed.

(** ** Flicker *)

Lemma flickers_holding events :
  forall st k t, holding k t st -> flickers k t events ->
    exists k' t', holding k' t' (fold_left step events st) /\
                  t <= t' /\
                  (events = [] -> t' = t) /\
                  (forall ev, In ev events -> fst ev <= t').
Proof.
  induction events as [|[t1 [[d f]|]] rest IH]; intros st k t Hh Hf.
  - exists k, t. split_ands; [exact Hh|lia|reflexivity|intros ev []].
  - destruct Hf as (Hne & Hlt & Hrest). cbn [fold_left].
    pose proof (step_flicker st k t t1 d f Hh Hne Hlt) as Hh1.
    destruct (IH _ _ _ Hh1 Hrest) as (k' & t' & Hh' & Hle & _ & Hall).
    exists k', t'. split_ands; [exact Hh'|lia|discriminate|].
    intros ev [<-|Hin]; [cbn [fst]; lia|apply Hall; exact Hin].
  - contradiction.
Qed.

(** Extra X20.  Flicker never reaches the display.  From the initial
    state, a stream of detections in which every detection carries another
    key than the one before it and follows it by less than 80 ms displays
    nothing: not after the last event of the stream, and not at any time
    less than 80 ms after it. *)
Theorem flicker_is_never_displayed (t : Z) (d : Detected) (f : Freq)
    (events : list (Z * option (Detected * Freq))) :
  flickers (noteKeyOf d) t events ->
  displayNote (feed ((t, Some (d, f)) :: events)) = None /\
  exists last,
    t <= last /\ (forall ev, In ev events -> fst ev <= last) /\
    forall now, now < last + 80 ->
      displayNote (advance now (feed ((t, Some (d, f)) :: events))) = None.
Proof.
  intros Hf. unfold feed. cbn [fold_left].
  assert (Hh : holding (noteKeyOf d) t (step initial (t, Some (d, f)))).
  { unfold holding. cbn. auto. }
  destruct (flickers_holding events _ _ _ Hh Hf)
    as (k' & last & (Hd & Hb & Hto) & Hle & _ & Hall).
  split; [exact Hd|].
  exists last. split_ands; [exact Hle|exact Hall|].
  intros now Hnow. unfold advance.
  destruct (timeout (fold_left step events (step initial (t, Some (d, f)))))
    as [to|]; [|exact Hd].
  destruct (Z.leb_spec (due to) now); [lia|exact Hd].
Qed.

(** Extra X20 for A4 at 1000 ms and A#4 20 ms later. *)
Lemma flicker_is_never_displayed_witness :
  flickers (noteKeyOf A4) 1000
    [(1020, Some ({| note := "A#"; octave := 4; cents := 0 |}, 466%Q))] /\
  displayNote
    (feed [(1000, Some (A4, 440%Q));
           (1020, Some ({| note := "A#"; octave := 4; cents := 0 |}, 466%Q))]) =
  None.
Proof.
  assert (H : flickers (noteKeyOf A4) 1000
    [(1020, Some ({| note := "A#"; octave := 4; cents := 0 |}, 466%Q))]).
  { cbn [flickers]. split_ands; [|lia|lia|exact I].
    vm_compute. discriminate. }
  split; [exact H|].
  exact (proj1 (flicker_is_never_displayed 1000 A4 440%Q _ H)).
Defined.

(** ** What the display can show *)

Lemma fromStream_more events ev d f :
  fromStream events d f -> fromStream (events ++ [ev]) d f.
Proof.
  intros [t H]. exists t. apply in_or_app. left. exact H.
Qed.

Lemma displayOf_more events ev st :
  displayOf events st -> displayOf (events ++ [ev]) st.
Proof.
  unfold displayOf. destruct (displayNote st) as [d|]; [|tauto].
  intros (Hc & f & Hf & Hs). split; [exact Hc|]. exists f.
  split; [exact Hf|]. apply fromStream_more. exact Hs.
Qed.

Lemma pendingOf_more events ev st :
  pendingOf events st -> pendingOf (events ++ [ev]) st.
Proof.
  unfold pendingOf. destruct (timeout st) as [t|]; [|tauto].
  destruct (callback t) as [|k d f]; [tauto|].
  intros [Hk Hs]. split; [exact Hk|]. apply fromStream_more. exact Hs.
Qed.

Lemma advance_display events now st :
  displayOf events st -> pendingOf events st ->
  displayOf events (advance now st) /\ pendingOf events (advance now st).
Proof.
  intros Hd Hp. unfold advance.
  destruct (timeout st) as [t|] eqn:Et; [|split; assumption].
  destruct (due t <=? now); [|split; assumption].
  unfold pendingOf in Hp. rewrite Et in Hp.
  destruct (callback t) as [|k d f]; cbn [run].
  - split; [|exact I]. unfold displayOf. cbn. split; reflexivity.
  - destruct Hp as [Hk Hs].
    destruct (holds (clearTimeout st) k).
    + split; [|exact I]. unfold displayOf. cbn. split; [reflexivity|].
      exists f. split; [reflexivity|exact Hs].
    + split; [exact Hd|exact I].
Qed.

Lemma step_display events st ev :
  displayOf events st -> pendingOf events st ->
  displayOf (events ++ [ev]) (step st ev) /\
  pendingOf (events ++ [ev]) (step st ev).
Proof.
  intros Hd Hp. destruct ev as [now detection]. unfold step.
  destruct (advance_display events now st Hd Hp) as [Hd' _].
  apply (displayOf_more _ (now, detection)) in Hd'.
  unfold effect. destruct detection as [[d f]|].
  - assert (Hin : fromStream (events ++ [(now, Some (d, f))]) d f).
    { exists now. apply in_or_app. right. left. reflexivity. }
    destruct (holds (clearTimeout (advance now st)) (noteKeyOf d)).
    + split; [|exact I]. unfold displayOf. cbn. split; [reflexivity|].
      exists f. split; [reflexivity|exact Hin].
    + split; [exact Hd'|]. unfold pendingOf. cbn. split; [reflexivity|exact Hin].
  - split; [exact Hd'|exact I].
Qed.

Lemma fold_display rest :
  forall events st,
    displayOf events st -> pendingOf events st ->
    displayOf (events ++ rest) (fold_left step rest st) /\
    pendingOf (events ++ rest) (fold_left step rest st).
Proof.
  induction rest as [|ev rest IH]; intros events st Hd Hp; cbn [fold_left].
  - rewrite app_nil_r. split; assumption.
  - replace (events ++ ev :: rest) with ((events ++ [ev]) ++ rest)
      by (rewrite <- app_assoc; reflexivity).
    destruct (step_display events st ev Hd Hp) as [Hd' Hp'].
    apply IH; assumption.
Qed.

(** Extra X21.  The display only shows what was detected.  After any
    stream of detections and silences, at any later time: a displayed note
    is one of the notes of the stream, the cents shown are its cents and
    the frequency shown is the one it was detected with; and when no note
    is displayed the cents shown are 0 and no frequency is shown. *)
Theorem display_shows_a_detection_of_the_stream
    (events : list (Z * option (Detected * Freq))) (now : Z) :
  match displayNote (advance now (feed events)) with
  | Some d =>
      displayCents (advance now (feed events)) = cents d /\
      exists f t, displayFreq (advance now (feed events)) = Some f /\
                  In (t, Some (d, f)) events
  | None =>
      displayCents (advance now (feed events)) = 0 /\
      displayFreq (advance now (feed events)) = None
  end.
Proof.
  destruct (fold_display events [] initial) as [Hd Hp].
  { unfold displayOf. cbn. split; reflexivity. }
  { exact I. }
  cbn [app] in Hd, Hp. fold (feed events) in Hd, Hp.
  destruct (advance_display events now (feed events) Hd Hp) as [Hd' _].
  unfold displayOf in Hd'.
  destruct (displayNote (advance now (feed events))) as [d|]; [|exact Hd'].
  destruct Hd' as (Hc & f & Hf & t & Hin).
  split; [exact Hc|]. exists f, t. split; assumption.
Qed.

End DisplayFacts.

Module NoteKeyFacts.
Import Tuner.
Local Open Scope Z_scope.

(** The decimal string of an integer is read back as that integer. *)
Lemma octave_string_inj (o o' : Z) :
  NilZero.string_of_int (Z.to_int o) = NilZero.string_of_int (Z.to_int o') ->
  o = o'.
Proof.
  intros E.
  assert (Hr : forall z, NilZero.int_of_string (NilZero.string_of_int (Z.to_int z)) =
                         Some (Z.to_int z)).
  { intros z. apply NilZero.isi.
    - destruct z as [|p|p]; cbn; try discriminate.
      intros H. injection H as H. exact (Unsigned.to_uint_nonnil p H).
    - destruct z as [|p|p]; cbn; try discriminate.
      intros H. injection H as H. exact (Unsigned.to_uint_nonnil p H). }
  pose proof (Hr o) as H1. rewrite E, Hr in H1. injection H1 as H1.
  apply DecimalZ.to_int_inj. symmetry. exact H1.
Qed.

(** It starts with a digit or the minus sign, never with the sharp sign. *)
Lemma octave_string_no_sharp (o : Z) (rest : string) :
  NilZero.string_of_int (Z.to_int o) <> String "#"%char rest.
Proof.
  destruct (Z.to_int o) as [d|d]; destruct d; cbn; discriminate.
Qed.

(** Extra X22.  The key the tuner page compares notes by tells notes
    apart.  For two detected notes whose names are among the twelve note
    names, the keys built from name and octave are equal exactly when the
    names are equal and the octaves are equal. *)
Theorem noteKeyOf_tells_notes_apart (d d' : Detected) :
  In (note d) Chords.NOTE_NAMES -> In (note d') Chords.NOTE_NAMES ->
  (noteKeyOf d = noteKeyOf d' <-> note d = note d' /\ octave d = octave d').
Proof.
  intros Hn Hn'. split.
  2:{ intros [E1 E2]. unfold noteKeyOf. rewrite E1, E2. reflexivity. }
  destruct d as [n o c], d' as [n' o' c']. unfold noteKeyOf.
  cbn [note octave] in *. unfold Chords.NOTE_NAMES in Hn, Hn'.
  cbn [In] in Hn, Hn'.
  repeat (destruct Hn as [<-|Hn]); try contradiction;
    repeat (destruct Hn' as [<-|Hn']); try contradiction;
    cbn [String.append]; intros E;
    try discriminate E;
    injection E as E;
    try (split; [reflexivity|apply octave_string_inj; exact E]);
    try (exfalso; exact (octave_string_no_sharp _ _ E));
    try (exfalso; symmetry in E; exact (octave_string_no_sharp _ _ E)).
Qed.

(** Extra X22 for A4 and A4 three cents sharp. *)
Lemma noteKeyOf_tells_notes_apart_witness :
  In (note TunerSpec.A4) Chords.NOTE_NAMES /\
  In (note TunerSpec.A4_sharp3) Chords.NOTE_NAMES /\
  noteKeyOf TunerSpec.A4 = noteKeyOf TunerSpec.A4_sharp3.
Proof.
  assert (H : In "A"%string Chords.NOTE_NAMES)
    by (unfold Chords.NOTE_NAMES; cbn; tauto).
  split; [exact H|]. split; [exact H|].
  apply (proj2 (noteKeyOf_tells_notes_apart TunerSpec.A4 TunerSpec.A4_sharp3 H H)).
  split; reflexivity.
Defined.

End NoteKeyFacts.

Module SchedulerFacts.
Import Metronome MetronomeSpec SchedulerSpec MetronomeFacts.
Local Open Scope Q_scope.

(** ** [start()] *)




(** ** [stop()] *)







(** ** One scheduler at a time *)





End SchedulerFacts.

(* ================================================================== *)
(** * Proofs in double precision *)
(* ================================================================== *)

Module IEEEFacts.
Import JS IEEE IEEESpec.
Local Open Scope R_scope.

Lemma bpow_pos (e : Z) : 0 < bpow e.
Proof. apply powerRZ_lt. lra. Qed.

Lemma bpow_add (a b : Z) : bpow (a + b) = bpow a * bpow b.
Proof. apply powerRZ_add. lra. Qed.

Lemma bpow_Rpower (e : Z) : bpow e = Rpower 2 (IZR e).
Proof. apply powerRZ_Rpower. lra. Qed.

Lemma bpow_0 : bpow 0 = 1.
Proof. reflexivity. Qed.

Lemma bpow_1 : bpow 1 = 2.
Proof. unfold bpow. simpl. lra. Qed.

Lemma bpow_opp (e : Z) : bpow (- e) = / bpow e.
Proof.
  pose proof (bpow_add e (- e)) as H. rewrite Z.add_opp_diag_r, bpow_0 in H.
  pose proof (bpow_pos e). apply Rmult_eq_reg_l with (bpow e); [|lra].
  rewrite <- H. field. lra.
Qed.

Lemma bpow_lt (a b : Z) : (a < b)%Z -> bpow a < bpow b.
Proof.
  intros H. rewrite !bpow_Rpower. apply Rpower_lt; [lra|]. now apply IZR_lt.
Qed.

Lemma bpow_le (a b : Z) : (a <= b)%Z -> bpow a <= bpow b.
Proof.
  intros H. destruct (Z.eq_dec a b) as [->|Hn]; [lra|].
  left. apply bpow_lt. lia.
Qed.

Lemma bpow_lt_inv (a b : Z) : bpow a < bpow b -> (a < b)%Z.
Proof.
  intros H. destruct (Z_lt_le_dec a b) as [Hl|Hl]; [assumption|].
  pose proof (bpow_le _ _ Hl). lra.
Qed.

Lemma bpow_succ (e : Z) : bpow (e + 1) = 2 * bpow e.
Proof. rewrite bpow_add, bpow_1. ring. Qed.

Lemma bpow_pred (e : Z) : bpow (e - 1) = bpow e / 2.
Proof.
  replace e with ((e - 1) + 1)%Z at 2 by ring. rewrite bpow_succ. field.
Qed.

(** A nonnegative power of two is an integer. *)
Lemma bpow_IZR (n : Z) : (0 <= n)%Z -> bpow n = IZR (2 ^ n).
Proof.
  intros Hn. unfold bpow. rewrite <- (Z2Nat.id n Hn).
  rewrite <- pow_powerRZ. now rewrite pow_IZR.
Qed.

Lemma ln2_gt_0 : 0 < ln 2.
Proof. rewrite <- ln_1. apply ln_increasing; lra. Qed.

(** The binade holds the value. *)
Lemma binade_spec (x : R) :
  x <> 0 -> bpow (binade x) <= Rabs x < bpow (binade x + 1).
Proof.
  intros Hx. pose proof ln2_gt_0 as H2.
  assert (Ha : 0 < Rabs x) by now apply Rabs_pos_lt.
  unfold binade. pose proof (Zfloor_bound (ln (Rabs x) / ln 2)) as [B1 B2].
  set (e := Zfloor (ln (Rabs x) / ln 2)) in *.
  rewrite !bpow_Rpower. unfold Rpower.
  pose proof (exp_ln (Rabs x) Ha) as Hexp.
  assert (E1 : IZR e * ln 2 <= ln (Rabs x)).
  { apply Rmult_le_compat_r with (r := ln 2) in B1; [|lra].
    replace (ln (Rabs x) / ln 2 * ln 2) with (ln (Rabs x)) in B1 by (field; lra).
    exact B1. }
  assert (E2 : ln (Rabs x) < IZR (e + 1) * ln 2).
  { rewrite plus_IZR. apply Rmult_lt_compat_r with (r := ln 2) in B2; [|lra].
    replace (ln (Rabs x) / ln 2 * ln 2) with (ln (Rabs x)) in B2 by (field; lra).
    exact B2. }
  split.
  - rewrite <- Hexp at 1.
    destruct E1 as [E1|E1]; [left; now apply exp_increasing | right; now rewrite E1].
  - rewrite <- Hexp at 1. now apply exp_increasing.
Qed.

(** A value inside a binade has that binade. *)
Lemma binade_unique (x : R) (e : Z) :
  bpow e <= Rabs x < bpow (e + 1) -> binade x = e.
Proof.
  intros [H1 H2].
  assert (Hx : x <> 0).
  { intros ->. rewrite Rabs_R0 in H1. pose proof (bpow_pos e). lra. }
  destruct (binade_spec x Hx) as [B1 B2].
  assert ((binade x < e + 1)%Z) by (apply bpow_lt_inv; lra).
  assert ((e < binade x + 1)%Z) by (apply bpow_lt_inv; lra).
  lia.
Qed.

Lemma nearestEven_IZR (n : Z) : nearestEven (IZR n) = n.
Proof.
  unfold nearestEven. rewrite ZfloorZ.
  destruct (Rlt_dec (IZR n - IZR n) (/ 2)) as [_|H]; [reflexivity|]. lra.
Qed.

Lemma nearestEven_near (t : R) : Rabs (IZR (nearestEven t) - t) <= / 2.
Proof.
  unfold nearestEven. pose proof (Zfloor_bound t) as [B1 B2].
  destruct (Rlt_dec (t - IZR (Zfloor t)) (/ 2)) as [H|H].
  - apply Rabs_le. lra.
  - destruct (Rlt_dec (/ 2) (t - IZR (Zfloor t))) as [H'|H'].
    + rewrite plus_IZR. apply Rabs_le. lra.
    + destruct (Z.even (Zfloor t)).
      * apply Rabs_le. lra.
      * rewrite plus_IZR. apply Rabs_le. lra.
Qed.

(** Rounding to an integer never crosses an integer. *)
Lemma nearestEven_ge (t : R) (n : Z) : IZR n <= t -> (n <= nearestEven t)%Z.
Proof.
  intros H. pose proof (Zfloor_lub n t H) as Hf. unfold nearestEven.
  destruct (Rlt_dec _ _); [assumption|].
  destruct (Rlt_dec _ _); [lia|]. destruct (Z.even _); lia.
Qed.

Lemma nearestEven_le (t : R) (n : Z) : t <= IZR n -> (nearestEven t <= n)%Z.
Proof.
  intros H. pose proof (Zfloor_bound t) as [B1 B2].
  assert (Hf : (Zfloor t <= n)%Z) by (apply le_IZR; lra).
  unfold nearestEven.
  destruct (Rlt_dec (t - IZR (Zfloor t)) (/ 2)) as [H1|H1]; [assumption|].
  assert (Hlt : (Zfloor t < n)%Z) by (apply lt_IZR; lra).
  destruct (Rlt_dec _ _); [lia|]. destruct (Z.even _); lia.
Qed.

Lemma binary64_sane : sane binary64.
Proof. unfold sane. simpl. lia. Qed.

Lemma binary32_sane : sane binary32.
Proof. unfold sane. simpl. lia. Qed.

(** The result is within half a quantum of the exact value. *)
Lemma quantum_near (fmt : format) (x : R) :
  Rabs (IZR (nearestEven (x / bpow (quantum fmt x))) * bpow (quantum fmt x) - x)
  <= bpow (quantum fmt x) / 2.
Proof.
  set (q := quantum fmt x). pose proof (bpow_pos q) as Hq.
  pose proof (nearestEven_near (x / bpow q)) as Hn.
  replace (IZR (nearestEven (x / bpow q)) * bpow q - x)
    with ((IZR (nearestEven (x / bpow q)) - x / bpow q) * bpow q) by (field; lra).
  rewrite Rabs_mult, (Rabs_pos_eq (bpow q)) by lra.
  apply Rle_trans with (/ 2 * bpow q); [|lra].
  apply Rmult_le_compat_r; lra.
Qed.

(** A value of the format is its own rounding. *)
Lemma roundTo_exact (fmt : format) (m e : Z) :
  (Z.abs m < 2 ^ precision fmt)%Z -> (0 <= precision fmt)%Z ->
  (emin fmt <= e)%Z ->
  Rabs (IZR m * bpow e) < bpow (emax fmt) ->
  roundTo fmt (IZR m * bpow e) = Fin (IZR m * bpow e).
Proof.
  intros Hm Hp He Hmax. unfold roundTo.
  destruct (Req_dec_T (IZR m * bpow e) 0) as [H0|H0]; [now rewrite H0|].
  set (x := IZR m * bpow e) in *. set (q := quantum fmt x).
  assert (Hq : (q <= e)%Z).
  { unfold q, quantum. destruct (binade_spec x H0) as [B1 _].
    assert (Hx : Rabs x < bpow (e + precision fmt)).
    { unfold x. rewrite Rabs_mult, (Rabs_pos_eq (bpow e)) by (left; apply bpow_pos).
      rewrite Z.add_comm, bpow_add. apply Rmult_lt_compat_r; [apply bpow_pos|].
      rewrite bpow_IZR by assumption. rewrite <- abs_IZR. now apply IZR_lt. }
    assert ((binade x < e + precision fmt)%Z) by (apply bpow_lt_inv; lra).
    lia. }
  assert (Hint : x / bpow q = IZR (m * 2 ^ (e - q))).
  { rewrite mult_IZR, <- bpow_IZR by lia. unfold x.
    replace e with ((e - q) + q)%Z at 1 by ring. rewrite bpow_add.
    field. pose proof (bpow_pos q). lra. }
  cbv zeta. fold q. rewrite Hint, nearestEven_IZR, <- Hint.
  replace (x / bpow q * bpow q) with x by (field; pose proof (bpow_pos q); lra).
  destruct (Rle_dec (bpow (emax fmt)) (Rabs x)) as [H|H]; [lra|reflexivity].
Qed.

(** Past the normal range the rounding is an infinity. *)
Lemma roundTo_overflow (fmt : format) (x : R) :
  sane fmt -> bpow (emax fmt) <= x -> roundTo fmt x = PosInf.
Proof.
  intros [Hp Hs] Hx. pose proof (bpow_pos (emax fmt)) as Hpos.
  unfold roundTo. destruct (Req_dec_T x 0) as [H0|H0]; [lra|].
  cbv zeta. set (q := quantum fmt x). pose proof (bpow_pos q) as Hq.
  destruct (binade_spec x H0) as [B1 B2]. rewrite Rabs_pos_eq in B1, B2 by lra.
  assert (Hb : (emax fmt <= binade x)%Z).
  { assert ((emax fmt < binade x + 1)%Z) by (apply bpow_lt_inv; lra). lia. }
  assert (Hxq : x / bpow q * bpow q = x) by (field; lra).
  destruct (Rlt_dec 0 x) as [_|Hn]; [|lra].
  destruct (Rle_dec (bpow (emax fmt)) _) as [_|Hno]; [reflexivity|].
  exfalso. apply Hno. clear Hno.
  rewrite Rabs_mult, (Rabs_pos_eq (bpow q)) by lra.
  destruct (Z_le_gt_dec q (emax fmt)) as [Hle|Hgt].
  - (* the bound is a multiple of the quantum *)
    assert (Hge : (2 ^ (emax fmt - q) <= nearestEven (x / bpow q))%Z).
    { apply nearestEven_ge. rewrite <- bpow_IZR by lia.
      apply Rmult_le_reg_r with (bpow q); [lra|].
      rewrite <- bpow_add. replace (emax fmt - q + q)%Z with (emax fmt) by ring.
      now rewrite Hxq. }
    apply IZR_le in Hge. rewrite <- bpow_IZR in Hge by lia.
    replace (emax fmt) with ((emax fmt - q) + q)%Z at 1 by ring. rewrite bpow_add.
    apply Rmult_le_compat_r; [lra|].
    pose proof (bpow_pos (emax fmt - q)).
    rewrite Rabs_pos_eq; lra.
  - (* the quantum is past the bound, and the value is at least one quantum *)
    assert (Hq' : q = (binade x - (precision fmt - 1))%Z) by (unfold q, quantum in *; lia).
    assert (Hge : (1 <= nearestEven (x / bpow q))%Z).
    { apply nearestEven_ge. apply Rmult_le_reg_r with (bpow q); [lra|].
      rewrite Hxq, Rmult_1_l. apply Rle_trans with (bpow (binade x)); [|lra].
      apply bpow_le. lia. }
    apply IZR_le in Hge. rewrite Rabs_pos_eq by lra.
    apply Rle_trans with (1 * bpow q).
    + rewrite Rmult_1_l. apply bpow_le. lia.
    + apply Rmult_le_compat_r; lra.
Qed.

Lemma nearestEven_pos (t : R) : / 2 < t -> (1 <= nearestEven t)%Z.
Proof.
  intros H. pose proof (Zfloor_bound t) as [B1 B2].
  assert (Hf : (0 <= Zfloor t)%Z) by (apply Zfloor_lub; lra).
  unfold nearestEven.
  destruct (Rlt_dec (t - IZR (Zfloor t)) (/ 2)) as [H1|H1].
  - assert (IZR 0 < IZR (Zfloor t)) by lra. apply lt_IZR in H0. lia.
  - destruct (Rlt_dec _ _) as [H2|H2]; [lia|].
    destruct (Z.eq_dec (Zfloor t) 0) as [E|E].
    + exfalso. rewrite E in H1, H2. lra.
    + destruct (Z.even _); lia.
Qed.

(** A finite rounding is below the overflow bound. *)
Lemma roundTo_Fin_range (fmt : format) (x y : R) :
  roundTo fmt x = Fin y -> Rabs y < bpow (emax fmt).
Proof.
  unfold roundTo. destruct (Req_dec_T x 0).
  - intros H. injection H as <-. rewrite Rabs_R0. apply bpow_pos.
  - cbv zeta. destruct (Rle_dec _ _) as [H|H].
    + destruct (Rlt_dec 0 x); discriminate.
    + intros E. injection E as <-. lra.
Qed.

(** In the normal range the relative error is at most [2^-precision]. *)
Lemma roundTo_normal (fmt : format) (x : R) :
  sane fmt ->
  bpow (emin fmt + precision fmt - 1) <= Rabs x <= bpow (emax fmt - 1) ->
  exists y, roundTo fmt x = Fin y /\
            Rabs (y - x) <= bpow (- precision fmt) * Rabs x.
Proof.
  intros [Hp Hs] [Hlo Hhi].
  pose proof (bpow_pos (emin fmt + precision fmt - 1)) as Hpos.
  assert (H0 : x <> 0) by (intros ->; rewrite Rabs_R0 in Hlo; lra).
  destruct (binade_spec x H0) as [B1 B2].
  assert (Hb : (emin fmt + precision fmt - 1 <= binade x)%Z).
  { assert ((emin fmt + precision fmt - 1 < binade x + 1)%Z) by (apply bpow_lt_inv; lra).
    lia. }
  assert (Hq : quantum fmt x = (binade x - (precision fmt - 1))%Z)
    by (unfold quantum; lia).
  pose proof (quantum_near fmt x) as Hn. rewrite Hq in Hn.
  set (q := (binade x - (precision fmt - 1))%Z) in *.
  set (y := IZR (nearestEven (x / bpow q)) * bpow q) in *.
  assert (Hhalf : bpow q / 2 <= bpow (- precision fmt) * Rabs x).
  { rewrite <- bpow_pred.
    replace (q - 1)%Z with (- precision fmt + binade x)%Z by (unfold q; ring).
    rewrite bpow_add. apply Rmult_le_compat_l; [left; apply bpow_pos|lra]. }
  exists y. split; [|lra].
  unfold roundTo. destruct (Req_dec_T x 0) as [E|_]; [contradiction|].
  cbv zeta. rewrite Hq. fold q. fold y.
  destruct (Rle_dec (bpow (emax fmt)) (Rabs y)) as [Hov|_]; [|reflexivity].
  exfalso.
  assert (Hy : Rabs y <= Rabs x + Rabs (y - x)).
  { replace y with (x + (y - x)) at 1 by ring. apply Rabs_triang. }
  assert (Hu : bpow (- precision fmt) <= / 2).
  { replace (/ 2) with (bpow (- (1))) by (rewrite bpow_opp, bpow_1; reflexivity).
    apply bpow_le. lia. }
  assert (Hx2 : bpow (- precision fmt) * Rabs x <= / 2 * Rabs x).
  { apply Rmult_le_compat_r; [apply Rabs_pos|exact Hu]. }
  assert (He : bpow (emax fmt) = 2 * bpow (emax fmt - 1)).
  { rewrite <- bpow_succ. f_equal. ring. }
  pose proof (Rabs_pos x). lra.
Qed.

(** Below the normal range the error is at most half the least positive
    value. *)
Lemma roundTo_small (fmt : format) (x : R) :
  sane fmt ->
  Rabs x < bpow (emin fmt + precision fmt - 1) ->
  exists y, roundTo fmt x = Fin y /\ Rabs (y - x) <= bpow (emin fmt - 1).
Proof.
  intros [Hp Hs] Hlo.
  unfold roundTo. destruct (Req_dec_T x 0) as [E|H0].
  - exists 0. split; [reflexivity|]. rewrite E, Rminus_0_r, Rabs_R0.
    left. apply bpow_pos.
  - destruct (binade_spec x H0) as [B1 B2].
    assert (Hb : (binade x < emin fmt + precision fmt - 1)%Z) by (apply bpow_lt_inv; lra).
    assert (Hq : quantum fmt x = emin fmt) by (unfold quantum; lia).
    pose proof (quantum_near fmt x) as Hn. rewrite Hq in Hn.
    cbv zeta. rewrite Hq.
    set (y := IZR (nearestEven (x / bpow (emin fmt))) * bpow (emin fmt)) in *.
    rewrite <- bpow_pred in Hn.
    exists y. split; [|exact Hn].
    destruct (Rle_dec (bpow (emax fmt)) (Rabs y)) as [Hov|_]; [|reflexivity].
    exfalso.
    assert (Hy : Rabs y <= Rabs x + Rabs (y - x)).
    { replace y with (x + (y - x)) at 1 by ring. apply Rabs_triang. }
    assert (H1 : bpow (emin fmt - 1) <= bpow (emin fmt + precision fmt - 1))
      by (apply bpow_le; lia).
    assert (H2 : bpow (emin fmt + precision fmt - 1) <= bpow (emax fmt - 1))
      by (apply bpow_le; lia).
    assert (He : bpow (emax fmt) = 2 * bpow (emax fmt - 1)).
    { rewrite <- bpow_succ. f_equal. ring. }
    pose proof (bpow_pos (emax fmt - 1)). lra.
Qed.

(** A positive value above half the least positive one stays positive. *)
Lemma roundTo_pos (fmt : format) (x : R) :
  sane fmt -> bpow (emin fmt - 1) < x ->
  roundTo fmt x = PosInf \/
  exists y, roundTo fmt x = Fin y /\ bpow (emin fmt) <= y.
Proof.
  intros [Hp Hs] Hx. pose proof (bpow_pos (emin fmt - 1)) as Hpos.
  unfold roundTo. destruct (Req_dec_T x 0) as [E|H0]; [lra|].
  cbv zeta. set (q := quantum fmt x). pose proof (bpow_pos q) as Hq.
  destruct (Rlt_dec 0 x) as [_|Hn]; [|lra].
  destruct (Rle_dec _ _) as [_|_]; [now left|right].
  eexists. split; [reflexivity|].
  assert (Hxq : x / bpow q * bpow q = x) by (field; lra).
  assert (Hge : (1 <= nearestEven (x / bpow q))%Z).
  { destruct (binade_spec x H0) as [B1 B2]. rewrite Rabs_pos_eq in B1, B2 by lra.
    unfold q, quantum in *.
    destruct (Z_le_gt_dec (binade x - (precision fmt - 1)) (emin fmt)) as [Hle|Hgt].
    - rewrite Z.max_r in * by lia. apply nearestEven_pos.
      apply Rmult_lt_reg_r with (bpow (emin fmt)); [apply bpow_pos|].
      rewrite Hxq. rewrite bpow_pred in Hx. lra.
    - rewrite Z.max_l in * by lia. apply nearestEven_ge.
      apply Rmult_le_reg_r with (bpow (binade x - (precision fmt - 1))); [lra|].
      rewrite Hxq, Rmult_1_l. apply Rle_trans with (bpow (binade x)); [|lra].
      apply bpow_le. lia. }
  apply IZR_le in Hge.
  apply Rle_trans with (1 * bpow q).
  - rewrite Rmult_1_l. apply bpow_le. unfold q, quantum. lia.
  - apply Rmult_le_compat_r; lra.
Qed.

(** ** The doubles *)

Lemma unit64_bpow : unit64 = bpow (-53).
Proof.
  unfold unit64. change (-53)%Z with (- (53))%Z. rewrite bpow_opp, bpow_IZR by lia.
  reflexivity.
Qed.

Lemma round64_zero : round64 0 = Fin 0.
Proof.
  unfold round64, roundTo. destruct (Req_dec_T 0 0) as [_|H]; [reflexivity|].
  now contradiction H.
Qed.

(** A double is its own rounding: the dyadic values of 53 bits. *)
Lemma round64_dyadic (m e : Z) :
  (Z.abs m < 2 ^ 53)%Z -> (-1074 <= e)%Z ->
  Rabs (IZR m * bpow e) < bpow 1024 ->
  round64 (IZR m * bpow e) = Fin (IZR m * bpow e).
Proof.
  intros Hm He Hx. apply roundTo_exact; simpl; try assumption; lia.
Qed.

(** The integers of up to 53 bits are doubles. *)
Lemma round64_int (n : Z) :
  (Z.abs n < 2 ^ 53)%Z -> round64 (IZR n) = Fin (IZR n).
Proof.
  intros Hn. pose proof (round64_dyadic n 0 Hn) as H.
  rewrite bpow_0, Rmult_1_r in H. apply H; [lia|].
  rewrite <- abs_IZR. apply Rlt_trans with (IZR (2 ^ 53)); [now apply IZR_lt|].
  rewrite <- bpow_IZR by lia. apply bpow_lt. lia.
Qed.

(** In the normal range a rounding is off by at most one part in [2^53]. *)
Lemma round64_normal (x : R) :
  bpow (-1022) <= Rabs x <= bpow 1023 ->
  exists y, round64 x = Fin y /\ Rabs (y - x) <= unit64 * Rabs x.
Proof.
  intros H. rewrite unit64_bpow.
  apply (roundTo_normal binary64 x binary64_sane). exact H.
Qed.

(** Everywhere below [2^1023] it is off by that, or by [2^-1075]. *)
Lemma round64_finite (x : R) :
  Rabs x <= bpow 1023 ->
  exists y, round64 x = Fin y /\
            Rabs (y - x) <= unit64 * Rabs x + bpow (-1075).
Proof.
  intros H. destruct (Rle_lt_dec (bpow (-1022)) (Rabs x)) as [Hn|Hs].
  - destruct (round64_normal x (conj Hn H)) as [y [E B]].
    exists y. split; [exact E|]. pose proof (bpow_pos (-1075)). lra.
  - destruct (roundTo_small binary64 x binary64_sane Hs) as [y [E B]].
    exists y. split; [exact E|].
    change (emin binary64 - 1)%Z with (-1075)%Z in B.
    assert (0 <= unit64 * Rabs x).
    { apply Rmult_le_pos; [unfold unit64; lra|apply Rabs_pos]. }
    lra.
Qed.

(** Zero or normal: the relative bound alone. *)
Lemma round64_relative (x : R) :
  x = 0 \/ bpow (-1022) <= Rabs x <= bpow 1023 ->
  exists y, round64 x = Fin y /\ Rabs (y - x) <= unit64 * Rabs x.
Proof.
  intros [->|H]; [|now apply round64_normal].
  exists 0. split; [apply round64_zero|].
  rewrite Rminus_0_r, Rabs_R0. lra.
Qed.

Lemma round64_overflow (x : R) : bpow 1024 <= x -> round64 x = PosInf.
Proof. apply (roundTo_overflow binary64 x binary64_sane). Qed.

Lemma round64_pos (x : R) :
  bpow (-1075) < x ->
  round64 x = PosInf \/ exists y, round64 x = Fin y /\ bpow (-1074) <= y.
Proof. apply (roundTo_pos binary64 x binary64_sane). Qed.

End IEEEFacts.

Module MathFacts.
Import JS IEEE IEEESpec Math MathSpec IEEEFacts.
Local Open Scope R_scope.

Lemma tolerance_bpow : tolerance = bpow (-40).
Proof.
  unfold tolerance. change (-40)%Z with (- (40))%Z.
  rewrite bpow_opp, bpow_IZR by lia. reflexivity.
Qed.

Lemma tolerance_pos : 0 < tolerance.
Proof. unfold tolerance. lra. Qed.

Lemma unit64_le_tolerance : unit64 <= tolerance.
Proof. unfold unit64, tolerance. lra. Qed.

Lemma least_le_tolerance : bpow (-1075) <= tolerance.
Proof. rewrite tolerance_bpow. apply bpow_le. lia. Qed.

Lemma ln_bpow (e : Z) : ln (bpow e) = IZR e * ln 2.
Proof. rewrite bpow_Rpower. unfold Rpower. apply ln_exp. Qed.

(** The logarithm in base 2 of a positive double is between -1075 and
    1024. *)
Lemma log2_double_range (x : R) :
  bpow (-1075) <= x <= bpow 1024 -> -1075 <= ln x / ln 2 <= 1024.
Proof.
  intros [H1 H2]. pose proof ln2_gt_0 as Hl.
  pose proof (bpow_pos (-1075)) as Hp.
  assert (L1 : ln (bpow (-1075)) <= ln x).
  { destruct H1 as [H1|H1]; [left; apply ln_increasing; lra | right; now rewrite H1]. }
  assert (L2 : ln x <= ln (bpow 1024)).
  { destruct H2 as [H2|H2]; [left; apply ln_increasing; lra | right; now rewrite H2]. }
  rewrite ln_bpow in L1, L2.
  split.
  - apply Rmult_le_reg_r with (ln 2); [lra|].
    replace (ln x / ln 2 * ln 2) with (ln x) by (field; lra). lra.
  - apply Rmult_le_reg_r with (ln 2); [lra|].
    replace (ln x / ln 2 * ln 2) with (ln x) by (field; lra). lra.
Qed.

Lemma bpow_1023_large : 2048 <= bpow 1023.
Proof.
  replace 2048 with (bpow 11) by (rewrite bpow_IZR by lia; reflexivity).
  apply bpow_le. lia.
Qed.

(** A value of modest size, rounded, is within the tolerance. *)
Lemma round64_modest (v : R) :
  Rabs v <= 2048 ->
  exists y, round64 v = Fin y /\ Rabs (y - v) <= tolerance * (1 + Rabs v).
Proof.
  intros Hv. pose proof bpow_1023_large as Hb.
  destruct (round64_finite v) as [y [E B]]; [lra|].
  exists y. split; [exact E|].
  pose proof unit64_le_tolerance as Hu. pose proof least_le_tolerance as Hm.
  assert (unit64 * Rabs v <= tolerance * Rabs v).
  { apply Rmult_le_compat_r; [apply Rabs_pos|exact Hu]. }
  lra.
Qed.

Lemma ln10_ge_ln2 : ln 2 <= ln 10.
Proof. left. apply ln_increasing; lra. Qed.

Lemma log10_double_range (x : R) :
  bpow (-1075) <= x <= bpow 1024 -> Rabs (ln x / ln 10) <= 1075.
Proof.
  intros H. pose proof (log2_double_range x H) as [L1 L2].
  pose proof ln2_gt_0 as Hl. pose proof ln10_ge_ln2 as H10.
  assert (E : ln x / ln 10 = ln x / ln 2 * (ln 2 / ln 10)) by (field; lra).
  rewrite E, Rabs_mult.
  assert (Hr : 0 <= ln 2 / ln 10 <= 1).
  { split.
    - apply Rmult_le_pos; [lra|]. left. apply Rinv_0_lt_compat. lra.
    - apply Rmult_le_reg_r with (ln 10); [lra|].
      replace (ln 2 / ln 10 * ln 10) with (ln 2) by (field; lra). lra. }
  rewrite (Rabs_pos_eq (ln 2 / ln 10)) by lra.
  assert (Ha : Rabs (ln x / ln 2) <= 1075) by (apply Rabs_le; lra).
  pose proof (Rabs_pos (ln x / ln 2)).
  apply Rle_trans with (Rabs (ln x / ln 2) * 1); [|lra].
  apply Rmult_le_compat_l; lra.
Qed.

Lemma Rpower_2_range (y : R) :
  -1020 <= y <= 1020 -> bpow (-1020) <= Rpower 2 y <= bpow 1020.
Proof.
  intros [H1 H2]. rewrite !bpow_Rpower. split; apply Rle_Rpower; lra.
Qed.

(** The correctly rounded engine is accurate. *)
Lemma correctlyRounded_accurate : accurate correctlyRounded.
Proof.
  constructor; cbn [Math.log2 Math.log10 Math.pow2 correctlyRounded].
  - unfold JS.log2, JS.log. cbn [rounded]. destruct (Rlt_dec 0 1) as [_|H]; [|lra].
    rewrite ln_1. unfold Rdiv. rewrite Rmult_0_l. apply round64_zero.
  - unfold JS.log2, JS.log. destruct (Rlt_dec 0 0) as [H|_]; [lra|].
    destruct (Req_dec_T 0 0) as [_|H]; [reflexivity|now contradiction H].
  - reflexivity.
  - reflexivity.
  - intros x Hx. pose proof (bpow_pos (-1075)).
    unfold JS.log2. rewrite JSFacts.log_fin by lra. cbn [rounded].
    apply round64_modest. pose proof (log2_double_range x Hx).
    apply Rabs_le. lra.
  - unfold JS.log10, JS.log. destruct (Rlt_dec 0 0) as [H|_]; [lra|].
    destruct (Req_dec_T 0 0) as [_|H]; [reflexivity|now contradiction H].
  - reflexivity.
  - intros x Hx. pose proof (bpow_pos (-1075)).
    unfold JS.log10. rewrite JSFacts.log_fin by lra. cbn [rounded].
    apply round64_modest. pose proof (log10_double_range x Hx). lra.
  - cbn [JS.pow2 rounded]. rewrite Rpower_O by lra.
    apply (round64_int 1). lia.
  - intros y Hy. cbn [JS.pow2 rounded].
    pose proof (Rpower_2_range y Hy) as [P1 P2].
    assert (Hpos : 0 < Rpower 2 y) by (unfold Rpower; apply exp_pos).
    destruct (round64_normal (Rpower 2 y)) as [p [E B]].
    { rewrite Rabs_pos_eq by lra. split.
      - apply Rle_trans with (bpow (-1020)); [apply bpow_le; lia|exact P1].
      - apply Rle_trans with (bpow 1020); [exact P2|apply bpow_le; lia]. }
    exists p. split; [exact E|].
    rewrite (Rabs_pos_eq (Rpower 2 y)) in B by lra.
    pose proof unit64_le_tolerance as Hu.
    assert (unit64 * Rpower 2 y <= tolerance * Rpower 2 y).
    { apply Rmult_le_compat_r; lra. }
    lra.
Qed.

End MathFacts.

Module RoundingFacts.
Import JS IEEE IEEESpec IEEEFacts.
Local Open Scope R_scope.

Lemma Rabs_le_inv (x a : R) : Rabs x <= a -> - a <= x <= a.
Proof. unfold Rabs. destruct (Rcase_abs x); lra. Qed.

Lemma unit64_pos : 0 < unit64.
Proof. unfold unit64. lra. Qed.

Lemma unit64_tiny : unit64 <= / 1000000000000000.
Proof. unfold unit64. lra. Qed.

Lemma least_tiny : bpow (-1075) <= / 1000000000000000.
Proof.
  apply Rle_trans with (bpow (- (50))).
  - apply bpow_le. lia.
  - rewrite bpow_opp, bpow_IZR by lia.
    apply Rinv_le_contravar; [lra|]. apply IZR_le. vm_compute. discriminate.
Qed.

Lemma bpow_1023_huge : 1000000000000000 <= bpow 1023.
Proof.
  apply Rle_trans with (bpow 50).
  - rewrite bpow_IZR by lia. apply IZR_le. vm_compute. discriminate.
  - apply bpow_le. lia.
Qed.

(** The four operations on finite operands. *)
Lemma add_Fin (x y : R) : add (Fin x) (Fin y) = round64 (x + y).
Proof. reflexivity. Qed.

Lemma sub_Fin (x y : R) : sub (Fin x) (Fin y) = round64 (x - y).
Proof. reflexivity. Qed.

Lemma mul_Fin (x y : R) : mul (Fin x) (Fin y) = round64 (x * y).
Proof. reflexivity. Qed.

Lemma div_Fin (x y : R) : y <> 0 -> div (Fin x) (Fin y) = round64 (x / y).
Proof. intros Hy. unfold div. now rewrite JSFacts.div_fin. Qed.

(** On integers of up to 53 bits they are exact. *)
Lemma add_int (a b : Z) :
  (Z.abs (a + b) < 2 ^ 53)%Z -> add (Fin (IZR a)) (Fin (IZR b)) = Fin (IZR (a + b)).
Proof. intros H. rewrite add_Fin, <- plus_IZR. now apply round64_int. Qed.

Lemma sub_int (a b : Z) :
  (Z.abs (a - b) < 2 ^ 53)%Z -> sub (Fin (IZR a)) (Fin (IZR b)) = Fin (IZR (a - b)).
Proof. intros H. rewrite sub_Fin, <- minus_IZR. now apply round64_int. Qed.

Lemma mul_int (a b : Z) :
  (Z.abs (a * b) < 2 ^ 53)%Z -> mul (Fin (IZR a)) (Fin (IZR b)) = Fin (IZR (a * b)).
Proof. intros H. rewrite mul_Fin, <- mult_IZR. now apply round64_int. Qed.

(** A value of modest size is rounded to within a part in [10^15] of
    itself, or of [10^-15]. *)
Lemma round64_close (x : R) :
  Rabs x <= 1000000000000000 ->
  exists y, round64 x = Fin y /\
            Rabs (y - x) <= (Rabs x + 1) / 1000000000000000.
Proof.
  intros Hx. pose proof bpow_1023_huge as Hb.
  destruct (round64_finite x) as [y [E B]]; [lra|].
  exists y. split; [exact E|].
  pose proof unit64_tiny as Hu. pose proof least_tiny as Hl.
  pose proof (Rabs_pos x) as Hp.
  assert (unit64 * Rabs x <= / 1000000000000000 * Rabs x).
  { apply Rmult_le_compat_r; assumption. }
  lra.
Qed.

(** The quotient of an integer by 12, rounded, has the integer part of
    the exact quotient. *)
Lemma floor_twelfth (n : Z) :
  (Z.abs n < 2 ^ 40)%Z ->
  exists z, div (Fin (IZR n)) (Fin 12) = Fin z /\ Zfloor z = (n / 12)%Z.
Proof.
  intros Hn. rewrite div_Fin by lra.
  pose proof (Z.div_mod n 12 ltac:(lia)) as Hdm.
  pose proof (Z.mod_pos_bound n 12 ltac:(lia)) as Hmod.
  destruct (Z.eq_dec (n mod 12) 0) as [E0|E0].
  - (* an exact quotient *)
    assert (Hq : IZR n / 12 = IZR (n / 12)).
    { rewrite Hdm at 1. rewrite E0, Z.add_0_r, mult_IZR. field. }
    rewrite Hq. exists (IZR (n / 12)). split.
    + apply round64_int. assert (Z.abs (n / 12) <= Z.abs n)%Z; [|lia].
      destruct (Z_le_gt_dec 0 n).
      * rewrite !Z.abs_eq by (try apply Z.div_pos; lia).
        apply Z.div_le_upper_bound; lia.
      * rewrite !Z.abs_neq by (try (apply Z.lt_le_incl, Z.div_lt_upper_bound; lia); lia).
        assert (n <= n / 12)%Z; [|lia]. apply Z.div_le_lower_bound; lia.
    + apply ZfloorZ.
  - (* a fraction of at least a twelfth on either side *)
    assert (Hbig : (Z.abs n < 2 ^ 40)%Z) by assumption.
    assert (Hn' : Rabs (IZR n) <= 1099511627776).
    { rewrite <- abs_IZR. apply IZR_le. change (2 ^ 40)%Z with 1099511627776%Z in Hbig. lia. }
    destruct (round64_close (IZR n / 12)) as [z [E B]].
    { unfold Rdiv. rewrite Rabs_mult, (Rabs_pos_eq (/ 12)) by lra. lra. }
    exists z. split; [exact E|].
    apply Zfloor_eq.
    assert (Hx : IZR n / 12 = IZR (n / 12) + IZR (n mod 12) / 12).
    { rewrite Hdm at 1. rewrite plus_IZR, mult_IZR. field. }
    assert (Hm1 : 1 <= IZR (n mod 12)) by (apply IZR_le; lia).
    assert (Hm2 : IZR (n mod 12) <= 11) by (apply IZR_le; lia).
    apply Rabs_le_inv in B.
    assert (Ha : Rabs (IZR n / 12) <= 1099511627776).
    { unfold Rdiv. rewrite Rabs_mult, (Rabs_pos_eq (/ 12)) by lra. lra. }
    lra.
Qed.

End RoundingFacts.

Module LogFacts.
Import JS IEEE IEEESpec IEEEFacts RoundingFacts.
Local Open Scope R_scope.

(** Two positive values a fraction [r] apart have logarithms [2r] apart. *)
Lemma ln_near (a b r : R) :
  0 < a -> 0 <= r <= / 2 -> Rabs (b - a) <= r * a ->
  0 < b /\ Rabs (ln b - ln a) <= 2 * r.
Proof.
  intros Ha Hr Hb. apply Rabs_le_inv in Hb.
  assert (Hra : r * a <= / 2 * a) by (apply Rmult_le_compat_r; lra).
  assert (Hb0 : 0 < b) by lra.
  split; [assumption|].
  assert (H1 : ln b - ln a <= r).
  { replace (ln b - ln a) with (ln (b * / a)).
    2:{ rewrite ln_mult, ln_Rinv by (try apply Rinv_0_lt_compat; lra). ring. }
    pose proof (TuningTableFacts.ln_le_pred (b * / a)) as H.
    assert (0 < b * / a) by (apply Rmult_lt_0_compat; [lra|apply Rinv_0_lt_compat; lra]).
    specialize (H H0).
    assert (b * / a - 1 <= r); [|lra].
    apply Rmult_le_reg_r with a; [lra|].
    replace ((b * / a - 1) * a) with (b - a) by (field; lra). lra. }
  assert (H2 : ln a - ln b <= 2 * r).
  { replace (ln a - ln b) with (ln (a * / b)).
    2:{ rewrite ln_mult, ln_Rinv by (try apply Rinv_0_lt_compat; lra). ring. }
    pose proof (TuningTableFacts.ln_le_pred (a * / b)) as H.
    assert (0 < a * / b) by (apply Rmult_lt_0_compat; [lra|apply Rinv_0_lt_compat; lra]).
    specialize (H H0).
    assert (a * / b - 1 <= 2 * r); [|lra].
    apply Rmult_le_reg_r with b; [lra|].
    replace ((a * / b - 1) * b) with (a - b) by (field; lra).
    (* a - b <= r a and 2 r b >= 2 r (1 - r) a >= r a *)
    assert (Hrb : r * a <= 2 * r * b).
    { assert (a <= 2 * b) by lra.
      replace (2 * r * b) with (r * (2 * b)) by ring.
      apply Rmult_le_compat_l; lra. }
    lra. }
  apply Rabs_le. lra.
Qed.

(** The same in base 2: [4r] apart. *)
Lemma log2_near (a b r : R) :
  0 < a -> 0 <= r <= / 2 -> Rabs (b - a) <= r * a ->
  0 < b /\ Rabs (ln b / ln 2 - ln a / ln 2) <= 4 * r.
Proof.
  intros Ha Hr Hb. destruct (ln_near a b r Ha Hr Hb) as [Hb0 Hl].
  split; [assumption|]. pose proof ln_lt_2 as H2.
  replace (ln b / ln 2 - ln a / ln 2) with ((ln b - ln a) * / ln 2) by (field; lra).
  rewrite Rabs_mult, (Rabs_pos_eq (/ ln 2)) by (left; apply Rinv_0_lt_compat; lra).
  assert (Hi : / ln 2 <= 2).
  { apply Rmult_le_reg_r with (ln 2); [lra|]. rewrite Rinv_l by lra. lra. }
  pose proof (Rabs_pos (ln b - ln a)).
  apply Rle_trans with (Rabs (ln b - ln a) * 2); [|lra].
  apply Rmult_le_compat_l; lra.
Qed.

(** The exponential near 0: [exp t] is within [2|t|] of 1. *)
Lemma exp_near_1 (t : R) : Rabs t <= / 2 -> Rabs (exp t - 1) <= 2 * Rabs t.
Proof.
  intros Ht. apply Rabs_le_inv in Ht.
  pose proof (exp_ineq1_le t) as H1. pose proof (exp_ineq1_le (- t)) as H2.
  pose proof (exp_pos t) as Hp.
  rewrite exp_Ropp in H2.
  (* exp t * (1 - t) <= 1 *)
  assert (H3 : exp t * (1 - t) <= 1).
  { apply Rmult_le_reg_r with (/ exp t); [apply Rinv_0_lt_compat; lra|].
    replace (exp t * (1 - t) * / exp t) with (1 - t) by (field; lra). lra. }
  assert (H4 : exp t - 1 <= 2 * Rabs t).
  { unfold Rabs. destruct (Rcase_abs t) as [Hn|Hn].
    - (* t < 0: exp t <= 1 / (1 - t) <= 1 *)
      assert (exp t <= 1); [|lra].
      assert (exp t * 1 <= exp t * (1 - t)) by (apply Rmult_le_compat_l; lra). lra.
    - (* 0 <= t <= 1/2: exp t (1 - t) <= 1 and (1 + 2t)(1 - t) >= 1 *)
      assert (Hq : (1 + 2 * t) * (1 - t) = 1 + t * (1 - 2 * t)) by ring.
      assert (0 <= t * (1 - 2 * t)) by (apply Rmult_le_pos; lra).
      assert (exp t * (1 - t) <= (1 + 2 * t) * (1 - t)) by lra.
      apply Rmult_le_reg_r in H0; lra. }
  assert (H5 : - (2 * Rabs t) <= exp t - 1).
  { unfold Rabs. destruct (Rcase_abs t); lra. }
  apply Rabs_le. lra.
Qed.

End LogFacts.

Module LbFacts.
Import JS IEEE IEEESpec IEEEFacts RoundingFacts LogFacts.
Local Open Scope R_scope.

Lemma lb_bpow (e : Z) : lb (bpow e) = IZR e.
Proof.
  unfold lb. rewrite MathFacts.ln_bpow. field.
  pose proof ln2_gt_0. lra.
Qed.

Lemma lb_le (a b : R) : 0 < a -> a <= b -> lb a <= lb b.
Proof.
  intros Ha Hab. pose proof ln2_gt_0 as H2. unfold lb.
  apply Rmult_le_compat_r; [left; apply Rinv_0_lt_compat; lra|].
  destruct Hab as [Hab|Hab]; [left; apply ln_increasing; lra | right; now rewrite Hab].
Qed.

Lemma lb_mult (a b : R) : 0 < a -> 0 < b -> lb (a * b) = lb a + lb b.
Proof.
  intros Ha Hb. unfold lb. rewrite ln_mult by assumption.
  pose proof ln2_gt_0. field. lra.
Qed.

Lemma lb_div (a b : R) : 0 < a -> 0 < b -> lb (a / b) = lb a - lb b.
Proof.
  intros Ha Hb. unfold lb. change (a / b) with (a * / b).
  rewrite ln_mult, ln_Rinv by (try apply Rinv_0_lt_compat; assumption).
  pose proof ln2_gt_0. field. lra.
Qed.

Lemma lb_Rpower (y : R) : lb (Rpower 2 y) = y.
Proof.
  unfold lb, Rpower. rewrite ln_exp. pose proof ln2_gt_0. field. lra.
Qed.

Lemma lb_near (a b r : R) :
  0 < a -> 0 <= r <= / 2 -> Rabs (b - a) <= r * a ->
  0 < b /\ Rabs (lb b - lb a) <= 4 * r.
Proof. apply log2_near. Qed.

Lemma lb_440 : 8 <= lb 440 <= 9.
Proof.
  split.
  - replace 8 with (lb (bpow 8)) by apply lb_bpow.
    apply lb_le; [apply bpow_pos|]. rewrite bpow_IZR by lia.
    change (IZR (2 ^ 8)) with 256. lra.
  - replace 9 with (lb (bpow 9)) by apply lb_bpow.
    apply lb_le; [lra|]. rewrite bpow_IZR by lia.
    change (IZR (2 ^ 9)) with 512. lra.
Qed.

End LbFacts.

Module ReadingFacts.
Import JS IEEE IEEESpec IEEEFacts RoundingFacts LogFacts LbFacts.
Import Math MathSpec MathFacts Chords Chords64 Chords64Spec.
Local Open Scope R_scope.

(** The quotient by 440 of a readable frequency is a positive double. *)
Lemma quotient_readable (f : R) :
  readable f ->
  exists x, div (Fin f) (Fin 440) = Fin x /\ bpow (-1074) <= x <= bpow 1024.
Proof.
  intros [H1 H2]. rewrite div_Fin by lra.
  pose proof (bpow_pos (-1075)) as Hp.
  assert (Hq : bpow (-1075) < f / 440).
  { apply Rmult_lt_reg_r with 440; [lra|].
    replace (f / 440 * 440) with f by field. lra. }
  assert (Hq2 : Rabs (f / 440) <= bpow 1023).
  { rewrite Rabs_pos_eq by lra.
    replace (bpow 1024) with (2 * bpow 1023) in H2
      by (rewrite <- bpow_succ; reflexivity).
    pose proof (bpow_pos 1023). lra. }
  destruct (round64_finite _ Hq2) as [x [E _]].
  destruct (round64_pos _ Hq) as [Hinf|[x' [E' Hx']]]; [congruence|].
  rewrite E in E'. injection E' as <-.
  exists x. split; [exact E|]. split; [exact Hx'|].
  pose proof (roundTo_Fin_range binary64 _ _ E) as Hr.
  apply Rabs_def2 in Hr. change (emax binary64) with 1024%Z in Hr. lra.
Qed.

(** The computed number of semitones of a readable frequency is finite. *)
Lemma semitonesOf_readable (M : Library) (f : R) :
  accurate M -> readable f ->
  exists s, Chords64.semitonesOf M (Fin f) = Fin s /\ Rabs s <= 13000.
Proof.
  intros HM Hf. unfold Chords64.semitonesOf.
  destruct (quotient_readable f Hf) as [x [Ex Hx]]. rewrite Ex.
  assert (Hx' : bpow (-1075) <= x <= bpow 1024).
  { split; [|tauto]. apply Rle_trans with (bpow (-1074)); [apply bpow_le; lia|tauto]. }
  destruct (@log2_near M HM x Hx') as [l [El Bl]]. rewrite El.
  pose proof (log2_double_range x Hx') as HL. fold (lb x) in HL, Bl.
  apply Rabs_le_inv in Bl.
  assert (Ha : Rabs (lb x) <= 1075) by (apply Rabs_le; lra).
  assert (Hl : Rabs l <= 1076).
  { unfold tolerance in Bl. apply Rabs_le. pose proof (Rabs_pos (lb x)). lra. }
  rewrite mul_Fin.
  assert (H12 : Rabs (12 * l) <= 12912).
  { rewrite Rabs_mult, (Rabs_pos_eq 12) by lra. lra. }
  destruct (round64_close (12 * l)) as [s [Es Bs]]; [lra|].
  exists s. split; [exact Es|].
  apply Rabs_le_inv in Bs. apply Rabs_le_inv in H12. apply Rabs_le. 
  pose proof (Rabs_pos (12 * l)). 
  assert (Rabs (12 * l) <= 12912) by (apply Rabs_le; lra). lra.
Qed.

(** Away from the ends of the range it is within [semitoneError] of the
    exact number. *)
Lemma semitonesOf_ordinary (M : Library) (f : R) :
  accurate M -> ordinary f ->
  exists s, Chords64.semitonesOf M (Fin f) = Fin s /\
            Rabs (s - ChordsSpec.semitonesOf f) <= semitoneError.
Proof.
  intros HM [H1 H2]. unfold Chords64.semitonesOf.
  pose proof (bpow_pos (-1000)) as Hp.
  assert (Hf : 0 < f) by lra.
  assert (Hq : 0 < f / 440) by (apply Rdiv_lt_0_compat; lra).
  (* the exact logarithm *)
  assert (HL : -1009 <= lb (f / 440) <= 1002).
  { rewrite lb_div by lra. pose proof lb_440.
    pose proof (lb_le _ _ Hp H1) as L1. rewrite lb_bpow in L1.
    pose proof (lb_le _ _ Hf H2) as L2. rewrite lb_bpow in L2. lra. }
  (* the quotient *)
  rewrite div_Fin by lra.
  destruct (round64_normal (f / 440)) as [x [Ex Bx]].
  { rewrite Rabs_pos_eq by lra. split.
    - apply Rle_trans with (bpow (-1000) / 440).
      + apply Rle_trans with (bpow (-1000) / 512).
        * replace (bpow (-1000) / 512) with (bpow (-1009)).
          { apply bpow_le. lia. }
          replace (-1000)%Z with (-1009 + 9)%Z by ring.
          rewrite bpow_add, (bpow_IZR 9) by lia. change (IZR (2 ^ 9)) with 512. field.
        * unfold Rdiv. apply Rmult_le_compat_l; [lra|].
          apply Rinv_le_contravar; lra.
      + unfold Rdiv. apply Rmult_le_compat_r; lra.
    - apply Rle_trans with (bpow 1010).
      + apply Rle_trans with (f / 1); [|lra].
        unfold Rdiv. apply Rmult_le_compat_l; [lra|].
        apply Rinv_le_contravar; lra.
      + apply bpow_le. lia. }
  rewrite Ex. rewrite (Rabs_pos_eq (f / 440)) in Bx by lra.
  pose proof unit64_pos as Hu0. pose proof unit64_tiny as Hu.
  destruct (lb_near (f / 440) x unit64 Hq ltac:(lra) Bx) as [Hx0 Bl].
  apply Rabs_le_inv in Bl.
  assert (Hx : bpow (-1075) <= x <= bpow 1024).
  { assert (-1010 <= lb x <= 1003) by lra.
    split.
    - destruct (Rle_lt_dec (bpow (-1075)) x) as [Hc|Hc]; [assumption|exfalso].
      pose proof (lb_le x (bpow (-1075)) Hx0 ltac:(lra)) as Hc'.
      rewrite lb_bpow in Hc'. lra.
    - destruct (Rle_lt_dec x (bpow 1024)) as [Hc|Hc]; [assumption|exfalso].
      pose proof (lb_le (bpow 1024) x (bpow_pos _) ltac:(lra)) as Hc'.
      rewrite lb_bpow in Hc'. lra. }
  destruct (@log2_near M HM x Hx) as [l [El B]]. rewrite El.
  fold (lb x) in B. apply Rabs_le_inv in B.
  assert (Ha : Rabs (lb x) <= 1010) by (apply Rabs_le; lra).
  unfold tolerance in B.
  rewrite mul_Fin.
  assert (Hl : Rabs l <= 1011).
  { apply Rabs_le. pose proof (Rabs_pos (lb x)). lra. }
  assert (H12 : Rabs (12 * l) <= 12132).
  { rewrite Rabs_mult, (Rabs_pos_eq 12) by lra. lra. }
  destruct (round64_close (12 * l)) as [s [Es Bs]]; [lra|].
  exists s. split; [exact Es|].
  apply Rabs_le_inv in Bs. unfold ChordsSpec.semitonesOf. fold (lb (f / 440)).
  unfold semitoneError. apply Rabs_le.
  pose proof (Rabs_pos (12 * l)). pose proof (Rabs_pos (lb x)).
  lra.
Qed.

(** The reading, from the computed number of semitones [s]: the note and
    the octave of [round(s)], and for cents the rounding of a value [c]
    that is [100 (s - round(s))] up to a billionth. *)
Lemma reading_of_semitones (M : Library) (f s : R) :
  0 < f -> Chords64.semitonesOf M (Fin f) = Fin s -> Rabs s <= 13000 ->
  exists c : R,
    Rabs (c - (s - IZR (Zfloor (s + / 2))) * 100) <= / 1000000000 /\
    Chords64.frequencyToNote M (Num (Fin f)) =
    Some {| note := nth_error NOTE_NAMES
                      (Z.to_nat (Z.rem (Z.rem (Zfloor (s + / 2)) 12 + 12 + 9) 12));
            octave := Fin (IZR ((Zfloor (s + / 2) + 9) / 12 + 4));
            cents := Fin (IZR (Zfloor (c + / 2)));
            freq := Num (Fin f) |}.
Proof.
  intros Hf Hs Hb. unfold Chords64.frequencyToNote.
  rewrite JSFacts.truthy_pos by assumption. cbn [negb orb ToNumber].
  rewrite JSFacts.le_pos_0 by assumption. rewrite Hs. cbn [round].
  pose proof (Zfloor_bound (s + / 2)) as Hr.
  set (r := Zfloor (s + / 2)) in *.
  apply Rabs_le_inv in Hb.
  assert (Hrz : (-13001 <= r <= 13001)%Z).
  { split.
    - apply le_IZR. lra.
    - apply le_IZR. lra. }
  (* the cents *)
  rewrite sub_Fin.
  destruct (round64_close (s - IZR r)) as [d [Ed Bd]].
  { apply Rle_trans with (/ 2); [apply Rabs_le|]; lra. }
  rewrite Ed, mul_Fin.
  assert (Hsr : Rabs (s - IZR r) <= / 2) by (apply Rabs_le; lra).
  apply Rabs_le_inv in Bd.
  assert (Hd : Rabs (d * 100) <= 51).
  { apply Rabs_le. pose proof (Rabs_pos (s - IZR r)). lra. }
  destruct (round64_close (d * 100)) as [c [Ec Bc]]; [lra|].
  rewrite Ec. cbn [round].
  apply Rabs_le_inv in Bc.
  exists c. split.
  - apply Rabs_le. pose proof (Rabs_pos (s - IZR r)). pose proof (Rabs_pos (d * 100)).
    lra.
  - (* the note and the octave *)
    rewrite (JSFacts.rem_int r 12) by lia.
    pose proof (Z.rem_bound_abs r 12 ltac:(lia)) as Hrem.
    rewrite (add_int (Z.rem r 12) 12) by lia.
    rewrite (add_int (Z.rem r 12 + 12) 9) by lia.
    rewrite (JSFacts.rem_int _ 12) by lia.
    rewrite JSFacts.index_int by (apply Z.rem_nonneg; lia).
    rewrite (add_int r 9) by lia.
    destruct (floor_twelfth (r + 9)) as [z [Ez Hz]]; [lia|].
    rewrite Ez. cbn [floor]. rewrite Hz.
    rewrite (add_int _ 4).
    + reflexivity.
    + assert (-1100 <= (r + 9) / 12 <= 1100)%Z; [|lia].
      split; [apply Z.div_le_lower_bound | apply Z.div_le_upper_bound]; lia.
Qed.

(** The cents offset is between -50 and 50. *)
Lemma cents_between (s c : R) :
  Rabs (c - (s - IZR (Zfloor (s + / 2))) * 100) <= / 1000000000 ->
  (-50 <= Zfloor (c + / 2) <= 50)%Z.
Proof.
  intros Hc. apply Rabs_le_inv in Hc.
  pose proof (Zfloor_bound (s + / 2)) as Hr.
  pose proof (Zfloor_bound (c + / 2)) as Hz.
  split.
  - apply Zfloor_lub. lra.
  - assert (IZR (Zfloor (c + / 2)) < IZR 51) by lra. apply lt_IZR in H. lia.
Qed.

(** The note index is the residue of the semitones, and names a note. *)
Lemma note_of_semitones (k : Z) :
  exists n, nth_error NOTE_NAMES (Z.to_nat (Z.rem (Z.rem k 12 + 12 + 9) 12)) = Some n /\
            In n NOTE_NAMES /\ indexOf n NOTE_NAMES = ((k + 9) mod 12)%Z.
Proof.
  rewrite NoteFacts.noteIndex_mod.
  pose proof (Z.mod_pos_bound (k + 9) 12 ltac:(lia)) as Hidx.
  destruct (nth_error NOTE_NAMES (Z.to_nat ((k + 9) mod 12))) as [n|] eqn:Hn.
  2:{ apply nth_error_None in Hn. change (List.length NOTE_NAMES) with 12%nat in Hn. lia. }
  exists n. split; [reflexivity|]. split.
  - eapply nth_error_In. exact Hn.
  - rewrite (NoteFacts.NOTE_NAMES_indexOf _ _ Hn). lia.
Qed.

End ReadingFacts.

Module NoteFrequencyFacts.
Import JS IEEE IEEESpec IEEEFacts RoundingFacts LogFacts LbFacts.
Import Math MathSpec MathFacts Chords Chords64 Chords64Spec ReadingFacts.
Local Open Scope R_scope.

Lemma pitchOf_pos (k : Z) : 0 < pitchOf k.
Proof. unfold pitchOf. apply Rmult_lt_0_compat; [lra|apply exp_pos]. Qed.

Lemma lb_pitchOf (k : Z) : lb (pitchOf k) = lb 440 + IZR k / 12.
Proof.
  unfold pitchOf. rewrite lb_mult by (try lra; apply exp_pos).
  now rewrite lb_Rpower.
Qed.

(** The exponent the source computes, [(octave - 4) * 12 + (noteIndex - 9)],
    is exact. *)
Lemma semitonesFromA4_exact (o i : Z) :
  (-1000000 <= o <= 1000000)%Z -> (0 <= i < 12)%Z ->
  add (mul (sub (Fin (IZR o)) (Fin 4)) (Fin 12)) (sub (Fin (IZR i)) (Fin 9)) =
  Fin (IZR ((o - 4) * 12 + (i - 9))).
Proof.
  intros Ho Hi.
  rewrite (sub_int o 4) by lia. rewrite (mul_int (o - 4) 12) by lia.
  rewrite (sub_int i 9) by lia. apply add_int. lia.
Qed.

(** Between the octaves -1000 and 1000 the frequency of a note is finite
    and within a part in [10^10] of the exact [440 * 2^(k/12)]. *)
Lemma noteFrequency_near (M : Library) (noteName : string) (o : Z) :
  accurate M -> In noteName NOTE_NAMES -> (-1000 <= o <= 1000)%Z ->
  exists f,
    Chords64.noteFrequency M noteName o = Num (Fin f) /\
    Rabs (f - pitchOf ((o - 4) * 12 + (indexOf noteName NOTE_NAMES - 9)))
    <= pitchOf ((o - 4) * 12 + (indexOf noteName NOTE_NAMES - 9)) / 10000000000.
Proof.
  intros HM Hin Ho.
  destruct (ChordsFacts.indexOf_NOTE_NAMES noteName Hin) as [Hi _].
  unfold Chords64.noteFrequency. cbn zeta.
  set (i := indexOf noteName NOTE_NAMES) in *.
  destruct (Z.eqb_spec i (-1)) as [E|_]; [lia|].
  rewrite semitonesFromA4_exact by lia.
  set (k := ((o - 4) * 12 + (i - 9))%Z).
  assert (Hk : (-12057 <= k <= 11954)%Z) by (unfold k; lia).
  assert (HkR : -12057 <= IZR k <= 11954) by (split; apply IZR_le; lia).
  (* the exponent *)
  rewrite div_Fin by lra.
  destruct (round64_close (IZR k / 12)) as [y [Ey By]].
  { apply Rabs_le. lra. }
  rewrite Ey.
  assert (Hk12 : Rabs (IZR k / 12) <= 1005) by (apply Rabs_le; lra).
  apply Rabs_le_inv in By.
  assert (Hy : -1006 <= y <= 1006).
  { pose proof (Rabs_pos (IZR k / 12)). lra. }
  (* the power *)
  destruct (@pow2_near M HM y ltac:(lra)) as [p [Ep Bp]]. rewrite Ep.
  assert (Hpow : bpow (-1006) <= Rpower 2 y <= bpow 1006).
  { rewrite !bpow_Rpower. split; apply Rle_Rpower; lra. }
  pose proof (bpow_pos (-1006)) as Hlow.
  apply Rabs_le_inv in Bp. unfold tolerance in Bp.
  assert (Hp : Rpower 2 y / 2 <= p <= 2 * Rpower 2 y) by lra.
  (* the product *)
  rewrite mul_Fin.
  destruct (round64_normal (440 * p)) as [f [Ef Bf]].
  { rewrite Rabs_pos_eq by lra. split.
    - apply Rle_trans with (128 * bpow (-1006)); [|lra].
      replace 128 with (bpow 7) by (rewrite bpow_IZR by lia; reflexivity).
      rewrite <- bpow_add. apply bpow_le. lia.
    - apply Rle_trans with (1024 * bpow 1006); [lra|].
      replace 1024 with (bpow 10) by (rewrite bpow_IZR by lia; reflexivity).
      rewrite <- bpow_add. apply bpow_le. lia. }
  exists f. split; [now rewrite Ef|].
  rewrite (Rabs_pos_eq (440 * p)) in Bf by lra.
  apply Rabs_le_inv in Bf. pose proof unit64_tiny as Hu. pose proof unit64_pos as Hu0.
  assert (Hup : unit64 * (440 * p) <= / 1000000000000000 * (440 * p)).
  { apply Rmult_le_compat_r; lra. }
  (* the power against the exact one *)
  set (t := (y - IZR k / 12) * ln 2).
  assert (Ht : Rabs t <= / 100000000000).
  { unfold t. rewrite Rabs_mult. pose proof ln_lt_2. pose proof ln2_gt_0.
    assert (Hl2 : ln 2 <= 1).
    { pose proof (TuningTableFacts.ln_le_pred 2 ltac:(lra)). lra. }
    rewrite (Rabs_pos_eq (ln 2)) by lra.
    assert (Hy' : Rabs (y - IZR k / 12) <= / 100000000000).
    { apply Rabs_le. pose proof (Rabs_pos (IZR k / 12)). lra. }
    pose proof (Rabs_pos (y - IZR k / 12)).
    apply Rle_trans with (Rabs (y - IZR k / 12) * 1); [|lra].
    apply Rmult_le_compat_l; lra. }
  assert (Hexp : Rpower 2 y = Rpower 2 (IZR k / 12) * exp t).
  { unfold Rpower, t. rewrite <- exp_plus. f_equal. ring. }
  pose proof (exp_near_1 t ltac:(lra)) as He. apply Rabs_le_inv in He.
  unfold pitchOf. fold k.
  set (P0 := Rpower 2 (IZR k / 12)) in *.
  assert (HP0 : 0 < P0) by apply exp_pos.
  assert (Ha : Rabs (Rpower 2 y - P0) <= P0 * (2 / 100000000000)).
  { rewrite Hexp. replace (P0 * exp t - P0) with (P0 * (exp t - 1)) by ring.
    rewrite Rabs_mult, (Rabs_pos_eq P0) by lra.
    apply Rmult_le_compat_l; [lra|]. apply Rabs_le. lra. }
  apply Rabs_le_inv in Ha. apply Rabs_le. lra.
Qed.

End NoteFrequencyFacts.

Module Chords64Facts.
Import JS IEEE IEEESpec IEEEFacts RoundingFacts LogFacts LbFacts.
Import Math MathSpec MathFacts Chords Chords64 Chords64Spec ReadingFacts.
Import NoteFrequencyFacts.
Local Open Scope R_scope.

(** A frequency a part in [10^10] from the exact one of the note [k] is
    [k] semitones from A4, up to a hundred-millionth. *)
Lemma semitones_near_note (k : Z) (f : R) :
  Rabs (f - pitchOf k) <= pitchOf k / 10000000000 ->
  0 < f /\ Rabs (ChordsSpec.semitonesOf f - IZR k) <= / 100000000.
Proof.
  intros Hf. pose proof (pitchOf_pos k) as HP.
  destruct (lb_near (pitchOf k) f (/ 10000000000) HP ltac:(lra)) as [Hf0 Hl].
  { unfold Rdiv in Hf. lra. }
  split; [assumption|].
  unfold ChordsSpec.semitonesOf. fold (lb (f / 440)).
  rewrite lb_div by lra. rewrite lb_pitchOf in Hl.
  apply Rabs_le_inv in Hl. apply Rabs_le. lra.
Qed.

(** A positive value with a binary logarithm between two integers lies
    between the two powers. *)
Lemma between_powers (x : R) (a b : Z) :
  0 < x -> IZR a < lb x < IZR b -> bpow a <= x <= bpow b.
Proof.
  intros Hx [H1 H2]. split.
  - destruct (Rle_lt_dec (bpow a) x) as [Hc|Hc]; [assumption|exfalso].
    pose proof (lb_le x (bpow a) Hx ltac:(lra)) as Hc'.
    rewrite lb_bpow in Hc'. lra.
  - destruct (Rle_lt_dec x (bpow b)) as [Hc|Hc]; [assumption|exfalso].
    pose proof (lb_le (bpow b) x (bpow_pos _) ltac:(lra)) as Hc'.
    rewrite lb_bpow in Hc'. lra.
Qed.

(** Claim C1, as amended.  For every note name of NOTE_NAMES and every
    octave from -1000 to 1000, on every accurate engine,
    [frequencyToNote (noteFrequency noteName octave)] is a reading whose
    note is [noteName], whose octave is [octave] and whose cents offset
    is 0. *)
Theorem roundtrip_between_octaves (M : Library) (noteName : string) (o : Z) :
  accurate M -> In noteName NOTE_NAMES -> (-1000 <= o <= 1000)%Z ->
  exists r,
    Chords64.frequencyToNote M (Chords64.noteFrequency M noteName o) = Some r /\
    note r = Some noteName /\
    octave r = Fin (IZR o) /\
    cents r = Fin 0.
Proof.
  intros HM Hin Ho.
  destruct (noteFrequency_near M noteName o HM Hin Ho) as [f [Ef Bf]].
  destruct (ChordsFacts.indexOf_NOTE_NAMES noteName Hin) as [Hi Hn].
  set (i := indexOf noteName NOTE_NAMES) in *.
  set (k := ((o - 4) * 12 + (i - 9))%Z) in *.
  assert (Hk : -12057 <= IZR k <= 11954) by (split; apply IZR_le; unfold k; lia).
  destruct (semitones_near_note k f Bf) as [Hf0 Hs].
  apply Rabs_le_inv in Hs.
  (* the frequency is ordinary *)
  assert (Hord : ordinary f).
  { apply between_powers; [assumption|].
    pose proof lb_440 as H440. unfold ChordsSpec.semitonesOf in Hs.
    fold (lb (f / 440)) in Hs. rewrite lb_div in Hs by lra. lra. }
  rewrite Ef.
  destruct (semitonesOf_ordinary M f HM Hord) as [s [Es Bs]].
  apply Rabs_le_inv in Bs. unfold semitoneError in Bs.
  destruct (reading_of_semitones M f s Hf0 Es) as [c [Bc Er]].
  { apply Rabs_le. lra. }
  assert (Hr : Zfloor (s + / 2) = k) by (apply Zfloor_eq; lra).
  rewrite Hr in Er, Bc. apply Rabs_le_inv in Bc.
  assert (Hc : Zfloor (c + / 2) = 0%Z) by (apply Zfloor_eq; lra).
  rewrite Hc in Er.
  eexists. split; [exact Er|]. cbn [note octave cents].
  split; [|split; [|reflexivity]].
  - rewrite NoteFacts.noteIndex_mod.
    replace ((k + 9) mod 12)%Z with i; [exact Hn|].
    replace (k + 9)%Z with (i + (o - 4) * 12)%Z by (unfold k; lia).
    rewrite Z.mod_add by lia. symmetry. apply Z.mod_small. lia.
  - do 2 f_equal. replace (k + 9)%Z with (i + (o - 4) * 12)%Z by (unfold k; lia).
    rewrite Z.div_add by lia. rewrite Z.div_small by lia. lia.
Qed.

(** Claim C1, as amended, for A in octave 4 on the correctly rounded
    engine. *)
Lemma roundtrip_between_octaves_witness :
  exists r,
    Chords64.frequencyToNote correctlyRounded
      (Chords64.noteFrequency correctlyRounded "A" 4) = Some r /\
    note r = Some "A"%string /\ octave r = Fin (IZR 4) /\ cents r = Fin 0.
Proof.
  apply (roundtrip_between_octaves correctlyRounded "A" 4).
  - exact correctlyRounded_accurate.
  - unfold NOTE_NAMES. simpl. tauto.
  - lia.
Defined.

(** At octave 1020 the frequency of A is past the doubles. *)
Lemma noteFrequency_overflows (M : Library) :
  accurate M -> Chords64.noteFrequency M "A" 1020 = Num PosInf.
Proof.
  intros HM. unfold Chords64.noteFrequency.
  change (indexOf "A" NOTE_NAMES) with 9%Z. cbn zeta.
  change ((9 =? -1)%Z) with false. cbn iota.
  rewrite (semitonesFromA4_exact 1020 9) by lia.
  change ((1020 - 4) * 12 + (9 - 9))%Z with 12192%Z.
  rewrite div_Fin by lra.
  replace (12192 / 12) with (IZR 1016) by lra.
  rewrite round64_int by lia.
  destruct (@pow2_near M HM (IZR 1016) ltac:(lra)) as [p [Ep Bp]]. rewrite Ep.
  rewrite <- bpow_Rpower in Bp. apply Rabs_le_inv in Bp. unfold tolerance in Bp.
  rewrite mul_Fin. f_equal. apply round64_overflow.
  pose proof (bpow_pos 1016) as Hb.
  replace (bpow 1024) with (256 * bpow 1016).
  - lra.
  - replace 256 with (bpow 8) by (rewrite bpow_IZR by lia; reflexivity).
    rewrite <- bpow_add. reflexivity.
Qed.

(** The reading of +Infinity. *)
Lemma frequencyToNote_Infinity (M : Library) :
  accurate M ->
  Chords64.frequencyToNote M (Num PosInf) =
  Some {| note := None; octave := PosInf; cents := NaN; freq := Num PosInf |}.
Proof.
  intros HM. unfold Chords64.frequencyToNote, Chords64.semitonesOf.
  cbn [truthy negb orb ToNumber le].
  assert (Hd : div PosInf (Fin 440) = PosInf).
  { unfold div. cbn [JS.div]. destruct (Rle_dec 0 440); [reflexivity | lra]. }
  rewrite Hd, (log2_PosInf HM).
  assert (Hm : mul (Fin 12) PosInf = PosInf).
  { unfold mul. cbn [JS.mul]. destruct (Req_dec_T 12 0); [lra|].
    destruct (Rlt_dec 0 12); [reflexivity | lra]. }
  rewrite Hm. cbn [round].
  assert (Hs : sub PosInf PosInf = NaN) by reflexivity.
  rewrite Hs.
  assert (Hn : mul NaN (Fin 100) = NaN) by reflexivity.
  rewrite Hn. cbn [round rem].
  assert (Ha : add (add NaN (Fin 12)) (Fin 9) = NaN) by reflexivity.
  rewrite Ha. cbn [rem index].
  assert (Ha9 : add PosInf (Fin 9) = PosInf) by reflexivity.
  rewrite Ha9.
  assert (Hd2 : div PosInf (Fin 12) = PosInf).
  { unfold div. cbn [JS.div]. destruct (Rle_dec 0 12); [reflexivity | lra]. }
  rewrite Hd2. reflexivity.
Qed.

(** Claim C1, counterexample.  A in octave 1020: [noteFrequency] is
    +Infinity, and the reading of it has no note, the octave +Infinity and
    NaN cents. *)
Lemma roundtrip_fails_at_octave_1020 :
  Chords64.noteFrequency correctlyRounded "A" 1020 = Num PosInf /\
  exists r,
    Chords64.frequencyToNote correctlyRounded
      (Chords64.noteFrequency correctlyRounded "A" 1020) = Some r /\
    note r = None /\ octave r = PosInf /\ cents r = NaN.
Proof.
  pose proof correctlyRounded_accurate as HM.
  rewrite (noteFrequency_overflows _ HM). split; [reflexivity|].
  rewrite (frequencyToNote_Infinity _ HM).
  eexists. split; [reflexivity|]. cbn. repeat split.
Qed.

Lemma readable_440 : readable 440.
Proof.
  unfold readable. split.
  - assert (bpow (-1075) < 1); [|lra].
    rewrite <- bpow_0. apply bpow_lt. lia.
  - apply Rlt_le_trans with (bpow 9).
    + rewrite bpow_IZR by lia. change (IZR (2 ^ 9)) with 512. lra.
    + apply bpow_le. lia.
Qed.

(** Claim C6, as amended.  For every finite frequency whose quotient by 440
    does not underflow to zero (above 440 * 2^-1075), on every accurate
    engine, the cents offset of the reading is an integer between -50 and
    50, both ends included. *)
Theorem cents_between_minus_50_and_50 (M : Library) (f : R) :
  accurate M -> readable f ->
  exists r c, Chords64.frequencyToNote M (Num (Fin f)) = Some r /\
              cents r = Fin (IZR c) /\ (-50 <= c <= 50)%Z.
Proof.
  intros HM Hf.
  destruct (semitonesOf_readable M f HM Hf) as [s [Es Bs]].
  assert (Hf0 : 0 < f).
  { destruct Hf as [Hf _]. pose proof (bpow_pos (-1075)). lra. }
  destruct (reading_of_semitones M f s Hf0 Es Bs) as [c [Bc Er]].
  eexists. exists (Zfloor (c + / 2)). split; [exact Er|].
  split; [reflexivity|]. exact (cents_between s c Bc).
Qed.

(** Claim C6, as amended, at 440 Hz on the correctly rounded engine. *)
Lemma cents_between_minus_50_and_50_witness :
  readable 440 /\
  exists r c, Chords64.frequencyToNote correctlyRounded (Num (Fin 440)) = Some r /\
              cents r = Fin (IZR c) /\ (-50 <= c <= 50)%Z.
Proof.
  split; [exact readable_440|].
  exact (cents_between_minus_50_and_50 correctlyRounded 440
           correctlyRounded_accurate readable_440).
Defined.

(** A power of [x] above a power of two bounds the logarithm of [x] from
    below, and one below bounds it from above. *)
Lemma lb_ge_of_pow (x : R) (n : nat) (m : Z) :
  0 < x -> (0 < n)%nat -> bpow m <= x ^ n -> IZR m / INR n <= lb x.
Proof.
  intros Hx Hn H. pose proof ln2_gt_0 as H2.
  pose proof (lb_le _ _ (bpow_pos m) H) as Hl. rewrite lb_bpow in Hl.
  unfold lb in Hl. rewrite ln_pow in Hl by assumption.
  assert (Hn0 : 0 < INR n) by (apply lt_0_INR; lia).
  apply Rmult_le_reg_r with (INR n); [assumption|].
  unfold lb. replace (IZR m / INR n * INR n) with (IZR m) by (field; lra).
  replace (ln x / ln 2 * INR n) with (INR n * ln x / ln 2) by (field; lra).
  exact Hl.
Qed.

Lemma lb_le_of_pow (x : R) (n : nat) (m : Z) :
  0 < x -> (0 < n)%nat -> x ^ n <= bpow m -> lb x <= IZR m / INR n.
Proof.
  intros Hx Hn H. pose proof ln2_gt_0 as H2.
  pose proof (lb_le _ _ (pow_lt x n Hx) H) as Hl. rewrite lb_bpow in Hl.
  unfold lb in Hl. rewrite ln_pow in Hl by assumption.
  assert (Hn0 : 0 < INR n) by (apply lt_0_INR; lia).
  apply Rmult_le_reg_r with (INR n); [assumption|].
  unfold lb. replace (IZR m / INR n * INR n) with (IZR m) by (field; lra).
  replace (ln x / ln 2 * INR n) with (INR n * ln x / ln 2) by (field; lra).
  exact Hl.
Qed.

(** A power of a fraction against a power of two, by integers. *)
Lemma pow_fraction_ge (a b : Z) (n : nat) (m : Z) :
  (0 < a)%Z -> (0 < b)%Z -> (0 <= m)%Z ->
  (b ^ Z.of_nat n <= a ^ Z.of_nat n * 2 ^ m)%Z ->
  bpow (- m) <= (IZR a / IZR b) ^ n.
Proof.
  intros Ha Hb Hm H.
  assert (HbR : 0 < IZR b) by now apply IZR_lt.
  rewrite bpow_opp, bpow_IZR by assumption.
  assert (H2 : 0 < IZR (2 ^ m)) by (apply IZR_lt; apply Z.pow_pos_nonneg; lia).
  unfold Rdiv. rewrite Rpow_mult_distr, pow_inv, !pow_IZR.
  assert (Hbn : 0 < IZR (b ^ Z.of_nat n)) by (apply IZR_lt; apply Z.pow_pos_nonneg; lia).
  apply Rmult_le_reg_r with (IZR (b ^ Z.of_nat n) * IZR (2 ^ m)).
  - now apply Rmult_lt_0_compat.
  - replace (/ IZR (2 ^ m) * (IZR (b ^ Z.of_nat n) * IZR (2 ^ m)))
      with (IZR (b ^ Z.of_nat n)) by (field; lra).
    replace (IZR (a ^ Z.of_nat n) * / IZR (b ^ Z.of_nat n) *
             (IZR (b ^ Z.of_nat n) * IZR (2 ^ m)))
      with (IZR (a ^ Z.of_nat n) * IZR (2 ^ m)) by (field; lra).
    rewrite <- mult_IZR. now apply IZR_le.
Qed.

Lemma pow_fraction_le (a b : Z) (n : nat) (m : Z) :
  (0 < a)%Z -> (0 < b)%Z -> (0 <= m)%Z ->
  (a ^ Z.of_nat n * 2 ^ m <= b ^ Z.of_nat n)%Z ->
  (IZR a / IZR b) ^ n <= bpow (- m).
Proof.
  intros Ha Hb Hm H.
  assert (HbR : 0 < IZR b) by now apply IZR_lt.
  rewrite bpow_opp, bpow_IZR by assumption.
  assert (H2 : 0 < IZR (2 ^ m)) by (apply IZR_lt; apply Z.pow_pos_nonneg; lia).
  unfold Rdiv. rewrite Rpow_mult_distr, pow_inv, !pow_IZR.
  assert (Hbn : 0 < IZR (b ^ Z.of_nat n)) by (apply IZR_lt; apply Z.pow_pos_nonneg; lia).
  apply Rmult_le_reg_r with (IZR (b ^ Z.of_nat n) * IZR (2 ^ m)).
  - now apply Rmult_lt_0_compat.
  - replace (/ IZR (2 ^ m) * (IZR (b ^ Z.of_nat n) * IZR (2 ^ m)))
      with (IZR (b ^ Z.of_nat n)) by (field; lra).
    replace (IZR (a ^ Z.of_nat n) * / IZR (b ^ Z.of_nat n) *
             (IZR (b ^ Z.of_nat n) * IZR (2 ^ m)))
      with (IZR (a ^ Z.of_nat n) * IZR (2 ^ m)) by (field; lra).
    rewrite <- mult_IZR. now apply IZR_le.
Qed.

(** 427.5 Hz is a little less than half a semitone below A4. *)
Lemma semitones_427_5 :
  - (4992 / 10000) <= ChordsSpec.semitonesOf 427.5 <= - (4979 / 10000).
Proof.
  unfold ChordsSpec.semitonesOf. fold (lb (427.5 / 440)).
  replace (427.5 / 440) with (IZR 171 / IZR 176) by lra.
  assert (Hq : 0 < IZR 171 / IZR 176) by lra.
  pose proof (lb_ge_of_pow _ 625 (- 26) Hq ltac:(lia)) as H1.
  pose proof (lb_le_of_pow _ 241 (- 10) Hq ltac:(lia)) as H2.
  assert (E1 : INR 625 = 625) by (rewrite INR_IZR_INZ; reflexivity).
  assert (E2 : INR 241 = 241) by (rewrite INR_IZR_INZ; reflexivity).
  rewrite E1 in H1. rewrite E2 in H2.
  assert (G1 : bpow (- 26) <= (IZR 171 / IZR 176) ^ 625).
  { apply (pow_fraction_ge 171 176 625 26); [lia|lia|lia|]. vm_compute. discriminate. }
  assert (G2 : (IZR 171 / IZR 176) ^ 241 <= bpow (- 10)).
  { apply (pow_fraction_le 171 176 241 10); [lia|lia|lia|]. vm_compute. discriminate. }
  specialize (H1 G1). specialize (H2 G2). lra.
Qed.

Lemma ordinary_between (f : R) : / 1024 <= f <= 1048576 -> ordinary f.
Proof.
  intros [H1 H2]. split.
  - apply Rle_trans with (bpow (- (10))); [apply bpow_le; lia|].
    rewrite bpow_opp, bpow_IZR by lia. exact H1.
  - apply Rle_trans with (bpow 20); [|apply bpow_le; lia].
    rewrite bpow_IZR by lia. exact H2.
Qed.

(** At 427.5 Hz the cents offset is -50 on every accurate engine. *)
Lemma cents_at_427_5 (M : Library) :
  accurate M ->
  exists r, Chords64.frequencyToNote M (Num (Fin 427.5)) = Some r /\
            cents r = Fin (IZR (-50)).
Proof.
  intros HM.
  destruct (semitonesOf_ordinary M 427.5 HM) as [s [Es Bs]].
  { apply ordinary_between. lra. }
  pose proof semitones_427_5 as HS.
  apply Rabs_le_inv in Bs. unfold semitoneError in Bs.
  destruct (reading_of_semitones M 427.5 s ltac:(lra) Es) as [c [Bc Er]].
  { apply Rabs_le. lra. }
  assert (Hr : Zfloor (s + / 2) = 0%Z) by (apply Zfloor_eq; lra).
  rewrite Hr in Bc. apply Rabs_le_inv in Bc.
  assert (Hc : Zfloor (c + / 2) = (-50)%Z) by (apply Zfloor_eq; lra).
  rewrite Hc in Er.
  eexists. split; [exact Er|]. reflexivity.
Qed.

(** Claim C6, counterexample.  At 427.5 Hz the reading has a cents offset
    of -50, which the range (-50, 50] of the claim excludes. *)
Lemma cents_minus_50_at_427_5 :
  exists r, Chords64.frequencyToNote correctlyRounded (Num (Fin 427.5)) = Some r /\
            cents r = Fin (IZR (-50)) /\ ~ ChordsSpec.cents_in_spec_range r.
Proof.
  destruct (cents_at_427_5 correctlyRounded correctlyRounded_accurate) as [r [Er Hc]].
  exists r. split; [exact Er|]. split; [exact Hc|].
  intros [c [E Hc']]. rewrite Hc in E. injection E as E. apply eq_IZR in E. lia.
Qed.

End Chords64Facts.

Module Note64Facts.
Import JS IEEE IEEESpec IEEEFacts RoundingFacts LogFacts LbFacts.
Import Math MathSpec MathFacts Chords Chords64 Chords64Spec ReadingFacts.
Import NoteFrequencyFacts Chords64Facts.
Local Open Scope R_scope.

Lemma In_A : In "A"%string NOTE_NAMES.
Proof. unfold NOTE_NAMES. simpl. tauto. Qed.

(** Extra X1.  On every accurate engine [noteFrequency] returns [null]
    exactly for a name that is not one of the twelve note names; for each
    of the twelve, in the octaves from -1000 to 1000, it returns a
    positive finite frequency; and A in octave 4 is 440 Hz exactly. *)
Theorem noteFrequency_of_a_known_note (M : Library) (noteName : string) (o : Z) :
  accurate M ->
  (Chords64.noteFrequency M noteName o = Null <-> ~ In noteName NOTE_NAMES) /\
  (In noteName NOTE_NAMES -> (-1000 <= o <= 1000)%Z ->
     exists f, Chords64.noteFrequency M noteName o = Num (Fin f) /\ 0 < f) /\
  Chords64.noteFrequency M "A" 4 = Num (Fin 440).
Proof.
  intros HM. split; [|split].
  - split.
    + intros H Hin. destruct (ChordsFacts.indexOf_NOTE_NAMES noteName Hin) as [Hi _].
      unfold Chords64.noteFrequency in H. cbn zeta in H.
      destruct (Z.eqb_spec (indexOf noteName NOTE_NAMES) (-1)) as [E|_]; [lia|].
      discriminate H.
    + intros Hn. unfold Chords64.noteFrequency, indexOf.
      rewrite NoteFacts.indexOf_from_absent by assumption. reflexivity.
  - intros Hin Ho.
    destruct (noteFrequency_near M noteName o HM Hin Ho) as [f [Ef Bf]].
    exists f. split; [exact Ef|].
    pose proof (pitchOf_pos ((o - 4) * 12 + (indexOf noteName NOTE_NAMES - 9))) as HP.
    apply Rabs_le_inv in Bf. lra.
  - unfold Chords64.noteFrequency.
    change (indexOf "A" NOTE_NAMES) with 9%Z. cbn zeta.
    change ((9 =? -1)%Z) with false. cbn iota.
    rewrite (semitonesFromA4_exact 4 9) by lia.
    change ((4 - 4) * 12 + (9 - 9))%Z with 0%Z.
    rewrite div_Fin by lra.
    replace (0 / 12) with 0 by lra.
    rewrite round64_zero, (pow2_zero HM), mul_Fin.
    replace (440 * 1) with (IZR 440) by lra.
    rewrite round64_int by lia. reflexivity.
Qed.

(** Extra X1 for E in octave 2 on the correctly rounded engine. *)
Lemma noteFrequency_of_a_known_note_witness :
  (Chords64.noteFrequency correctlyRounded "E" 2 = Null <-> ~ In "E"%string NOTE_NAMES) /\
  (In "E"%string NOTE_NAMES -> (-1000 <= 2 <= 1000)%Z ->
     exists f, Chords64.noteFrequency correctlyRounded "E" 2 = Num (Fin f) /\ 0 < f) /\
  Chords64.noteFrequency correctlyRounded "A" 4 = Num (Fin 440).
Proof.
  exact (noteFrequency_of_a_known_note correctlyRounded "E" 2 correctlyRounded_accurate).
Defined.

Lemma pitchOf_octave (k : Z) : pitchOf (k + 12) = 2 * pitchOf k.
Proof.
  unfold pitchOf. rewrite plus_IZR.
  replace ((IZR k + 12) / 12) with (IZR k / 12 + 1) by field.
  rewrite Rpower_plus, Rpower_1 by lra. ring.
Qed.

(** Extra X2.  One octave up doubles the frequency up to rounding: for
    each of the twelve note names and the octaves from -1000 to 999, on
    every accurate engine, [noteFrequency] in octave [o + 1] is twice
    [noteFrequency] in octave [o] to within a part in a billion. *)
Theorem octave_up_doubles_the_frequency (M : Library) (noteName : string) (o : Z) :
  accurate M -> In noteName NOTE_NAMES -> (-1000 <= o < 1000)%Z ->
  exists f f', Chords64.noteFrequency M noteName o = Num (Fin f) /\
               Chords64.noteFrequency M noteName (o + 1) = Num (Fin f') /\
               0 < f /\ Rabs (f' - 2 * f) <= f / 1000000000.
Proof.
  intros HM Hin Ho.
  destruct (noteFrequency_near M noteName o HM Hin ltac:(lia)) as [f [Ef Bf]].
  destruct (noteFrequency_near M noteName (o + 1) HM Hin ltac:(lia)) as [f' [Ef' Bf']].
  exists f, f'. split; [exact Ef|]. split; [exact Ef'|].
  set (k := ((o - 4) * 12 + (indexOf noteName NOTE_NAMES - 9))%Z) in *.
  replace ((o + 1 - 4) * 12 + (indexOf noteName NOTE_NAMES - 9))%Z
    with (k + 12)%Z in Bf' by (unfold k; ring).
  rewrite pitchOf_octave in Bf'.
  pose proof (pitchOf_pos k) as HP.
  apply Rabs_le_inv in Bf. apply Rabs_le_inv in Bf'.
  split; [lra|]. apply Rabs_le. lra.
Qed.

(** Extra X2 for E in octaves 2 and 3 on the correctly rounded engine. *)
Lemma octave_up_doubles_the_frequency_witness :
  exists f f', Chords64.noteFrequency correctlyRounded "E" 2 = Num (Fin f) /\
               Chords64.noteFrequency correctlyRounded "E" (2 + 1) = Num (Fin f') /\
               0 < f /\ Rabs (f' - 2 * f) <= f / 1000000000.
Proof.
  apply (octave_up_doubles_the_frequency correctlyRounded "E" 2).
  - exact correctlyRounded_accurate.
  - unfold NOTE_NAMES. simpl. tauto.
  - lia.
Defined.

(** Extra X4.  [frequencyToNote] names the nearest note.  On every
    accurate engine the reading of an ordinary frequency [f] (between
    2^-1000 and 2^1010) carries one of the twelve note names, a whole
    octave and whole cents between -50 and 50; [f] is within half a
    semitone, and a ten-millionth, of the note [k] semitones from A4 that
    the name and the octave stand for; the cents are within half a cent,
    and a ten-thousandth, of the distance from that note; and positive
    cents mean [f] is above the note's frequency, negative cents that it
    is below. *)
Theorem reading_names_the_nearest_note (M : Library) (f : R) :
  accurate M -> ordinary f ->
  exists r n o c,
    Chords64.frequencyToNote M (Num (Fin f)) = Some r /\
    note r = Some n /\ In n NOTE_NAMES /\
    octave r = Fin (IZR o) /\ cents r = Fin (IZR c) /\ (-50 <= c <= 50)%Z /\
    let k := ((o - 4) * 12 + (indexOf n NOTE_NAMES - 9))%Z in
    Rabs (ChordsSpec.semitonesOf f - IZR k) <= / 2 + semitoneError /\
    Rabs (IZR c - (ChordsSpec.semitonesOf f - IZR k) * 100) <= / 2 + / 10000 /\
    ((0 < c)%Z -> pitchOf k < f) /\ ((c < 0)%Z -> f < pitchOf k).
Proof.
  intros HM Hord.
  assert (Hf0 : 0 < f).
  { destruct Hord as [H _]. pose proof (bpow_pos (-1000)). lra. }
  destruct (semitonesOf_ordinary M f HM Hord) as [s [Es Bs]].
  assert (HS : -12108 <= ChordsSpec.semitonesOf f <= 12024).
  { unfold ChordsSpec.semitonesOf. fold (lb (f / 440)). rewrite lb_div by lra.
    pose proof lb_440. destruct Hord as [H1 H2].
    pose proof (lb_le _ _ (bpow_pos _) H1) as L1. rewrite lb_bpow in L1.
    pose proof (lb_le _ _ Hf0 H2) as L2. rewrite lb_bpow in L2. lra. }
  apply Rabs_le_inv in Bs. unfold semitoneError in *.
  destruct (reading_of_semitones M f s Hf0 Es) as [c [Bc Er]].
  { apply Rabs_le. lra. }
  pose proof (cents_between s c Bc) as Hcr.
  pose proof (Zfloor_bound (s + / 2)) as Hr.
  pose proof (Zfloor_bound (c + / 2)) as Hc.
  set (r := Zfloor (s + / 2)) in *.
  destruct (note_of_semitones r) as [n [Hn [Hin Hidx]]].
  rewrite Hn in Er.
  eexists. exists n, ((r + 9) / 12 + 4)%Z, (Zfloor (c + / 2)).
  split; [exact Er|]. cbn [note octave cents].
  split; [reflexivity|]. split; [exact Hin|].
  split; [reflexivity|]. split; [reflexivity|]. split; [exact Hcr|].
  cbn zeta. rewrite Hidx.
  replace (((r + 9) / 12 + 4 - 4) * 12 + ((r + 9) mod 12 - 9))%Z with r.
  2:{ pose proof (Z.div_mod (r + 9) 12 ltac:(lia)). lia. }
  apply Rabs_le_inv in Bc.
  assert (Hlb : ChordsSpec.semitonesOf f - IZR r = 12 * (lb f - lb (pitchOf r))).
  { unfold ChordsSpec.semitonesOf. fold (lb (f / 440)). rewrite lb_div by lra.
    rewrite lb_pitchOf. field. }
  split; [apply Rabs_le; lra|]. split; [apply Rabs_le; lra|]. split.
  - intros Hpos. assert (1 <= IZR (Zfloor (c + / 2))) by (apply IZR_le; lia).
    destruct (Rlt_le_dec (pitchOf r) f) as [Hlt|Hge]; [assumption|exfalso].
    pose proof (lb_le _ _ Hf0 Hge). lra.
  - intros Hneg. assert (IZR (Zfloor (c + / 2)) <= -1) by (apply IZR_le; lia).
    destruct (Rlt_le_dec f (pitchOf r)) as [Hlt|Hge]; [assumption|exfalso].
    pose proof (lb_le _ _ (pitchOf_pos r) Hge). lra.
Qed.

(** Extra X4 at 445 Hz on the correctly rounded engine. *)
Lemma reading_names_the_nearest_note_witness :
  ordinary 445 /\
  exists r n o c,
    Chords64.frequencyToNote correctlyRounded (Num (Fin 445)) = Some r /\
    note r = Some n /\ In n NOTE_NAMES /\
    octave r = Fin (IZR o) /\ cents r = Fin (IZR c) /\ (-50 <= c <= 50)%Z /\
    let k := ((o - 4) * 12 + (indexOf n NOTE_NAMES - 9))%Z in
    Rabs (ChordsSpec.semitonesOf 445 - IZR k) <= / 2 + semitoneError /\
    Rabs (IZR c - (ChordsSpec.semitonesOf 445 - IZR k) * 100) <= / 2 + / 10000 /\
    ((0 < c)%Z -> pitchOf k < 445) /\ ((c < 0)%Z -> 445 < pitchOf k).
Proof.
  assert (H : ordinary 445) by (apply ordinary_between; lra).
  split; [exact H|].
  exact (reading_names_the_nearest_note correctlyRounded 445 correctlyRounded_accurate H).
Defined.

End Note64Facts.

Module StringDisplay64Facts.
Import JS IEEE IEEESpec IEEEFacts RoundingFacts LogFacts LbFacts.
Import Math MathSpec MathFacts Chords Chords64Spec.
Import StringDisplay StringDisplaySpec StringDisplay64 StringDisplay64Spec.
Local Open Scope R_scope.

Lemma STANDARD_TUNING_range (s : TuningEntry) :
  In s STANDARD_TUNING -> 82 <= t_freq s <= 330.
Proof.
  unfold STANDARD_TUNING. intros H. cbn in H.
  repeat (destruct H as [<-|H]; [cbn; lra|]). contradiction.
Qed.

(** A literal between 2^-50 and 2^50 is rounded to within a part in
    [10^15]. *)
Lemma literal_near (t : R) :
  1 <= t <= 1000000 ->
  exists t', literal t = Fin t' /\ Rabs (t' - t) <= t / 1000000000000000.
Proof.
  intros [H1 H2]. unfold literal.
  destruct (round64_normal t) as [t' [E B]].
  { rewrite Rabs_pos_eq by lra. split.
    - apply Rle_trans with (bpow 0); [apply bpow_le; lia|rewrite bpow_0; lra].
    - apply Rle_trans with 1000000000000000; [lra|apply bpow_1023_huge]. }
  exists t'. split; [exact E|].
  rewrite (Rabs_pos_eq t) in B by lra. pose proof unit64_tiny.
  assert (unit64 * t <= / 1000000000000000 * t) by (apply Rmult_le_compat_r; lra).
  lra.
Qed.

(** The computed distance to a string of the table is finite and within
    [centsError] of the exact one. *)
Lemma centsOff_near (M : Library) (f : R) (s : TuningEntry) :
  accurate M -> ordinary f -> In s STANDARD_TUNING ->
  exists x, centsOff M (Fin f) s = Fin x /\
            Rabs (x - centsR f s) <= centsError.
Proof.
  intros HM [H1 H2] Hin. pose proof (STANDARD_TUNING_range s Hin) as Ht.
  pose proof (bpow_pos (-1000)) as Hp.
  assert (Hf : 0 < f) by lra.
  unfold centsOff.
  destruct (literal_near (t_freq s) ltac:(lra)) as [t' [Et Bt]]. rewrite Et.
  set (t := t_freq s) in *.
  destruct (lb_near t t' (/ 1000000000000000) ltac:(lra) ltac:(lra)) as [Ht' Lt].
  { unfold Rdiv in Bt. lra. }
  apply Rabs_le_inv in Lt.
  (* the logarithms of the frequency and of the target *)
  pose proof (lb_le _ _ Hp H1) as L1. rewrite lb_bpow in L1.
  pose proof (lb_le _ _ Hf H2) as L2. rewrite lb_bpow in L2.
  assert (Ltr : 6 <= lb t <= 9).
  { split.
    - replace 6 with (lb (bpow 6)) by apply lb_bpow.
      apply lb_le; [apply bpow_pos|]. rewrite bpow_IZR by lia.
      change (IZR (2 ^ 6)) with 64. lra.
    - replace 9 with (lb (bpow 9)) by apply lb_bpow.
      apply lb_le; [lra|]. rewrite bpow_IZR by lia.
      change (IZR (2 ^ 9)) with 512. lra. }
  assert (Hq : 0 < f / t') by (apply Rdiv_lt_0_compat; lra).
  assert (Lq : lb (f / t') = lb f - lb t') by (apply lb_div; lra).
  (* the quotient *)
  rewrite div_Fin by lra.
  destruct (round64_normal (f / t')) as [q [Eq Bq]].
  { rewrite Rabs_pos_eq by lra.
    apply (Chords64Facts.between_powers (f / t') (-1022) 1023 Hq). lra. }
  rewrite Eq. rewrite (Rabs_pos_eq (f / t')) in Bq by lra.
  pose proof unit64_pos as Hu0. pose proof unit64_tiny as Hu.
  destruct (lb_near (f / t') q unit64 Hq ltac:(lra) Bq) as [Hq0 Bl].
  apply Rabs_le_inv in Bl.
  assert (Hqr : bpow (-1075) <= q <= bpow 1024).
  { apply (Chords64Facts.between_powers q (-1075) 1024 Hq0). lra. }
  destruct (@log2_near M HM q Hqr) as [l [El B]]. rewrite El.
  fold (lb q) in B. apply Rabs_le_inv in B. unfold tolerance in B.
  assert (Ha : Rabs (lb q) <= 1020) by (apply Rabs_le; lra).
  assert (Hl : Rabs l <= 1021).
  { apply Rabs_le. pose proof (Rabs_pos (lb q)). lra. }
  rewrite mul_Fin.
  assert (H12 : Rabs (1200 * l) <= 1225200).
  { rewrite Rabs_mult, (Rabs_pos_eq 1200) by lra. lra. }
  destruct (round64_close (1200 * l)) as [x [Ex Bx]]; [lra|].
  exists x. split; [exact Ex|].
  apply Rabs_le_inv in Bx. unfold centsR. fold t. fold (lb (f / t)).
  rewrite lb_div by lra. unfold centsError. apply Rabs_le.
  pose proof (Rabs_pos (1200 * l)). pose proof (Rabs_pos (lb q)).
  lra.
Qed.

Lemma computedCents_eq (M : Library) (f : R) (s : TuningEntry) (x : R) :
  centsOff M (Fin f) s = Fin x -> computedCents M f s = x.
Proof. intros H. unfold computedCents. now rewrite H. Qed.

(** One visit keeps the first nearest entry. *)
Lemma visit_firstNearest (M : Library) (f : R) (seen : list TuningEntry)
    (st : option Closest * number) (s : TuningEntry) :
  centsOff M (Fin f) s = Fin (computedCents M f s) ->
  firstNearest (computedCents M f) seen st ->
  firstNearest (computedCents M f) (seen ++ [s])
    (visit M (Fin f) st (s, List.length seen)).
Proof.
  intros Hs Hb. set (d := computedCents M f) in *.
  destruct st as [[c|] minCents]; unfold visit; rewrite Hs; cbn [abs round].
  - destruct Hb as (Hmin & Hnth & Hcents & Hlt & Hall). subst minCents.
    cbn [lt].
    destruct (Rlt_dec (Rabs (d s)) (Rabs (d (entry c)))) as [Hless|Hnot];
      cbn [andb].
    + (* a strictly closer string *)
      destruct (Rlt_dec (Rabs (d s)) STRING_MATCH_THRESHOLD) as [_|Hfar];
        [|lra].
      cbn [firstNearest entry index cents]. split_ands; try reflexivity.
      * rewrite nth_error_app2 by lia. rewrite Nat.sub_diag. reflexivity.
      * lra.
      * intros j s' Hj. apply StringDisplayFacts.nth_error_snoc in Hj.
        destruct Hj as [[Hj Hjl]|[-> ->]].
        -- destruct (Hall j s' Hj) as [Hle _]. split; intros; lra.
        -- split; [lra | lia].
    + cbn [firstNearest]. split_ands; try assumption; try reflexivity.
      * rewrite nth_error_app1; [assumption|].
        apply nth_error_Some. rewrite Hnth. discriminate.
      * intros j s' Hj. apply StringDisplayFacts.nth_error_snoc in Hj.
        destruct Hj as [[Hj Hjl]|[-> ->]].
        -- apply Hall. exact Hj.
        -- split; [lra|]. intros Hlt'.
           assert (index c < List.length seen)%nat; [|lia].
           apply nth_error_Some. rewrite Hnth. discriminate.
  - destruct Hb as (Hmin & Hall). subst minCents. cbn [lt andb].
    destruct (Rlt_dec (Rabs (d s)) STRING_MATCH_THRESHOLD) as [Hnear|Hfar].
    + cbn [firstNearest entry index cents]. split_ands; try reflexivity.
      * rewrite nth_error_app2 by lia. rewrite Nat.sub_diag. reflexivity.
      * assumption.
      * intros j s' Hj. apply StringDisplayFacts.nth_error_snoc in Hj.
        destruct Hj as [[Hj Hjl]|[-> ->]].
        -- apply nth_error_In in Hj. specialize (Hall s' Hj). split; intros; lra.
        -- split; [lra | lia].
    + cbn [firstNearest]. split; [reflexivity|].
      intros s' Hin. apply in_app_or in Hin. destruct Hin as [Hin|[<-|[]]].
      * apply Hall. exact Hin.
      * lra.
Qed.

Lemma fold_firstNearest (M : Library) (f : R) :
  forall rest seen st,
    Forall (fun s => centsOff M (Fin f) s = Fin (computedCents M f s)) rest ->
    firstNearest (computedCents M f) seen st ->
    firstNearest (computedCents M f) (seen ++ rest)
      (fold_left (visit M (Fin f))
         (combine rest (seq (List.length seen) (List.length rest))) st).
Proof.
  induction rest as [|s rest IH]; intros seen st Hfin Hb.
  - rewrite app_nil_r. exact Hb.
  - inversion Hfin as [|? ? Hs Hrest]; subst.
    cbn [List.length seq combine fold_left].
    replace (seen ++ s :: rest) with ((seen ++ [s]) ++ rest)
      by (rewrite <- app_assoc; reflexivity).
    replace (S (List.length seen)) with (List.length (seen ++ [s]))
      by (rewrite length_app; cbn; lia).
    apply IH; [assumption|]. apply visit_firstNearest; assumption.
Qed.

(** The table's six distances are finite. *)
Lemma STANDARD_TUNING_finite (M : Library) (f : R) :
  accurate M -> ordinary f ->
  Forall (fun s => centsOff M (Fin f) s = Fin (computedCents M f s)) STANDARD_TUNING.
Proof.
  intros HM Hf. apply Forall_forall. intros s Hin.
  destruct (centsOff_near M f s HM Hf Hin) as [x [E _]].
  now rewrite (computedCents_eq _ _ _ _ E).
Qed.

Lemma ordinary_pos (f : R) : ordinary f -> 0 < f.
Proof. intros [H _]. pose proof (bpow_pos (-1000)). lra. Qed.

Lemma nearestString_firstNearest (M : Library) (f : R) :
  accurate M -> ordinary f ->
  exists minCents,
    firstNearest (computedCents M f) STANDARD_TUNING
      (nearestString M (Num (Fin f)) true, minCents).
Proof.
  intros HM Hord. pose proof (ordinary_pos f Hord) as Hf.
  unfold nearestString, nearestStringIn. cbn [negb orb ToNumber].
  rewrite JSFacts.truthy_pos by assumption. cbn [negb orb].
  rewrite JSFacts.le_pos_0 by assumption.
  pose proof (fold_firstNearest M f STANDARD_TUNING [] (None, PosInf)
                (STANDARD_TUNING_finite M f HM Hord)) as H.
  cbn [app List.length] in H. unfold enumerate.
  destruct (fold_left _ _ _) as [c m]. exists m. cbn [fst]. apply H.
  cbn. split; [reflexivity|]. intros s [].
Qed.

(** A frequency a fifth part above or below a target is at least 200
    cents from it. *)
Lemma centsR_far (f : R) (s : TuningEntry) :
  0 < f -> 0 < t_freq s ->
  12 / 10 * t_freq s <= f \/ 12 / 10 * f <= t_freq s ->
  200 <= Rabs (centsR f s).
Proof.
  intros Hf Ht H. pose proof ln2_gt_0 as H2.
  assert (Hl2 : ln 2 <= 1).
  { pose proof (TuningTableFacts.ln_le_pred 2 ltac:(lra)). lra. }
  assert (Hbig : forall a b, 0 < a -> 0 < b -> 12 / 10 * a <= b ->
                 / 6 <= ln (b / a) / ln 2).
  { intros a b Ha Hb Hab.
    assert (Hr : 0 < a / b) by (apply Rdiv_lt_0_compat; lra).
    pose proof (TuningTableFacts.ln_le_pred (a / b) Hr) as Hle.
    assert (Hab' : a / b <= 10 / 12).
    { apply Rmult_le_reg_r with b; [lra|].
      replace (a / b * b) with a by (field; lra). lra. }
    assert (Hln : ln (b / a) = - ln (a / b)).
    { replace (b / a) with (/ (a / b)) by (field; lra). now apply ln_Rinv. }
    rewrite Hln.
    assert (H6 : / 6 <= - ln (a / b)) by lra.
    apply Rle_trans with (- ln (a / b)); [exact H6|].
    apply Rmult_le_reg_r with (ln 2); [lra|].
    replace (- ln (a / b) / ln 2 * ln 2) with (- ln (a / b)) by (field; lra).
    assert (0 <= - ln (a / b)) by lra.
    assert (- ln (a / b) * ln 2 <= - ln (a / b) * 1) by (apply Rmult_le_compat_l; lra).
    lra. }
  unfold centsR. destruct H as [H|H].
  - pose proof (Hbig _ _ Ht Hf H). rewrite Rabs_pos_eq; lra.
  - pose proof (Hbig _ _ Hf Ht H) as Hb.
    assert (Hln : ln (f / t_freq s) = - ln (t_freq s / f)).
    { replace (f / t_freq s) with (/ (t_freq s / f)) by (field; lra).
      apply ln_Rinv. apply Rdiv_lt_0_compat; lra. }
    rewrite Hln.
    replace (1200 * (- ln (t_freq s / f) / ln 2))
      with (- (1200 * (ln (t_freq s / f) / ln 2))) by (field; lra).
    rewrite Rabs_Ropp, Rabs_pos_eq; lra.
Qed.

(** At one string's target the other strings are at least 200 cents
    away. *)
Lemma other_strings_far (i j : nat) (s s' : TuningEntry) (f : R) :
  nth_error STANDARD_TUNING i = Some s ->
  nth_error STANDARD_TUNING j = Some s' ->
  i <> j -> Rabs (f - t_freq s) <= t_freq s / 1000 ->
  200 <= Rabs (centsR f s').
Proof.
  intros Hi Hj Hne Hf. apply Rabs_le_inv in Hf.
  destruct i as [|[|[|[|[|[|i]]]]]]; cbn in Hi;
    try (destruct i; discriminate Hi); injection Hi as <-;
    destruct j as [|[|[|[|[|[|j]]]]]]; cbn in Hj;
    try (destruct j; discriminate Hj); injection Hj as <-;
    try contradiction; cbn in Hf;
    apply centsR_far; cbn; lra.
Qed.

(** At the double of a string's target the string itself is returned,
    with 0 cents. *)
Lemma nearestString_at_target (M : Library) (i : nat) (s : TuningEntry) (f : R) :
  accurate M -> ordinary f ->
  nth_error STANDARD_TUNING i = Some s -> Fin f = literal (t_freq s) ->
  nearestString M (Num (Fin f)) true =
  Some {| entry := s; index := i; cents := Fin 0 |}.
Proof.
  intros HM Hord Hi Hlit. pose proof (ordinary_pos f Hord) as Hf.
  destruct (nearestString_firstNearest M f HM Hord) as (minCents & Hbest).
  assert (Hin : In s STANDARD_TUNING) by (eapply nth_error_In; exact Hi).
  pose proof (STANDARD_TUNING_range s Hin) as Ht.
  destruct (literal_near (t_freq s) ltac:(lra)) as [t' [Et Bt]].
  rewrite Et in Hlit. injection Hlit as ->.
  (* the computed distance to the string itself is 0 *)
  assert (Hz : computedCents M t' s = 0).
  { apply computedCents_eq. unfold centsOff. rewrite Et.
    rewrite div_Fin by lra. replace (t' / t') with (IZR 1) by (field; lra).
    rewrite round64_int by lia. rewrite (log2_one HM), mul_Fin.
    replace (1200 * 0) with 0 by ring. apply round64_zero. }
  (* the others are far *)
  assert (Hfar : forall j s', nth_error STANDARD_TUNING j = Some s' -> j <> i ->
            0 < Rabs (computedCents M t' s')).
  { intros j s' Hj Hne.
    assert (Hin' : In s' STANDARD_TUNING) by (eapply nth_error_In; exact Hj).
    destruct (centsOff_near M t' s' HM Hord Hin') as [y [E B]].
    rewrite (computedCents_eq _ _ _ _ E). unfold centsError in B.
    pose proof (other_strings_far i j s s' t' Hi Hj ltac:(congruence)) as Hd.
    assert (Hclose : Rabs (t' - t_freq s) <= t_freq s / 1000).
    { apply Rabs_le_inv in Bt. apply Rabs_le. lra. }
    specialize (Hd Hclose).
    pose proof (Rabs_triang_inv (centsR t' s') (centsR t' s' - y)) as Htr.
    replace (centsR t' s' - (centsR t' s' - y)) with y in Htr by ring.
    rewrite <- Rabs_Ropp in B.
    replace (- (y - centsR t' s')) with (centsR t' s' - y) in B by ring.
    lra. }
  destruct (nearestString M (Num (Fin t')) true) as [c|]; cbn [firstNearest] in Hbest.
  - destruct Hbest as (_ & Hnth & Hc & Hlt & Hall).
    destruct (Hall i s Hi) as [Hle _]. rewrite Hz, Rabs_R0 in Hle.
    assert (Hidx : index c = i).
    { destruct (Nat.eq_dec (index c) i) as [E|E]; [exact E|exfalso].
      pose proof (Hfar (index c) (entry c) Hnth E). lra. }
    destruct c as [e ix cs]. cbn [entry index cents] in *. subst ix.
    rewrite Hi in Hnth. injection Hnth as <-.
    rewrite Hc, Hz. f_equal. f_equal. f_equal. f_equal.
    apply Zfloor_eq. lra.
  - destruct Hbest as (_ & Hall).
    specialize (Hall s Hin).
    rewrite Hz, Rabs_R0 in Hall. unfold STRING_MATCH_THRESHOLD in Hall. lra.
Qed.

Lemma ordinary_110 : ordinary 110.
Proof. apply Chords64Facts.ordinary_between. lra. Qed.

Lemma literal_110 : literal 110.0 = Fin 110.
Proof.
  unfold literal. replace 110.0 with (IZR 110) by lra. apply round64_int. lia.
Qed.

(** 110 Hz is the A string, at position 1, with 0 cents. *)
Lemma nearestString_110 (M : Library) :
  accurate M ->
  nearestString M (Num (Fin 110)) true =
  Some {| entry := {| t_string := 5; t_note := "A"; t_freq := 110.0;
                      t_name := "A"; t_color := "var(--string-A)" |};
          index := 1; cents := Fin 0 |}.
Proof.
  intros HM. apply nearestString_at_target.
  - exact HM.
  - exact ordinary_110.
  - reflexivity.
  - cbn [t_freq]. symmetry. exact literal_110.
Qed.

(** Claim C9, as amended.  While the display is active, for every ordinary
    frequency, on every accurate engine and the standard tuning table: the
    distance the code computes to each row is within a hundred-thousandth
    of a cent of 1200 * log2(frequency / row.freq); a string that
    [nearestString] returns is the first row of least computed distance,
    that distance is below 200 and the reported cents are its rounding;
    [null] is returned only when the computed distance to every row is 200
    or more; and a frequency equal to the double of a row's target returns
    that row, at its position, with 0 cents.  When the display is inactive
    [nearestString] returns [null] whatever the frequency. *)
Theorem nearestString_first_of_least_distance (M : Library) (f : R) :
  accurate M -> ordinary f ->
  (forall s, In s STANDARD_TUNING ->
     centsOff M (Fin f) s = Fin (computedCents M f s) /\
     Rabs (computedCents M f s - centsR f s) <= centsError) /\
  match nearestString M (Num (Fin f)) true with
  | Some c =>
      nth_error STANDARD_TUNING (index c) = Some (entry c) /\
      cents c = Fin (IZR (Zfloor (computedCents M f (entry c) + / 2))) /\
      Rabs (computedCents M f (entry c)) < 200 /\
      forall j s, nth_error STANDARD_TUNING j = Some s ->
        Rabs (computedCents M f (entry c)) <= Rabs (computedCents M f s) /\
        ((j < index c)%nat ->
           Rabs (computedCents M f (entry c)) < Rabs (computedCents M f s))
  | None =>
      forall s, In s STANDARD_TUNING -> 200 <= Rabs (computedCents M f s)
  end /\
  (forall i s, nth_error STANDARD_TUNING i = Some s -> Fin f = literal (t_freq s) ->
     nearestString M (Num (Fin f)) true =
     Some {| entry := s; index := i; cents := Fin 0 |}) /\
  (forall detectedFreq, nearestString M detectedFreq false = None).
Proof.
  intros HM Hord. pose proof (ordinary_pos f Hord) as Hf.
  assert (Hnear : forall s, In s STANDARD_TUNING ->
            centsOff M (Fin f) s = Fin (computedCents M f s) /\
            Rabs (computedCents M f s - centsR f s) <= centsError).
  { intros s Hin. destruct (centsOff_near M f s HM Hord Hin) as [x [E B]].
    rewrite (computedCents_eq _ _ _ _ E). split; [exact E|exact B]. }
  destruct (nearestString_firstNearest M f HM Hord) as (minCents & Hbest).
  split; [exact Hnear|]. split; [|split; [|reflexivity]].
  - destruct (nearestString M (Num (Fin f)) true) as [c|]; cbn [firstNearest] in Hbest.
    + destruct Hbest as (_ & Hnth & Hc & Hlt & Hall).
      unfold STRING_MATCH_THRESHOLD in Hlt. split_ands; assumption.
    + destruct Hbest as (_ & Hall). exact Hall.
  - intros i s Hi Hlit. now apply nearestString_at_target.
Qed.

(** Claim C9, as amended, at 110 Hz on the correctly rounded engine: the A
    string, at position 1, 0 cents. *)
Lemma nearestString_first_of_least_distance_witness :
  ordinary 110 /\
  nearestString correctlyRounded (Num (Fin 110)) true =
  Some {| entry := {| t_string := 5; t_note := "A"; t_freq := 110.0;
                      t_name := "A"; t_color := "var(--string-A)" |};
          index := 1; cents := Fin 0 |}.
Proof.
  split; [exact ordinary_110|].
  apply (proj1 (proj2 (proj2
           (nearestString_first_of_least_distance correctlyRounded 110
              correctlyRounded_accurate ordinary_110))) 1%nat).
  - reflexivity.
  - cbn [t_freq]. symmetry. exact literal_110.
Defined.

(** Claim C9, counterexample.  With [isActive] false, 110 Hz returns [null]
    although it is 0 cents from the A string: [null] does not only come
    from a least distance above the threshold. *)
Lemma nearestString_inactive_is_none :
  nearestString correctlyRounded (Num (Fin 110)) false = None /\
  exists s, In s STANDARD_TUNING /\ Rabs (centsR 110 s) = 0 /\
            ~ 200 < Rabs (centsR 110 s).
Proof.
  split; [reflexivity|].
  exists {| t_string := 5; t_note := "A"; t_freq := 110.0;
            t_name := "A"; t_color := "var(--string-A)" |}.
  assert (Hz : centsR 110 {| t_string := 5; t_note := "A"; t_freq := 110.0;
            t_name := "A"; t_color := "var(--string-A)" |} = 0).
  { apply StringDisplayFacts.centsR_zero; cbn; lra. }
  split; [cbn; tauto|]. rewrite Hz, Rabs_R0. split; [reflexivity | lra].
Qed.

End StringDisplay64Facts.

Module StringCard64Facts.
Import JS IEEE IEEESpec Math MathSpec MathFacts Chords Chords64Spec.
Import StringDisplay StringDisplaySpec StringDisplay64 StringDisplay64Spec.
Import StringCard StringDisplay64Facts.
Local Open Scope R_scope.

(** Extra X8.  The indicator on a string card.  For an ordinary detected
    frequency, on every accurate engine, and the card of the string [s] at
    position [i]: when the card is the matched one, the distance [x] the
    code computes to [s] is within a hundred-thousandth of a cent of the
    exact one, it is below 200 and no string of the table has a smaller
    one, and the card shows the check mark exactly when [x] is from -5.5 to
    less than 5.5, the up arrow exactly when [x] is below -5.5, and the
    down arrow exactly when [x] is 5.5 or more; a card that is not matched
    shows nothing, and no two cards are matched at once. *)
Theorem tuningIndicator_follows_the_computed_cents (M : Library) (f : R)
    (i : nat) (s : TuningEntry) :
  accurate M -> ordinary f -> nth_error STANDARD_TUNING i = Some s ->
  (isMatched (nearestString M (Num (Fin f)) true) i = true ->
     Rabs (computedCents M f s - centsR f s) <= centsError /\
     Rabs (computedCents M f s) < 200 /\
     (forall s', In s' STANDARD_TUNING ->
        Rabs (computedCents M f s) <= Rabs (computedCents M f s')) /\
     (tuningIndicator (nearestString M (Num (Fin f)) true) i = "✓"%string <->
        - (11 / 2) <= computedCents M f s < 11 / 2) /\
     (tuningIndicator (nearestString M (Num (Fin f)) true) i = "↑"%string <->
        computedCents M f s < - (11 / 2)) /\
     (tuningIndicator (nearestString M (Num (Fin f)) true) i = "↓"%string <->
        11 / 2 <= computedCents M f s)) /\
  (isMatched (nearestString M (Num (Fin f)) true) i = false ->
     tuningIndicator (nearestString M (Num (Fin f)) true) i = ""%string) /\
  (forall j, isMatched (nearestString M (Num (Fin f)) true) i = true ->
             isMatched (nearestString M (Num (Fin f)) true) j = true -> i = j).
Proof.
  intros HM Hord Hi.
  destruct (nearestString_firstNearest M f HM Hord) as (minCents & Hbest).
  destruct (nearestString M (Num (Fin f)) true) as [c|]; cbn [firstNearest] in Hbest.
  2: { split_ands; [discriminate|reflexivity|discriminate]. }
  destruct Hbest as (_ & Hnth & Hc & Hlt & Hall).
  unfold isMatched, tuningIndicator. split_ands.
  - intros Hm. apply Nat.eqb_eq in Hm. rewrite Hm, Nat.eqb_refl.
    rewrite Hm, Hi in Hnth. injection Hnth as Hs. rewrite <- Hs in *.
    rewrite Hc. cbn [abs le lt]. clear Hc.
    set (x := computedCents M f s) in *.
    pose proof (StringCardFacts.floor_half_abs_le_5 x) as H5.
    pose proof (StringCardFacts.floor_half_neg x) as Hn.
    split_ands.
    + destruct (centsOff_near M f s HM Hord (nth_error_In _ _ Hi)) as [y [E B]].
      unfold x. now rewrite (computedCents_eq _ _ _ _ E).
    + exact Hlt.
    + intros s' Hin. apply In_nth_error in Hin. destruct Hin as [j Hj].
      exact (proj1 (Hall j s' Hj)).
    + destruct (Rle_dec (Rabs (IZR (Zfloor (x + / 2)))) 5) as [L|L].
      * split; [intros _; apply H5; exact L|reflexivity].
      * split; [destruct (Rlt_dec _ 0); discriminate|].
        intros H. exfalso. apply L, H5, H.
    + destruct (Rle_dec (Rabs (IZR (Zfloor (x + / 2)))) 5) as [L|L].
      * split; [discriminate|]. apply H5 in L. lra.
      * destruct (Rlt_dec (IZR (Zfloor (x + / 2))) 0) as [N|N].
        -- split; [intros _|reflexivity].
           apply Hn in N.
           destruct (Rle_dec (- (11 / 2)) x) as [G|G]; [|lra].
           exfalso. apply L, H5. lra.
        -- split; [discriminate|]. intros H. exfalso. apply N, Hn. lra.
    + destruct (Rle_dec (Rabs (IZR (Zfloor (x + / 2)))) 5) as [L|L].
      * split; [discriminate|]. apply H5 in L. lra.
      * destruct (Rlt_dec (IZR (Zfloor (x + / 2))) 0) as [N|N].
        -- split; [discriminate|]. apply Hn in N. lra.
        -- split; [intros _|reflexivity].
           destruct (Rle_dec (11 / 2) x) as [G|G]; [exact G|].
           exfalso.
           destruct (Rlt_dec x (- / 2)) as [Mlt|Mge];
             [apply N, Hn, Mlt|apply L, H5; lra].
  - intros Hm. rewrite Hm. reflexivity.
  - intros j H1 H2. apply Nat.eqb_eq in H1, H2. congruence.
Qed.

(** Extra X8 at 110 Hz and the card of the A string, on the correctly
    rounded engine: the card is matched and shows the check mark. *)
Lemma tuningIndicator_follows_the_computed_cents_witness :
  isMatched (nearestString correctlyRounded (Num (Fin 110)) true) 1 = true /\
  tuningIndicator (nearestString correctlyRounded (Num (Fin 110)) true) 1 = "✓"%string /\
  (tuningIndicator (nearestString correctlyRounded (Num (Fin 110)) true) 1 = "✓"%string <->
   - (11 / 2) <=
     computedCents correctlyRounded 110
       {| t_string := 5; t_note := "A"; t_freq := 110.0;
          t_name := "A"; t_color := "var(--string-A)" |} < 11 / 2).
Proof.
  pose proof (nearestString_110 correctlyRounded correctlyRounded_accurate) as Hn.
  assert (Hm : isMatched (nearestString correctlyRounded (Num (Fin 110)) true) 1 = true)
    by (rewrite Hn; reflexivity).
  split; [exact Hm|]. split.
  - rewrite Hn. unfold tuningIndicator. cbn [StringDisplay.index Nat.eqb cents abs le].
    rewrite Rabs_R0. destruct (Rle_dec 0 5); [reflexivity|lra].
  - exact (proj1 (proj2 (proj2 (proj2 (proj1
             (tuningIndicator_follows_the_computed_cents correctlyRounded 110 1 _
                correctlyRounded_accurate ordinary_110 eq_refl) Hm))))).
Defined.

End StringCard64Facts.

Module Gauge64Facts.
Import JS IEEE IEEESpec IEEEFacts Math MathSpec MathFacts.
Import Chords Chords64Spec ReadingFacts TuningMeter Gauge GaugeFacts.
Local Open Scope R_scope.

(** Extra X6.  The needle of the tuning meter.  It always points inside the
    240 degree arc and never moves left when the cents grow.  With the
    tuner listening and a note displayed it turns 2.4 degrees per cent for
    offsets from -50 to 50 and stays at the end of the arc beyond them; it
    then lies within 12 degrees of the top exactly when the status is
    "in-tune", and more than 36 degrees away exactly when the status is
    "off".  For the reading [frequencyToNote] gives, on an accurate
    engine, of a frequency whose quotient by 440 does not underflow, the
    cents are a whole number from -50 to 50 and the clamp never engages.
    Without a note, or when not listening, the needle is centred. *)
Theorem needle_turns_with_the_cents :
  (forall cents isActive note,
     -120 <= needleAngle cents isActive note <= 120) /\
  (forall c1 c2 isActive note, (c1 <= c2)%Z ->
     needleAngle c1 isActive note <= needleAngle c2 isActive note) /\
  (forall cents r,
     ((-50 <= cents <= 50)%Z ->
        needleAngle cents true (Some r) = 12 / 5 * IZR cents) /\
     ((50 <= cents)%Z -> needleAngle cents true (Some r) = 120) /\
     ((cents <= -50)%Z -> needleAngle cents true (Some r) = -120) /\
     (tuningStatus cents true (Some r) = in_tune <->
        Rabs (needleAngle cents true (Some r)) <= 12) /\
     (tuningStatus cents true (Some r) = off <->
        36 < Rabs (needleAngle cents true (Some r)))) /\
  (forall M f r, accurate M -> readable f ->
     Chords64.frequencyToNote M (Num (Fin f)) = Some r ->
     exists c, cents r = Fin (IZR c) /\ (-50 <= c <= 50)%Z /\
               needleAngle c true (Some r) = 12 / 5 * IZR c) /\
  (forall cents isActive note, isActive = false \/ note = None ->
     needleAngle cents isActive note = 0).
Proof.
  split_ands.
  - intros c [|] [r|]; try (unfold needleAngle; cbn [andb]; lra).
    rewrite needleAngle_active.
    pose proof (clampedCents_range c) as [H1 H2].
    apply IZR_le in H1, H2. lra.
  - intros c1 c2 [|] [r|] H; try (unfold needleAngle; cbn [andb]; lra).
    rewrite !needleAngle_active.
    assert (H' : (clampedCents c1 <= clampedCents c2)%Z)
      by (unfold clampedCents; lia).
    apply IZR_le in H'. lra.
  - intros c r. rewrite needleAngle_active, tuningStatus_active.
    split_ands.
    + intros H. rewrite clampedCents_id by assumption. reflexivity.
    + intros H. replace (clampedCents c) with 50%Z by (unfold clampedCents; lia).
      lra.
    + intros H. replace (clampedCents c) with (-50)%Z by (unfold clampedCents; lia).
      lra.
    + replace (12 / 5 * IZR (clampedCents c)) with (IZR (clampedCents c) * (12 / 5))
        by ring.
      rewrite Rabs_mult, (Rabs_pos_eq (12 / 5)) by lra.
      rewrite <- abs_IZR.
      destruct (Z.leb_spec (Z.abs c) 5) as [H|H].
      * split; [intros _|reflexivity].
        assert (H' : (Z.abs (clampedCents c) <= 5)%Z) by (unfold clampedCents; lia).
        apply IZR_le in H'. lra.
      * assert (H' : (6 <= Z.abs (clampedCents c))%Z) by (unfold clampedCents; lia).
        apply IZR_le in H'.
        split; [destruct (Z.abs c <=? 15)%Z; discriminate|lra].
    + replace (12 / 5 * IZR (clampedCents c)) with (IZR (clampedCents c) * (12 / 5))
        by ring.
      rewrite Rabs_mult, (Rabs_pos_eq (12 / 5)) by lra.
      rewrite <- abs_IZR.
      destruct (Z.leb_spec (Z.abs c) 5) as [H|H];
        [|destruct (Z.leb_spec (Z.abs c) 15) as [H0|H0]].
      * assert (H' : (Z.abs (clampedCents c) <= 5)%Z) by (unfold clampedCents; lia).
        apply IZR_le in H'. split; [discriminate|lra].
      * assert (H' : (Z.abs (clampedCents c) <= 15)%Z) by (unfold clampedCents; lia).
        apply IZR_le in H'. split; [discriminate|lra].
      * assert (H' : (16 <= Z.abs (clampedCents c))%Z) by (unfold clampedCents; lia).
        apply IZR_le in H'. split; [lra|reflexivity].
  - intros M f r HM Hf Hr.
    destruct (semitonesOf_readable M f HM Hf) as [s [Es Bs]].
    assert (Hf0 : 0 < f).
    { destruct Hf as [Hf _]. pose proof (bpow_pos (-1075)). lra. }
    destruct (reading_of_semitones M f s Hf0 Es Bs) as [c [Bc Er]].
    rewrite Er in Hr. injection Hr as <-. cbn [cents].
    pose proof (cents_between s c Bc) as Hc.
    exists (Zfloor (c + / 2)). split; [reflexivity|]. split; [exact Hc|].
    rewrite needleAngle_active, clampedCents_id by exact Hc. reflexivity.
  - intros c a n [->| ->]; unfold needleAngle; [reflexivity|].
    destruct a; reflexivity.
Qed.

End Gauge64Facts.

(** * The pitch detector in double precision *)

Module Pitch64Facts.
Import JS IEEE Math Chords Pitch Pitch64 Pitch64Spec PitchSpec IEEESpec MathSpec.
Import JSFacts IEEEFacts MathFacts RoundingFacts.
Local Open Scope R_scope.

(** ** Comparisons *)

Lemma gt_Fin (x y : R) : gt (Fin x) (Fin y) = true <-> y < x.
Proof. unfold gt. apply lt_fin. Qed.

Lemma gt_Fin_false (x y : R) : gt (Fin x) (Fin y) = false <-> x <= y.
Proof.
  unfold gt. cbn [lt]. destruct (Rlt_dec y x); split; intros H;
    try reflexivity; try discriminate; lra.
Qed.

Lemma not_gt_le (a b : number) :
  a <> NaN -> b <> NaN -> (gt a b = false <-> le a b = true).
Proof.
  intros Ha Hb. unfold gt.
  destruct a as [| | |x], b as [| | |y]; try contradiction; cbn;
    try (split; intros; (reflexivity || discriminate)).
  destruct (Rlt_dec y x), (Rle_dec x y); split; intros;
    try reflexivity; try discriminate; lra.
Qed.

Lemma gt_not_NaN (a b : number) : gt a b = true -> a <> NaN /\ b <> NaN.
Proof.
  unfold gt. destruct a, b; cbn; intros H; split; congruence.
Qed.

(** ** The clarity threshold *)

Lemma CLARITY_THRESHOLD_value :
  exists t, CLARITY_THRESHOLD = Fin t /\ 849 / 1000 < t < 851 / 1000.
Proof.
  unfold CLARITY_THRESHOLD, literal.
  destruct (round64_close 0.85) as [t [E B]].
  { rewrite Rabs_pos_eq; lra. }
  exists t. split; [exact E|].
  rewrite (Rabs_pos_eq 0.85) in B by lra.
  apply Rabs_le_inv in B. lra.
Qed.

(** ** Silent frames *)

Lemma zero_sample (buffer : list R) (i : nat) :
  silent buffer -> sample buffer i = Fin 0.
Proof.
  intros H. unfold sample. f_equal. revert i.
  induction H as [|x l Hx _ IH]; intros [|i]; cbn; auto.
Qed.

Lemma mul_zero : mul (Fin 0) (Fin 0) = Fin 0.
Proof. rewrite mul_Fin, Rmult_0_l. exact round64_zero. Qed.

Lemma add_zero : add (Fin 0) (Fin 0) = Fin 0.
Proof. rewrite add_Fin, Rplus_0_l. exact round64_zero. Qed.

Lemma zero_innerSums (buffer : list R) (lag : nat) :
  silent buffer -> innerSums buffer lag = (Fin 0, Fin 0, Fin 0).
Proof.
  intros H. unfold innerSums.
  generalize (seq 0 (List.length buffer - lag)). intros l.
  induction l as [|i l IH]; [reflexivity|].
  cbn [fold_left]. unfold accumulate at 2.
  rewrite !(zero_sample buffer _ H), mul_zero, add_zero. exact IH.
Qed.

Lemma sqrt_zero : sqrt (Fin 0) = Fin 0.
Proof.
  unfold sqrt. cbn [JS.sqrt]. destruct (Rle_dec 0 0) as [_|H]; [|lra].
  cbn [rounded]. rewrite sqrt_0. exact round64_zero.
Qed.

Lemma zero_correlation (buffer : list R) (lag : nat) :
  silent buffer -> correlationAt buffer lag = Fin 0.
Proof.
  intros H. unfold correlationAt. rewrite zero_innerSums by assumption.
  rewrite mul_zero, sqrt_zero.
  assert (E : gt (Fin 0) (Fin 0) = false) by (apply gt_Fin_false; lra).
  rewrite E. reflexivity.
Qed.

Lemma zero_search (buffer : list R) (sampleRate : R) :
  silent buffer ->
  bestCorrelation (search buffer sampleRate) = Fin (-1) \/
  bestCorrelation (search buffer sampleRate) = Fin 0.
Proof.
  intros H. unfold search.
  assert (H0 : bestCorrelation (searchStart (List.length buffer)) = Fin (-1) \/
               bestCorrelation (searchStart (List.length buffer)) = Fin 0)
    by (left; reflexivity).
  revert H0. generalize (searchStart (List.length buffer)).
  generalize (lags sampleRate (List.length buffer)). intros l.
  induction l as [|lag l IH]; intros s Hs; [exact Hs|].
  cbn [fold_left]. apply IH. unfold searchStep.
  rewrite zero_correlation by assumption.
  destruct Hs as [Hs|Hs]; rewrite Hs.
  - assert (E : gt (Fin 0) (Fin (-1)) = true) by (apply gt_Fin; lra).
    rewrite E. right. reflexivity.
  - assert (E : gt (Fin 0) (Fin 0) = false) by (apply gt_Fin_false; lra).
    rewrite E. right. reflexivity.
Qed.

Lemma zero_unclear (buffer : list R) (sampleRate : R) :
  silent buffer ->
  gt (bestCorrelation (search buffer sampleRate)) CLARITY_THRESHOLD = false.
Proof.
  intros H. destruct CLARITY_THRESHOLD_value as [t [-> Ht]].
  destruct (zero_search buffer sampleRate H) as [-> | ->];
    apply gt_Fin_false; lra.
Qed.

(** ** The outer loop keeps the first lag of greatest correlation *)

Ltac compare_numbers :=
  unfold gt; cbn [lt];
  repeat match goal with
         | |- context [Rlt_dec ?x ?y] => destruct (Rlt_dec x y)
         end;
  try congruence; try lra.

Lemma gt_trans_false (a b c : number) :
  gt a b = false -> gt c b = true -> gt a c = false.
Proof.
  destruct a as [| | |x], b as [| | |y], c as [| | |z]; compare_numbers.
Qed.

Lemma gt_trans_true (a b c : number) :
  a <> NaN -> gt a b = false -> gt c b = true -> gt c a = true.
Proof.
  destruct a as [| | |x], b as [| | |y], c as [| | |z]; compare_numbers.
Qed.

Lemma searchStep_firstPeak64 (buffer : list R) (visited : list nat) (s : Search)
    (lag : nat) :
  firstPeak buffer visited s ->
  firstPeak buffer (visited ++ [lag]) (searchStep buffer s lag).
Proof.
  intros [Hmax Hcase]. unfold searchStep.
  assert (Hlow : gt (Fin (-1)) (bestCorrelation s) = false).
  { destruct Hcase as [[-> _]|[H _]].
    - apply gt_Fin_false. lra.
    - revert H. generalize (bestCorrelation s). intros [| | |b]; compare_numbers. }
  destruct (gt (correlationAt buffer lag) (bestCorrelation s)) eqn:L;
    unfold firstPeak; cbn [bestCorrelation bestPeriod].
  - split.
    + intros l Hl. apply in_app_or in Hl. destruct Hl as [Hl|[<-|[]]].
      * exact (gt_trans_false _ _ _ (Hmax l Hl) L).
      * revert L. generalize (correlationAt buffer lag), (bestCorrelation s).
        intros [| | |a] [| | |b]; compare_numbers.
    + right. split.
      * revert L Hlow. generalize (correlationAt buffer lag), (bestCorrelation s).
        intros [| | |a] [| | |b]; compare_numbers.
      * exists visited, []. split_ands; try reflexivity.
        intros l Hl Hn. exact (gt_trans_true _ _ _ Hn (Hmax l Hl) L).
  - split.
    + intros l Hl. apply in_app_or in Hl. destruct Hl as [Hl|[<-|[]]].
      * exact (Hmax l Hl).
      * exact L.
    + destruct Hcase as [Hcase|(Hgt & before & after & E & Hc & Hb)];
        [left; exact Hcase|].
      right. split; [exact Hgt|]. exists before, (after ++ [lag]).
      split_ands; try assumption.
      rewrite E, <- app_assoc. reflexivity.
Qed.

Lemma fold_firstPeak64 (buffer : list R) (rest visited : list nat) (s : Search) :
  firstPeak buffer visited s ->
  firstPeak buffer (visited ++ rest) (fold_left (searchStep buffer) rest s).
Proof.
  revert visited s. induction rest as [|lag rest IH]; intros visited s H;
    cbn [fold_left].
  - rewrite app_nil_r. exact H.
  - replace (visited ++ lag :: rest) with ((visited ++ [lag]) ++ rest)
      by (rewrite <- app_assoc; reflexivity).
    apply IH. apply searchStep_firstPeak64. exact H.
Qed.

Lemma search_firstPeak64 (buffer : list R) (sampleRate : R) :
  firstPeak buffer (lags sampleRate (List.length buffer))
            (search buffer sampleRate).
Proof.
  unfold search.
  apply (fold_firstPeak64 buffer (lags sampleRate (List.length buffer)) []).
  split; [intros lag []|]. left. split; reflexivity.
Qed.

(** The best correlation is a number: the start value -1, or a
    correlation greater than it. *)
Lemma bestCorrelation_not_NaN (buffer : list R) (sampleRate : R) :
  bestCorrelation (search buffer sampleRate) <> NaN.
Proof.
  destruct (search_firstPeak64 buffer sampleRate) as [_ [[E _]|[H _]]].
  - rewrite E. discriminate.
  - apply gt_not_NaN in H. tauto.
Qed.

(** ** The gate *)

Lemma inOpenRange_gate (frequency : number) :
  gt frequency (Fin 70) && lt frequency (Fin 1400) = true <-> inOpenRange frequency.
Proof.
  unfold inOpenRange, gt. split.
  - intros H. apply andb_prop in H. destruct H as [H1 H2].
    destruct frequency as [| | |r]; try discriminate.
    exists r. split; [reflexivity|].
    apply lt_fin in H1. apply lt_fin in H2. lra.
  - intros (r & -> & H1 & H2). apply andb_true_intro.
    split; apply lt_fin; lra.
Qed.

(** Claim C7, as amended.  [detectPitch] reports no detection exactly when
    the frame's dBFS level is below -40, or the best correlation is at most
    the double 0.85, or the derived frequency is not strictly between 70
    and 1400 Hz (the two ends count as outside); otherwise it reports the
    frequency, its note and the best correlation as clarity.  A frame of
    zeros, of any length, reports no detection.  All of it in the doubles
    of the source, on any [Math] library. *)
Theorem detectPitch_reports_inside_the_gate (M : Library) (buffer : list R)
    (contextRate : option R) :
  let sampleRate := sampleRateOf contextRate in
  let best := bestCorrelation (search buffer sampleRate) in
  let frequency := frequencyOf buffer sampleRate in
  (detectedFreq (detectPitch M buffer contextRate) = None <->
     lt (dbFS M buffer) (Fin (-40)) = true \/
     le best (literal 0.85) = true \/
     ~ inOpenRange frequency) /\
  (detectedFreq (detectPitch M buffer contextRate) <> None ->
     detectPitch M buffer contextRate =
     {| detectedNote := Chords64.frequencyToNote M (Num frequency);
        detectedFreq := Some frequency;
        clarity := best |}) /\
  (silent buffer -> detectedFreq (detectPitch M buffer contextRate) = None).
Proof.
  cbv zeta. unfold detectPitch, VOLUME_THRESHOLD.
  fold CLARITY_THRESHOLD.
  set (sr := sampleRateOf contextRate).
  set (best := bestCorrelation (search buffer sr)).
  set (frequency := frequencyOf buffer sr).
  assert (Hclear : gt best CLARITY_THRESHOLD = false <->
                   le best CLARITY_THRESHOLD = true).
  { apply not_gt_le.
    - apply bestCorrelation_not_NaN.
    - destruct CLARITY_THRESHOLD_value as [t [-> _]]. discriminate. }
  pose proof (inOpenRange_gate frequency) as Hrange.
  destruct (lt (dbFS M buffer) (Fin (-40))) eqn:Hquiet.
  - cbn [detectedFreq]. split_ands.
    + split; auto.
    + intros H. contradiction.
    + reflexivity.
  - rewrite <- andb_assoc.
    destruct (gt best CLARITY_THRESHOLD) eqn:Hc; cbn [andb].
    + destruct (gt frequency (Fin 70) && lt frequency (Fin 1400)) eqn:Hr;
        cbn [detectedFreq]; split_ands.
      * split; [discriminate|]. intros [H|[H|H]]; [discriminate| |].
        -- apply Hclear in H. discriminate.
        -- exfalso. apply H. apply Hrange. reflexivity.
      * reflexivity.
      * intros Hs. pose proof (zero_unclear buffer sr Hs) as Hle.
        fold best in Hle. congruence.
      * split; [|reflexivity]. intros _. right. right.
        intros H. apply Hrange in H. discriminate.
      * intros H. contradiction.
      * reflexivity.
    + cbn [detectedFreq]. split_ands.
      * split; [|reflexivity]. intros _. right. left.
        apply Hclear. reflexivity.
      * intros H. contradiction.
      * reflexivity.
Qed.

(** ** Doubles that hold their value exactly *)

Lemma dyadic_below (m e : Z) :
  (Z.abs m < 2 ^ 53)%Z -> (e <= 900)%Z -> Rabs (IZR m * bpow e) < bpow 1024.
Proof.
  intros Hm He. rewrite Rabs_mult, (Rabs_pos_eq (bpow e)), <- abs_IZR
    by (left; apply bpow_pos).
  apply IZR_lt in Hm. rewrite <- bpow_IZR in Hm by lia.
  pose proof (bpow_pos e) as Hp.
  pose proof (IZR_le _ _ (Z.abs_nonneg m)) as H0.
  apply Rlt_le_trans with (bpow 53 * bpow e).
  - apply Rmult_lt_compat_r; assumption.
  - rewrite <- bpow_add. apply bpow_le. lia.
Qed.

Lemma quarter_bpow : / 4 = bpow (- (2)).
Proof. rewrite bpow_opp, bpow_IZR by lia. reflexivity. Qed.

Lemma half_bpow : / 2 = bpow (- (1)).
Proof. rewrite bpow_opp, bpow_1. reflexivity. Qed.

Lemma round64_quarters (k : Z) :
  (Z.abs k < 2 ^ 53)%Z -> round64 (IZR k / 4) = Fin (IZR k / 4).
Proof.
  intros Hk. unfold Rdiv. rewrite quarter_bpow.
  apply round64_dyadic; [assumption|lia|]. apply dyadic_below; [assumption|lia].
Qed.

Lemma round64_halves (k : Z) :
  (Z.abs k < 2 ^ 53)%Z -> round64 (IZR k / 2) = Fin (IZR k / 2).
Proof.
  intros Hk. unfold Rdiv. rewrite half_bpow.
  apply round64_dyadic; [assumption|lia|]. apply dyadic_below; [assumption|lia].
Qed.

Lemma float32_one : toFloat32 (Fin 1) = Fin 1.
Proof.
  unfold toFloat32, round32.
  replace 1 with (IZR 1 * bpow 0) by (rewrite bpow_0; lra).
  apply roundTo_exact; cbn [precision emin emax binary32]; try lia.
  rewrite bpow_0, Rmult_1_r, Rabs_pos_eq by lra.
  rewrite bpow_IZR by lia. apply IZR_lt. reflexivity.
Qed.

(** ** Frames whose samples are all 0.5 *)

Lemma sample_halves (n i : nat) : (i < n)%nat -> sample (halves n) i = Fin (/ 2).
Proof.
  unfold sample, halves. intros Hi. f_equal. revert i Hi.
  induction n as [|n IH]; intros i Hi; [lia|].
  destruct i as [|i]; cbn; [reflexivity | apply IH; lia].
Qed.

Lemma half_square : mul (Fin (/ 2)) (Fin (/ 2)) = Fin (/ 4).
Proof.
  rewrite mul_Fin. replace (/ 2 * / 2) with (IZR 1 / 4) by lra.
  rewrite round64_quarters by (cbn; lia). f_equal. lra.
Qed.

Lemma add_quarter (k : nat) :
  (Z.of_nat k < 2 ^ 52)%Z ->
  add (Fin (INR k / 4)) (Fin (/ 4)) = Fin (INR (S k) / 4).
Proof.
  intros Hk. rewrite add_Fin, S_INR.
  replace (INR k / 4 + / 4) with (IZR (Z.of_nat k + 1) / 4)
    by (rewrite plus_IZR, <- INR_IZR_INZ; lra).
  rewrite round64_quarters by lia. f_equal.
  rewrite plus_IZR, <- INR_IZR_INZ. lra.
Qed.

Lemma sumSquares_halves (n : nat) :
  (Z.of_nat n < 2 ^ 52)%Z -> sumSquares (halves n) = Fin (INR n / 4).
Proof.
  intros Hn. unfold sumSquares, halves.
  assert (H : forall a m, (Z.of_nat (a + m) < 2 ^ 52)%Z ->
                fold_left (fun rms x => add rms (mul (Fin x) (Fin x)))
                          (repeat (/ 2) m) (Fin (INR a / 4))
                = Fin (INR (a + m) / 4)).
  { intros a m. revert a. induction m as [|m IH]; intros a Ha.
    - cbn. rewrite Nat.add_0_r. reflexivity.
    - cbn [repeat fold_left]. rewrite half_square, add_quarter by lia.
      rewrite IH by (rewrite <- Nat.add_succ_comm in Ha; exact Ha).
      rewrite Nat.add_succ_comm. reflexivity. }
  specialize (H 0%nat n Hn). cbn [INR Nat.add] in H.
  replace (0 / 4) with 0 in H by lra. exact H.
Qed.

Lemma accumulate_halves (n lag : nat) (l : list nat) :
  (forall i, In i l -> (i + lag < n)%nat) ->
  forall a, (Z.of_nat (a + List.length l) < 2 ^ 52)%Z ->
    fold_left (accumulate (halves n) lag) l
              (Fin (INR a / 4), Fin (INR a / 4), Fin (INR a / 4)) =
    (Fin (INR (a + List.length l) / 4), Fin (INR (a + List.length l) / 4),
     Fin (INR (a + List.length l) / 4)).
Proof.
  induction l as [|i l IH]; intros Hl a Ha.
  - cbn. rewrite Nat.add_0_r. reflexivity.
  - cbn [fold_left]. unfold accumulate at 2.
    assert (Hi : (i + lag < n)%nat) by (apply Hl; left; reflexivity).
    rewrite !sample_halves by lia.
    cbn [List.length] in Ha.
    rewrite half_square, add_quarter by lia.
    rewrite IH.
    + cbn [List.length]. rewrite Nat.add_succ_comm. reflexivity.
    + intros j Hj. apply Hl. right. exact Hj.
    + rewrite <- Nat.add_succ_comm in Ha. exact Ha.
Qed.

Lemma innerSums_halves (n lag : nat) :
  (Z.of_nat n < 2 ^ 52)%Z ->
  innerSums (halves n) lag =
  (Fin (INR (n - lag) / 4), Fin (INR (n - lag) / 4), Fin (INR (n - lag) / 4)).
Proof.
  intros Hn. unfold innerSums.
  assert (Hlen : List.length (halves n) = n) by apply repeat_length.
  rewrite Hlen.
  pose proof (accumulate_halves n lag (seq 0 (n - lag))) as H.
  rewrite length_seq in H.
  specialize (H (fun i Hi => ltac:(apply in_seq in Hi; lia)) 0%nat).
  cbn [Nat.add INR] in H. replace (0 / 4) with 0 in H by lra.
  apply H. lia.
Qed.

Lemma correlationAt_halves (n lag : nat) :
  (lag < n)%nat -> (Z.of_nat n < 2 ^ 26)%Z ->
  correlationAt (halves n) lag = Fin 1.
Proof.
  intros Hlag Hn. unfold correlationAt. rewrite innerSums_halves by lia.
  set (k := Z.of_nat (n - lag)).
  assert (Hk : (0 < k < 2 ^ 26)%Z) by (unfold k; lia).
  rewrite INR_IZR_INZ. fold k.
  assert (HkR : 0 < IZR k) by (apply IZR_lt; lia).
  assert (Hmul : mul (Fin (IZR k / 4)) (Fin (IZR k / 4)) =
                 Fin (IZR k / 4 * (IZR k / 4))).
  { rewrite mul_Fin.
    replace (IZR k / 4 * (IZR k / 4)) with (IZR (k * k) * bpow (- (4))).
    - apply round64_dyadic; [nia|lia|]. apply dyadic_below; [nia|lia].
    - rewrite mult_IZR, bpow_opp, bpow_IZR by lia.
      change (IZR (2 ^ 4)) with 16. field. }
  rewrite Hmul.
  assert (Hsqrt : sqrt (Fin (IZR k / 4 * (IZR k / 4))) = Fin (IZR k / 4)).
  { unfold sqrt. cbn [JS.sqrt].
    destruct (Rle_dec 0 (IZR k / 4 * (IZR k / 4))) as [_|Hneg]; [|nra].
    cbn [rounded]. rewrite sqrt_square by lra.
    apply round64_quarters. lia. }
  rewrite Hsqrt.
  assert (Hgt : gt (Fin (IZR k / 4)) (Fin 0) = true) by (apply gt_Fin; lra).
  rewrite Hgt, div_Fin by lra.
  replace (IZR k / 4 / (IZR k / 4)) with (IZR 1) by (field; lra).
  apply round64_int. cbn. lia.
Qed.

(** ** The typed array *)

Lemma length_store64 (arr : list number) (i : nat) (v : number) :
  List.length (store arr i v) = List.length arr.
Proof.
  revert i. induction arr as [|x arr IH]; intros [|i]; cbn; auto.
Qed.

Lemma nth_store_same64 (arr : list number) (i : nat) (v : number) :
  (i < List.length arr)%nat -> nth i (store arr i v) (Fin 0) = toFloat32 v.
Proof.
  revert i. induction arr as [|x arr IH]; intros [|i] H; cbn in *;
    try lia; [reflexivity | apply IH; lia].
Qed.

Lemma nth_store_other64 (arr : list number) (i j : nat) (v : number) :
  i <> j -> nth j (store arr i v) (Fin 0) = nth j arr (Fin 0).
Proof.
  revert i j. induction arr as [|x arr IH]; intros [|i] [|j] H; cbn;
    try reflexivity; try lia. apply IH. lia.
Qed.

(** The search on such a frame once the best correlation is 1: every
    later lag correlates at 1 too, and none replaces the best. *)
Lemma search_halves (n : nat) :
  (Z.of_nat n < 2 ^ 26)%Z ->
  forall ls s,
    bestCorrelation s = Fin 1 ->
    (forall l, In l ls -> (l < n)%nat) ->
    List.length (correlations s) = n ->
    let s' := fold_left (searchStep (halves n)) ls s in
    bestCorrelation s' = Fin 1 /\
    bestPeriod s' = bestPeriod s /\
    (forall j, In j ls -> nth j (correlations s') (Fin 0) = Fin 1) /\
    (forall j, ~ In j ls ->
       nth j (correlations s') (Fin 0) = nth j (correlations s) (Fin 0)).
Proof.
  intros Hn. induction ls as [|l ls IH]; intros s Hb Hls Hlen; cbv zeta.
  - cbn. split_ands; auto. intros j [].
  - cbn [fold_left].
    set (s1 := searchStep (halves n) s l).
    assert (Hl : (l < n)%nat) by (apply Hls; left; reflexivity).
    assert (Hs1 : s1 = {| bestCorrelation := Fin 1; bestPeriod := bestPeriod s;
                          correlations := store (correlations s) l (Fin 1) |}).
    { unfold s1, searchStep. rewrite correlationAt_halves by assumption.
      rewrite Hb.
      assert (E : gt (Fin 1) (Fin 1) = false) by (apply gt_Fin_false; lra).
      rewrite E. reflexivity. }
    destruct (IH s1) as (H1 & H2 & H3 & H4).
    + rewrite Hs1. reflexivity.
    + intros l' Hl'. apply Hls. right. exact Hl'.
    + rewrite Hs1. cbn. rewrite length_store64. exact Hlen.
    + split_ands.
      * exact H1.
      * rewrite H2, Hs1. reflexivity.
      * intros j Hj. destruct (in_dec Nat.eq_dec j ls) as [Hin|Hout].
        -- apply H3. exact Hin.
        -- destruct Hj as [<-|Hj]; [|contradiction].
           rewrite H4 by assumption. rewrite Hs1. cbn [correlations].
           rewrite nth_store_same64 by lia. exact float32_one.
      * intros j Hj. rewrite H4 by (intros Hin; apply Hj; right; exact Hin).
        rewrite Hs1. cbn [correlations]. apply nth_store_other64.
        intros ->. apply Hj. left. reflexivity.
Qed.

Lemma searchStep_halves_first (n lag : nat) :
  (Z.of_nat n < 2 ^ 26)%Z -> (lag < n)%nat ->
  searchStep (halves n) (searchStart n) lag =
  {| bestCorrelation := Fin 1; bestPeriod := lag;
     correlations := store (repeat (Fin 0) n) lag (Fin 1) |}.
Proof.
  intros Hn Hl. unfold searchStep. rewrite correlationAt_halves by assumption.
  unfold searchStart. cbn [bestCorrelation correlations].
  assert (E : gt (Fin 1) (Fin (-1)) = true) by (apply gt_Fin; lra).
  rewrite E. reflexivity.
Qed.

(** On such a frame the first lag wins at correlation 1, and of its two
    neighbours the later one has been visited (and holds 1) while the
    earlier one has not (and holds 0). *)
Lemma search_halves_first (n lag : nat) (ls : list nat) :
  (Z.of_nat n < 2 ^ 26)%Z -> (0 < lag)%nat -> (S lag < n)%nat ->
  (forall l, In l ls -> (lag < l < n)%nat) -> In (S lag) ls ->
  let s := fold_left (searchStep (halves n)) (lag :: ls) (searchStart n) in
  bestCorrelation s = Fin 1 /\ bestPeriod s = lag /\
  nth (lag - 1) (correlations s) (Fin 0) = Fin 0 /\
  nth lag (correlations s) (Fin 0) = Fin 1 /\
  nth (lag + 1) (correlations s) (Fin 0) = Fin 1.
Proof.
  intros Hsmall Hlag Hn Hls Hin. cbv zeta. cbn [fold_left].
  rewrite searchStep_halves_first by (try assumption; lia).
  destruct (search_halves n Hsmall ls
              {| bestCorrelation := Fin 1; bestPeriod := lag;
                 correlations := store (repeat (Fin 0) n) lag (Fin 1) |})
    as (H1 & H2 & H3 & H4).
  - reflexivity.
  - intros l Hl. apply Hls in Hl. lia.
  - cbn [correlations]. rewrite length_store64, repeat_length. reflexivity.
  - cbn [bestPeriod correlations] in *. split_ands.
    + exact H1.
    + exact H2.
    + rewrite H4 by (intros Hl; apply Hls in Hl; lia).
      rewrite nth_store_other64 by lia. apply nth_repeat.
    + rewrite H4 by (intros Hl; apply Hls in Hl; lia).
      rewrite nth_store_same64 by (rewrite repeat_length; lia).
      exact float32_one.
    + apply H3. replace (lag + 1)%nat with (S lag) by lia. exact Hin.
Qed.

(** The lags from a first period that is not negative. *)
Lemma lags_from (sampleRate : R) (bufferLength : nat) :
  (0 <= minPeriodOf sampleRate)%Z ->
  lags sampleRate bufferLength =
  seq (Z.to_nat (minPeriodOf sampleRate))
      (Z.to_nat (Z.min (maxPeriodOf sampleRate) (Z.of_nat bufferLength) -
                 minPeriodOf sampleRate)).
Proof.
  intros Hpos. unfold lags, zrange. rewrite map_map.
  pose proof (SearchFacts.map_add_seq (Z.to_nat (minPeriodOf sampleRate)) 0
                (Z.to_nat (Z.min (maxPeriodOf sampleRate)
                             (Z.of_nat bufferLength) -
                           minPeriodOf sampleRate))) as E.
  rewrite Nat.add_0_r in E. rewrite <- E.
  apply map_ext. intros k. lia.
Qed.

Lemma search_halves_rate (n : nat) (sampleRate : R) :
  (Z.of_nat n < 2 ^ 26)%Z -> (0 < minPeriodOf sampleRate)%Z ->
  (minPeriodOf sampleRate + 1 <
   Z.min (maxPeriodOf sampleRate) (Z.of_nat n))%Z ->
  bestCorrelation (search (halves n) sampleRate) = Fin 1 /\
  bestPeriod (search (halves n) sampleRate) =
    Z.to_nat (minPeriodOf sampleRate) /\
  nth (Z.to_nat (minPeriodOf sampleRate) - 1)
      (correlations (search (halves n) sampleRate)) (Fin 0) = Fin 0 /\
  nth (Z.to_nat (minPeriodOf sampleRate))
      (correlations (search (halves n) sampleRate)) (Fin 0) = Fin 1 /\
  nth (Z.to_nat (minPeriodOf sampleRate) + 1)
      (correlations (search (halves n) sampleRate)) (Fin 0) = Fin 1.
Proof.
  intros Hsmall Hm Hn. unfold search.
  assert (Hlen : List.length (halves n) = n) by apply repeat_length.
  rewrite Hlen, lags_from by lia.
  remember (Z.to_nat (minPeriodOf sampleRate)) as m eqn:Em.
  remember (Z.to_nat (Z.min (maxPeriodOf sampleRate) (Z.of_nat n) -
                      minPeriodOf sampleRate)) as len eqn:El.
  assert (Hlen2 : (2 <= len)%nat) by lia.
  destruct len as [|len]; [lia|]. cbn [seq].
  apply (search_halves_first n m (seq (S m) len)).
  - exact Hsmall.
  - lia.
  - lia.
  - intros l Hl. apply in_seq in Hl. lia.
  - apply in_seq. lia.
Qed.

Lemma or_else_zero : or_else (Fin 0) (Fin 0) = Fin 0.
Proof.
  unfold or_else. cbn [truthy]. destruct (Req_dec_T 0 0); reflexivity.
Qed.

Lemma or_else_one : or_else (Fin 1) (Fin 0) = Fin 1.
Proof.
  unfold or_else. cbn [truthy]. destruct (Req_dec_T 1 0); [lra|reflexivity].
Qed.

(** The interpolation between the stored 0, 1 and 1 moves the period up by
    one half, without any rounding. *)
Lemma shift_half :
  div (sub (Fin 0) (Fin 1))
      (mul (Fin 2) (add (sub (Fin 0) (mul (Fin 2) (Fin 1))) (Fin 1))) = Fin (/ 2).
Proof.
  rewrite (mul_int 2 1) by (cbn; lia).
  rewrite (sub_int 0 (2 * 1)) by (cbn; lia).
  rewrite (add_int (0 - 2 * 1) 1) by (cbn; lia).
  rewrite (mul_int 2 (0 - 2 * 1 + 1)) by (cbn; lia).
  rewrite (sub_int 0 1) by (cbn; lia).
  rewrite div_Fin by (cbn; lra).
  replace (IZR (0 - 1) / IZR (2 * (0 - 2 * 1 + 1))) with (IZR 1 / 2)
    by (cbn; lra).
  rewrite round64_halves by (cbn; lia). f_equal. lra.
Qed.

Lemma frequencyOf_halves (n : nat) (sampleRate : R) :
  (Z.of_nat n < 2 ^ 26)%Z -> (0 < minPeriodOf sampleRate)%Z ->
  (minPeriodOf sampleRate + 1 <
   Z.min (maxPeriodOf sampleRate) (Z.of_nat n))%Z ->
  frequencyOf (halves n) sampleRate =
  div (Fin sampleRate) (Fin (IZR (minPeriodOf sampleRate) + / 2)).
Proof.
  intros Hsmall Hm Hn. unfold frequencyOf, refinedPeriodOf.
  destruct (search_halves_rate n sampleRate Hsmall Hm Hn)
    as (_ & Hp & H0 & H1 & H2).
  assert (Hlen : List.length (halves n) = n) by apply repeat_length.
  rewrite Hlen, Hp.
  assert (Hcond : (0 <? Z.to_nat (minPeriodOf sampleRate))%nat &&
                  (Z.to_nat (minPeriodOf sampleRate) <? n - 1)%nat = true).
  { apply andb_true_iff. split; apply Nat.ltb_lt; lia. }
  rewrite Hcond. unfold entryOf. rewrite H0, H1, H2, or_else_zero, or_else_one.
  rewrite shift_half. cbn [isFinite].
  rewrite INR_IZR_INZ, Z2Nat.id by lia.
  rewrite add_Fin.
  replace (IZR (minPeriodOf sampleRate) + / 2)
    with (IZR (2 * minPeriodOf sampleRate + 1) / 2)
    by (rewrite plus_IZR, mult_IZR; lra).
  rewrite round64_halves by lia. reflexivity.
Qed.

(** The root mean square of such a frame is 0.5, without any rounding. *)
Lemma rmsOf_halves (n : nat) :
  (0 < n)%nat -> (Z.of_nat n < 2 ^ 26)%Z -> rmsOf (halves n) = Fin (/ 2).
Proof.
  intros Hpos Hn. unfold rmsOf.
  assert (Hlen : List.length (halves n) = n) by apply repeat_length.
  rewrite Hlen, sumSquares_halves by lia.
  assert (Hn0 : INR n <> 0) by (apply not_0_INR; lia).
  rewrite div_Fin by assumption.
  replace (INR n / 4 / INR n) with (IZR 1 / 4) by (field; assumption).
  rewrite round64_quarters by (cbn; lia).
  unfold sqrt. cbn [JS.sqrt].
  destruct (Rle_dec 0 (IZR 1 / 4)) as [_|Hneg]; [|lra].
  cbn [rounded]. replace (IZR 1 / 4) with (/ 2 * / 2) by lra.
  rewrite sqrt_square by lra.
  replace (/ 2) with (IZR 1 / 2) by lra.
  apply round64_halves. cbn. lia.
Qed.

(** On an accurate engine the level of such a frame, about -6 dBFS, is
    above the volume threshold. *)
Lemma halves_loud (M : Library) (n : nat) :
  accurate M -> (0 < n)%nat -> (Z.of_nat n < 2 ^ 26)%Z ->
  lt (dbFS M (halves n)) VOLUME_THRESHOLD = false.
Proof.
  intros HM Hpos Hn. unfold dbFS. rewrite rmsOf_halves by assumption.
  assert (Hr : bpow (-1075) <= / 2 <= bpow 1024).
  { rewrite half_bpow. split; apply bpow_le; lia. }
  destruct (@log10_near M HM (/ 2) Hr) as [y [Ey By]].
  rewrite Ey. pose proof ln2_gt_0 as H2. pose proof ln10_ge_ln2 as H10.
  assert (Hq : -1 <= ln (/ 2) / ln 10 <= 0).
  { rewrite ln_Rinv by lra. split.
    - apply Rmult_le_reg_r with (ln 10); [lra|].
      unfold Rdiv. rewrite Rmult_assoc, Rinv_l by lra. lra.
    - apply Rmult_le_reg_r with (ln 10); [lra|].
      unfold Rdiv. rewrite Rmult_assoc, Rinv_l by lra. lra. }
  assert (Ha : Rabs (ln (/ 2) / ln 10) <= 1) by (apply Rabs_le; lra).
  assert (Ht : tolerance <= / 1000) by (unfold tolerance; lra).
  pose proof tolerance_pos as Htp.
  assert (By' : Rabs (y - ln (/ 2) / ln 10) <= / 500).
  { eapply Rle_trans; [exact By|].
    pose proof (Rabs_pos (ln (/ 2) / ln 10)). nra. }
  apply Rabs_le_inv in By'.
  rewrite mul_Fin.
  destruct (round64_close (20 * y)) as [z [Ez Bz]].
  { apply Rabs_le. lra. }
  rewrite Ez. unfold VOLUME_THRESHOLD.
  assert (Hy : Rabs (20 * y) <= 21) by (apply Rabs_le; lra).
  apply Rabs_le_inv in Bz.
  cbn [lt]. destruct (Rlt_dec z (-40)) as [H|_]; [|reflexivity]. lra.
Qed.

(** ** 4096 samples, all 0.5, at 44100 Hz *)

Lemma rate_44100 :
  sampleRateOf (Some 44100) = 44100 /\
  minPeriodOf 44100 = 31%Z /\ maxPeriodOf 44100 = 630%Z.
Proof.
  split_ands.
  - unfold sampleRateOf. destruct (Req_dec_T 44100 0); [lra|reflexivity].
  - unfold minPeriodOf. rewrite div_Fin by lra.
    replace (44100 / 1400) with (IZR 63 / 2) by lra.
    rewrite round64_halves by (cbn; lia). cbn [floor wholeOf].
    rewrite ZfloorZ. apply Zfloor_eq. lra.
  - unfold maxPeriodOf. rewrite div_Fin by lra.
    replace (44100 / 70) with (IZR 630) by lra.
    rewrite round64_int by (cbn; lia). cbn [floor wholeOf].
    rewrite !ZfloorZ. reflexivity.
Qed.

Lemma halves_4096_at_44100 :
  bestCorrelation (search (halves 4096) 44100) = Fin 1 /\
  frequencyOf (halves 4096) 44100 = Fin 1400.
Proof.
  destruct rate_44100 as (_ & Hmin & Hmax).
  assert (Hsmall : (Z.of_nat 4096 < 2 ^ 26)%Z) by lia.
  split.
  - apply search_halves_rate; rewrite ?Hmin, ?Hmax; lia.
  - rewrite frequencyOf_halves by (rewrite ?Hmin, ?Hmax; lia).
    rewrite Hmin, div_Fin by lra.
    replace (44100 / (31 + / 2)) with (IZR 1400) by lra.
    rewrite round64_int by (cbn; lia). reflexivity.
Qed.

(** Claim C7, counterexample.  A frame of 4096 samples all 0.5 at 44100 Hz
    is loud enough (about -6 dBFS), correlates at 1 from the first lag, 31,
    and interpolates to a period of 31.5, a frequency of exactly 1400 Hz,
    inside [70, 1400]; [detectPitch] reports no detection.  Nothing is
    rounded on the way but the logarithm of the level. *)
Lemma detectPitch_none_at_1400 :
  lt (dbFS correctlyRounded (halves 4096)) (Fin (-40)) = false /\
  le (bestCorrelation (search (halves 4096) (sampleRateOf (Some 44100))))
     (literal 0.85) = false /\
  frequencyOf (halves 4096) (sampleRateOf (Some 44100)) = Fin 1400 /\
  70 <= 1400 <= 1400 /\
  detectedFreq (detectPitch correctlyRounded (halves 4096) (Some 44100)) = None.
Proof.
  destruct rate_44100 as (Hsr & _). rewrite Hsr.
  destruct halves_4096_at_44100 as (Hb & Hf).
  assert (Hloud : lt (dbFS correctlyRounded (halves 4096)) (Fin (-40)) = false).
  { apply (halves_loud correctlyRounded 4096 correctlyRounded_accurate); lia. }
  split_ands.
  - exact Hloud.
  - rewrite Hb. fold CLARITY_THRESHOLD.
    destruct CLARITY_THRESHOLD_value as [t [-> Ht]].
    cbn [le]. destruct (Rle_dec 1 t); [lra|reflexivity].
  - exact Hf.
  - lra.
  - lra.
  - unfold detectPitch, VOLUME_THRESHOLD. rewrite Hloud, Hsr, Hf.
    assert (H : lt (Fin 1400) (Fin 1400) = false).
    { cbn. destruct (Rlt_dec 1400 1400); [lra | reflexivity]. }
    rewrite H, andb_false_r. reflexivity.
Qed.

(** ** What the typed array holds *)

Lemma searchStep_correlations (buffer : list R) (s : Search) (lag : nat) :
  correlations (searchStep buffer s lag) =
  store (correlations s) lag (correlationAt buffer lag).
Proof.
  unfold searchStep.
  destruct (gt (correlationAt buffer lag) (bestCorrelation s)); reflexivity.
Qed.

Lemma searchStep_stored (buffer : list R) (visited : list nat) (s : Search)
    (lag : nat) :
  stored buffer visited s ->
  stored buffer (visited ++ [lag]) (searchStep buffer s lag).
Proof.
  intros [Hin Hout]. unfold stored, entryOf in *.
  rewrite searchStep_correlations, length_store64. split.
  - intros j Hj Hlen. destruct (Nat.eq_dec lag j) as [->|Hne].
    + apply nth_store_same64. exact Hlen.
    + rewrite nth_store_other64 by assumption. apply Hin; [|exact Hlen].
      apply in_app_or in Hj. destruct Hj as [Hj|[Hj|[]]]; [exact Hj|contradiction].
  - intros j Hj. rewrite nth_store_other64.
    + apply Hout. intros H. apply Hj. apply in_or_app. left. exact H.
    + intros ->. apply Hj. apply in_or_app. right. left. reflexivity.
Qed.

Lemma fold_stored (buffer : list R) (rest visited : list nat) (s : Search) :
  stored buffer visited s ->
  stored buffer (visited ++ rest) (fold_left (searchStep buffer) rest s) /\
  List.length (correlations (fold_left (searchStep buffer) rest s)) =
  List.length (correlations s).
Proof.
  revert visited s. induction rest as [|lag rest IH]; intros visited s H;
    cbn [fold_left].
  - rewrite app_nil_r. split; [exact H|reflexivity].
  - replace (visited ++ lag :: rest) with ((visited ++ [lag]) ++ rest)
      by (rewrite <- app_assoc; reflexivity).
    destruct (IH (visited ++ [lag]) (searchStep buffer s lag)
                 (searchStep_stored buffer visited s lag H)) as [H1 H2].
    split; [exact H1|].
    rewrite H2, searchStep_correlations. apply length_store64.
Qed.

Lemma search_stored (buffer : list R) (sampleRate : R) :
  stored buffer (lags sampleRate (List.length buffer)) (search buffer sampleRate) /\
  List.length (correlations (search buffer sampleRate)) = List.length buffer.
Proof.
  unfold search.
  destruct (fold_stored buffer (lags sampleRate (List.length buffer)) []
              (searchStart (List.length buffer))) as [H1 H2].
  - split; [intros j []|]. intros j _. unfold entryOf, searchStart.
    cbn [correlations]. apply nth_repeat.
  - split; [exact H1|]. rewrite H2. cbn [searchStart correlations].
    apply repeat_length.
Qed.

(** Extra X12.  The search of [detectPitch] over the lags, in the doubles
    of the source.  For any frame and any sample rate: the best correlation
    kept is a number; no visited lag correlates better than it; when no
    visited lag correlates above -1, or none is visited, the search ends
    with the starting values -1 and 0; otherwise the best period is a
    visited lag, the best correlation is the correlation at it, and every
    lag visited before it whose correlation is a number correlates strictly
    less.  The typed array holds, at each visited lag inside it, the
    correlation rounded to single precision, and 0 elsewhere.  The clarity
    the hook reports is the best correlation, or 0 for a frame below the
    volume gate. *)
Theorem search_keeps_the_first_greatest_correlation (M : Library)
    (buffer : list R) (contextRate : option R) :
  bestCorrelation (search buffer (sampleRateOf contextRate)) <> NaN /\
  (forall lag, In lag (lags (sampleRateOf contextRate) (List.length buffer)) ->
     gt (correlationAt buffer lag)
        (bestCorrelation (search buffer (sampleRateOf contextRate))) = false) /\
  ((forall lag, In lag (lags (sampleRateOf contextRate) (List.length buffer)) ->
      gt (correlationAt buffer lag) (Fin (-1)) = false) ->
   bestCorrelation (search buffer (sampleRateOf contextRate)) = Fin (-1) /\
   bestPeriod (search buffer (sampleRateOf contextRate)) = 0%nat) /\
  ((exists lag, In lag (lags (sampleRateOf contextRate) (List.length buffer)) /\
                gt (correlationAt buffer lag) (Fin (-1)) = true) ->
   exists before after,
     lags (sampleRateOf contextRate) (List.length buffer) =
       before ++ bestPeriod (search buffer (sampleRateOf contextRate)) :: after /\
     correlationAt buffer (bestPeriod (search buffer (sampleRateOf contextRate))) =
       bestCorrelation (search buffer (sampleRateOf contextRate)) /\
     (forall lag, In lag before -> correlationAt buffer lag <> NaN ->
        gt (bestCorrelation (search buffer (sampleRateOf contextRate)))
           (correlationAt buffer lag) = true)) /\
  (forall lag, In lag (lags (sampleRateOf contextRate) (List.length buffer)) ->
     (lag < List.length buffer)%nat ->
     entryOf (search buffer (sampleRateOf contextRate)) lag =
     toFloat32 (correlationAt buffer lag)) /\
  (forall lag, ~ In lag (lags (sampleRateOf contextRate) (List.length buffer)) ->
     entryOf (search buffer (sampleRateOf contextRate)) lag = Fin 0) /\
  (clarity (detectPitch M buffer contextRate) = Fin 0 \/
   clarity (detectPitch M buffer contextRate) =
     bestCorrelation (search buffer (sampleRateOf contextRate))).
Proof.
  set (rate := sampleRateOf contextRate).
  pose proof (search_firstPeak64 buffer rate) as [Hmax Hcase].
  destruct (search_stored buffer rate) as [[Hin Hout] Hlen].
  split_ands.
  - apply bestCorrelation_not_NaN.
  - exact Hmax.
  - intros Hall.
    destruct Hcase as [Hcase|(Hgt & before & after & E & Hc & _)]; [exact Hcase|].
    exfalso.
    assert (Hb : In (bestPeriod (search buffer rate))
                    (lags rate (List.length buffer))).
    { rewrite E. apply in_or_app. right. left. reflexivity. }
    specialize (Hall _ Hb). rewrite Hc in Hall. congruence.
  - intros (lag & Hl & Hgt).
    destruct Hcase as [[Hb _]|(_ & before & after & E & Hc & Hb)].
    + specialize (Hmax lag Hl). rewrite Hb in Hmax. congruence.
    + exists before, after. split_ands; assumption.
  - intros lag Hl Hlt. apply Hin; [exact Hl|]. rewrite Hlen. exact Hlt.
  - exact Hout.
  - unfold detectPitch. fold rate.
    destruct (lt (dbFS M buffer) VOLUME_THRESHOLD); [left; reflexivity|].
    right.
    destruct (gt (bestCorrelation (search buffer rate)) CLARITY_THRESHOLD
              && gt (frequencyOf buffer rate) (Fin 70)
              && lt (frequencyOf buffer rate) (Fin 1400)); reflexivity.
Qed.

(** ** Frames that repeat *)

Lemma accumulate_periodic64 (buffer : list R) (p : nat) (l : list nat) :
  SearchSpec.periodic buffer p ->
  (forall i, In i l -> (i + p < List.length buffer)%nat) ->
  forall a, exists c, fold_left (accumulate buffer p) l (a, a, a) = (c, c, c).
Proof.
  intros Hper. induction l as [|i l IH]; intros Hl a; cbn [fold_left].
  - exists a. reflexivity.
  - assert (Hi : sample buffer (i + p) = sample buffer i).
    { unfold sample. f_equal. apply Hper. apply Hl. left. reflexivity. }
    unfold accumulate at 2. rewrite Hi.
    apply (IH (fun j Hj => Hl j (or_intror Hj))).
Qed.

Lemma innerSums_periodic64 (buffer : list R) (p : nat) :
  SearchSpec.periodic buffer p ->
  innerSums buffer p = (energyAt buffer p, energyAt buffer p, energyAt buffer p).
Proof.
  intros Hper. unfold energyAt, innerSums.
  destruct (accumulate_periodic64 buffer p (seq 0 (List.length buffer - p)) Hper)
    with (a := Fin 0) as (c & ->).
  { intros j Hj. apply in_seq in Hj. lia. }
  reflexivity.
Qed.

(** A quotient of a positive number by one within two roundings of it. *)
Lemma ratio_near_one (e q u : R) :
  0 < e -> 0 <= u <= / 1000 ->
  e * ((1 - u) * (1 - u)) <= q <= e * ((1 + u) * (1 + u)) ->
  0 < q /\ Rabs (e / q - 1) <= 3 * u.
Proof.
  intros He Hu [Hlo Hhi].
  assert (H1 : 998 / 1000 <= (1 - u) * (1 - u)) by nra.
  assert (Hq : 0 < q) by nra.
  split; [exact Hq|].
  assert (Hlow : (1 - 3 * u) * ((1 + u) * (1 + u)) <= 1) by nra.
  assert (Hup : 1 <= (1 + 3 * u) * ((1 - u) * (1 - u))) by nra.
  assert (Hx : e / q * q = e) by (field; lra).
  set (x := e / q) in *.
  assert (H2 : (1 - 3 * u) * q <= (1 - 3 * u) * (e * ((1 + u) * (1 + u))))
    by (apply Rmult_le_compat_l; lra).
  assert (H3 : (1 + 3 * u) * (e * ((1 - u) * (1 - u))) <= (1 + 3 * u) * q)
    by (apply Rmult_le_compat_l; lra).
  assert (H4 : e * ((1 - 3 * u) * ((1 + u) * (1 + u))) <= e * 1)
    by (apply Rmult_le_compat_l; lra).
  assert (H5 : e * 1 <= e * ((1 + 3 * u) * ((1 - u) * (1 - u))))
    by (apply Rmult_le_compat_l; lra).
  apply Rabs_le. split.
  - apply Rmult_le_reg_r with q; [exact Hq|]. lra.
  - apply Rmult_le_reg_r with q; [exact Hq|]. lra.
Qed.

(** The square root of a square known to one rounding. *)
Lemma sqrt_near (e P u : R) :
  0 < e -> 0 <= u <= / 1000 -> Rabs (P - e * e) <= u * (e * e) ->
  0 < P /\ e * (1 - u) <= R_sqrt.sqrt P <= e * (1 + u).
Proof.
  intros He Hu HP. apply Rabs_le_inv in HP.
  assert (He2 : 0 < e * e) by nra.
  assert (Hlo : (e * (1 - u)) * (e * (1 - u)) <= P).
  { assert ((1 - u) * (1 - u) <= 1 - u) by nra.
    assert (e * e * ((1 - u) * (1 - u)) <= e * e * (1 - u))
      by (apply Rmult_le_compat_l; lra).
    nra. }
  assert (Hhi : P <= (e * (1 + u)) * (e * (1 + u))).
  { assert (1 + u <= (1 + u) * (1 + u)) by nra.
    assert (e * e * (1 + u) <= e * e * ((1 + u) * (1 + u)))
      by (apply Rmult_le_compat_l; lra).
    nra. }
  assert (HP0 : 0 < P) by nra.
  split; [exact HP0|]. split.
  - rewrite <- (sqrt_square (e * (1 - u))) by nra.
    apply sqrt_le_1_alt. exact Hlo.
  - rewrite <- (sqrt_square (e * (1 + u))) by nra.
    apply sqrt_le_1_alt. exact Hhi.
Qed.

(** The normalized correlation of a part of the frame with itself, of
    computed energy [e]: within [clarityError] of 1. *)
Lemma correlation_with_itself (e : R) :
  bpow (-500) <= e <= bpow 500 ->
  exists c,
    (if gt (sqrt (mul (Fin e) (Fin e))) (Fin 0)
     then div (Fin e) (sqrt (mul (Fin e) (Fin e))) else Fin e) = Fin c /\
    Rabs (c - 1) <= clarityError.
Proof.
  intros [Hlo Hhi]. pose proof (bpow_pos (-500)) as Hp.
  pose proof unit64_pos as Hu. pose proof unit64_tiny as Hut.
  assert (He : 0 < e) by lra.
  assert (Hsq : bpow (-1000) <= e * e <= bpow 1000).
  { change (-1000)%Z with (-500 + -500)%Z. change 1000%Z with (500 + 500)%Z.
    rewrite !bpow_add. pose proof (bpow_pos 500). split; nra. }
  rewrite mul_Fin.
  destruct (round64_normal (e * e)) as [P [EP BP]].
  { rewrite Rabs_pos_eq by nra. split.
    - apply Rle_trans with (bpow (-1000)); [apply bpow_le; lia|tauto].
    - apply Rle_trans with (bpow 1000); [tauto|apply bpow_le; lia]. }
  rewrite EP. rewrite (Rabs_pos_eq (e * e)) in BP by nra.
  destruct (sqrt_near e P unit64 He ltac:(lra) BP) as [HP0 [Hs1 Hs2]].
  unfold sqrt. cbn [JS.sqrt].
  destruct (Rle_dec 0 P) as [_|Hneg]; [|lra]. cbn [rounded].
  set (r := R_sqrt.sqrt P) in *.
  assert (Hr : bpow (-501) <= r <= bpow 501).
  { split.
    - apply Rle_trans with (e * (1 - unit64)); [|exact Hs1].
      change (-501)%Z with (-500 - 1)%Z. rewrite bpow_pred. nra.
    - apply Rle_trans with (e * (1 + unit64)); [exact Hs2|].
      change 501%Z with (500 + 1)%Z. rewrite bpow_succ.
      pose proof (bpow_pos 500). nra. }
  pose proof (bpow_pos (-501)) as Hp1.
  destruct (round64_normal r) as [q [Eq Bq]].
  { rewrite Rabs_pos_eq by lra. split.
    - apply Rle_trans with (bpow (-501)); [apply bpow_le; lia|tauto].
    - apply Rle_trans with (bpow 501); [tauto|apply bpow_le; lia]. }
  rewrite Eq. rewrite (Rabs_pos_eq r) in Bq by lra.
  apply Rabs_le_inv in Bq.
  destruct (ratio_near_one e q unit64 He ltac:(lra)) as [Hq Hratio].
  { split.
    - apply Rle_trans with (r * (1 - unit64)); [|lra].
      replace (e * ((1 - unit64) * (1 - unit64)))
        with (e * (1 - unit64) * (1 - unit64)) by ring.
      apply Rmult_le_compat_r; lra.
    - apply Rle_trans with (r * (1 + unit64)); [lra|].
      replace (e * ((1 + unit64) * (1 + unit64)))
        with (e * (1 + unit64) * (1 + unit64)) by ring.
      apply Rmult_le_compat_r; lra. }
  assert (Hgt : gt (Fin q) (Fin 0) = true) by (apply gt_Fin; exact Hq).
  rewrite Hgt, div_Fin by lra.
  assert (Hx : / 2 <= e / q <= 2).
  { apply Rabs_le_inv in Hratio. lra. }
  destruct (round64_normal (e / q)) as [c [Ec Bc]].
  { rewrite Rabs_pos_eq by lra. split.
    - apply Rle_trans with (bpow (- (1))); [apply bpow_le; lia|].
      rewrite <- half_bpow. tauto.
    - apply Rle_trans with (bpow 1); [rewrite bpow_1; tauto|apply bpow_le; lia]. }
  exists c. split; [exact Ec|].
  rewrite (Rabs_pos_eq (e / q)) in Bc by lra.
  apply Rabs_le_inv in Bc. apply Rabs_le_inv in Hratio.
  unfold clarityError. apply Rabs_le. split; nra.
Qed.

(** Extra X13.  A frame that repeats exactly, in the doubles of the source.
    When the frame repeats itself every [p] samples, [p] is one of the lags
    the search visits, and the energy the inner loop computes for the
    compared part is a double from 2^-500 to 2^500, then the three sums of
    the inner loop are the same double and the correlation at [p] is a
    number within 5 * 2^-53 of 1; the best correlation of the search is no
    less and passes the clarity threshold; and a frame that passes the
    volume gate is reported with the best correlation as its clarity. *)
Theorem periodic_frame_passes_the_clarity_gate (M : Library) (buffer : list R)
    (contextRate : option R) (p : nat) (e : R) :
  In p (lags (sampleRateOf contextRate) (List.length buffer)) ->
  SearchSpec.periodic buffer p ->
  energyAt buffer p = Fin e -> bpow (-500) <= e <= bpow 500 ->
  innerSums buffer p = (Fin e, Fin e, Fin e) /\
  exists c,
    correlationAt buffer p = Fin c /\ Rabs (c - 1) <= clarityError /\
    gt (Fin c) (bestCorrelation (search buffer (sampleRateOf contextRate))) = false /\
    gt (bestCorrelation (search buffer (sampleRateOf contextRate)))
       CLARITY_THRESHOLD = true /\
    (lt (dbFS M buffer) VOLUME_THRESHOLD = false ->
     clarity (detectPitch M buffer contextRate) =
     bestCorrelation (search buffer (sampleRateOf contextRate))).
Proof.
  intros Hin Hper He Hrange.
  set (rate := sampleRateOf contextRate) in *.
  pose proof (innerSums_periodic64 buffer p Hper) as Hsums. rewrite He in Hsums.
  split; [exact Hsums|].
  destruct (correlation_with_itself e Hrange) as [c [Ec Bc]].
  assert (Hc : correlationAt buffer p = Fin c).
  { unfold correlationAt. rewrite Hsums. exact Ec. }
  exists c.
  destruct (search_firstPeak64 buffer rate) as [Hmax _].
  pose proof (Hmax p Hin) as Hge. rewrite Hc in Hge.
  pose proof (bestCorrelation_not_NaN buffer rate) as Hnum.
  assert (Hclear : gt (bestCorrelation (search buffer rate)) CLARITY_THRESHOLD = true).
  { destruct CLARITY_THRESHOLD_value as [t [-> Ht]].
    unfold clarityError in Bc. pose proof unit64_tiny as Hu.
    pose proof unit64_pos as Hu0. apply Rabs_le_inv in Bc.
    revert Hge Hnum. generalize (bestCorrelation (search buffer rate)).
    intros [| | |b]; unfold gt; cbn [lt]; try congruence.
    destruct (Rlt_dec b c), (Rlt_dec t b); try congruence; try lra. }
  split_ands; try assumption.
  intros Hgate. unfold detectPitch. rewrite Hgate. fold rate.
  destruct (gt (bestCorrelation (search buffer rate)) CLARITY_THRESHOLD
            && gt (frequencyOf buffer rate) (Fin 70)
            && lt (frequencyOf buffer rate) (Fin 1400)); reflexivity.
Qed.

Lemma lags_44100_4096 (lag : nat) :
  In lag (lags 44100 4096) <-> (31 <= lag < 630)%nat.
Proof.
  destruct rate_44100 as (_ & Hmin & Hmax).
  rewrite lags_from by (rewrite Hmin; lia). rewrite Hmin, Hmax, in_seq. lia.
Qed.

Lemma halves_periodic (n p : nat) : SearchSpec.periodic (halves n) p.
Proof.
  intros i Hi. unfold halves in Hi. rewrite repeat_length in Hi.
  pose proof (sample_halves n (i + p) Hi) as H1.
  pose proof (sample_halves n i ltac:(lia)) as H2.
  unfold sample in H1, H2. injection H1 as H1. injection H2 as H2.
  unfold Pitch.sample. rewrite H1, H2. reflexivity.
Qed.

(** Extra X13 on 4096 samples of 0.5 at 44100 Hz, which repeat every 31;
    the computed energy of the 4065 samples compared is 4065/4. *)
Lemma periodic_frame_passes_the_clarity_gate_witness :
  In 31%nat (lags (sampleRateOf (Some 44100)) (List.length (halves 4096))) /\
  SearchSpec.periodic (halves 4096) 31 /\
  energyAt (halves 4096) 31 = Fin (4065 / 4) /\
  bpow (-500) <= 4065 / 4 <= bpow 500 /\
  exists c,
    correlationAt (halves 4096) 31 = Fin c /\ Rabs (c - 1) <= clarityError /\
    gt (bestCorrelation (search (halves 4096) (sampleRateOf (Some 44100))))
       CLARITY_THRESHOLD = true.
Proof.
  destruct rate_44100 as (Hsr & _).
  assert (Hlen : List.length (halves 4096) = 4096%nat) by apply repeat_length.
  assert (Hin : In 31%nat (lags (sampleRateOf (Some 44100))
                             (List.length (halves 4096)))).
  { rewrite Hsr, Hlen. apply lags_44100_4096. lia. }
  assert (He : energyAt (halves 4096) 31 = Fin (4065 / 4)).
  { unfold energyAt. rewrite innerSums_halves by lia. cbn [fst snd].
    rewrite INR_IZR_INZ. reflexivity. }
  assert (Hr : bpow (-500) <= 4065 / 4 <= bpow 500).
  { split.
    - apply Rle_trans with (bpow 0); [apply bpow_le; lia|rewrite bpow_0; lra].
    - apply Rle_trans with (bpow 12); [|apply bpow_le; lia].
      rewrite bpow_IZR by lia. change (IZR (2 ^ 12)) with 4096. lra. }
  split; [exact Hin|]. split; [apply halves_periodic|].
  split; [exact He|]. split; [exact Hr|].
  destruct (periodic_frame_passes_the_clarity_gate correctlyRounded
              (halves 4096) (Some 44100) 31 (4065 / 4) Hin
              (halves_periodic 4096 31) He Hr)
    as (_ & c & H1 & H2 & _ & H4 & _).
  exists c. split; [exact H1|]. split; [exact H2|exact H4].
Defined.

End Pitch64Facts.

Module Detection64Facts.
Import JS IEEE Math Chords ChordsSpec Chords64Spec Pitch Pitch64 Pitch64Spec PitchSpec.
Import IEEESpec MathSpec.
Import JSFacts IEEEFacts MathFacts RoundingFacts LbFacts ReadingFacts Chords64Facts.
Import Pitch64Facts.
Local Open Scope R_scope.

Lemma pow_fraction_below (a b : Z) (n : nat) (m : Z) :
  (0 < a)%Z -> (0 < b)%Z -> (0 <= m)%Z ->
  (a ^ Z.of_nat n <= b ^ Z.of_nat n * 2 ^ m)%Z ->
  (IZR a / IZR b) ^ n <= bpow m.
Proof.
  intros Ha Hb Hm H.
  assert (HbR : 0 < IZR b) by now apply IZR_lt.
  rewrite bpow_IZR by assumption.
  unfold Rdiv. rewrite Rpow_mult_distr, pow_inv, !pow_IZR.
  assert (Hbn : 0 < IZR (b ^ Z.of_nat n)) by (apply IZR_lt; apply Z.pow_pos_nonneg; lia).
  apply Rmult_le_reg_r with (IZR (b ^ Z.of_nat n)); [assumption|].
  rewrite Rmult_assoc, Rinv_l, Rmult_1_r by lra.
  rewrite <- mult_IZR. apply IZR_le. lia.
Qed.

(** The frequencies the gate lets through lie from 32.4 semitones below A4
    to 20.4 semitones above it. *)
Lemma semitones_of_the_guitar_range (f : R) :
  70 < f < 1400 -> - (324 / 10) <= semitonesOf f <= 204 / 10.
Proof.
  intros [Hlo Hhi]. unfold semitonesOf. fold (lb (f / 440)).
  assert (H1 : lb (IZR 7 / IZR 44) <= lb (f / 440)) by (apply lb_le; lra).
  assert (H2 : lb (f / 440) <= lb (IZR 35 / IZR 11)) by (apply lb_le; lra).
  assert (Hq1 : 0 < IZR 7 / IZR 44) by lra.
  assert (Hq2 : 0 < IZR 35 / IZR 11) by lra.
  pose proof (lb_ge_of_pow _ 10 (- 27) Hq1 ltac:(lia)) as G1.
  pose proof (lb_le_of_pow _ 10 17 Hq2 ltac:(lia)) as G2.
  assert (E : INR 10 = 10) by (rewrite INR_IZR_INZ; reflexivity).
  rewrite E in G1, G2.
  assert (P1 : bpow (- 27) <= (IZR 7 / IZR 44) ^ 10).
  { apply (pow_fraction_ge 7 44 10 27); [lia|lia|lia|]. vm_compute. discriminate. }
  assert (P2 : (IZR 35 / IZR 11) ^ 10 <= bpow 17).
  { apply (pow_fraction_below 35 11 10 17); [lia|lia|lia|]. vm_compute. discriminate. }
  specialize (G1 P1). specialize (G2 P2). lra.
Qed.

(** What an accurate engine reads of a frequency the gate lets through. *)
Lemma reading_of_the_guitar_range (M : Library) (f : R) :
  accurate M -> 70 < f < 1400 ->
  exists (n : string) (o c : Z),
    Chords64.frequencyToNote M (Num (Fin f)) =
      Some {| note := Some n; octave := Fin (IZR o); cents := Fin (IZR c);
              freq := Num (Fin f) |} /\
    In n NOTE_NAMES /\ (2 <= o <= 6)%Z /\ (-50 <= c <= 50)%Z.
Proof.
  intros HM Hf.
  destruct (semitonesOf_ordinary M f HM) as [s [Es Bs]].
  { apply ordinary_between. lra. }
  pose proof (semitones_of_the_guitar_range f Hf) as HS.
  apply Rabs_le_inv in Bs. unfold semitoneError in Bs.
  destruct (reading_of_semitones M f s ltac:(lra) Es) as [c [Bc Er]].
  { apply Rabs_le. lra. }
  set (r := Zfloor (s + / 2)) in *.
  assert (Hr : (-32 <= r <= 20)%Z).
  { unfold r. split.
    - apply Zfloor_lub. lra.
    - pose proof (Zfloor_bound (s + / 2)) as [Hb _].
      assert (Hlt : (Zfloor (s + / 2) < 21)%Z) by (apply lt_IZR; lra).
      lia. }
  destruct (note_of_semitones r) as [n [En [Hn _]]].
  rewrite En in Er.
  exists n, ((r + 9) / 12 + 4)%Z, (Zfloor (c + / 2)).
  split; [exact Er|]. split; [exact Hn|]. split.
  - pose proof (Z.mod_pos_bound (r + 9) 12 ltac:(lia)) as Hidx.
    pose proof (Z.div_mod (r + 9) 12 ltac:(lia)) as Hdm. lia.
  - exact (cents_between s c Bc).
Qed.

(** Extra X15.  What [detectPitch] reports when it reports a frequency, in
    the doubles of the source and on an accurate [Math] library: the
    frequency is a finite number strictly between 70 and 1400 Hz, the one
    computed from the refined period; the note is the reading
    [frequencyToNote] gives of it, with one of the twelve note names, an
    octave from 2 to 6 and a cents offset from -50 to 50; and the clarity
    is the best correlation, which is above the clarity threshold. *)
Theorem detection_reads_as_a_note_of_the_guitar_range (M : Library)
    (buffer : list R) (contextRate : option R) (frequency : number) :
  accurate M ->
  detectedFreq (detectPitch M buffer contextRate) = Some frequency ->
  exists (f : R) (n : string) (o c : Z),
    frequency = Fin f /\ 70 < f < 1400 /\
    frequency = frequencyOf buffer (sampleRateOf contextRate) /\
    detectedNote (detectPitch M buffer contextRate) =
      Some {| note := Some n; octave := Fin (IZR o); cents := Fin (IZR c);
              freq := Num (Fin f) |} /\
    In n NOTE_NAMES /\ (2 <= o <= 6)%Z /\ (-50 <= c <= 50)%Z /\
    clarity (detectPitch M buffer contextRate) =
      bestCorrelation (search buffer (sampleRateOf contextRate)) /\
    gt (bestCorrelation (search buffer (sampleRateOf contextRate)))
       CLARITY_THRESHOLD = true.
Proof.
  intros HM. unfold detectPitch.
  destruct (lt (dbFS M buffer) VOLUME_THRESHOLD); [discriminate|].
  set (rate := sampleRateOf contextRate).
  destruct (gt (bestCorrelation (search buffer rate)) CLARITY_THRESHOLD
            && gt (frequencyOf buffer rate) (Fin 70)
            && lt (frequencyOf buffer rate) (Fin 1400)) eqn:G; [|discriminate].
  cbn [detectedFreq detectedNote clarity]. intros E. injection E as <-.
  rewrite <- andb_assoc in G. apply andb_true_iff in G. destruct G as [Gc Gf].
  apply inOpenRange_gate in Gf. destruct Gf as (f & Ef & Hf).
  rewrite Ef.
  destruct (reading_of_the_guitar_range M f HM Hf) as (n & o & c & Er & Hn & Ho & Hc).
  exists f, n, o, c. split_ands; try reflexivity; try assumption; try lra; try lia.
Qed.

Lemma rate_48000_doubles :
  sampleRateOf (Some 48000) = 48000 /\
  minPeriodOf 48000 = 34%Z /\ maxPeriodOf 48000 = 685%Z.
Proof.
  split_ands.
  - unfold sampleRateOf. destruct (Req_dec_T 48000 0); [lra|reflexivity].
  - unfold minPeriodOf. rewrite div_Fin by lra.
    destruct (round64_close (48000 / 1400)) as [y [E B]].
    { apply Rabs_le. lra. }
    rewrite E. cbn [floor wholeOf]. rewrite ZfloorZ.
    assert (Ha : Rabs (48000 / 1400) <= 35) by (apply Rabs_le; lra).
    apply Rabs_le_inv in B. apply Zfloor_eq. lra.
  - unfold maxPeriodOf. rewrite div_Fin by lra.
    destruct (round64_close (48000 / 70)) as [y [E B]].
    { apply Rabs_le. lra. }
    rewrite E. cbn [floor wholeOf]. rewrite ZfloorZ.
    assert (Ha : Rabs (48000 / 70) <= 686) by (apply Rabs_le; lra).
    apply Rabs_le_inv in B. apply Zfloor_eq. lra.
Qed.

(** 4096 samples of 0.5 at 48000 Hz are reported, at the double nearest to
    48000 / 34.5 Hz. *)
Lemma halves_4096_at_48000 :
  detectedFreq (detectPitch correctlyRounded (halves 4096) (Some 48000)) =
  Some (div (Fin 48000) (Fin (34 + / 2))).
Proof.
  destruct rate_48000_doubles as (Hr & Hmin & Hmax).
  assert (Hsmall : (Z.of_nat 4096 < 2 ^ 26)%Z) by lia.
  pose proof (halves_loud correctlyRounded 4096 correctlyRounded_accurate
                ltac:(lia) Hsmall) as Hloud.
  assert (Hm : (0 < minPeriodOf 48000)%Z) by (rewrite Hmin; lia).
  assert (Hn : (minPeriodOf 48000 + 1 <
                Z.min (maxPeriodOf 48000) (Z.of_nat 4096))%Z)
    by (rewrite Hmin, Hmax; lia).
  destruct (search_halves_rate 4096 48000 Hsmall Hm Hn) as (Hb & _).
  pose proof (frequencyOf_halves 4096 48000 Hsmall Hm Hn) as Hf.
  rewrite Hmin in Hf.
  unfold detectPitch. rewrite Hloud, Hr, Hb, Hf.
  assert (Hclar : gt (Fin 1) CLARITY_THRESHOLD = true).
  { destruct CLARITY_THRESHOLD_value as [t [-> Ht]]. apply gt_Fin. lra. }
  rewrite Hclar. rewrite div_Fin by lra.
  destruct (round64_close (48000 / (34 + / 2))) as [y [E B]].
  { apply Rabs_le. lra. }
  rewrite E.
  assert (Ha : Rabs (48000 / (34 + / 2)) <= 1392) by (apply Rabs_le; lra).
  apply Rabs_le_inv in B.
  assert (H70 : gt (Fin y) (Fin 70) = true) by (apply gt_Fin; lra).
  assert (H1400 : lt (Fin y) (Fin 1400) = true) by (apply lt_fin; lra).
  rewrite H70, H1400. reflexivity.
Qed.

(** Extra X15 on 4096 samples of 0.5 at 48000 Hz on the correctly rounded
    engine. *)
Lemma detection_reads_as_a_note_of_the_guitar_range_witness :
  detectedFreq (detectPitch correctlyRounded (halves 4096) (Some 48000)) =
    Some (div (Fin 48000) (Fin (34 + / 2))) /\
  exists (f : R) (n : string) (o c : Z),
    div (Fin 48000) (Fin (34 + / 2)) = Fin f /\ 70 < f < 1400 /\
    div (Fin 48000) (Fin (34 + / 2)) =
      frequencyOf (halves 4096) (sampleRateOf (Some 48000)) /\
    detectedNote (detectPitch correctlyRounded (halves 4096) (Some 48000)) =
      Some {| note := Some n; octave := Fin (IZR o); cents := Fin (IZR c);
              freq := Num (Fin f) |} /\
    In n NOTE_NAMES /\ (2 <= o <= 6)%Z /\ (-50 <= c <= 50)%Z /\
    clarity (detectPitch correctlyRounded (halves 4096) (Some 48000)) =
      bestCorrelation (search (halves 4096) (sampleRateOf (Some 48000))) /\
    gt (bestCorrelation (search (halves 4096) (sampleRateOf (Some 48000))))
       CLARITY_THRESHOLD = true.
Proof.
  split; [exact halves_4096_at_48000|].
  exact (detection_reads_as_a_note_of_the_guitar_range correctlyRounded
           (halves 4096) (Some 48000) _ correctlyRounded_accurate
           halves_4096_at_48000).
Defined.

End Detection64Facts.

(** * The metronome in double precision *)

Module Metronome64Facts.
Import JS IEEE Metronome64 Metronome64Spec IEEESpec.
Import JSFacts IEEEFacts RoundingFacts Pitch64Facts.
Local Open Scope R_scope.

(** ** The doubles of the scheduler *)

Lemma lt_irreflexive (a : number) : lt a a = false.
Proof.
  destruct a as [| | |x]; cbn; try reflexivity.
  destruct (Rlt_dec x x); [lra|reflexivity].
Qed.

Lemma lt_Fin_false (x y : R) : lt (Fin x) (Fin y) = false <-> y <= x.
Proof.
  cbn [lt]. destruct (Rlt_dec x y); split; intros H;
    try reflexivity; try discriminate; lra.
Qed.

(** The double 0.1. *)
Lemma tenth_value :
  exists d, literal 0.1 = Fin d /\ Rabs (d - 1 / 10) <= 2 / 1000000000000000.
Proof.
  unfold literal. destruct (round64_close 0.1) as [d [E B]].
  { rewrite Rabs_pos_eq; lra. }
  exists d. split; [exact E|].
  rewrite (Rabs_pos_eq 0.1) in B by lra.
  apply Rabs_le_inv in B. apply Rabs_le. lra.
Qed.

(** The double 0.03. *)
Lemma ramp_value :
  exists d, literal 0.03 = Fin d /\ 2 / 100 < d < 4 / 100.
Proof.
  unfold literal. destruct (round64_close 0.03) as [d [E B]].
  { rewrite Rabs_pos_eq; lra. }
  exists d. split; [exact E|].
  rewrite (Rabs_pos_eq 0.03) in B by lra.
  apply Rabs_le_inv in B. lra.
Qed.

(** The lookahead bound [currentTime + 0.1] within the horizon. *)
Lemma lookahead_value (t : R) :
  0 <= t <= horizon ->
  exists L, add (Fin t) (literal 0.1) = Fin L /\
            Rabs (L - (t + 1 / 10)) <= 4 / 1000000000000.
Proof.
  unfold horizon. intros Ht. destruct tenth_value as [d [-> Bd]].
  apply Rabs_le_inv in Bd. rewrite add_Fin.
  destruct (round64_close (t + d)) as [L [E B]].
  { apply Rabs_le. lra. }
  exists L. split; [exact E|].
  assert (Ha : Rabs (t + d) <= 3601) by (apply Rabs_le; lra).
  apply Rabs_le_inv in B. apply Rabs_le. lra.
Qed.

(** The beat interval [60.0 / bpm]. *)
Lemma secondsPerBeat_value (bpm : R) :
  tempo bpm ->
  exists b, div (Fin 60) (Fin bpm) = Fin b /\
            Rabs (b - 60 / bpm) <= / 10000000000000 /\
            6 / 100 <= 60 / bpm <= 60.
Proof.
  unfold tempo. intros Hb.
  assert (Hq : 6 / 100 <= 60 / bpm <= 60).
  { split.
    - apply Rmult_le_reg_r with bpm; [lra|].
      unfold Rdiv at 2. rewrite Rmult_assoc, Rinv_l by lra. lra.
    - apply Rmult_le_reg_r with bpm; [lra|].
      unfold Rdiv. rewrite Rmult_assoc, Rinv_l by lra. lra. }
  rewrite div_Fin by lra.
  destruct (round64_close (60 / bpm)) as [b [E B]].
  { apply Rabs_le. lra. }
  exists b. split; [exact E|]. split; [|exact Hq].
  assert (Ha : Rabs (60 / bpm) <= 60) by (apply Rabs_le; lra).
  apply Rabs_le_inv in B. apply Rabs_le. lra.
Qed.

(** The computed time of a beat within the horizon: off the meant time by
    at most [drift] per beat. *)
Lemma beatAt_near (bpm : R) (k : nat) :
  tempo bpm -> INR k * (60 / bpm) <= 3670 ->
  exists T, beatAt (div (Fin 60) (Fin bpm)) k = Fin T /\
            Rabs (T - beatTime bpm k) <= (INR k + 1) * drift.
Proof.
  intros Hb. destruct (secondsPerBeat_value bpm Hb) as [b [Eb [Bb Hq]]].
  rewrite Eb. apply Rabs_le_inv in Bb. unfold drift, beatTime.
  induction k as [|k IH]; intros Hk.
  - cbn [beatAt]. destruct tenth_value as [d [-> Bd]].
    apply Rabs_le_inv in Bd. rewrite add_Fin.
    destruct (round64_close (0 + d)) as [T [E B]].
    { apply Rabs_le. lra. }
    exists T. split; [exact E|].
    assert (Ha : Rabs (0 + d) <= 1) by (apply Rabs_le; lra).
    apply Rabs_le_inv in B. cbn [INR]. apply Rabs_le. lra.
  - rewrite S_INR in Hk |- *. pose proof (pos_INR k) as Hk0.
    destruct IH as [T [ET BT]]; [nra|].
    cbn [beatAt]. rewrite ET, add_Fin.
    assert (Hkb : INR k <= 61167) by nra.
    apply Rabs_le_inv in BT.
    destruct (round64_close (T + b)) as [T' [E B]].
    { apply Rabs_le. nra. }
    exists T'. split; [exact E|].
    assert (Ha : Rabs (T + b) <= 3731) by (apply Rabs_le; nra).
    apply Rabs_le_inv in B. apply Rabs_le. lra.
Qed.

(** Within the horizon the errors stay below [slack]. *)
Lemma beatAt_slack (bpm : R) (k : nat) :
  tempo bpm -> INR k * (60 / bpm) <= 3670 ->
  exists T, beatAt (div (Fin 60) (Fin bpm)) k = Fin T /\
            Rabs (T - beatTime bpm k) <= 7 / 10000000.
Proof.
  intros Hb Hk. destruct (beatAt_near bpm k Hb Hk) as [T [E B]].
  exists T. split; [exact E|].
  destruct (secondsPerBeat_value bpm Hb) as [_ [_ [_ Hq]]].
  pose proof (pos_INR k) as Hk0.
  assert (Hkb : INR k <= 61167) by nra.
  eapply Rle_trans; [exact B|]. unfold drift. lra.
Qed.

(** ** One firing of the timeout *)

Lemma schedule_eq (fuel : nat) (t : R) (s : Scheduler) (st : State) :
  schedule fuel t s st =
  if lt (nextBeatTime s) (add (Fin t) (literal 0.1)) then
    match fuel with
    | O => Unfinished
    | S fuel' =>
        match playClick (nextBeatTime s)
                        (downbeat (beatRef st) (beatsPerMeasure s)) st with
        | Returned st' => schedule fuel' t (later s) (nextBeat st')
        | Threw st' => Threw st'
        | Unfinished => Unfinished
        end
    end
  else Returned (s, st).
Proof. destruct fuel; reflexivity. Qed.

Lemma accepted_Fin (x : R) : 0 <= x -> accepted (Fin x) = true.
Proof.
  intros H. unfold accepted. cbn [isFinite le andb].
  destruct (Rle_dec 0 x); [reflexivity|contradiction].
Qed.

Lemma accepted_negative (x : R) : x < 0 -> accepted (Fin x) = false.
Proof.
  intros H. unfold accepted. cbn [isFinite le andb].
  destruct (Rle_dec 0 x); [lra|reflexivity].
Qed.

(** A click at a time from 0 to 4000 seconds sounds. *)
Lemma playClick_sounds (T : R) (isDownbeat : bool) (st : State) :
  0 <= T <= 4000 -> audioContextRef st = true ->
  playClick (Fin T) isDownbeat st =
  Returned {| audioContextRef := audioContextRef st; beatRef := beatRef st;
              pending := pending st;
              clicks := clicks st ++
                [{| time := Fin T; isDownbeat := isDownbeat;
                    beatIndex := beatRef st |}] |}.
Proof.
  intros HT Hctx. unfold playClick. rewrite Hctx. cbn [negb].
  destruct ramp_value as [d [-> Hd]]. rewrite add_Fin.
  destruct (round64_close (T + d)) as [y [E B]].
  { apply Rabs_le. lra. }
  rewrite E.
  assert (Ha : Rabs (T + d) <= 4001) by (apply Rabs_le; lra).
  apply Rabs_le_inv in B.
  rewrite (accepted_Fin T) by lra.
  destruct (Rle_dec 0 y) as [Hy|Hy].
  - rewrite (accepted_Fin y Hy). reflexivity.
  - exfalso. apply Hy. lra.
Qed.

Lemma beats_before (bpm t : R) (N : nat) :
  tempo bpm -> 0 <= t ->
  INR N * (60 / bpm) < t + slack -> (N < passesBy bpm t)%nat.
Proof.
  unfold tempo, passesBy. intros Hb Ht H.
  assert (Hx : INR N < (t + slack) * bpm / 60).
  { replace (INR N) with (INR N * (60 / bpm) * bpm / 60) by (field; lra).
    unfold Rdiv at 1 3. apply Rmult_lt_compat_r; [lra|].
    apply Rmult_lt_compat_r; lra. }
  pose proof (Zceil_bound ((t + slack) * bpm / 60)) as [_ Hc].
  rewrite INR_IZR_INZ in Hx.
  assert (Hz : (Z.of_nat N < Zceil ((t + slack) * bpm / 60))%Z)
    by (apply lt_IZR; lra).
  lia.
Qed.

Lemma beatsOut_next (bpm : R) (bpmz N : nat) (st : State) :
  beatsOut bpm bpmz N st ->
  beatsOut bpm bpmz (S N)
    (nextBeat
       {| audioContextRef := audioContextRef st; beatRef := beatRef st;
          pending := pending st;
          clicks := clicks st ++
            [{| time := beatAt (div (Fin 60) (Fin bpm)) N;
                isDownbeat := downbeat (beatRef st) bpmz;
                beatIndex := beatRef st |}] |}).
Proof.
  intros (Hctx & Hbeat & Hcl). unfold beatsOut, nextBeat.
  cbn [audioContextRef beatRef clicks]. split; [exact Hctx|].
  split; [rewrite Hbeat; reflexivity|].
  rewrite seq_S, map_app, Hcl, Hbeat. reflexivity.
Qed.

(** The loop of one firing at the clock reading [t], with [N] beats out:
    it returns with [N'] beats out, beat [N'] not yet due, and every beat
    it added tested as due. *)
Lemma schedule_settles (bpm : R) (bpmz : nat) (t : R) :
  tempo bpm -> 0 <= t <= horizon ->
  forall fuel N st,
    beatsOut bpm bpmz N st -> INR N * (60 / bpm) <= 3665 ->
    (passesBy bpm t - N <= fuel)%nat ->
    exists N' st',
      (N <= N')%nat /\
      schedule fuel t (closureAt bpm bpmz N) st =
        Returned (closureAt bpm bpmz N', st') /\
      beatsOut bpm bpmz N' st' /\ pending st' = pending st /\
      INR N' * (60 / bpm) <= 3665 /\
      t + 1 / 10 - slack <= beatTime bpm N' /\
      (forall k, (N <= k < N')%nat ->
         lt (beatAt (div (Fin 60) (Fin bpm)) k)
            (add (Fin t) (literal 0.1)) = true).
Proof.
  intros Hb Ht. pose proof Ht as Ht'. unfold horizon in Ht'.
  destruct (secondsPerBeat_value bpm Hb) as [b [Eb [Bb Hq]]].
  destruct (lookahead_value t Ht) as [L [EL BL]]. apply Rabs_le_inv in BL.
  induction fuel as [|fuel IH]; intros N st Hout Hinv Hfuel;
    rewrite schedule_eq; cbn [closureAt nextBeatTime beatsPerMeasure];
    destruct (beatAt_slack bpm N Hb ltac:(lra)) as [T [ET BT]];
    apply Rabs_le_inv in BT; unfold beatTime in BT;
    rewrite ET, EL;
    destruct (lt (Fin T) (Fin L)) eqn:Hdue.
  - exfalso. apply lt_fin in Hdue.
    assert (Hn : (N < passesBy bpm t)%nat).
    { apply beats_before; [assumption|lra|]. unfold slack. lra. }
    lia.
  - apply lt_Fin_false in Hdue.
    exists N, st. split_ands; try assumption; try reflexivity; try lia.
    + unfold beatTime, slack. lra.
  - apply lt_fin in Hdue.
    assert (Hn : (N < passesBy bpm t)%nat).
    { apply beats_before; [assumption|lra|]. unfold slack. lra. }
    destruct Hout as (Hctx & Hbeat & Hcl).
    assert (Hpos : 0 <= INR N * (60 / bpm))
      by (apply Rmult_le_pos; [apply pos_INR|lra]).
    rewrite playClick_sounds by (try assumption; lra).
    rewrite <- ET.
    pose proof (beatsOut_next bpm bpmz N st (conj Hctx (conj Hbeat Hcl))) as Hnext.
    destruct (IH (S N) _ Hnext) as (N' & st' & HN & Hs & Hout' & Hp & Hinv' & Hexit & Hdue').
    + rewrite S_INR. lra.
    + lia.
    + exists N', st'. split_ands; try assumption; try lia.
      * intros k Hk. destruct (Nat.eq_dec k N) as [->|Hne].
        -- rewrite ET. apply lt_fin. exact Hdue.
        -- rewrite <- EL. apply Hdue'. lia.
  - apply lt_Fin_false in Hdue.
    exists N, st. split_ands; try assumption; try reflexivity; try lia.
    + unfold beatTime, slack. lra.
Qed.

Lemma beatTime_le (bpm : R) (j k : nat) :
  tempo bpm -> (j <= k)%nat -> beatTime bpm j <= beatTime bpm k.
Proof.
  intros Hb Hjk. destruct (secondsPerBeat_value bpm Hb) as [_ [_ [_ Hq]]].
  unfold beatTime. apply le_INR in Hjk. nra.
Qed.

Lemma seq_from (N N' : nat) :
  (N <= N')%nat -> seq 0 N' = seq 0 N ++ seq N (N' - N).
Proof.
  intros H. replace N' with (N + (N' - N))%nat at 1 by lia.
  rewrite seq_app. reflexivity.
Qed.

(** One firing of the timeout in a settled run. *)
Lemma tick_settles (bpm : R) (bpmz fuel : nat) (t0 t : R) (N : nat) (st : State) :
  tempo bpm -> 0 <= t0 -> t0 <= t -> t <= horizon ->
  (passesBy bpm t <= fuel)%nat ->
  settled bpm bpmz t0 N st ->
  exists N' st',
    (N <= N')%nat /\
    tick fuel (Returned st) t = Returned st' /\
    settled bpm bpmz t N' st' /\
    clicks st' = clicks st ++ map (clickOf bpm bpmz) (seq N (N' - N)) /\
    (forall k, (N <= k < N')%nat ->
       lt (beatAt (div (Fin 60) (Fin bpm)) k) (add (Fin t) (literal 0.1)) = true).
Proof.
  intros Hb Ht0 Ht01 Ht Hfuel (Hout & Hpend & Hinv & Hexit & Hlast).
  pose proof Ht as Ht'. unfold horizon in Ht'.
  set (st0 := {| audioContextRef := audioContextRef st; beatRef := beatRef st;
                 pending := None; clicks := clicks st |}).
  assert (Hout0 : beatsOut bpm bpmz N st0) by exact Hout.
  destruct (schedule_settles bpm bpmz t Hb ltac:(lra) fuel N st0 Hout0 Hinv
              ltac:(lia))
    as (N' & st' & HN & Hs & Hout' & _ & Hinv' & Hexit' & Hdue).
  exists N', {| audioContextRef := audioContextRef st'; beatRef := beatRef st';
                pending := Some (closureAt bpm bpmz N'); clicks := clicks st' |}.
  split; [exact HN|]. split.
  { unfold tick. rewrite Hpend. unfold scheduler. fold st0. rewrite Hs.
    reflexivity. }
  split.
  { split; [exact Hout'|]. split; [reflexivity|]. split; [exact Hinv'|].
    split; [exact Hexit'|].
    destruct (Nat.eq_dec N' N) as [->|Hne].
    - destruct Hlast as [H0|Hl]; [left; exact H0|right; lra].
    - right.
      assert (Hk : (N <= N' - 1 < N')%nat) by lia.
      pose proof (Hdue _ Hk) as Hd.
      destruct (lookahead_value t ltac:(unfold horizon; lra)) as [L [EL BL]].
      apply Rabs_le_inv in BL.
      assert (HkN : beatTime bpm (N' - 1) <= beatTime bpm N')
        by (apply beatTime_le; [assumption|lia]).
      destruct (beatAt_slack bpm (N' - 1) Hb) as [T [ET BT]].
      { unfold beatTime in HkN. lra. }
      apply Rabs_le_inv in BT.
      rewrite ET, EL in Hd. apply lt_fin in Hd. unfold slack. lra. }
  split; [|exact Hdue].
  cbn [clicks]. destruct Hout as (_ & _ & Hcl). destruct Hout' as (_ & _ & Hcl').
  rewrite Hcl', Hcl, (seq_from N N' HN), map_app. reflexivity.
Qed.

(** [start()] leaves the run settled with no beat out: the first beat is
    due at the lookahead bound itself, not before it. *)
Lemma start_settles (bpm : R) (bpmz fuel : nat) :
  exists st, start fuel bpm bpmz = Returned st /\ settled bpm bpmz 0 0 st.
Proof.
  unfold start, scheduler. rewrite schedule_eq. cbn [nextBeatTime].
  rewrite lt_irreflexive.
  eexists. split; [reflexivity|].
  unfold settled, beatsOut, beatTime, slack. cbn [audioContextRef beatRef pending clicks INR seq map].
  split_ands; try reflexivity; try lra. left. reflexivity.
Qed.

Lemma last_of_cons (t0 t1 : R) (ts : list R) : last (t1 :: ts) t0 = last ts t1.
Proof.
  revert t0 t1. induction ts as [|t2 ts IH]; intros t0 t1; [reflexivity|].
  change (last (t1 :: t2 :: ts) t0) with (last (t2 :: ts) t0).
  rewrite (IH t0 t2), (IH t1 t2). reflexivity.
Qed.

Lemma nondecreasing_upto (t0 : R) (ts : list R) :
  nondecreasing t0 ts -> t0 <= last ts t0.
Proof.
  revert t0. induction ts as [|t1 ts IH]; intros t0 H; [cbn; lra|].
  destruct H as [H1 H2]. rewrite last_of_cons. specialize (IH t1 H2). lra.
Qed.

Lemma passesBy_le (bpm t t' : R) :
  tempo bpm -> t <= t' -> (passesBy bpm t <= passesBy bpm t')%nat.
Proof.
  unfold tempo, passesBy. intros Hb Ht.
  assert (H : (Zceil ((t + slack) * bpm / 60) <= Zceil ((t' + slack) * bpm / 60))%Z).
  { apply Zceil_le. unfold Rdiv. apply Rmult_le_compat_r; [lra|].
    apply Rmult_le_compat_r; lra. }
  lia.
Qed.

(** The firings of a run, one after the other. *)
Lemma ticks_settle (bpm : R) (bpmz fuel : nat) :
  tempo bpm ->
  forall ts t0 N st,
    nondecreasing t0 ts -> 0 <= t0 -> last ts t0 <= horizon ->
    (passesBy bpm (last ts t0) <= fuel)%nat ->
    settled bpm bpmz t0 N st ->
    exists N' st',
      (N <= N')%nat /\
      fold_left (tick fuel) ts (Returned st) = Returned st' /\
      settled bpm bpmz (last ts t0) N' st'.
Proof.
  intros Hb. induction ts as [|t1 ts IH]; intros t0 N st Hts Ht0 Hlast Hfuel Hst.
  - exists N, st. split; [lia|]. split; [reflexivity|exact Hst].
  - destruct Hts as [H01 Hts]. rewrite last_of_cons in Hlast, Hfuel |- *.
    pose proof (nondecreasing_upto t1 ts Hts) as Hup.
    destruct (tick_settles bpm bpmz fuel t0 t1 N st Hb Ht0 H01 ltac:(lra))
      as (N1 & st1 & HN1 & Htick & Hst1 & _); [|exact Hst|].
    { pose proof (passesBy_le bpm t1 (last ts t1) Hb Hup). lia. }
    destruct (IH t1 N1 st1 Hts ltac:(lra) Hlast Hfuel Hst1)
      as (N' & st' & HN' & Hfold & Hst').
    exists N', st'. split; [lia|]. split; [|exact Hst'].
    cbn [fold_left]. rewrite Htick. exact Hfold.
Qed.

(** A run at an ordinary tempo within the horizon settles. *)
Lemma run_settles (bpm : R) (bpmz fuel : nat) (ts : list R) :
  tempo bpm -> nondecreasing 0 ts -> last ts 0 <= horizon ->
  (passesBy bpm (last ts 0%R) <= fuel)%nat ->
  exists N st,
    run fuel bpm bpmz ts = Returned st /\ settled bpm bpmz (last ts 0) N st.
Proof.
  intros Hb Hts Hlast Hfuel. unfold run.
  destruct (start_settles bpm bpmz fuel) as (st0 & -> & Hst0).
  destruct (ticks_settle bpm bpmz fuel Hb ts 0 0%nat st0 Hts ltac:(lra) Hlast
              Hfuel Hst0) as (N & st & _ & Hfold & Hst).
  exists N, st. split; assumption.
Qed.

(** ** What a settled run has emitted *)

Lemma settled_count (bpm : R) (bpmz : nat) (t : R) (N : nat) (st : State) :
  tempo bpm -> 0 <= t -> settled bpm bpmz t N st ->
  List.length (clicks st) = N /\
  (Zceil ((t - slack) * bpm / 60) <= Z.of_nat N)%Z /\
  (Z.of_nat N <= Zceil ((t + slack) * bpm / 60))%Z /\
  (Zfloor (t * bpm / 60) <= Z.of_nat N)%Z /\
  (Z.of_nat N <= Zceil (t * bpm / 60) + 1)%Z.
Proof.
  intros Hb Ht ((_ & _ & Hcl) & _ & _ & Hexit & Hlast).
  pose proof Hb as Hb'. unfold tempo in Hb'.
  destruct (secondsPerBeat_value bpm Hb) as [_ [_ [_ Hq]]].
  split; [rewrite Hcl, length_map, length_seq; reflexivity|].
  unfold beatTime, slack in *.
  assert (Hinv : 60 / bpm * (bpm / 60) = 1) by (field; lra).
  assert (Hr : 0 < bpm / 60 <= 17) by lra.
  assert (Hlo : (t - / 1000000) * bpm / 60 <= INR N).
  { replace (INR N) with (INR N * (60 / bpm) * (bpm / 60))
      by (rewrite Rmult_assoc, Hinv; ring).
    replace ((t - / 1000000) * bpm / 60) with ((t - / 1000000) * (bpm / 60))
      by (field; lra).
    apply Rmult_le_compat_r; lra. }
  assert (Hhi : N = 0%nat \/ INR N - 1 < (t + / 1000000) * bpm / 60).
  { destruct Hlast as [H0|Hl]; [left; exact H0|right].
    destruct N as [|n]; [cbn in *; nra|].
    replace (S n - 1)%nat with n in Hl by lia. rewrite S_INR.
    replace (INR n + 1 - 1) with (INR n * (60 / bpm) * (bpm / 60))
      by (rewrite Rmult_assoc, Hinv; ring).
    replace ((t + / 1000000) * bpm / 60) with ((t + / 1000000) * (bpm / 60))
      by (field; lra).
    apply Rmult_lt_compat_r; lra. }
  rewrite INR_IZR_INZ in Hlo, Hhi.
  pose proof (Zceil_bound ((t - / 1000000) * bpm / 60)) as [C1 C2].
  pose proof (Zceil_bound ((t + / 1000000) * bpm / 60)) as [C3 C4].
  pose proof (Zceil_bound (t * bpm / 60)) as [C5 C6].
  pose proof (Zfloor_bound (t * bpm / 60)) as [F1 F2].
  assert (Hd1 : (t + / 1000000) * bpm / 60 <= t * bpm / 60 + 1) by nra.
  assert (Hd2 : t * bpm / 60 - 1 <= (t - / 1000000) * bpm / 60) by nra.
  assert (Hp : 0 <= (t + / 1000000) * bpm / 60) by nra.
  assert (Hp0 : 0 <= t * bpm / 60) by nra.
  split_ands.
  - apply Z.lt_succ_r. apply lt_IZR. rewrite succ_IZR. lra.
  - destruct Hhi as [->|Hhi].
    + apply le_IZR. cbn [Z.of_nat]. lra.
    + assert (Hz : (Z.of_nat N - 1 < Zceil ((t + / 1000000) * bpm / 60))%Z)
        by (apply lt_IZR; rewrite minus_IZR; lra).
      lia.
  - assert (Hz : (Zfloor (t * bpm / 60) - 1 < Z.of_nat N)%Z)
      by (apply lt_IZR; rewrite minus_IZR; lra).
    lia.
  - destruct Hhi as [->|Hhi].
    + assert (Hz : (0 <= Zceil (t * bpm / 60))%Z) by (apply le_IZR; lra).
      cbn [Z.of_nat]. lia.
    + assert (Hz : (Z.of_nat N - 1 < Zceil (t * bpm / 60) + 1)%Z)
        by (apply lt_IZR; rewrite minus_IZR, plus_IZR; lra).
      lia.
Qed.

Lemma nth_error_seq_lt (a len k : nat) :
  (k < len)%nat -> nth_error (seq a len) k = Some (a + k)%nat.
Proof.
  revert a k. induction len as [|len IH]; intros a k Hk; [lia|].
  destruct k as [|k]; cbn [seq nth_error].
  - rewrite Nat.add_0_r. reflexivity.
  - rewrite IH by lia. f_equal. lia.
Qed.

Lemma beatsOut_click (bpm : R) (bpmz N : nat) (st : State) (k : nat) (c : Click) :
  beatsOut bpm bpmz N st -> nth_error (clicks st) k = Some c ->
  (k < N)%nat /\ c = clickOf bpm bpmz k.
Proof.
  intros (_ & _ & Hcl) Hk.
  assert (HkN : (k < N)%nat).
  { assert (H : nth_error (clicks st) k <> None) by congruence.
    apply nth_error_Some in H.
    rewrite Hcl, length_map, length_seq in H. exact H. }
  split; [exact HkN|].
  rewrite Hcl, nth_error_map, nth_error_seq_lt in Hk by assumption.
  cbn in Hk. congruence.
Qed.

Lemma downbeat_on_multiples (k bpmz : nat) :
  (0 < bpmz)%nat -> (downbeat k bpmz = true <-> (k mod bpmz = 0)%nat).
Proof.
  intros H. unfold downbeat. destruct bpmz as [|m]; [lia|].
  apply Nat.eqb_eq.
Qed.

(** Two beats in a row are one beat interval apart, but for the rounding
    of the interval and of the sum. *)
Lemma beat_step (bpm : R) (k : nat) :
  tempo bpm -> INR (S k) * (60 / bpm) <= 3670 ->
  exists T T',
    beatAt (div (Fin 60) (Fin bpm)) k = Fin T /\
    beatAt (div (Fin 60) (Fin bpm)) (S k) = Fin T' /\
    Rabs (T' - T - 60 / bpm) <= drift.
Proof.
  intros Hb Hk. destruct (secondsPerBeat_value bpm Hb) as [b [Eb [Bb Hq]]].
  rewrite S_INR in Hk. pose proof (pos_INR k) as Hk0.
  destruct (beatAt_slack bpm k Hb ltac:(nra)) as [T [ET BT]].
  exists T. cbn [beatAt]. rewrite ET, Eb, add_Fin.
  apply Rabs_le_inv in BT. apply Rabs_le_inv in Bb. unfold beatTime in BT.
  destruct (round64_close (T + b)) as [T' [E B]].
  { apply Rabs_le. nra. }
  exists T'. split; [reflexivity|]. split; [exact E|].
  assert (Ha : Rabs (T + b) <= 3731) by (apply Rabs_le; nra).
  apply Rabs_le_inv in B. unfold drift. apply Rabs_le. lra.
Qed.

(** What a run at an ordinary tempo has emitted once its last firing, at
    the clock reading [t], has returned. *)
Lemma run_beats (bpm : R) (bpmz : nat) (ts : list R) (fuel : nat) :
  tempo bpm -> (0 < bpmz)%nat -> nondecreasing 0 ts -> last ts 0 <= horizon ->
  (passesBy bpm (last ts 0%R) <= fuel)%nat ->
  exists st,
    run fuel bpm bpmz ts = Returned st /\
    (Zceil ((last ts 0%R - slack) * bpm / 60) <= Z.of_nat (List.length (clicks st)))%Z /\
    (Z.of_nat (List.length (clicks st)) <= Zceil ((last ts 0%R + slack) * bpm / 60))%Z /\
    (Zfloor (last ts 0%R * bpm / 60) <= Z.of_nat (List.length (clicks st)))%Z /\
    (Z.of_nat (List.length (clicks st)) <= Zceil (last ts 0%R * bpm / 60) + 1)%Z /\
    (forall k c, nth_error (clicks st) k = Some c ->
       beatIndex c = k /\
       (isDownbeat c = true <-> (beatIndex c mod bpmz = 0)%nat) /\
       exists T, time c = Fin T /\
                 Rabs (T - (1 / 10 + INR k * (60 / bpm))) <= (INR k + 1) * drift) /\
    (forall k c c',
       nth_error (clicks st) k = Some c ->
       nth_error (clicks st) (S k) = Some c' ->
       exists T T', time c = Fin T /\ time c' = Fin T' /\
                    Rabs (T' - T - 60 / bpm) <= drift).
Proof.
  intros Hb Hm Hts Hlast Hfuel.
  destruct (run_settles bpm bpmz fuel ts Hb Hts Hlast Hfuel) as (N & st & Hrun & Hst).
  pose proof (nondecreasing_upto 0 ts Hts) as H0.
  destruct (settled_count bpm bpmz _ N st Hb H0 Hst) as (Hlen & C1 & C2 & C3 & C4).
  destruct Hst as (Hout & _ & Hinv & _).
  destruct (secondsPerBeat_value bpm Hb) as [_ [_ [_ Hq]]].
  assert (Hle : forall k, (k <= N)%nat -> INR k * (60 / bpm) <= 3670).
  { intros k Hk. apply le_INR in Hk. pose proof (pos_INR k). nra. }
  exists st. rewrite Hlen. split_ands; try assumption.
  - intros k c Hk. destruct (beatsOut_click bpm bpmz N st k c Hout Hk) as [HkN ->].
    cbn [clickOf beatIndex isDownbeat time].
    split; [reflexivity|]. split; [apply downbeat_on_multiples; exact Hm|].
    apply (beatAt_near bpm k Hb). apply Hle. lia.
  - intros k c c' Hk Hk'.
    destruct (beatsOut_click bpm bpmz N st k c Hout Hk) as [_ ->].
    destruct (beatsOut_click bpm bpmz N st (S k) c' Hout Hk') as [HkN ->].
    cbn [clickOf time]. apply (beat_step bpm k Hb). apply Hle. lia.
Qed.

(** Claim C4, as amended.  For every tempo from 1 to 1000 beats per minute
    and every run in which the scheduler's timeout fires at clock readings
    that do not run backwards, within the first hour of the context and
    with enough fuel for the loop: every firing returns, and once the
    firing at the reading T has returned the number of beats emitted lies
    between ceil((T - 10^-6) * bpm / 60) and ceil((T + 10^-6) * bpm / 60),
    hence between floor(T * bpm / 60) and ceil(T * bpm / 60) + 1; beat k
    has beat index k and a finite time within (k + 1) * 10^-11 s of
    0.1 + k * 60 / bpm, so that consecutive beats are 60 / bpm apart to
    within 10^-11 s; and a beat is a downbeat exactly when its index is a
    multiple of the beats per measure. *)
Theorem scheduler_beats_within_rounding (bpm : R) (bpmz : nat) (ts : list R)
    (fuel : nat) :
  tempo bpm -> (0 < bpmz)%nat -> nondecreasing 0 ts -> last ts 0 <= horizon ->
  (passesBy bpm (last ts 0%R) <= fuel)%nat ->
  exists st,
    run fuel bpm bpmz ts = Returned st /\
    (Zceil ((last ts 0%R - slack) * bpm / 60) <= Z.of_nat (List.length (clicks st)))%Z /\
    (Z.of_nat (List.length (clicks st)) <= Zceil ((last ts 0%R + slack) * bpm / 60))%Z /\
    (Zfloor (last ts 0%R * bpm / 60) <= Z.of_nat (List.length (clicks st)))%Z /\
    (Z.of_nat (List.length (clicks st)) <= Zceil (last ts 0%R * bpm / 60) + 1)%Z /\
    (forall k c, nth_error (clicks st) k = Some c ->
       beatIndex c = k /\
       (isDownbeat c = true <-> (beatIndex c mod bpmz = 0)%nat) /\
       exists T, time c = Fin T /\
                 Rabs (T - (1 / 10 + INR k * (60 / bpm))) <= (INR k + 1) * drift) /\
    (forall k c c',
       nth_error (clicks st) k = Some c ->
       nth_error (clicks st) (S k) = Some c' ->
       exists T T', time c = Fin T /\ time c' = Fin T' /\
                    Rabs (T' - T - 60 / bpm) <= drift).
Proof. exact (run_beats bpm bpmz ts fuel). Qed.

(** Claim C4, as amended, at 120 beats per minute in 4/4 with one firing
    when the clock reads 10 s: 20 or 21 beats are out. *)
Lemma scheduler_beats_within_rounding_witness :
  tempo 120 /\ (0 < 4)%nat /\ nondecreasing 0 [10] /\ last [10] 0 <= horizon /\
  (passesBy 120 (last [10%R] 0%R) <= 25)%nat /\
  exists st,
    run 25 120 4 [10] = Returned st /\
    (20 <= Z.of_nat (List.length (clicks st)) <= 21)%Z.
Proof.
  assert (H1 : tempo 120) by (unfold tempo; lra).
  assert (H2 : (0 < 4)%nat) by lia.
  assert (H3 : nondecreasing 0 [10]) by (cbn; split; [lra|exact I]).
  assert (H4 : last [10] 0 <= horizon) by (cbn; unfold horizon; lra).
  assert (E1 : Zceil ((10 + slack) * 120 / 60) = 21%Z)
    by (apply Zceil_eq; unfold slack; lra).
  assert (E2 : Zceil ((10 - slack) * 120 / 60) = 20%Z)
    by (apply Zceil_eq; unfold slack; lra).
  assert (H5 : (passesBy 120 (last [10%R] 0%R) <= 25)%nat).
  { unfold passesBy. cbn [last]. rewrite E1. lia. }
  split; [exact H1|]. split; [exact H2|]. split; [exact H3|].
  split; [exact H4|]. split; [exact H5|].
  destruct (scheduler_beats_within_rounding 120 4 [10] 25 H1 H2 H3 H4 H5)
    as (st & Hrun & C1 & C2 & _).
  exists st. split; [exact Hrun|].
  cbn [last] in C1, C2. rewrite E2 in C1. rewrite E1 in C2. split; assumption.
Defined.

(** ** The claim as the specification words it *)

Lemma add_dyadic (a b : number) (y : R) : add a b = Fin y -> dyadic y.
Proof.
  unfold add, rounded. destruct (JS.add a b) as [| | |x]; try discriminate.
  unfold round64, roundTo.
  destruct (Req_dec_T x 0) as [_|_].
  - intros E. injection E as <-. exists 0%Z, 0%Z. lra.
  - match goal with |- context [Rle_dec ?u ?v] => destruct (Rle_dec u v) end.
    + destruct (Rlt_dec 0 x); discriminate.
    + intros E. injection E as <-. eexists. eexists. reflexivity.
Qed.

Lemma dyadic_minus (x y : R) : dyadic x -> dyadic y -> dyadic (x - y).
Proof.
  intros (m & e & ->) (n & f & ->).
  exists (m * 2 ^ (e - Z.min e f) - n * 2 ^ (f - Z.min e f))%Z, (Z.min e f).
  rewrite minus_IZR, !mult_IZR, <- !bpow_IZR by lia.
  rewrite Rmult_minus_distr_r, !Rmult_assoc, <- !bpow_add.
  replace (e - Z.min e f + Z.min e f)%Z with e by lia.
  replace (f - Z.min e f + Z.min e f)%Z with f by lia.
  reflexivity.
Qed.

Lemma power_of_two_mod_5 (n : nat) :
  ((2 ^ Z.of_nat n) mod 5 = 1 \/ (2 ^ Z.of_nat n) mod 5 = 2 \/
   (2 ^ Z.of_nat n) mod 5 = 3 \/ (2 ^ Z.of_nat n) mod 5 = 4)%Z.
Proof.
  induction n as [|n IH].
  - left. reflexivity.
  - rewrite Nat2Z.inj_succ, Z.pow_succ_r by lia.
    rewrite Z.mul_mod by lia.
    destruct IH as [-> | [-> | [-> | ->]]]; cbn; tauto.
Qed.

(** Three fifths of a second, the beat interval at 100 beats per minute,
    is no double and no difference of doubles. *)
Lemma three_fifths_not_dyadic : ~ dyadic (60 / 100).
Proof.
  intros (m & e & H).
  destruct (Z_le_gt_dec 0 e) as [He|He].
  - rewrite bpow_IZR, <- mult_IZR in H by assumption.
    assert (H3 : IZR 3 = IZR (5 * (m * 2 ^ e))) by (rewrite mult_IZR; lra).
    apply eq_IZR in H3. lia.
  - assert (Hb : bpow e * bpow (- e) = 1).
    { rewrite <- bpow_add. replace (e + - e)%Z with 0%Z by lia. apply bpow_0. }
    assert (H3 : IZR (3 * 2 ^ (- e)) = IZR (5 * m)).
    { rewrite !mult_IZR, <- bpow_IZR by lia.
      apply (f_equal (fun v => 5 * v * bpow (- e))) in H.
      replace (5 * (IZR m * bpow e) * bpow (- e))
        with (5 * IZR m * (bpow e * bpow (- e))) in H by ring.
      rewrite Hb in H. lra. }
    apply eq_IZR in H3.
    pose proof (power_of_two_mod_5 (Z.to_nat (- e))) as Hmod.
    rewrite Z2Nat.id in Hmod by lia.
    assert (H5 : ((3 * 2 ^ (- e)) mod 5 = 0)%Z).
    { rewrite H3, Z.mul_comm. apply Z_mod_mult. }
    rewrite Z.mul_mod in H5 by lia.
    destruct Hmod as [E | [E | [E | E]]]; rewrite E in H5; cbn in H5; lia.
Qed.

(** Claim C4, counterexample.  At 6000 beats per minute, running for
    0.02 s on exact 25 ms timeouts emits no beat, fewer than
    floor(0.02 * 6000 / 60) = 2; and at 100 beats per minute the first two
    beats are not exactly 60/100 s apart, which no two doubles are. *)
Lemma runFor_too_few_beats_and_inexact_deltas :
  (exists st, runFor 10 6000 4 (1 / 50) = Returned st /\ clicks st = [] /\
              Zfloor (1 / 50 * 6000 / 60) = 2%Z) /\
  (exists st c c' T T',
     run 5 100 4 [1] = Returned st /\
     nth_error (clicks st) 0 = Some c /\ nth_error (clicks st) 1 = Some c' /\
     time c = Fin T /\ time c' = Fin T' /\ T' - T <> 60 / 100).
Proof.
  split.
  - unfold runFor, every25ms.
    assert (E : Zfloor (1 / 50 / (25 / 1000)) = 0%Z) by (apply Zfloor_eq; lra).
    rewrite E. cbn [Z.to_nat seq map]. unfold run. cbn [fold_left].
    destruct (start_settles 6000 4 10) as (st & Hs & (_ & _ & Hcl) & _).
    exists st. split; [exact Hs|]. split; [exact Hcl|].
    apply Zfloor_eq. lra.
  - assert (H1 : tempo 100) by (unfold tempo; lra).
    assert (H3 : nondecreasing 0 [1]) by (cbn; split; [lra|exact I]).
    assert (H4 : last [1] 0 <= horizon) by (cbn; unfold horizon; lra).
    assert (E1 : Zceil ((1 + slack) * 100 / 60) = 2%Z)
      by (apply Zceil_eq; unfold slack; lra).
    assert (E2 : Zceil ((1 - slack) * 100 / 60) = 2%Z)
      by (apply Zceil_eq; unfold slack; lra).
    assert (H5 : (passesBy 100 (last [1%R] 0%R) <= 5)%nat).
    { unfold passesBy. cbn [last]. rewrite E1. lia. }
    destruct (run_settles 100 4 5 [1] H1 H3 H4 H5) as (N & st & Hrun & Hst).
    cbn [last] in Hst.
    destruct (settled_count 100 4 1 N st H1 ltac:(lra) Hst) as (Hlen & C1 & _).
    rewrite E2 in C1. destruct Hst as (Hout & _).
    destruct (nth_error (clicks st) 0) as [c|] eqn:Hc0.
    2:{ apply nth_error_None in Hc0. lia. }
    destruct (nth_error (clicks st) 1) as [c'|] eqn:Hc1.
    2:{ apply nth_error_None in Hc1. lia. }
    destruct (beatsOut_click 100 4 N st 0 c Hout Hc0) as [_ Ec].
    destruct (beatsOut_click 100 4 N st 1 c' Hout Hc1) as [_ Ec'].
    destruct (beat_step 100 0 H1) as (T & T' & ET & ET' & _).
    { cbn [INR]. lra. }
    exists st, c, c', T, T'.
    split; [exact Hrun|]. split; [exact Hc0|]. split; [exact Hc1|].
    rewrite Ec, Ec'. cbn [clickOf time].
    split; [exact ET|]. split; [exact ET'|].
    intros Heq. apply three_fifths_not_dyadic. rewrite <- Heq.
    apply dyadic_minus.
    + cbn [beatAt] in ET'. exact (add_dyadic _ _ _ ET').
    + cbn [beatAt] in ET. exact (add_dyadic _ _ _ ET).
Qed.

End Metronome64Facts.

Module Scheduler64Facts.
Import JS IEEE Metronome64 Metronome64Spec IEEESpec.
Import JSFacts IEEEFacts RoundingFacts Pitch64Facts Metronome64Facts.
Local Open Scope R_scope.

(** ** The lookahead window *)

(** Extra X26.  Clicks are scheduled ahead of the clock, in the doubles of
    the source.  In a run at a tempo from 1 to 1000 beats per minute whose
    timeout fires at the clock readings [ts] and then at [t], within the
    first hour and not more than 99 ms after the firing before it (or after
    the start), the firing at [t] only adds clicks to those already
    scheduled; each click it adds passed the test of the loop against
    [t + 0.1] as the doubles compute it, and is timed at or after [t] and
    less than 0.1 s + 10^-6 s after it: no click is scheduled in the past;
    and when the next beat is due by more than 10^-6 s the firing does add
    a click. *)
Theorem clicks_fall_in_the_lookahead_window (bpm : R) (bpmz : nat)
    (ts : list R) (t : R) (fuel : nat) :
  tempo bpm -> nondecreasing 0 ts ->
  last ts 0 <= t -> t <= last ts 0 + 99 / 1000 -> t <= horizon ->
  (passesBy bpm t <= fuel)%nat ->
  exists st st' new,
    run fuel bpm bpmz ts = Returned st /\
    run fuel bpm bpmz (ts ++ [t]) = Returned st' /\
    clicks st' = clicks st ++ new /\
    Forall (fun c =>
              lt (time c) (add (Fin t) (literal 0.1)) = true /\
              exists T, time c = Fin T /\ t <= T < t + 1 / 10 + slack) new /\
    (beatTime bpm (List.length (clicks st)) + slack < t + 1 / 10 -> new <> []).
Proof.
  intros Hb Hts Hlast Hsoon Hhor Hfuel.
  pose proof (nondecreasing_upto 0 ts Hts) as H0.
  assert (Hf0 : (passesBy bpm (last ts 0%R) <= fuel)%nat).
  { pose proof (passesBy_le bpm _ _ Hb Hlast). lia. }
  destruct (run_settles bpm bpmz fuel ts Hb Hts ltac:(lra) Hf0)
    as (N & st & Hrun & Hst).
  destruct (tick_settles bpm bpmz fuel (last ts 0) t N st Hb H0 Hlast Hhor Hfuel Hst)
    as (N' & st' & HN & Htick & Hst' & Hnew & Hdue).
  exists st, st', (map (clickOf bpm bpmz) (seq N (N' - N))).
  split; [exact Hrun|]. split.
  { unfold run in *. rewrite fold_left_app, Hrun. exact Htick. }
  split; [exact Hnew|].
  destruct Hst as ((_ & _ & Hcl) & _ & _ & Hexit & _).
  destruct Hst' as (_ & _ & Hinv' & Hexit' & _).
  destruct (secondsPerBeat_value bpm Hb) as [_ [_ [_ Hq]]].
  destruct (lookahead_value t ltac:(lra)) as [L [EL BL]].
  apply Rabs_le_inv in BL. split.
  - apply Forall_forall. intros c Hin. apply in_map_iff in Hin.
    destruct Hin as (k & <- & Hk). apply in_seq in Hk.
    cbn [clickOf time]. split; [apply Hdue; lia|].
    pose proof (Hdue k ltac:(lia)) as Hd.
    assert (HkN : INR k * (60 / bpm) <= 3670).
    { assert (Hle : (k <= N')%nat) by lia. apply le_INR in Hle.
      pose proof (pos_INR k). nra. }
    destruct (beatAt_slack bpm k Hb HkN) as [T [ET BT]].
    apply Rabs_le_inv in BT. exists T. split; [exact ET|].
    rewrite ET, EL in Hd. apply lt_fin in Hd.
    pose proof (beatTime_le bpm N k Hb ltac:(lia)) as Hmono.
    unfold slack in *. lra.
  - intros Hlate Hnil. apply map_eq_nil in Hnil.
    assert (HNN : N' = N).
    { destruct (N' - N)%nat eqn:E; [lia|discriminate]. }
    rewrite Hcl, length_map, length_seq in Hlate. rewrite HNN in Hexit'. lra.
Qed.

(** Extra X26 at 120 beats per minute: the first firing, when the clock
    reads 25 ms, adds the click of the first beat. *)
Lemma clicks_fall_in_the_lookahead_window_witness :
  tempo 120 /\ nondecreasing 0 [] /\
  last [] 0 <= 1 / 40 /\ 1 / 40 <= last [] 0 + 99 / 1000 /\ 1 / 40 <= horizon /\
  (passesBy 120 (1 / 40) <= 5)%nat /\
  exists st st' new,
    run 5 120 4 [] = Returned st /\
    run 5 120 4 ([] ++ [1 / 40]) = Returned st' /\
    clicks st' = clicks st ++ new /\ new <> [] /\
    Forall (fun c => exists T, time c = Fin T /\
                               1 / 40 <= T < 1 / 40 + 1 / 10 + slack) new.
Proof.
  assert (H1 : tempo 120) by (unfold tempo; lra).
  assert (H2 : nondecreasing 0 []) by exact I.
  assert (H3 : last [] 0 <= 1 / 40) by (cbn; lra).
  assert (H4 : 1 / 40 <= last [] 0 + 99 / 1000) by (cbn; lra).
  assert (H5 : 1 / 40 <= horizon) by (unfold horizon; lra).
  assert (E1 : Zceil ((1 / 40 + slack) * 120 / 60) = 1%Z)
    by (apply Zceil_eq; unfold slack; lra).
  assert (H6 : (passesBy 120 (1 / 40) <= 5)%nat).
  { unfold passesBy. rewrite E1. lia. }
  split; [exact H1|]. split; [exact H2|]. split; [exact H3|].
  split; [exact H4|]. split; [exact H5|]. split; [exact H6|].
  destruct (clicks_fall_in_the_lookahead_window 120 4 [] (1 / 40) 5
              H1 H2 H3 H4 H5 H6) as (st & st' & new & R1 & R2 & Hnew & Hall & Hsome).
  exists st, st', new.
  split; [exact R1|]. split; [exact R2|]. split; [exact Hnew|]. split.
  - apply Hsome.
    destruct (start_settles 120 4 5) as (st0 & Hs & (_ & _ & Hcl) & _).
    unfold run in R1. cbn [fold_left] in R1. rewrite Hs in R1.
    injection R1 as <-. rewrite Hcl. cbn [seq map List.length].
    unfold beatTime, slack. cbn [INR]. lra.
  - apply Forall_forall. intros c Hc.
    rewrite Forall_forall in Hall. exact (proj2 (Hall c Hc)).
Defined.

(** ** Tempi that are not positive *)

Lemma first_beat_value :
  exists T, add (Fin 0) (literal 0.1) = Fin T /\
            99 / 1000 <= T <= 1001 / 10000.
Proof.
  destruct tenth_value as [d [-> Bd]]. apply Rabs_le_inv in Bd.
  rewrite add_Fin. destruct (round64_close (0 + d)) as [T [E B]].
  { apply Rabs_le. lra. }
  exists T. split; [exact E|].
  assert (Ha : Rabs (0 + d) <= 1) by (apply Rabs_le; lra).
  apply Rabs_le_inv in B. lra.
Qed.

Lemma schedule_stops (fuel : nat) (t : R) (s : Scheduler) (st : State) :
  lt (nextBeatTime s) (add (Fin t) (literal 0.1)) = false ->
  schedule fuel t s st = Returned (s, st).
Proof. intros H. rewrite schedule_eq, H. reflexivity. Qed.

Lemma schedule_pass (fuel : nat) (t : R) (s : Scheduler) (st : State) (T L : R) :
  nextBeatTime s = Fin T -> add (Fin t) (literal 0.1) = Fin L -> T < L ->
  0 <= T <= 4000 -> audioContextRef st = true ->
  schedule (S fuel) t s st =
  schedule fuel t (later s)
    (nextBeat
       {| audioContextRef := audioContextRef st; beatRef := beatRef st;
          pending := pending st;
          clicks := clicks st ++
            [{| time := Fin T;
                isDownbeat := downbeat (beatRef st) (beatsPerMeasure s);
                beatIndex := beatRef st |}] |}).
Proof.
  intros ET EL Hlt HT Hctx. rewrite schedule_eq, ET, EL.
  assert (Hdue : lt (Fin T) (Fin L) = true) by (apply lt_fin; exact Hlt).
  rewrite Hdue, playClick_sounds by assumption. reflexivity.
Qed.

Lemma schedule_throws (fuel : nat) (t : R) (s : Scheduler) (st : State) (T L : R) :
  nextBeatTime s = Fin T -> add (Fin t) (literal 0.1) = Fin L -> T < L ->
  T < 0 -> audioContextRef st = true ->
  schedule (S fuel) t s st = Threw st.
Proof.
  intros ET EL Hlt HT Hctx. rewrite schedule_eq, ET, EL.
  assert (Hdue : lt (Fin T) (Fin L) = true) by (apply lt_fin; exact Hlt).
  rewrite Hdue. unfold playClick. rewrite Hctx. cbn [negb].
  rewrite (accepted_negative T HT), andb_false_r. reflexivity.
Qed.

Lemma lt_PosInf (b : number) : lt PosInf b = false.
Proof. destruct b; reflexivity. Qed.

Lemma run_after_throw (fuel : nat) (ts : list R) (st : State) :
  fold_left (tick fuel) ts (Threw st) = Threw st.
Proof. induction ts as [|t ts IH]; [reflexivity|exact IH]. Qed.

Lemma zero_tempo_interval : div (Fin 60) (Fin 0) = PosInf.
Proof.
  unfold div. cbn [JS.div].
  destruct (Req_dec_T 0 0) as [_|H]; [|contradiction].
  destruct (Req_dec_T 60 0) as [H|_]; [lra|].
  destruct (Rlt_dec 0 60) as [_|H]; [reflexivity|lra].
Qed.

(** Once the next beat is at +Infinity no firing adds a click. *)
Lemma idle_forever (fuel bpmz : nat) (ts : list R) (st : State) :
  pending st = Some {| secondsPerBeat := PosInf; beatsPerMeasure := bpmz;
                       nextBeatTime := PosInf |} ->
  exists st', fold_left (tick fuel) ts (Returned st) = Returned st' /\
              clicks st' = clicks st.
Proof.
  revert st. induction ts as [|t ts IH]; intros st Hp.
  - exists st. split; reflexivity.
  - cbn [fold_left]. unfold tick at 2. rewrite Hp. unfold scheduler.
    rewrite schedule_stops by apply lt_PosInf.
    destruct (IH {| audioContextRef := audioContextRef st; beatRef := beatRef st;
                    pending := Some {| secondsPerBeat := PosInf;
                                       beatsPerMeasure := bpmz;
                                       nextBeatTime := PosInf |};
                    clicks := clicks st |} eq_refl) as [st' [Hf Hc]].
    exists st'. split; [exact Hf|exact Hc].
Qed.

(** At tempo 0 the beat interval is +Infinity: the first firing emits the
    first beat and moves the next one to +Infinity. *)
Lemma zero_tempo_run (fuel bpmz : nat) (t : R) :
  1 / 1000 <= t <= horizon -> (1 <= fuel)%nat ->
  exists st T,
    run fuel 0 bpmz [t] = Returned st /\
    clicks st = [{| time := Fin T; isDownbeat := downbeat 0 bpmz; beatIndex := 0 |}] /\
    99 / 1000 <= T <= 1001 / 10000 /\
    pending st = Some {| secondsPerBeat := PosInf; beatsPerMeasure := bpmz;
                         nextBeatTime := PosInf |}.
Proof.
  intros Ht Hfuel. unfold run. cbn [fold_left].
  unfold start, scheduler. rewrite schedule_stops by apply lt_irreflexive.
  unfold tick. cbn [pending audioContextRef beatRef clicks].
  rewrite zero_tempo_interval.
  destruct first_beat_value as [T [ET BT]]. rewrite ET.
  destruct (lookahead_value t ltac:(unfold horizon in *; lra)) as [L [EL BL]].
  apply Rabs_le_inv in BL.
  destruct fuel as [|fuel]; [lia|].
  unfold scheduler.
  rewrite (schedule_pass fuel t _ _ T L) by (cbn; (assumption || lra || reflexivity)).
  rewrite schedule_stops by apply lt_PosInf.
  eexists. exists T.
  cbn [nextBeat later audioContextRef beatRef clicks pending
       secondsPerBeat beatsPerMeasure nextBeatTime app].
  split; [reflexivity|]. split; [reflexivity|]. split; [exact BT|reflexivity].
Qed.

(** At a negative tempo the beat interval is negative: the first firing
    emits the first beat, perhaps a second one, and then asks for a click
    at a negative time. *)
Lemma negative_tempo_run (fuel bpmz : nat) (bpm t : R) :
  -1000 <= bpm <= -1 -> 1 / 1000 <= t <= horizon -> (3 <= fuel)%nat ->
  exists st,
    run fuel bpm bpmz [t] = Threw st /\
    (1 <= List.length (clicks st) <= 2)%nat /\
    beatRef st = List.length (clicks st) /\ pending st = None.
Proof.
  intros Hb Ht Hfuel. unfold run. cbn [fold_left].
  unfold start, scheduler. rewrite schedule_stops by apply lt_irreflexive.
  unfold tick. cbn [pending audioContextRef beatRef clicks].
  assert (Hq : -60 <= 60 / bpm <= - (6 / 100)).
  { assert (E : 60 / bpm * bpm = 60) by (field; lra).
    set (q := 60 / bpm) in *. split; nra. }
  rewrite div_Fin by lra.
  destruct (round64_close (60 / bpm)) as [b [Eb Bb]].
  { apply Rabs_le. lra. }
  assert (Ha : Rabs (60 / bpm) <= 60) by (apply Rabs_le; lra).
  apply Rabs_le_inv in Bb. rewrite Eb.
  destruct first_beat_value as [T [ET BT]]. rewrite ET.
  destruct (lookahead_value t ltac:(unfold horizon in *; lra)) as [L [EL BL]].
  apply Rabs_le_inv in BL.
  destruct fuel as [|[|[|fuel]]]; try lia.
  unfold scheduler.
  rewrite (schedule_pass _ t _ _ T L) by (cbn; (assumption || lra || reflexivity)).
  unfold later, nextBeat.
  cbn [secondsPerBeat beatsPerMeasure nextBeatTime
       audioContextRef beatRef pending clicks app].
  rewrite add_Fin.
  destruct (round64_close (T + b)) as [T1 [E1 B1]].
  { apply Rabs_le. lra. }
  assert (Ha1 : Rabs (T + b) <= 61) by (apply Rabs_le; lra).
  apply Rabs_le_inv in B1. rewrite E1.
  destruct (Rlt_dec T1 0) as [Hneg|Hpos].
  - rewrite (schedule_throws _ t _ _ T1 L) by (cbn; (assumption || lra || reflexivity)).
    eexists. split; [reflexivity|]. cbn [clicks beatRef pending List.length].
    split; [lia|]. split; reflexivity.
  - apply Rnot_lt_le in Hpos.
    rewrite (schedule_pass _ t _ _ T1 L) by (cbn; (assumption || lra || reflexivity)).
    unfold later, nextBeat.
    cbn [secondsPerBeat beatsPerMeasure nextBeatTime
         audioContextRef beatRef pending clicks app].
    rewrite add_Fin.
    destruct (round64_close (T1 + b)) as [T2 [E2 B2]].
    { apply Rabs_le. lra. }
    assert (Ha2 : Rabs (T1 + b) <= 61) by (apply Rabs_le; lra).
    apply Rabs_le_inv in B2. rewrite E2.
    rewrite (schedule_throws _ t _ _ T2 L) by (cbn; (assumption || lra || reflexivity)).
    eexists. split; [reflexivity|]. cbn [clicks beatRef pending List.length app].
    split; [lia|]. split; reflexivity.
Qed.

(** Extra X25.  Tempi that are not positive, in the doubles of the source
    and with the errors of the Web Audio calls.  At tempo 0 the beat
    interval is +Infinity: [start()] returns, the first firing of the
    timeout (from 1 ms to one hour after the start) emits exactly one
    click, near 0.1 s, and moves the next beat to +Infinity, and no later
    firing adds a click.  At a negative tempo from -1000 to -1 the beat
    interval is negative: the first firing emits one or two clicks and then
    asks for a click at a negative time, which throws; the exception ends
    the loop, no timeout is pending any more, and no later firing runs. *)
Theorem scheduler_at_tempi_that_are_not_positive :
  (forall fuel bpmz t ts,
     1 / 1000 <= t <= horizon -> (1 <= fuel)%nat ->
     exists st st' T,
       run fuel 0 bpmz [t] = Returned st /\
       clicks st = [{| time := Fin T; isDownbeat := downbeat 0 bpmz;
                       beatIndex := 0 |}] /\
       99 / 1000 <= T <= 1001 / 10000 /\
       run fuel 0 bpmz (t :: ts) = Returned st' /\
       clicks st' = clicks st) /\
  (forall fuel bpmz bpm t ts,
     -1000 <= bpm <= -1 -> 1 / 1000 <= t <= horizon -> (3 <= fuel)%nat ->
     exists st,
       run fuel bpm bpmz (t :: ts) = Threw st /\
       (1 <= List.length (clicks st) <= 2)%nat /\
       beatRef st = List.length (clicks st) /\ pending st = None).
Proof.
  split.
  - intros fuel bpmz t ts Ht Hfuel.
    destruct (zero_tempo_run fuel bpmz t Ht Hfuel) as (st & T & Hrun & Hcl & HT & Hp).
    destruct (idle_forever fuel bpmz ts st Hp) as (st' & Hf & Hc).
    exists st, st', T. split_ands; try assumption; try lra.
    unfold run in *. cbn [fold_left] in *. rewrite Hrun. exact Hf.
  - intros fuel bpmz bpm t ts Hb Ht Hfuel.
    destruct (negative_tempo_run fuel bpmz bpm t Hb Ht Hfuel)
      as (st & Hrun & Hlen & Hbeat & Hp).
    exists st. split_ands; try assumption; try lia.
    unfold run in *. cbn [fold_left] in *. rewrite Hrun.
    apply run_after_throw.
Qed.

End Scheduler64Facts.
